(** * A dynamic bit vector over packed counters: shallow embedding

    The development follows the three layers of the C++ sources:

    - [bits] and [bitview]: word primitives and the bit-addressable view
      ([bits.h] and [bitview.h] are not among the sources; both are kept to
      the contract the specification gives them);
    - [packed_view]: the array of equal-width fields of [packed_view.h];
    - [bitvector]: the B-tree of [bitvector.h], with its packed nodes.

    Machine words are [Z] values in [[0, 2^W)]; every word operation that can
    leave that range has its wrap-around written out.  [size_t] values are
    [Z] as well; the only [size_t] operation that can wrap in the code under
    study is subtraction, written [szsub]. *)

From Stdlib Require Import ZArith List Lia Bool Ascii.
From coqutil Require Import Z.bitblast.
Import ListNotations.

Local Open Scope Z_scope.

(** ** Machine words *)

(** Word width; the sources instantiate [W] with 64 ([uint64_t]). *)
Definition W : Z := 64.

Definition wrap (x : Z) : Z := x mod 2 ^ W.

(** [size_t] subtraction, modulo [2^64]. *)
Definition szsub (a b : Z) : Z := (a - b) mod 2 ^ 64.

(** ** Results of fallible code *)

(** [OutOfRange] is [std::out_of_range]; [AssertionFailure] is a failed
    [assert]; [OutOfBounds] is an access past the end of a container (a
    write past the length of a bit view, an index past the end of
    [_leaves]); [DivisionByZero] is an integer division by zero; both are
    undefined in C++ and end the run here.  [OutOfFuel] is a recursion or
    loop bound of the model that was too small.  [Overflow] is the second
    error kind the specification names. *)
Inductive error : Type :=
| OutOfRange
| Overflow
| AssertionFailure
| OutOfBounds
| DivisionByZero
| OutOfFuel.

Inductive result (A : Type) : Type :=
| Ok (a : A)
| Err (e : error).

Arguments Ok {A} a.
Arguments Err {A} e.

Definition bind {A B : Type} (m : result A) (k : A -> result B) : result B :=
  match m with
  | Ok a => k a
  | Err e => Err e
  end.

Notation "x <- m ;; k" := (bind m (fun x => k))
  (at level 61, m at next level, right associativity).
Notation "' pat <- m ;; k" := (bind m (fun x => match x with pat => k end))
  (at level 61, pat pattern, m at next level, right associativity).

Definition assert (b : bool) : result unit :=
  if b then Ok tt else Err AssertionFailure.

Module bits.

(** Modelled from the spec: [bits.h] is missing.  [lowbits v n] keeps the
    [n] low bits of [v]. *)
Definition lowbits (v n : Z) : Z := Z.land v (Z.ones n).

Fixpoint popcount_pos (p : positive) : Z :=
  match p with
  | xH => 1
  | xO q => popcount_pos q
  | xI q => 1 + popcount_pos q
  end.

(** Modelled from the spec: [bits.h] is missing.  Number of set bits of a
    word. *)
Definition popcount (x : Z) : Z :=
  match x with
  | Zpos p => popcount_pos p
  | _ => 0
  end.

(** Modelled from the spec: [bits.h] is missing.  Bit [i] of a word. *)
Definition get_bit (word i : Z) : bool := Z.testbit word i.

(** Modelled from the spec: [bits.h] is missing.
    [insert_bit(word, k, b) = (word & lowmask(k)) | (b << k)
                              | ((word & ~lowmask(k)) << 1)],
    the bit shifted out at the top being lost. *)
Definition insert_bit (word k : Z) (b : bool) : Z :=
  wrap (Z.lor (Z.lor (Z.land word (Z.ones k)) (Z.shiftl (Z.b2z b) k))
              (Z.shiftl (Z.ldiff word (Z.ones k)) 1)).

End bits.

(** ** Bit view *)

Module bitview.

(** Modelled from the spec: [bitview.h] is missing.  The view is the flat
    stream of bits its contract describes: bit [i] of the stream is bit
    [i mod W] of word [i / W] of the container, that is bit [i] of [bits];
    [size] is the logical length [L] in bits. *)
Record t : Type := mk { bits : Z; size : Z }.

(** Modelled from the spec: [new(bits)] is all zero and has length
    [bits]. *)
Definition new (n : Z) : t := mk 0 n.

(** Modelled from the spec: word [k] of the underlying container. *)
Definition container (v : t) (k : Z) : Z :=
  Z.land (Z.shiftr (bits v) (k * W)) (Z.ones W).

(** Modelled from the spec: [get(begin, end)] returns the bits in
    [[begin, end)], right-justified and zero-extended. *)
Definition get (v : t) (begin end_ : Z) : Z :=
  Z.land (Z.shiftr (bits v) begin) (Z.ones (end_ - begin)).

(** Modelled from the spec: the stream after [set(begin, end, value)]:
    the low [end - begin] bits of [value] are in [[begin, end)], written by
    masking out the window, shifting the value into place and
    OR-combining; the surrounding bits are preserved. *)
Definition store (v : t) (begin end_ value : Z) : t :=
  mk (Z.lor (Z.ldiff (bits v) (Z.shiftl (Z.ones (end_ - begin)) begin))
            (Z.shiftl (Z.land value (Z.ones (end_ - begin))) begin))
     (size v).

(** Modelled from the spec: [set(begin, end, value)].  The bits of a view
    are defined below its length [L] only, and a view does not grow when
    it is written: a write that ends past [L] has no result. *)
Definition set (v : t) (begin end_ value : Z) : result t :=
  if end_ <=? size v then Ok (store v begin end_ value) else Err OutOfBounds.

(** Modelled from the spec: the single-bit read [get(i)]. *)
Definition get1 (v : t) (i : Z) : bool := Z.testbit (bits v) i.

(** Modelled from the spec: the single-bit write [set(i, v)]. *)
Definition set1 (v : t) (i : Z) (b : bool) : result t :=
  set v i (i + 1) (Z.b2z b).

End bitview.

(** ** Packed view ([packed_view.h]) *)

Module packed_view.

Record t : Type := mk {
  _bits : bitview.t;
  _width : Z;
  _field_mask : Z
}.

(** [for(i = 0; i < fields_per_word; ++i) { mask = mask << width;
    mask = mask | 1; }] *)
Fixpoint field_mask_loop (n : nat) (width mask : Z) : Z :=
  match n with
  | O => mask
  | S n' => field_mask_loop n' width (Z.lor (wrap (Z.shiftl mask width)) 1)
  end.

(** The mask that [compute_field_mask] returns for a width other than 0. *)
Definition built_mask (width : Z) : Z :=
  let fields_per_word := W / width in
  field_mask_loop (Z.to_nat fields_per_word) width 0.

(** [compute_field_mask(width)]: [W / width] divides by zero when the
    width is 0. *)
Definition compute_field_mask (width : Z) : result Z :=
  if width =? 0 then Err DivisionByZero else Ok (built_mask width).

(** The view that [packed_view(width, size)] builds for a width other
    than 0: [size] zeroed fields. *)
Definition zeroed (width size : Z) : t :=
  mk (bitview.new (width * size)) width (built_mask width).

(** [packed_view(width, size)] *)
Definition new (width size : Z) : result t :=
  mask <- compute_field_mask width ;;
  Ok (mk (bitview.new (width * size)) width mask).

Definition size (v : t) : Z := bitview.size (_bits v) / _width v.
Definition width (v : t) : Z := _width v.
Definition field_mask (v : t) : Z := _field_mask v.
Definition flag_mask (v : t) : Z :=
  wrap (Z.shiftl (_field_mask v) (_width v - 1)).

Definition get (v : t) (begin end_ : Z) : Z :=
  bitview.get (_bits v) (begin * width v) (end_ * width v).

(** The view after [set(begin, end, value)]. *)
Definition store (v : t) (begin end_ value : Z) : t :=
  mk (bitview.store (_bits v) (begin * width v) (end_ * width v) value)
     (_width v) (_field_mask v).

Definition set (v : t) (begin end_ value : Z) : result t :=
  bits <- bitview.set (_bits v) (begin * width v) (end_ * width v) value ;;
  Ok (mk bits (_width v) (_field_mask v)).

(** The body of the [for] loop of [repeat]; [fuel] bounds the number of
    iterations.  [None] means that the bound was too small, or that a
    write went past the length of the view. *)
Fixpoint repeat_loop (fuel : nat) (v : t) (end_ rem bits_per_word value : Z)
         (len p : Z) : option t :=
  if p <? end_ * width v then
    match fuel with
    | O => None
    | S fuel' =>
        let step := if len <? bits_per_word then rem else bits_per_word in
        match bitview.set (_bits v) p (p + step) value with
        | Ok bits =>
            repeat_loop fuel' (mk bits (_width v) (_field_mask v))
                        end_ rem bits_per_word value
                        (szsub len step) (p + step)
        | Err _ => None
        end
    end
  else Some v.

Definition repeat (v : t) (begin end_ pattern : Z) : option t :=
  let fields_per_word := W / width v in
  let bits_per_word := fields_per_word * width v in
  let len := szsub end_ begin * width v in
  let rem := len mod bits_per_word in
  let value := wrap (field_mask v * bits.lowbits pattern (width v)) in
  repeat_loop (S (Z.to_nat len)) v end_ rem bits_per_word value
              len (begin * width v).

(** The body of the [for] loop of [find]. *)
Fixpoint find_loop (fuel : nat) (v : t) (end_ rem fields_per_word value : Z)
         (result len p : Z) : option Z :=
  if p <? end_ then
    match fuel with
    | O => None
    | S fuel' =>
        let step := if len <? fields_per_word then rem else fields_per_word in
        let word := Z.lor (get v p (p + step)) (flag_mask v) in
        let result' :=
          szsub result
            (bits.popcount
               (bits.lowbits (Z.land (flag_mask v) (wrap (word - value)))
                             (step * width v))) in
        find_loop fuel' v end_ rem fields_per_word value
                  result' (szsub len step) (p + step)
    end
  else Some result.

Definition find (v : t) (begin end_ value : Z) : option Z :=
  let fields_per_word := W / width v in
  let len := szsub end_ begin in
  let rem := len mod fields_per_word in
  let value := wrap (field_mask v * bits.lowbits value (width v - 1)) in
  find_loop (S (Z.to_nat len)) v end_ rem fields_per_word value
            len len begin.

(** [const_item_reference::value()] and the view after
    [item_reference::operator=], for the reference to field [k]. *)
Definition value (v : t) (k : Z) : Z := get v k (k + 1).
Definition assign (v : t) (k x : Z) : t := store v k (k + 1) x.

(** [operator[]]: the reference to field [index], which is handed out for
    the fields of the view only. *)
Definition subscript (v : t) (index : Z) : result Z :=
  _ <- assert (index <? size v) ;;
  Ok index.

(** [v[k]] read as a value, and [v[k] = x]. *)
Definition item (v : t) (k : Z) : result Z :=
  i <- subscript v k ;;
  Ok (get v i (i + 1)).

Definition set_item (v : t) (k x : Z) : result t :=
  i <- subscript v k ;;
  set v i (i + 1) x.

End packed_view.

(** ** Packed arrays *)

Module packed_array.

(** Modelled from the spec: the [packed_array] class that [bitvector.h]
    instantiates for [_sizes], [_ranks] and [_pointers] is missing.  It is
    a packed view whose range references read a range as one word, assign
    a word to a range ([set_range]), add a word into a range
    ([add_range], no per-field carry isolation) and shift a range. *)
Definition t : Type := packed_view.t.

(** Modelled from the spec: the zeroed array of [size] fields of [width]
    bits. *)
Definition zeroed (width size : Z) : t := packed_view.zeroed width size.

(** Modelled from the spec: [resize(width, size)] builds a zeroed array of
    [size] fields of [width] bits, as the packed view does. *)
Definition resize (width size : Z) : result t := packed_view.new width size.

(** Modelled from the spec: [size()], the number of fields. *)
Definition size (v : t) : Z := packed_view.size v.

(** Modelled from the spec: [index_mask()] is the field mask of the view. *)
Definition index_mask (v : t) : Z := packed_view.field_mask v.

(** Modelled from the spec: [flagbit_mask()] is the flag mask of the view. *)
Definition flagbit_mask (v : t) : Z := packed_view.flag_mask v.

(** Modelled from the spec: a range reference read as a word
    ([get_range]). *)
Definition get (v : t) (begin end_ : Z) : Z := packed_view.get v begin end_.

(** Modelled from the spec: the array after [range = value], the word
    being written into the concatenated range ([set_range]). *)
Definition store (v : t) (begin end_ value : Z) : t :=
  packed_view.store v begin end_ value.

(** Modelled from the spec: the array after [range += value], the word
    being added into the range taken as one number; what leaves the range
    is lost. *)
Definition store_add (v : t) (begin end_ value : Z) : t :=
  packed_view.store v begin end_
                    (wrap (packed_view.get v begin end_ + value)).

(** Modelled from the spec: the array after [range <<= n], the range being
    shifted by [n] bits; what leaves the range is lost. *)
Definition store_shl (v : t) (begin end_ n : Z) : t :=
  packed_view.store v begin end_
                    (wrap (Z.shiftl (packed_view.get v begin end_) n)).

(** Modelled from the spec: [range = value], [range += value] and
    [range <<= n]; each is a write of the packed view, which has no result
    past the length of the view. *)
Definition set (v : t) (begin end_ value : Z) : result t :=
  packed_view.set v begin end_ value.

Definition add (v : t) (begin end_ value : Z) : result t :=
  packed_view.set v begin end_ (wrap (packed_view.get v begin end_ + value)).

Definition shl (v : t) (begin end_ n : Z) : result t :=
  packed_view.set v begin end_
                  (wrap (Z.shiftl (packed_view.get v begin end_) n)).

(** Modelled from the spec: the [flag_bit] variant used for [_sizes]
    reserves the high bit of every field; a range read as a word has the
    flag bit of every field set (the SWAR comparison of the spec). *)
Definition get_flagged (v : t) (begin end_ : Z) : Z :=
  Z.lor (packed_view.get v begin end_) (packed_view.flag_mask v).

(** Modelled from the spec: a single field of the [flag_bit] variant is
    read with the flag bit stripped (the comment on [sizes(k)]). *)
Definition get_stripped (v : t) (k : Z) : Z :=
  bits.lowbits (packed_view.get v k (k + 1)) (packed_view.width v - 1).

End packed_array.

(** ** The dynamic bit vector ([bitvector.h]) *)

Module bitvector.

Record t : Type := mk {
  _capacity : Z;
  _size : Z;
  _rank : Z;
  _height : Z;
  _counter_width : Z;
  _pointer_width : Z;
  _degree : Z;
  _leaves_buffer : Z;
  _nodes_buffer : Z;
  _free_node : Z;
  _sizes : packed_array.t;
  _ranks : packed_array.t;
  _pointers : packed_array.t;
  _leaves : list Z
}.

(** [subtree_ref_t]: a node or leaf seen from its parent. *)
Record subtree_ref : Type := ref {
  t_index : Z;
  t_height : Z;
  t_size : Z;
  t_rank : Z
}.

Definition capacity (v : t) : Z := _capacity v.
Definition size (v : t) : Z := _size v.
Definition rank (v : t) : Z := _rank v.
Definition degree (v : t) : Z := _degree v.
Definition counter_width (v : t) : Z := _counter_width v.
Definition pointer_width (v : t) : Z := _pointer_width v.
Definition empty (v : t) : bool := _size v =? 0.
Definition full (v : t) : bool := _size v =? _capacity v.

Definition root (v : t) : subtree_ref := ref 0 (_height v) (_size v) (_rank v).

Definition index_mask (v : t) : Z := packed_array.index_mask (_sizes v).
Definition size_flag_mask (v : t) : Z := packed_array.flagbit_mask (_sizes v).

(** Field updates of the vector. *)
Definition with_sizes (v : t) (a : packed_array.t) : t :=
  mk (_capacity v) (_size v) (_rank v) (_height v) (_counter_width v)
     (_pointer_width v) (_degree v) (_leaves_buffer v) (_nodes_buffer v)
     (_free_node v) a (_ranks v) (_pointers v) (_leaves v).
Definition with_ranks (v : t) (a : packed_array.t) : t :=
  mk (_capacity v) (_size v) (_rank v) (_height v) (_counter_width v)
     (_pointer_width v) (_degree v) (_leaves_buffer v) (_nodes_buffer v)
     (_free_node v) (_sizes v) a (_pointers v) (_leaves v).
Definition with_pointers (v : t) (a : packed_array.t) : t :=
  mk (_capacity v) (_size v) (_rank v) (_height v) (_counter_width v)
     (_pointer_width v) (_degree v) (_leaves_buffer v) (_nodes_buffer v)
     (_free_node v) (_sizes v) (_ranks v) a (_leaves v).
Definition with_leaves (v : t) (l : list Z) : t :=
  mk (_capacity v) (_size v) (_rank v) (_height v) (_counter_width v)
     (_pointer_width v) (_degree v) (_leaves_buffer v) (_nodes_buffer v)
     (_free_node v) (_sizes v) (_ranks v) (_pointers v) l.
Definition with_free_node (v : t) (n : Z) : t :=
  mk (_capacity v) (_size v) (_rank v) (_height v) (_counter_width v)
     (_pointer_width v) (_degree v) (_leaves_buffer v) (_nodes_buffer v)
     n (_sizes v) (_ranks v) (_pointers v) (_leaves v).
Definition with_height (v : t) (h : Z) : t :=
  mk (_capacity v) (_size v) (_rank v) h (_counter_width v)
     (_pointer_width v) (_degree v) (_leaves_buffer v) (_nodes_buffer v)
     (_free_node v) (_sizes v) (_ranks v) (_pointers v) (_leaves v).
Definition with_size_rank (v : t) (s r : Z) : t :=
  mk (_capacity v) s r (_height v) (_counter_width v)
     (_pointer_width v) (_degree v) (_leaves_buffer v) (_nodes_buffer v)
     (_free_node v) (_sizes v) (_ranks v) (_pointers v) (_leaves v).

(** [alloc_node]: [assert(_free_node < _sizes.size()); return _free_node++]. *)
Definition alloc_node (v : t) : result (Z * t) :=
  _ <- assert (_free_node v <? packed_array.size (_sizes v)) ;;
  Ok (_free_node v, with_free_node v (_free_node v + 1)).

(** [alloc_leaf]: [_leaves.push_back(0); return _leaves.size() - 1]. *)
Definition alloc_leaf (v : t) : Z * t :=
  (Z.of_nat (length (_leaves v)), with_leaves v (_leaves v ++ [0])).

Definition is_leaf (r : subtree_ref) : bool := t_height r =? 0.
Definition is_node (r : subtree_ref) : bool := 0 <? t_height r.

Definition is_root (v : t) (r : subtree_ref) : result bool :=
  _ <- assert (negb (t_index r =? 0) || (t_height r =? _height v)) ;;
  _ <- assert (negb (t_height r =? _height v) || (t_index r =? 0)) ;;
  Ok (t_index r =? 0).

(** The three range selectors of a node, with their assertions; each
    yields the range of fields in the whole array. *)
Definition sizes_range (v : t) (r : subtree_ref) (begin end_ : Z)
  : result (Z * Z) :=
  _ <- assert (is_node r) ;;
  _ <- assert (begin <? degree v) ;;
  _ <- assert (end_ <=? degree v) ;;
  Ok (t_index r * degree v + begin, t_index r * degree v + end_).

Definition ranks_range (v : t) (r : subtree_ref) (begin end_ : Z)
  : result (Z * Z) :=
  _ <- assert (is_node r) ;;
  _ <- assert (begin <? degree v) ;;
  _ <- assert (end_ <=? degree v) ;;
  Ok (t_index r * degree v + begin, t_index r * degree v + end_).

Definition pointers_range (v : t) (r : subtree_ref) (begin end_ : Z)
  : result (Z * Z) :=
  _ <- assert (is_node r) ;;
  _ <- assert ((begin =? end_) || (begin <? degree v + 1)) ;;
  _ <- assert (end_ <=? degree v + 1) ;;
  Ok (t_index r * (degree v + 1) + begin, t_index r * (degree v + 1) + end_).

(** Reads: [sizes()] as a word, [sizes(k)], [ranks(k)], [pointers(k)]. *)
Definition sizes_word (v : t) (r : subtree_ref) : result Z :=
  '(b, e) <- sizes_range v r 0 (degree v) ;;
  Ok (packed_array.get_flagged (_sizes v) b e).

Definition sizes_at (v : t) (r : subtree_ref) (k : Z) : result Z :=
  '(b, _) <- sizes_range v r k (k + 1) ;;
  Ok (packed_array.get_stripped (_sizes v) b).

Definition ranks_at (v : t) (r : subtree_ref) (k : Z) : result Z :=
  '(b, e) <- ranks_range v r k (k + 1) ;;
  Ok (packed_array.get (_ranks v) b e).

Definition pointers_at (v : t) (r : subtree_ref) (k : Z) : result Z :=
  '(b, e) <- pointers_range v r k (k + 1) ;;
  Ok (packed_array.get (_pointers v) b e).

(** Writes: [sizes(b, e) = x], [sizes(b, e) += x], [sizes(b, e) <<= n], and
    the same for ranks and pointers. *)
Definition set_sizes (v : t) (r : subtree_ref) (begin end_ x : Z) : result t :=
  '(b, e) <- sizes_range v r begin end_ ;;
  a <- packed_array.set (_sizes v) b e x ;;
  Ok (with_sizes v a).
Definition add_sizes (v : t) (r : subtree_ref) (begin end_ x : Z) : result t :=
  '(b, e) <- sizes_range v r begin end_ ;;
  a <- packed_array.add (_sizes v) b e x ;;
  Ok (with_sizes v a).
Definition shl_sizes (v : t) (r : subtree_ref) (begin end_ n : Z) : result t :=
  '(b, e) <- sizes_range v r begin end_ ;;
  a <- packed_array.shl (_sizes v) b e n ;;
  Ok (with_sizes v a).

Definition set_ranks (v : t) (r : subtree_ref) (begin end_ x : Z) : result t :=
  '(b, e) <- ranks_range v r begin end_ ;;
  a <- packed_array.set (_ranks v) b e x ;;
  Ok (with_ranks v a).
Definition add_ranks (v : t) (r : subtree_ref) (begin end_ x : Z) : result t :=
  '(b, e) <- ranks_range v r begin end_ ;;
  a <- packed_array.add (_ranks v) b e x ;;
  Ok (with_ranks v a).
Definition shl_ranks (v : t) (r : subtree_ref) (begin end_ n : Z) : result t :=
  '(b, e) <- ranks_range v r begin end_ ;;
  a <- packed_array.shl (_ranks v) b e n ;;
  Ok (with_ranks v a).

Definition set_pointers (v : t) (r : subtree_ref) (begin end_ x : Z)
  : result t :=
  '(b, e) <- pointers_range v r begin end_ ;;
  a <- packed_array.set (_pointers v) b e x ;;
  Ok (with_pointers v a).
Definition shl_pointers (v : t) (r : subtree_ref) (begin end_ n : Z)
  : result t :=
  '(b, e) <- pointers_range v r begin end_ ;;
  a <- packed_array.shl (_pointers v) b e n ;;
  Ok (with_pointers v a).

(** [clear_keys(begin, end)]. *)
Definition clear_keys (v : t) (r : subtree_ref) (begin end_ : Z) : result t :=
  v <- set_sizes v r begin end_ 0 ;;
  set_ranks v r begin end_ 0.

(** [leaf()], read and written. *)
Definition leaf (v : t) (r : subtree_ref) : result Z :=
  _ <- assert (is_leaf r) ;;
  match nth_error (_leaves v) (Z.to_nat (t_index r)) with
  | Some w => Ok w
  | None => Err OutOfBounds
  end.

Fixpoint list_set (l : list Z) (n : nat) (x : Z) : list Z :=
  match l, n with
  | [], _ => []
  | _ :: l', O => x :: l'
  | y :: l', S n' => y :: list_set l' n' x
  end.

Definition set_leaf (v : t) (r : subtree_ref) (x : Z) : result t :=
  _ <- assert (is_leaf r) ;;
  if Nat.ltb (Z.to_nat (t_index r)) (length (_leaves v)) then
    Ok (with_leaves v (list_set (_leaves v) (Z.to_nat (t_index r)) x))
  else Err OutOfBounds.

(** [copy()]: a fresh slot holding the same words. *)
Definition copy (v : t) (r : subtree_ref) : result (subtree_ref * t) :=
  if is_node r then
    '(n, v) <- alloc_node v ;;
    let r' := ref n (t_height r) (t_size r) (t_rank r) in
    '(b, e) <- sizes_range v r 0 (degree v) ;;
    v <- set_sizes v r' 0 (degree v) (packed_array.get (_sizes v) b e) ;;
    '(b, e) <- ranks_range v r 0 (degree v) ;;
    v <- set_ranks v r' 0 (degree v) (packed_array.get (_ranks v) b e) ;;
    '(b, e) <- pointers_range v r 0 (degree v + 1) ;;
    v <- set_pointers v r' 0 (degree v + 1) (packed_array.get (_pointers v) b e) ;;
    Ok (r', v)
  else
    let '(n, v) := alloc_leaf v in
    let r' := ref n (t_height r) (t_size r) (t_rank r) in
    w <- leaf v r ;;
    v <- set_leaf v r' w ;;
    Ok (r', v).

(** [child(k)]: the subtree under pointer [k], with its size and rank
    recovered from the cumulative counters. *)
Definition child (v : t) (r : subtree_ref) (k : Z) : result subtree_ref :=
  _ <- assert (k <=? degree v) ;;
  p <- pointers_at v r k ;;
  _ <- assert (negb (p =? 0)) ;;
  let h := szsub (t_height r) 1 in
  s <- (if k =? 0 then sizes_at v r k
        else if k =? degree v then
               s1 <- sizes_at v r (k - 1) ;; Ok (szsub (t_size r) s1)
             else
               s0 <- sizes_at v r k ;;
               s1 <- sizes_at v r (k - 1) ;; Ok (szsub s0 s1)) ;;
  rk <- (if k =? 0 then ranks_at v r k
         else if k =? degree v then
                r1 <- ranks_at v r (k - 1) ;; Ok (szsub (t_rank r) r1)
              else
                r0 <- ranks_at v r k ;;
                r1 <- ranks_at v r (k - 1) ;; Ok (szsub r0 r1)) ;;
  Ok (ref p h s rk).

(** [insert_child(k)]: a new empty child in position [k], the later keys
    moving one field up. *)
Definition insert_child (v : t) (r : subtree_ref) (k : Z) : result t :=
  _ <- assert (is_node r) ;;
  _ <- assert (k <=? degree v) ;;
  v <- (if k <? degree v then
          s <- sizes_at v r k ;;
          rk <- ranks_at v r k ;;
          v <- shl_sizes v r k (degree v) (counter_width v) ;;
          v <- shl_ranks v r k (degree v) (counter_width v) ;;
          v <- shl_pointers v r (k + 1) (degree v + 1) (pointer_width v) ;;
          v <- set_sizes v r k (k + 1) s ;;
          set_ranks v r k (k + 1) rk
        else Ok v) ;;
  '(n, v) <- (if t_height r =? 1 then Ok (alloc_leaf v) else alloc_node v) ;;
  set_pointers v r k (k + 1) n.

(** [find_insert_point(index)]. *)
Definition find_insert_point (v : t) (r : subtree_ref) (index : Z)
  : result (Z * Z) :=
  _ <- assert (is_node r) ;;
  sw <- sizes_word v r ;;
  let child :=
    szsub (degree v)
          (bits.popcount
             (Z.land (size_flag_mask v)
                     (wrap (sw - wrap (index_mask v * wrap index))))) in
  new_index <- (if 0 <? child then
                  s <- sizes_at v r (child - 1) ;; Ok (szsub index s)
                else Ok index) ;;
  Ok (child, new_index).

(** [find(index)]. *)
Definition find (v : t) (r : subtree_ref) (index : Z) : result (Z * Z) :=
  '(k, new_index) <- find_insert_point v r index ;;
  c <- child v r k ;;
  let '(k, new_index) :=
    if new_index =? t_size c then (k + 1, 0) else (k, new_index) in
  _ <- assert (k <? degree v + 1) ;;
  Ok (k, new_index).

(** [nkeys()]. *)
Definition nkeys (v : t) (r : subtree_ref) : result Z :=
  '(k, _) <- find_insert_point v r (szsub (t_size r) 1) ;;
  Ok (Z.min (k + 1) (degree v)).

(** [access(t, index)]; [fuel] bounds the depth of the recursion. *)
Fixpoint access_at (fuel : nat) (v : t) (r : subtree_ref) (index : Z)
  : result bool :=
  if t_size r <=? index then Err OutOfRange
  else if is_leaf r then
    w <- leaf v r ;; Ok (bits.get_bit w index)
  else
    match fuel with
    | O => Err OutOfFuel
    | S fuel' =>
        '(k, new_index) <- find v r index ;;
        c <- child v r k ;;
        access_at fuel' v c new_index
    end.

(** [access(index)] *)
Definition access (v : t) (index : Z) : result bool :=
  access_at (Z.to_nat (_height v)) v (root v) index.

(** *** Utilities of [insert] *)

(** The [count] closure of [find_adjacent_children]. *)
Definition free_slots (v : t) (r : subtree_ref) (leaves : bool)
           (max_count i : Z) : result Z :=
  p <- pointers_at v r i ;;
  if p =? 0 then Ok max_count
  else if leaves then
    c <- child v r i ;; Ok (szsub W (t_size c))
  else
    c <- child v r i ;; n <- nkeys v c ;; Ok (szsub (degree v) n).

(** [for(i = begin; i < end; ++i) freeslots += count(i)] *)
Fixpoint sum_window (n : nat) (v : t) (r : subtree_ref) (leaves : bool)
         (max_count i freeslots : Z) : result Z :=
  match n with
  | O => Ok freeslots
  | S n' =>
      c <- free_slots v r leaves max_count i ;;
      sum_window n' v r leaves max_count (i + 1) (freeslots + c)
  end.

(** The [while] loop that slides the window. *)
Fixpoint slide_window (fuel : nat) (v : t) (r : subtree_ref) (leaves : bool)
         (max_count k : Z) (begin end_ freeslots maxfreeslots : Z)
         (window : Z * Z) : result (Z * Z * Z * (Z * Z)) :=
  if (begin <? k) && (end_ <? degree v + 1) then
    match fuel with
    | O => Err OutOfFuel
    | S fuel' =>
        c0 <- free_slots v r leaves max_count begin ;;
        c1 <- free_slots v r leaves max_count (end_ - 1) ;;
        let freeslots := (freeslots - c0 + c1) mod 2 ^ 64 in
        let begin := begin + 1 in
        let end_ := end_ + 1 in
        if maxfreeslots <? freeslots then
          slide_window fuel' v r leaves max_count k begin end_
                       freeslots freeslots (begin, end_)
        else
          slide_window fuel' v r leaves max_count k begin end_
                       freeslots maxfreeslots window
    end
  else Ok (begin, end_, maxfreeslots, window).

(** [find_adjacent_children(t, child)]. *)
Definition find_adjacent_children (v : t) (r : subtree_ref) (k : Z)
  : result (Z * Z * Z) :=
  c <- child v r k ;;
  let leaves := is_leaf c in
  let buffer := if leaves then _leaves_buffer v else _nodes_buffer v in
  let max_count := if leaves then W else degree v in
  let begin := if buffer <? k then k - buffer - 1 else 0 in
  let end_ := Z.min (begin + buffer) (degree v + 1) in
  freeslots <- sum_window (Z.to_nat (end_ - begin)) v r leaves max_count
                          begin 0 ;;
  '(begin, end_, maxfreeslots, window) <-
    slide_window (Z.to_nat (degree v + 1)) v r leaves max_count k
                 begin end_ freeslots freeslots (begin, end_) ;;
  let total := szsub (max_count * buffer) maxfreeslots in
  _ <- assert ((begin <=? k) && (k <? end_)) ;;
  Ok (fst window, snd window, total).

(** First loop of [redistribute_bits]: the leaves of the window are
    copied, one after the other, into the scratch view. *)
Fixpoint gather_bits (n : nat) (v : t) (r : subtree_ref) (i p : Z)
         (view : packed_array.t) : result packed_array.t :=
  match n with
  | O => Ok view
  | S n' =>
      ptr <- pointers_at v r i ;;
      if negb (ptr =? 0) then
        c <- child v r i ;;
        w <- leaf v c ;;
        view <- packed_array.set view p (p + t_size c) w ;;
        gather_bits n' v r (i + 1) (p + t_size c) view
      else gather_bits n' v r (i + 1) p view
  end.

(** Second loop of [redistribute_bits]; returns the vector and what is
    left of [count]. *)
Fixpoint spread_bits (n : nat) (v : t) (r : subtree_ref)
         (view : packed_array.t) (bits_per_leaf : Z)
         (i p popcnt rem count : Z) : result (t * Z) :=
  match n with
  | O => Ok (v, count)
  | S n' =>
      let '(m, rem) :=
        if negb (rem =? 0) then (bits_per_leaf + 1, rem - 1)
        else (bits_per_leaf, rem) in
      ptr <- pointers_at v r i ;;
      v <- (if ptr =? 0 then insert_child v r i else Ok v) ;;
      let w := packed_array.get view p (p + m) in
      c <- child v r i ;;
      v <- set_leaf v c w ;;
      '(v, p, popcnt) <-
        (if i <? degree v then
           let p := p + m in
           let popcnt := popcnt + bits.popcount w in
           v <- add_sizes v r i (degree v) p ;;
           v <- add_ranks v r i (degree v) popcnt ;;
           Ok (v, p, popcnt)
         else Ok (v, p, popcnt)) ;;
      spread_bits n' v r view bits_per_leaf (i + 1) p popcnt rem
                  (szsub count m)
  end.

(** [redistribute_bits(t, begin, end, count)]. *)
Definition redistribute_bits (v : t) (r : subtree_ref) (begin end_ count : Z)
  : result t :=
  let b := szsub end_ begin in
  let bits_per_leaf := count / b in
  let rem := count mod b in
  _ <- assert ((b =? _leaves_buffer v) || (b =? _leaves_buffer v + 1)) ;;
  view <- packed_array.resize 1 count ;;
  view <- gather_bits (Z.to_nat (end_ - begin)) v r begin 0 view ;;
  v <- (if 0 <? begin then
          ptr <- pointers_at v r (begin - 1) ;;
          if negb (ptr =? 0) then
            c <- child v r (begin - 1) ;;
            v <- set_sizes v r begin end_ (wrap (index_mask v * t_size c)) ;;
            c <- child v r (begin - 1) ;;
            set_ranks v r begin end_ (wrap (index_mask v * t_rank c))
          else Ok v
        else Ok v) ;;
  v <- clear_keys v r begin end_ ;;
  '(v, count) <- spread_bits (Z.to_nat (end_ - begin)) v r view bits_per_leaf
                             begin 0 0 rem count ;;
  _ <- assert (count =? 0) ;;
  Ok v.

(** The local [struct pointer] of [redistribute_keys]. *)
Record pointer : Type := mk_pointer { p_size : Z; p_rank : Z; p_ptr : Z }.

(** [for(c = 0; c < degree() + 1; ++c) pointers.push_back(...)] *)
Fixpoint gather_node (n : nat) (v : t) (r : subtree_ref) (i c : Z)
         (pointers : list pointer) : result (list pointer) :=
  match n with
  | O => Ok pointers
  | S n' =>
      ci <- child v r i ;;
      g <- child v ci c ;;
      ptr <- pointers_at v ci c ;;
      gather_node n' v r i (c + 1)
                  (pointers ++ [mk_pointer (t_size g) (t_rank g) ptr])
  end.

(** [for(i = begin; i != end; ++i)], first loop. *)
Fixpoint gather_keys (n : nat) (v : t) (r : subtree_ref) (i : Z)
         (pointers : list pointer) : result (list pointer) :=
  match n with
  | O => Ok pointers
  | S n' =>
      pointers <- gather_node (Z.to_nat (degree v + 1)) v r i 0 pointers ;;
      gather_keys n' v r (i + 1) pointers
  end.

(** [for(j = 0; j < n; ++j)] *)
Fixpoint fill_node (n : nat) (v : t) (r : subtree_ref)
         (pointers : list pointer) (i p j : Z) : result t :=
  match n with
  | O => Ok v
  | S n' =>
      match nth_error pointers (Z.to_nat (p + j)) with
      | None => Err OutOfBounds
      | Some e =>
          ci <- child v r i ;;
          v <- set_pointers v ci j (j + 1) (p_ptr e) ;;
          ci <- child v r i ;;
          v <- add_sizes v ci j (degree v) (wrap (index_mask v * p_size e)) ;;
          ci <- child v r i ;;
          v <- add_ranks v ci j (degree v) (wrap (index_mask v * p_rank e)) ;;
          fill_node n' v r pointers i p (j + 1)
      end
  end.

(** [for(i = begin; i != end; ++i)], second loop. *)
Fixpoint spread_keys (n : nat) (v : t) (r : subtree_ref)
         (pointers : list pointer) (keys_per_node : Z)
         (i p rem count : Z) : result (t * Z) :=
  match n with
  | O => Ok (v, count)
  | S n' =>
      let '(m, rem) :=
        if negb (rem =? 0) then (keys_per_node + 1, rem - 1)
        else (keys_per_node, rem) in
      ci <- child v r i ;;
      v <- set_sizes v ci 0 (degree v) 0 ;;
      ci <- child v r i ;;
      v <- set_ranks v ci 0 (degree v) 0 ;;
      v <- fill_node (Z.to_nat m) v r pointers i p 0 ;;
      spread_keys n' v r pointers keys_per_node (i + 1) (p + m) rem
                  (szsub count m)
  end.

(** [redistribute_keys(t, begin, end, count)].  The vector [pointers] is
    constructed with [_nodes_buffer * (degree() + 1)] value-initialised
    elements, and the triples read from the tree are pushed after them. *)
Definition redistribute_keys (v : t) (r : subtree_ref) (begin end_ count : Z)
  : result t :=
  let b := szsub end_ begin in
  let keys_per_node := count / b in
  let rem := count mod b in
  _ <- assert ((b =? _nodes_buffer v) || (b =? _nodes_buffer v + 1)) ;;
  let pointers :=
    List.repeat (mk_pointer 0 0 0)
                (Z.to_nat (_nodes_buffer v * (degree v + 1))) in
  pointers <- gather_keys (Z.to_nat b) v r begin pointers ;;
  '(v, count) <- spread_keys (Z.to_nat b) v r pointers keys_per_node
                             begin 0 rem count ;;
  _ <- assert (count =? 0) ;;
  Ok v.

(** *** Insertion *)

(** The root-split step: the branch taken by [insert] on a full node. *)
Definition split_root (v : t) (r : subtree_ref) : result t :=
  ir <- is_root v r ;;
  _ <- assert ir ;;
  '(old_root, v) <- copy v r ;;
  v <- set_sizes v r 0 (degree v) (wrap (index_mask v * t_size r)) ;;
  v <- set_ranks v r 0 (degree v) (wrap (index_mask v * t_rank r)) ;;
  v <- set_pointers v r 0 (degree v + 1) 0 ;;
  v <- set_pointers v r 0 1 (t_index old_root) ;;
  let v := with_height v (_height v + 1) in
  n <- nkeys v (root v) ;;
  _ <- assert (n =? 1) ;;
  c <- child v (root v) 0 ;;
  n <- nkeys v c ;;
  _ <- assert (n =? degree v) ;;
  Ok v.

(** Step 1 of the leaf branch: redistribution, and split, of a full leaf. *)
Definition make_room_in_leaves (v : t) (r : subtree_ref) (k : Z) : result t :=
  '(begin, end_, count) <- find_adjacent_children v r k ;;
  '(v, end_) <-
    (if _leaves_buffer v * (W - _leaves_buffer v) <=? count then
       n <- nkeys v r ;;
       _ <- assert (n <? degree v) ;;
       v <- insert_child v r end_ ;;
       Ok (v, end_ + 1)
     else Ok (v, end_)) ;;
  redistribute_bits v r begin end_ count.

(** Step 1 of the node branch: split and redistribution of a full node. *)
Definition make_room_in_nodes (v : t) (r : subtree_ref) (k : Z) : result t :=
  '(begin, end_, count) <- find_adjacent_children v r k ;;
  n <- nkeys v r ;;
  _ <- assert (n <? degree v) ;;
  v <- insert_child v r end_ ;;
  redistribute_keys v r begin (end_ + 1) count.

(** [insert(t, index, bit)]; [fuel] bounds the depth of the recursion. *)
Fixpoint insert_at (fuel : nat) (v : t) (r : subtree_ref) (index : Z)
         (bit : bool) : result t :=
  match fuel with
  | O => Err OutOfFuel
  | S fuel' =>
      n <- nkeys v r ;;
      if n =? degree v then
        v <- split_root v r ;;
        insert_at fuel' v (root v) index bit
      else
        '(k, new_index) <- find_insert_point v r index ;;
        if t_height r =? 1 then
          c <- child v r k ;;
          '(v, k, new_index) <-
            (if t_size c =? W then
               v <- make_room_in_leaves v r k ;;
               '(k, new_index) <- find_insert_point v r index ;;
               Ok (v, k, new_index)
             else Ok (v, k, new_index)) ;;
          v <- add_sizes v r k (degree v) (index_mask v) ;;
          v <- add_ranks v r k (degree v) (wrap (index_mask v * Z.b2z bit)) ;;
          c <- child v r k ;;
          w <- leaf v c ;;
          v <- set_leaf v c (bits.insert_bit w new_index bit) ;;
          Ok (with_size_rank v (_size v + 1) (_rank v + Z.b2z bit))
        else
          c <- child v r k ;;
          n <- nkeys v c ;;
          '(v, k, new_index) <-
            (if n =? degree v then
               v <- make_room_in_nodes v r k ;;
               '(k, new_index) <- find_insert_point v r index ;;
               Ok (v, k, new_index)
             else Ok (v, k, new_index)) ;;
          v <- add_sizes v r k (degree v) (index_mask v) ;;
          v <- add_ranks v r k (degree v) (wrap (index_mask v * Z.b2z bit)) ;;
          c <- child v r k ;;
          insert_at fuel' v c new_index bit
  end.

(** [insert(index, bit)] *)
Definition insert (v : t) (index : Z) (bit : bool) : result t :=
  insert_at (Z.to_nat (_height v) + 3) v (root v) index bit.

(** *** Construction *)

(** [do { level_count = ceil(float(level_count) / (minimum_degree + 1));
          nodes_count += level_count; } while(level_count > 1);] *)
Fixpoint count_nodes (fuel : nat) (minimum_degree level_count nodes_count : Z)
  : result Z :=
  match fuel with
  | O => Err OutOfFuel
  | S fuel' =>
      let level_count :=
        (level_count + minimum_degree) / (minimum_degree + 1) in
      let nodes_count := nodes_count + level_count in
      if 1 <? level_count then
        count_nodes fuel' minimum_degree level_count nodes_count
      else Ok nodes_count
  end.

(** The constructor.  The floating-point expressions of the source are
    taken on integers: [ceil(log2(n))] is [Z.log2_up n], [ceil(sqrt(n))]
    is [Z.sqrt_up n], and [ceil] of a quotient of floats is the rounded-up
    integer quotient. *)
Definition make (capacity : Z) : result t :=
  let counter_width := Z.log2_up capacity + 1 in
  let degree := W / counter_width in
  let leaves_buffer := Z.min (Z.max (Z.sqrt_up W - 1) 1) degree in
  let nodes_buffer := Z.max (Z.sqrt_up degree - 1) 1 in
  let leaves_count :=
    capacity * (leaves_buffer + 1) / (leaves_buffer * (W - leaves_buffer)) in
  let minimum_degree :=
    nodes_buffer * (degree - nodes_buffer) / (nodes_buffer + 1) in
  nodes_count <- count_nodes (S (Z.to_nat leaves_count)) minimum_degree
                             leaves_count 0 ;;
  let pointer_width := Z.log2_up (Z.max nodes_count (leaves_count + 1)) in
  _ <- assert (pointer_width <=? counter_width) ;;
  _ <- assert (pointer_width * (degree + 1) <=? W) ;;
  sizes <- packed_array.resize counter_width (nodes_count * degree) ;;
  ranks <- packed_array.resize counter_width (nodes_count * degree) ;;
  pointers <- packed_array.resize pointer_width (nodes_count * (degree + 1)) ;;
  let v :=
    mk capacity 0 0 1 counter_width pointer_width degree leaves_buffer
       nodes_buffer 0 sizes ranks pointers [] in
  let '(_, v) := alloc_leaf v in
  '(_, v) <- alloc_node v ;;
  insert_child v (root v) 0.

(** A run of [insert] calls, in order. *)
Fixpoint insert_all (v : t) (l : list (Z * bool)) : result t :=
  match l with
  | [] => Ok v
  | (i, b) :: l' => v <- insert v i b ;; insert_all v l'
  end.

End bitvector.

(** * Vocabulary of the statements *)

(** The field mask on [n] fields of width [w]: bit 0 of every field. *)
Fixpoint fm (n : nat) (w : Z) : Z :=
  match n with
  | O => 0
  | S n' => 1 + 2 ^ w * fm n' w
  end.

(** Number of the [n] low fields of the word [x] whose value, flag bit
    apart, is at least [v]. *)
Fixpoint count_geq (n : nat) (w v x : Z) : Z :=
  match n with
  | O => 0
  | S n' =>
      (if v <=? bits.lowbits (x mod 2 ^ w) (w - 1) then 1 else 0)
      + count_geq n' w v (x / 2 ^ w)
  end.

(** The SWAR comparison on [m] fields of width [w]: the flag bits of
    [(x | flag_mask) - field_mask * v]. *)
Definition swar (w : Z) (m : nat) (x v : Z) : Z :=
  Z.land (fm m w * 2 ^ (w - 1))
         (Z.lor x (fm m w * 2 ^ (w - 1)) - fm m w * v).

(** Number of indices in [[i, i + n)] that satisfy [P]. *)
Fixpoint count_range (n : nat) (i : Z) (P : Z -> bool) : Z :=
  match n with
  | O => 0
  | S n' => (if P i then 1 else 0) + count_range n' (i + 1) P
  end.

(** Number of fields of [[begin, end)] whose value satisfies [P]. *)
Definition fields_below (v : packed_view.t) (begin end_ : Z) (P : Z -> bool)
  : Z :=
  count_range (Z.to_nat (end_ - begin)) begin
              (fun i => P (packed_view.value v i)).

(** One field of width 2 holding the value 1. *)
Definition find_example : packed_view.t :=
  packed_view.assign (packed_view.zeroed 2 1) 0 1.

(** Ten fields of width 5. *)
Definition repeat_example : packed_view.t := packed_view.zeroed 5 10.

Module tree.
Import bitvector.

(** The indices [0 .. n-1]. *)
Definition range (n : Z) : list Z := map Z.of_nat (seq 0 (Z.to_nat n)).

(** What the constructor establishes about the parameters and the
    packed arrays. *)
Definition params_ok (v : t) : bool :=
  (0 <? counter_width v) && (counter_width v <=? W)
  && (degree v =? W / counter_width v)
  && (packed_view.width (_sizes v) =? counter_width v)
  && (packed_view.field_mask (_sizes v)
      =? packed_view.built_mask (counter_width v))
  && (0 <=? packed_view.width (_pointers v))
  && (0 <=? packed_view.width (_ranks v))
  && (0 <=? _height v) && (_height v <? 2 ^ 64).

(** Cumulative size of the children [0 .. k] of the node at [idx], whose
    subtree holds [size] bits: counter [k] for [k < d], the subtree size
    for the last child, and 0 before the first child. *)
Definition cum (v : t) (idx size k : Z) : Z :=
  if k <? 0 then 0
  else if k <? degree v then
    packed_array.get_stripped (_sizes v) (idx * degree v + k)
  else size.

(** Pointer [k] of the node at [idx]. *)
Definition ptr (v : t) (idx k : Z) : Z :=
  packed_array.get (_pointers v) (idx * (degree v + 1) + k)
                   (idx * (degree v + 1) + k + 1).

(** A node whose counters are cumulative: they are non-decreasing up to
    the subtree size, which fits below the flag bit; no child is empty
    before the last non-empty one; non-empty children are present. *)
Definition node_ok (v : t) (idx size : Z) : bool :=
  (0 <=? idx) && (0 <=? size) && (size <? 2 ^ (counter_width v - 1))
  && forallb (fun k =>
                (cum v idx size (k - 1) <=? cum v idx size k)
                && implb (cum v idx size (k - 1) <? size)
                         (cum v idx size (k - 1) <? cum v idx size k)
                && implb (cum v idx size (k - 1) <? cum v idx size k)
                         (negb (ptr v idx k =? 0)))
             (range (degree v + 1)).

(** A subtree of height [h] all of whose nodes are [node_ok] and all of
    whose leaves are allocated. *)
Fixpoint wf_subtree (h : nat) (v : t) (idx size : Z) : bool :=
  match h with
  | O => (0 <=? idx) && Nat.ltb (Z.to_nat idx) (length (_leaves v))
  | S h' =>
      node_ok v idx size
      && forallb (fun k =>
                    implb (cum v idx size (k - 1) <? cum v idx size k)
                          (wf_subtree h' v (ptr v idx k)
                             (cum v idx size k - cum v idx size (k - 1))))
                 (range (degree v + 1))
  end.

Definition wf (v : t) : bool :=
  params_ok v && wf_subtree (Z.to_nat (_height v)) v 0 (_size v).

End tree.

(** A result that is not the [Overflow] error. *)
Definition no_overflow {A : Type} (r : result A) : Prop := r <> Err Overflow.

Module frame.
Import bitvector.

(** The parameters of the vector, which only the constructor and the
    root split set, and the field widths of its three arrays; node slots
    are allocated and never given back. *)
Definition same (v v' : t) : Prop :=
  _capacity v' = _capacity v /\ _height v' = _height v
  /\ _counter_width v' = _counter_width v
  /\ _pointer_width v' = _pointer_width v
  /\ _degree v' = _degree v
  /\ _leaves_buffer v' = _leaves_buffer v
  /\ _nodes_buffer v' = _nodes_buffer v
  /\ packed_view.width (_sizes v') = packed_view.width (_sizes v)
  /\ packed_view.width (_ranks v') = packed_view.width (_ranks v)
  /\ packed_view.width (_pointers v') = packed_view.width (_pointers v)
  /\ _free_node v <= _free_node v'.

(** What the root split keeps as well: all of [same] but the height. *)
Definition grows (v v' : t) : Prop :=
  _degree v' = _degree v
  /\ packed_view.width (_sizes v') = packed_view.width (_sizes v)
  /\ packed_view.width (_ranks v') = packed_view.width (_ranks v)
  /\ packed_view.width (_pointers v') = packed_view.width (_pointers v)
  /\ _free_node v <= _free_node v'.

(** A computation that keeps the parameters of the vector it returns,
    [proj] selecting the vector in the result. *)
Definition keeps {A : Type} (proj : A -> t) (v : t) (r : result A) : Prop :=
  forall a, r = Ok a -> same v (proj a).

End frame.

(** The vectors a program can hold: built by the constructor, then changed
    by calls of [insert] that return. *)
Inductive reachable : bitvector.t -> Prop :=
| reach_make capacity v :
    bitvector.make capacity = Ok v -> reachable v
| reach_insert v index bit v' :
    reachable v -> bitvector.insert v index bit = Ok v' -> reachable v'.

(** Node 0 is allocated, and the degree and the field widths are not
    negative. *)
Definition alloc_ok (v : bitvector.t) : Prop :=
  0 < bitvector._free_node v /\ 0 <= bitvector.degree v
  /\ 0 <= packed_view.width (bitvector._sizes v)
  /\ 0 <= packed_view.width (bitvector._ranks v)
  /\ 0 <= packed_view.width (bitvector._pointers v).

Module samples.
Import bitvector.

(** [n] alternating bits, each inserted at the tail, from index [i]. *)
Fixpoint alternating (n : nat) (i : Z) (b : bool) : list (Z * bool) :=
  match n with
  | O => []
  | S n' => (i, b) :: alternating n' (i + 1) (negb b)
  end.

(** The value of a run that failed. *)
Definition blank : t :=
  mk 0 0 0 0 0 0 0 0 0 0 (packed_array.zeroed 1 0) (packed_array.zeroed 1 0)
     (packed_array.zeroed 1 0) [].

Definition unwrap (r : result t) : t :=
  match r with
  | Ok v => v
  | Err _ => blank
  end.

(** A vector of the given capacity after [n] insertions at the tail. *)
Definition tail_run (capacity : Z) (n : nat) : result t :=
  v <- make capacity ;; insert_all v (alternating n 0 false).

(** Capacity 1000, as the constructor leaves it. *)
Definition v0 : t := Eval vm_compute in unwrap (make 1000).

(** Capacity 1000, 65 bits inserted at the tail. *)
Definition v65 : t := Eval vm_compute in unwrap (tail_run 1000 65).

(** Capacity 50, filled to capacity. *)
Definition v50 : t := Eval vm_compute in unwrap (tail_run 50 50).

(** [v65] after [insert_child(5)] on its root: six leaves. *)
Definition v65_six : t :=
  Eval vm_compute in unwrap (insert_child v65 (root v65) 5).

(** [v65] after the root-split step. *)
Definition v65_split : t :=
  Eval vm_compute in unwrap (split_root v65 (root v65)).

(** [v65_split] after [insert_child(2)] on its root: the vector that
    [insert(65, true)] on [v65] hands to [redistribute_keys]. *)
Definition v65_grown : t :=
  Eval vm_compute in unwrap (insert_child v65_split (root v65_split) 2).

(** Capacity 64, 63 bits inserted at the tail, and filled to capacity. *)
Definition v64_short : t := Eval vm_compute in unwrap (tail_run 64 63).
Definition v64_full : t := Eval vm_compute in unwrap (tail_run 64 64).

(** Capacity 129, 64 bits inserted at the tail: the first leaf is full. *)
Definition v129 : t := Eval vm_compute in unwrap (tail_run 129 64).

(** Capacity 200, 65 bits inserted at the tail: the root is full. *)
Definition v200 : t := Eval vm_compute in unwrap (tail_run 200 65).

End samples.

(** The scenario of [test_word] (the repository's test of the bit view). *)
Definition test_word_view : result bitview.t :=
  w <- bitview.set (bitview.new 256) 0 64 (2 ^ 64 - 1) ;;
  w <- bitview.set1 w 5 false ;;
  w <- bitview.set w 120 136 12345 ;;
  bitview.set1 w 195 true.

(** * Vocabulary of the further properties *)

(** Field [i] of the word [x] cut into fields of width [w]. *)
Definition word_field (w x i : Z) : Z := (x / 2 ^ (i * w)) mod 2 ^ w.

(** Four fields of width 5 holding 1, 3, 3, 7. *)
Definition sorted_example : packed_view.t :=
  packed_view.assign
    (packed_view.assign
       (packed_view.assign
          (packed_view.assign (packed_view.zeroed 5 4) 0 1) 1 3) 2 3) 3 7.

Module counters.
Import bitvector.

(** The two counters of the vector, which only the last step of [insert]
    changes. *)
Definition same (v v' : t) : Prop :=
  _size v' = _size v /\ _rank v' = _rank v.

(** A computation that keeps the counters of the vector it returns. *)
Definition keeps {A : Type} (proj : A -> t) (v : t) (r : result A) : Prop :=
  forall a, r = Ok a -> same v (proj a).

End counters.

Module runs.
Import bitvector.

(** Capacity 1000, 10 bits inserted at the tail. *)
Definition v10 : t :=
  Eval vm_compute in samples.unwrap (samples.tail_run 1000 10).

(** Capacity 1000, 64 bits inserted at the tail: the first leaf is full. *)
Definition v64 : t :=
  Eval vm_compute in samples.unwrap (samples.tail_run 1000 64).

(** [v65] after [insert_child(2)] on its root. *)
Definition v65_child2 : t :=
  Eval vm_compute in
    samples.unwrap (insert_child samples.v65 (root samples.v65) 2).

(** The copy of the root of [v65], as [copy] returns it. *)
Definition v65_copy : subtree_ref * t :=
  Eval vm_compute in
    match copy samples.v65 (root samples.v65) with
    | Ok x => x
    | Err _ => (root samples.blank, samples.blank)
    end.

End runs.

Module flat.
Import bitvector.

(** A tree of height 1 in order: the root is [tree.node_ok], its first
    child is present, no leaf holds more than [W] bits, and the leaves
    under the pointers of the root are allocated and distinct. *)
Definition flat_ok (v : t) : bool :=
  tree.params_ok v && (_height v =? 1) && tree.node_ok v 0 (_size v)
  && negb (tree.ptr v 0 0 =? 0)
  && forallb (fun k =>
                (tree.cum v 0 (_size v) k - tree.cum v 0 (_size v) (k - 1)
                 <=? W)
                && implb (negb (tree.ptr v 0 k =? 0))
                     (Nat.ltb (Z.to_nat (tree.ptr v 0 k)) (length (_leaves v))
                      && forallb (fun j => (j =? k)
                                           || negb (tree.ptr v 0 j
                                                    =? tree.ptr v 0 k))
                                 (tree.range (degree v + 1))))
             (tree.range (degree v + 1)).

(** The fields of node 0 lie inside the three arrays. *)
Definition root_fits (v : t) : bool :=
  (degree v * packed_view.width (_sizes v)
   <=? bitview.size (packed_view._bits (_sizes v)))
  && (degree v * packed_view.width (_ranks v)
      <=? bitview.size (packed_view._bits (_ranks v)))
  && ((degree v + 1) * packed_view.width (_pointers v)
      <=? bitview.size (packed_view._bits (_pointers v))).

(** The word of the leaf under pointer [k] of the root. *)
Definition leaf_word (v : t) (k : Z) : Z :=
  nth (Z.to_nat (tree.ptr v 0 k)) (_leaves v) 0.

(** The vector after a bit has gone into the leaf under pointer [k] of the
    root at position [index] of the vector, the counters from [k] on
    counting one more. *)
Definition leaf_insert (v : t) (k index : Z) (bit : bool) : t :=
  let v1 :=
    with_sizes v (packed_array.store_add (_sizes v) (0 * degree v + k)
                                   (0 * degree v + degree v)
                                   (index_mask v)) in
  let v2 :=
    with_ranks v1 (packed_array.store_add (_ranks v1) (0 * degree v + k)
                                    (0 * degree v + degree v)
                                    (wrap (index_mask v1 * Z.b2z bit))) in
  let w :=
    bits.insert_bit (leaf_word v k)
                    (index - tree.cum v 0 (_size v) (k - 1)) bit in
  let v3 :=
    with_leaves v2 (list_set (_leaves v2) (Z.to_nat (tree.ptr v 0 k)) w) in
  with_size_rank v3 (_size v3 + 1) (_rank v3 + Z.b2z bit).

(** The vector the constructor builds, as a function of the parameters
    it computes: empty arrays, the sentinel leaf and one leaf, under
    pointer 0 of the root. *)
Definition fresh (capacity c pw d lb nb nodes : Z) : t :=
  mk capacity 0 0 1 c pw d lb nb 1
     (packed_array.zeroed c (nodes * d))
     (packed_array.zeroed c (nodes * d))
     (packed_array.store (packed_array.zeroed pw (nodes * (d + 1))) 0 1 1)
     [0; 0].

End flat.

Module single.
Import bitvector.

(** A tree whose root is its only node: height 1, one node slot in use,
    and no pointer written in the slots after the root's. *)
Definition root_only (v : t) : Prop :=
  _height v = 1 /\ _free_node v = 1
  /\ 0 < packed_view.width (_pointers v)
  /\ 0 <= packed_view.width (_sizes v)
  /\ 0 <= packed_view.width (_ranks v)
  /\ 0 <= degree v <= W /\ 0 <= _leaves_buffer v /\ 0 <= _nodes_buffer v
  /\ forall j, degree v + 1 <= j -> packed_view.value (_pointers v) j = 0.

(** What a step on the root keeps: the parameters, the node slots in use,
    and the pointers of the slots after the root's. *)
Definition local (v v' : t) : Prop :=
  frame.same v v' /\ _free_node v' = _free_node v
  /\ forall j, degree v + 1 <= j ->
       packed_view.value (_pointers v') j = packed_view.value (_pointers v) j.

End single.

Module brim.
Import bitvector.

(** A vector all of whose bits are counted in the first leaf: every
    counter of the root is the size, which one leaf can hold, and the
    root has its first child only.  The parameters are those of a
    capacity from 129 to [2^20]: the window of a redistribution of bits
    is the whole node. *)
Definition lone_leaf (v : t) : Prop :=
  single.root_only v /\ tree.params_ok v = true
  /\ 8 <= counter_width v /\ 2 <= degree v <= 7
  /\ _leaves_buffer v = degree v
  /\ 0 <= _size v <= W
  /\ (forall j, 0 <= j < degree v ->
        packed_view.value (_sizes v) j = _size v)
  /\ tree.ptr v 0 0 <> 0
  /\ (forall j, 1 <= j <= degree v -> tree.ptr v 0 j = 0).

(** A vector of [W + 1] bits whose root is full. *)
Definition full (v : t) : Prop :=
  single.root_only v /\ _size v = W + 1
  /\ nkeys v (root v) = Ok (degree v).

(** A pointer array without a null pointer. *)
Definition all_set : packed_array.t :=
  packed_view.mk (bitview.mk (Z.ones W) W) 1 0.

End brim.

Module oracle.

(** The sequence of bits as a list: [insert(i, b)] on a list. *)
Definition list_insert (l : list bool) (i : Z) (b : bool) : list bool :=
  firstn (Z.to_nat i) l ++ b :: skipn (Z.to_nat i) l.

(** A run of [insert] calls on a list. *)
Fixpoint replay (l : list bool) (ops : list (Z * bool)) : list bool :=
  match ops with
  | [] => l
  | (i, b) :: ops' => replay (list_insert l i b) ops'
  end.

(** Every index of the run is at most the length at that time, [n] being
    the length at the start. *)
Fixpoint valid (ops : list (Z * bool)) (n : Z) : bool :=
  match ops with
  | [] => true
  | (i, _) :: ops' => (0 <=? i) && (i <=? n) && valid ops' (n + 1)
  end.

(** A tree of height 1 whose bits are all in the first leaf and read as
    the list [l]. *)
Definition holds (v : bitvector.t) (l : list bool) : Prop :=
  flat.flat_ok v = true
  /\ bitvector._size v = Z.of_nat (length l)
  /\ (forall j, 0 <= j < bitvector.degree v ->
        tree.cum v 0 (bitvector._size v) j = bitvector._size v)
  /\ (forall j, 0 <= j < bitvector._size v ->
        bitvector.access v j = Ok (nth (Z.to_nat j) l false)).

End oracle.

Module printing.

(** The character of a bit. *)
Definition bit_char (b : bool) : ascii := if b then "1"%char else "0"%char.

(** The loop of [to_binary]: [bits] counts the bits already written, and
    a separator goes before every bit whose count is a multiple of
    [sep], the first bit apart.  [bits % sep] with [sep == 0] is
    undefined; the test [bits && ...] guards it for the first bit only. *)
Fixpoint to_binary_loop (n : nat) (v : packed_view.t) (i bits sep : Z)
         (ssep : ascii) (s : list ascii) : option (list ascii) :=
  match n with
  | O => Some s
  | S n' =>
      match (if bits =? 0 then Some s
             else if sep =? 0 then None
             else Some (if bits mod sep =? 0 then s ++ [ssep] else s)) with
      | None => None
      | Some s =>
          to_binary_loop n' v (i + 1) (bits + 1) sep ssep
            (s ++ [bit_char (bitview.get1 (packed_view._bits v) i)])
      end
  end.

(** [to_binary(ref, sep, ssep)] on the range [[begin, end)] of fields. *)
Definition to_binary (v : packed_view.t) (begin end_ sep : Z) (ssep : ascii)
  : option (list ascii) :=
  let b := begin * packed_view.width v in
  let e := end_ * packed_view.width v in
  option_map (@rev ascii)
             (to_binary_loop (Z.to_nat (e - b)) v b 0 sep ssep []).

(** Number of characters for [n] bits. *)
Definition chars (sep n : Z) : Z := if n =? 0 then 0 else n + (n - 1) / sep.

(** The string [s], in the order it was written, holds [b] bits of [v]
    from bit [i0] on, bit [t] at position [t + t / sep], and a separator
    before every later multiple of [sep]. *)
Definition written (v : packed_view.t) (i0 sep : Z) (ssep : ascii)
           (b : Z) (s : list ascii) : Prop :=
  Z.of_nat (length s) = chars sep b
  /\ (forall t, 0 <= t < b ->
        nth (Z.to_nat (t + t / sep)) s ssep
        = bit_char (Z.testbit (bitview.bits (packed_view._bits v)) (i0 + t)))
  /\ (forall m, 1 <= m -> m * sep < b ->
        nth (Z.to_nat (m * (sep + 1) - 1)) s "0"%char = ssep).

End printing.

(** ** The calls of [find_adjacent_children] *)

Module calls.
Import bitvector.

(** A call [find_adjacent_children(t, child)]: the vector as it is when
    the call is made, the node [t] and the child index. *)
Definition call : Type := t * subtree_ref * Z.

(** The calls that follow a step: none when the step fails. *)
Definition after {A : Type} (m : result A) (k : A -> list call) : list call :=
  match m with
  | Ok a => k a
  | Err _ => []
  end.

(** The calls of [find_adjacent_children] that [insert(t, index, bit)]
    makes, in order.  The steps are those of [insert_at], one for one:
    the root split, the search of the insertion point, the test of the
    leaf ([t.child(child).size() == W]) or of the node
    ([t.child(child).nkeys() == degree()]) that guards the call, and,
    below a node, the redistribution, the update of the counters and the
    descent.  The leaf branch makes no call after its redistribution. *)
Fixpoint adjacent_at (fuel : nat) (v : t) (r : subtree_ref) (index : Z)
         (bit : bool) : list call :=
  match fuel with
  | O => []
  | S fuel' =>
      after (nkeys v r) (fun n =>
      if n =? degree v then
        after (split_root v r) (fun v =>
        adjacent_at fuel' v (root v) index bit)
      else
        after (find_insert_point v r index) (fun '(k, new_index) =>
        if t_height r =? 1 then
          after (child v r k) (fun c =>
          if t_size c =? W then [(v, r, k)] else [])
        else
          after (child v r k) (fun c =>
          after (nkeys v c) (fun n =>
          let below := fun '(v, k, new_index) =>
            after (add_sizes v r k (degree v) (index_mask v)) (fun v =>
            after (add_ranks v r k (degree v)
                             (wrap (index_mask v * Z.b2z bit))) (fun v =>
            after (child v r k) (fun c =>
            adjacent_at fuel' v c new_index bit))) in
          if n =? degree v then
            (v, r, k)
            :: after (v <- make_room_in_nodes v r k ;;
                      '(k, new_index) <- find_insert_point v r index ;;
                      Ok (v, k, new_index)) below
          else below (v, k, new_index)))))
  end.

(** The calls made by [insert(index, bit)]. *)
Definition adjacent (v : t) (index : Z) (bit : bool) : list call :=
  adjacent_at (Z.to_nat (_height v) + 3) v (root v) index bit.

End calls.

(** ** The window of a redistribution, as the specification words it *)

Module window_spec.
Import bitvector.

(** Follows the specification: the free-slot sum of the window of [n]
    children that starts at child [i].  The free slots of one child are
    those of the [count] closure of the source. *)
Fixpoint free_sum (n : nat) (v : t) (r : subtree_ref) (leaves : bool)
         (max_count i : Z) : result Z :=
  match n with
  | O => Ok 0
  | S n' =>
      c <- free_slots v r leaves max_count i ;;
      s <- free_sum n' v r leaves max_count (i + 1) ;;
      Ok (c + s)
  end.

(** Follows the specification: the window slides one step at a time
    while it still contains [child] and does not run past [d + 1]; the
    window with the maximum free-slot sum is kept, the earliest one among
    equals. *)
Fixpoint slide (fuel : nat) (v : t) (r : subtree_ref) (leaves : bool)
         (max_count child begin end_ : Z) (best : Z * Z) (most : Z)
  : result (Z * Z * Z) :=
  match fuel with
  | O => Ok (fst best, snd best, most)
  | S fuel' =>
      if (begin + 1 <=? child) && (child <? end_ + 1)
         && (end_ + 1 <=? degree v + 1) then
        s <- free_sum (Z.to_nat (end_ - begin)) v r leaves max_count
                      (begin + 1) ;;
        if most <? s then
          slide fuel' v r leaves max_count child (begin + 1) (end_ + 1)
                (begin + 1, end_ + 1) s
        else
          slide fuel' v r leaves max_count child (begin + 1) (end_ + 1)
                best most
      else Ok (fst best, snd best, most)
  end.

(** Follows the specification: the initial window is
    [begin = max(0, child - buffer)], [end = min(begin + buffer, d + 1)];
    the result is the best window with
    [maxcount * buffer - maxfreeslots]. *)
Definition find_adjacent_children (v : t) (r : subtree_ref) (k : Z)
  : result (Z * Z * Z) :=
  c <- child v r k ;;
  let leaves := is_leaf c in
  let buffer := if leaves then _leaves_buffer v else _nodes_buffer v in
  let max_count := if leaves then W else degree v in
  let begin := Z.max 0 (k - buffer) in
  let end_ := Z.min (begin + buffer) (degree v + 1) in
  s <- free_sum (Z.to_nat (end_ - begin)) v r leaves max_count begin ;;
  '(b, e, most) <- slide (Z.to_nat (degree v + 1)) v r leaves max_count k
                         begin end_ (begin, end_) s ;;
  Ok (b, e, max_count * buffer - most).

End window_spec.

(** ** Vectors of a small capacity *)

Module narrow.
Import bitvector.

(** The root has its first child only. *)
Definition one_child (v : t) : Prop :=
  forall j, 1 <= j <= degree v -> tree.ptr v 0 j = 0.

(** What a vector built for a capacity from 50 to 128 keeps as long as
    its bits are in the first leaf: a window of 7 leaves, below the
    degree; pointers of 1 or 2 bits; the sentinel leaf and the first leaf;
    the first child of the root and no other. *)
Definition first_leaf_b (v : t) : bool :=
  (_leaves_buffer v =? 7) && (7 <=? degree v)
  && (pointer_width v =? packed_view.width (_pointers v))
  && (1 <=? pointer_width v) && (pointer_width v <=? 2)
  && ((degree v + 1) * pointer_width v <=? W)
  && Nat.eqb (length (_leaves v)) 2
  && negb (tree.ptr v 0 0 =? 0)
  && forallb (fun j => tree.ptr v 0 (j + 1) =? 0) (tree.range (degree v)).

Definition first_leaf (v : t) : Prop :=
  single.root_only v /\ first_leaf_b v = true.

(** A step that keeps the parameters, the pointers and the number of
    leaves. *)
Definition quiet (v v' : t) : Prop :=
  frame.same v v' /\ _pointers v' = _pointers v
  /\ length (_leaves v') = length (_leaves v).

(** The parameters of a vector of a capacity from 50 to [2^20]. *)
Definition buffers (v : t) : Prop :=
  3 <= degree v <= 9
  /\ 1 <= _leaves_buffer v <= degree v
  /\ 1 <= _nodes_buffer v <= degree v.

End narrow.
(** * Facts on words *)

Section word_facts.

Lemma W_pos : 0 < W.
Proof. reflexivity. Qed.

Lemma pow2_pos (n : Z) : 0 <= n -> 0 < 2 ^ n.
Proof. intros; apply Z.pow_pos_nonneg; lia. Qed.

Lemma wrap_small (x : Z) : 0 <= x < 2 ^ W -> wrap x = x.
Proof. intros; unfold wrap; apply Z.mod_small; assumption. Qed.

Lemma szsub_small (a b : Z) : 0 <= b <= a -> a < 2 ^ 64 -> szsub a b = a - b.
Proof. intros; unfold szsub; apply Z.mod_small; lia. Qed.

(** A word made of a low part of [w] bits and of a high part. *)
Lemma concat_mod (w lo hi : Z) :
  0 <= w -> 0 <= lo < 2 ^ w -> (lo + 2 ^ w * hi) mod 2 ^ w = lo.
Proof.
  intros Hw Hlo. pose proof (pow2_pos w Hw).
  replace (lo + 2 ^ w * hi) with (lo + hi * 2 ^ w) by lia.
  rewrite Z.mod_add by lia.
  apply Z.mod_small; assumption.
Qed.

Lemma concat_div (w lo hi : Z) :
  0 <= w -> 0 <= lo < 2 ^ w -> (lo + 2 ^ w * hi) / 2 ^ w = hi.
Proof.
  intros Hw Hlo. pose proof (pow2_pos w Hw).
  replace (lo + 2 ^ w * hi) with (lo + hi * 2 ^ w) by lia.
  rewrite Z.div_add by lia.
  rewrite Z.div_small by assumption. lia.
Qed.

Lemma testbit_concat (w lo hi i : Z) :
  0 <= w -> 0 <= lo < 2 ^ w -> 0 <= i ->
  Z.testbit (lo + 2 ^ w * hi) i =
  if i <? w then Z.testbit lo i else Z.testbit hi (i - w).
Proof.
  intros Hw Hlo Hi. destruct (Z.ltb_spec i w).
  - rewrite <- (Z.mod_pow2_bits_low (lo + 2 ^ w * hi) w i) by lia.
    rewrite concat_mod by assumption. reflexivity.
  - rewrite <- (concat_div w lo hi) at 2 by assumption.
    rewrite Z.div_pow2_bits by lia. f_equal. lia.
Qed.

Lemma testbit_small (w x i : Z) :
  0 <= w -> 0 <= x < 2 ^ w -> w <= i -> Z.testbit x i = false.
Proof.
  intros Hw Hx Hi. rewrite <- (Z.mod_small x (2 ^ w)) by assumption.
  apply Z.mod_pow2_bits_high. lia.
Qed.

Lemma range_of_bits (x w : Z) :
  0 <= w -> (forall i, w <= i -> Z.testbit x i = false) -> 0 <= x < 2 ^ w.
Proof.
  intros Hw Hx.
  assert (E : x = x mod 2 ^ w).
  { apply Z.bits_inj'. intros i Hi. destruct (Z.ltb_spec i w).
    - rewrite Z.mod_pow2_bits_low by lia. reflexivity.
    - rewrite Z.mod_pow2_bits_high by lia. apply Hx. lia. }
  rewrite E. apply Z.mod_pos_bound, pow2_pos. assumption.
Qed.

Lemma land_range (a b w : Z) :
  0 <= w -> 0 <= a < 2 ^ w -> 0 <= Z.land a b < 2 ^ w.
Proof.
  intros Hw Ha. apply range_of_bits; [assumption|]. intros i Hi.
  rewrite Z.land_spec, (testbit_small w a i) by assumption. reflexivity.
Qed.

Lemma lor_range (a b w : Z) :
  0 <= w -> 0 <= a < 2 ^ w -> 0 <= b < 2 ^ w -> 0 <= Z.lor a b < 2 ^ w.
Proof.
  intros Hw Ha Hb. apply range_of_bits; [assumption|]. intros i Hi.
  rewrite Z.lor_spec, (testbit_small w a i), (testbit_small w b i)
    by assumption. reflexivity.
Qed.

Lemma concat_land (w a b A B : Z) :
  0 <= w -> 0 <= a < 2 ^ w -> 0 <= b < 2 ^ w ->
  Z.land (a + 2 ^ w * A) (b + 2 ^ w * B) = Z.land a b + 2 ^ w * Z.land A B.
Proof.
  intros Hw Ha Hb. apply Z.bits_inj'. intros i Hi.
  rewrite Z.land_spec.
  rewrite !testbit_concat by (auto; apply land_range; lia).
  destruct (i <? w); rewrite Z.land_spec; reflexivity.
Qed.

Lemma concat_lor (w a b A B : Z) :
  0 <= w -> 0 <= a < 2 ^ w -> 0 <= b < 2 ^ w ->
  Z.lor (a + 2 ^ w * A) (b + 2 ^ w * B) = Z.lor a b + 2 ^ w * Z.lor A B.
Proof.
  intros Hw Ha Hb. apply Z.bits_inj'. intros i Hi.
  rewrite Z.lor_spec.
  rewrite !testbit_concat by (auto; apply lor_range; lia).
  destruct (i <? w); rewrite Z.lor_spec; reflexivity.
Qed.

Lemma ones_range (n : Z) : 0 <= n -> 0 <= Z.ones n < 2 ^ n.
Proof. intros; rewrite Z.ones_equiv; pose proof (pow2_pos n); lia. Qed.

Lemma ones_concat (w n : Z) :
  0 <= w -> 0 <= n -> Z.ones (w + n) = Z.ones w + 2 ^ w * Z.ones n.
Proof.
  intros. rewrite !Z.ones_equiv, Z.pow_add_r by lia. lia.
Qed.

Lemma lowbits_mod (v n : Z) : 0 <= n -> bits.lowbits v n = v mod 2 ^ n.
Proof. intros; unfold bits.lowbits; apply Z.land_ones; assumption. Qed.

Lemma lowbits_range (v n : Z) : 0 <= n -> 0 <= bits.lowbits v n < 2 ^ n.
Proof.
  intros; rewrite lowbits_mod by assumption.
  apply Z.mod_pos_bound, pow2_pos; assumption.
Qed.

Lemma lowbits_small (v n : Z) :
  0 <= n -> 0 <= v < 2 ^ n -> bits.lowbits v n = v.
Proof. intros; rewrite lowbits_mod by assumption; apply Z.mod_small; lia. Qed.

Lemma lowbits_concat (w n lo hi : Z) :
  0 <= w -> 0 <= n -> 0 <= lo < 2 ^ w ->
  bits.lowbits (lo + 2 ^ w * hi) (w + n) = lo + 2 ^ w * bits.lowbits hi n.
Proof.
  intros Hw Hn Hlo. unfold bits.lowbits.
  rewrite ones_concat by assumption.
  rewrite concat_land by (auto using ones_range).
  rewrite Z.land_ones, Z.mod_small by lia. reflexivity.
Qed.

(** [popcount] *)
Lemma popcount_pos_pos (p : positive) : 0 < bits.popcount_pos p.
Proof. induction p; cbn [bits.popcount_pos]; lia. Qed.

Lemma popcount_nonneg (x : Z) : 0 <= bits.popcount x.
Proof.
  destruct x as [|p|p]; cbn [bits.popcount]; try lia.
  pose proof (popcount_pos_pos p); lia.
Qed.

Lemma popcount_double (x : Z) (b : bool) :
  0 <= x -> bits.popcount (Z.b2z b + 2 * x) = Z.b2z b + bits.popcount x.
Proof.
  intros Hx. destruct x as [|p|p]; [destruct b; reflexivity| |lia].
  destruct b; cbn [Z.b2z].
  - change (1 + 2 * Z.pos p) with (Z.pos p~1). reflexivity.
  - change (0 + 2 * Z.pos p) with (Z.pos p~0).
    cbn [bits.popcount bits.popcount_pos]. lia.
Qed.

Lemma popcount_concat (w : nat) (lo hi : Z) :
  0 <= lo < 2 ^ Z.of_nat w -> 0 <= hi ->
  bits.popcount (lo + 2 ^ Z.of_nat w * hi) =
  bits.popcount lo + bits.popcount hi.
Proof.
  revert lo. induction w as [|w IH]; intros lo Hlo Hhi.
  - change (2 ^ Z.of_nat 0) with 1 in *.
    replace lo with 0 by lia. replace (0 + 1 * hi) with hi by lia.
    change (bits.popcount 0) with 0. lia.
  - rewrite Nat2Z.inj_succ, Z.pow_succ_r in * by lia.
    pose proof (pow2_pos (Z.of_nat w) ltac:(lia)).
    pose proof (Z.div_mod lo 2 ltac:(lia)) as Hdm.
    pose proof (Z.mod_pos_bound lo 2 ltac:(lia)) as Hm.
    assert (Hb : lo mod 2 = Z.b2z (Z.odd lo)).
    { rewrite Zmod_odd. destruct (Z.odd lo); reflexivity. }
    assert (Hq : 0 <= lo / 2 < 2 ^ Z.of_nat w).
    { split; [apply Z.div_pos; lia|apply Z.div_lt_upper_bound; lia]. }
    replace (lo + 2 * 2 ^ Z.of_nat w * hi)
      with (Z.b2z (Z.odd lo) + 2 * (lo / 2 + 2 ^ Z.of_nat w * hi)) by lia.
    rewrite popcount_double by nia.
    rewrite IH by assumption.
    replace lo with (Z.b2z (Z.odd lo) + 2 * (lo / 2)) at 3 by lia.
    rewrite popcount_double by lia. lia.
Qed.

Lemma popcount_concat_Z (w lo hi : Z) :
  0 <= w -> 0 <= lo < 2 ^ w -> 0 <= hi ->
  bits.popcount (lo + 2 ^ w * hi) = bits.popcount lo + bits.popcount hi.
Proof.
  intros Hw. rewrite <- (Z2Nat.id w Hw). apply popcount_concat.
Qed.

Lemma popcount_pow2 (n : Z) : 0 <= n -> bits.popcount (2 ^ n) = 1.
Proof.
  intros Hn. rewrite <- (Z2Nat.id n) by assumption.
  replace (2 ^ Z.of_nat (Z.to_nat n))
    with (0 + 2 ^ Z.of_nat (Z.to_nat n) * 1) by lia.
  rewrite popcount_concat; [reflexivity| |lia].
  pose proof (pow2_pos (Z.of_nat (Z.to_nat n))); lia.
Qed.

End word_facts.

Section swar_facts.

Variable w : Z.
Hypothesis w_pos : 0 < w.

Lemma fm_mul_range (n : nat) (x : Z) :
  0 <= x < 2 ^ w -> 0 <= fm n w * x < 2 ^ (Z.of_nat n * w).
Proof.
  intros Hx. induction n as [|n IH].
  - cbn [fm]. replace (Z.of_nat 0 * w) with 0 by lia.
    rewrite Z.pow_0_r. lia.
  - cbn [fm]. rewrite Nat2Z.inj_succ.
    replace (Z.succ (Z.of_nat n) * w) with (w + Z.of_nat n * w) by lia.
    rewrite Z.pow_add_r by lia.
    pose proof (pow2_pos w ltac:(lia)). nia.
Qed.

Lemma fm_range (n : nat) : 0 <= fm n w < 2 ^ (Z.of_nat n * w).
Proof.
  pose proof (fm_mul_range n 1) as H. rewrite Z.mul_1_r in H. apply H.
  pose proof (Z.pow_gt_1 2 w); lia.
Qed.

Lemma fm_high (n : nat) : fm (S n) w = fm n w + 2 ^ (Z.of_nat n * w).
Proof.
  induction n as [|n IH].
  - cbn [fm]. replace (Z.of_nat 0 * w) with 0 by lia.
    rewrite Z.pow_0_r. lia.
  - change (fm (S (S n)) w) with (1 + 2 ^ w * fm (S n) w).
    rewrite IH at 1. cbn [fm]. rewrite Nat2Z.inj_succ.
    replace (Z.succ (Z.of_nat n) * w) with (w + Z.of_nat n * w) by lia.
    rewrite Z.pow_add_r by lia. lia.
Qed.

Lemma field_mask_loop_fm (n : nat) (mask : Z) :
  0 <= mask -> (mask + 1) * 2 ^ (Z.of_nat n * w) <= 2 ^ W ->
  packed_view.field_mask_loop n w mask = mask * 2 ^ (Z.of_nat n * w) + fm n w.
Proof.
  revert mask. induction n as [|n IH]; intros mask Hm Hb.
  - cbn [fm packed_view.field_mask_loop].
    replace (Z.of_nat 0 * w) with 0 by lia. rewrite Z.pow_0_r. lia.
  - cbn [packed_view.field_mask_loop].
    rewrite Nat2Z.inj_succ in *.
    replace (Z.succ (Z.of_nat n) * w) with (w + Z.of_nat n * w) in * by lia.
    rewrite Z.pow_add_r in * by lia.
    pose proof (pow2_pos w ltac:(lia)) as Hw.
    pose proof (pow2_pos (Z.of_nat n * w) ltac:(lia)) as Hn.
    assert (Hw2 : 2 <= 2 ^ w).
    { pose proof (Z.pow_gt_1 2 w); lia. }
    assert (E : Z.lor (wrap (Z.shiftl mask w)) 1 = 1 + 2 ^ w * mask).
    { rewrite Z.shiftl_mul_pow2 by lia. rewrite wrap_small by nia.
      pose proof (concat_lor w 0 1 mask 0 ltac:(lia) ltac:(lia) ltac:(lia))
        as Hc.
      rewrite Z.lor_0_r in Hc. change (Z.lor 0 1) with 1 in Hc.
      rewrite <- Hc. f_equal; lia. }
    rewrite E. rewrite IH by nia.
    rewrite fm_high. lia.
Qed.

Lemma compute_field_mask_fm :
  w <= W -> packed_view.built_mask w = fm (Z.to_nat (W / w)) w.
Proof.
  intros Hw. unfold packed_view.built_mask.
  assert (0 <= W / w) by (apply Z.div_pos; lia).
  rewrite field_mask_loop_fm; [lia|lia|].
  rewrite Z2Nat.id by assumption.
  rewrite Z.mul_1_l. apply Z.pow_le_mono_r; [lia|].
  rewrite Z.mul_comm. apply Z.mul_div_le. lia.
Qed.

(** A field with its flag bit set. *)
Lemma lor_flag (x : Z) :
  0 <= x < 2 ^ w ->
  Z.lor x (2 ^ (w - 1)) = bits.lowbits x (w - 1) + 2 ^ (w - 1).
Proof.
  intros Hx. pose proof (pow2_pos (w - 1) ltac:(lia)) as HF.
  rewrite lowbits_mod by lia.
  pose proof (Z.div_mod x (2 ^ (w - 1)) ltac:(lia)) as Hdm.
  pose proof (Z.mod_pos_bound x (2 ^ (w - 1)) ltac:(lia)) as Hm.
  transitivity (Z.lor (x mod 2 ^ (w - 1) + 2 ^ (w - 1) * (x / 2 ^ (w - 1)))
                      (0 + 2 ^ (w - 1) * 1)); [f_equal; lia|].
  rewrite concat_lor by lia.
  rewrite Z.lor_0_r.
  assert (Hq : 0 <= x / 2 ^ (w - 1) < 2).
  { split; [apply Z.div_pos; lia|]. apply Z.div_lt_upper_bound; [lia|].
    replace (2 ^ (w - 1) * 2) with (2 ^ w); [lia|].
    replace w with (w - 1 + 1) at 1 by lia.
    rewrite Z.pow_add_r by lia. lia. }
  assert (Hq' : x / 2 ^ (w - 1) = 0 \/ x / 2 ^ (w - 1) = 1) by lia.
  destruct Hq' as [-> | ->]; simpl (Z.lor _ 1); lia.
Qed.

(** The flag bit of a difference tells which operand is larger. *)
Lemma land_flag (r : Z) :
  0 <= r < 2 ^ w ->
  Z.land (2 ^ (w - 1)) r = if 2 ^ (w - 1) <=? r then 2 ^ (w - 1) else 0.
Proof.
  intros Hr. pose proof (pow2_pos (w - 1) ltac:(lia)) as HF.
  pose proof (Z.div_mod r (2 ^ (w - 1)) ltac:(lia)) as Hdm.
  pose proof (Z.mod_pos_bound r (2 ^ (w - 1)) ltac:(lia)) as Hm.
  assert (Hp : 2 ^ w = 2 ^ (w - 1) * 2).
  { replace w with (w - 1 + 1) at 1 by lia.
    rewrite Z.pow_add_r by lia. lia. }
  assert (Hq : 0 <= r / 2 ^ (w - 1) < 2).
  { split; [apply Z.div_pos; lia|].
    apply Z.div_lt_upper_bound; lia. }
  transitivity (Z.land (0 + 2 ^ (w - 1) * 1)
                 (r mod 2 ^ (w - 1) + 2 ^ (w - 1) * (r / 2 ^ (w - 1))));
    [f_equal; lia|].
  rewrite concat_land by lia.
  rewrite Z.land_0_l.
  assert (Hq' : r / 2 ^ (w - 1) = 0 \/ r / 2 ^ (w - 1) = 1) by lia.
  destruct (Z.leb_spec (2 ^ (w - 1)) r); destruct Hq' as [E | E];
    rewrite E in *; simpl (Z.land 1 _); lia.
Qed.

Lemma swar_step (m : nat) (x v : Z) :
  0 <= v < 2 ^ (w - 1) ->
  swar w (S m) x v =
  (if v <=? bits.lowbits (x mod 2 ^ w) (w - 1) then 2 ^ (w - 1) else 0)
  + 2 ^ w * swar w m (x / 2 ^ w) v.
Proof.
  intros Hv. unfold swar. cbn [fm].
  pose proof (pow2_pos (w - 1) ltac:(lia)) as HF.
  pose proof (pow2_pos w ltac:(lia)) as Hw.
  assert (Hp : 2 ^ w = 2 ^ (w - 1) * 2).
  { replace w with (w - 1 + 1) at 1 by lia.
    rewrite Z.pow_add_r by lia. lia. }
  pose proof (Z.div_mod x (2 ^ w) ltac:(lia)) as Hdm.
  pose proof (Z.mod_pos_bound x (2 ^ w) ltac:(lia)) as Hm.
  set (x0 := x mod 2 ^ w) in *. set (x1 := x / 2 ^ w) in *.
  set (M := fm m w).
  replace ((1 + 2 ^ w * M) * 2 ^ (w - 1))
    with (2 ^ (w - 1) + 2 ^ w * (M * 2 ^ (w - 1))) by lia.
  replace (Z.lor x (2 ^ (w - 1) + 2 ^ w * (M * 2 ^ (w - 1))))
    with (Z.lor (x0 + 2 ^ w * x1) (2 ^ (w - 1) + 2 ^ w * (M * 2 ^ (w - 1))))
    by (f_equal; lia).
  rewrite concat_lor by lia.
  rewrite lor_flag by lia.
  pose proof (lowbits_range x0 (w - 1) ltac:(lia)) as Hl.
  set (l := bits.lowbits x0 (w - 1)) in *.
  replace (l + 2 ^ (w - 1) + 2 ^ w * Z.lor x1 (M * 2 ^ (w - 1))
           - (1 + 2 ^ w * M) * v)
    with ((l + 2 ^ (w - 1) - v)
          + 2 ^ w * (Z.lor x1 (M * 2 ^ (w - 1)) - M * v)) by lia.
  rewrite concat_land by lia.
  rewrite land_flag by lia.
  f_equal.
  destruct (Z.leb_spec (2 ^ (w - 1)) (l + 2 ^ (w - 1) - v));
    destruct (Z.leb_spec v l); lia.
Qed.

Lemma swar_nonneg (m : nat) (x v : Z) : 0 <= swar w m x v.
Proof.
  unfold swar. apply Z.land_nonneg. left.
  pose proof (fm_range m). pose proof (pow2_pos (w - 1)). nia.
Qed.

Lemma swar_count (m n : nat) (x v : Z) :
  (n <= m)%nat -> 0 <= v < 2 ^ (w - 1) ->
  bits.popcount (bits.lowbits (swar w m x v) (Z.of_nat n * w)) =
  count_geq n w v x.
Proof.
  intros Hn Hv. revert m x Hn. induction n as [|n IH]; intros m x Hn.
  - replace (Z.of_nat 0 * w) with 0 by lia. unfold bits.lowbits.
    change (Z.ones 0) with 0. rewrite Z.land_0_r. reflexivity.
  - destruct m as [|m]; [lia|].
    rewrite swar_step by assumption.
    rewrite Nat2Z.inj_succ.
    replace (Z.succ (Z.of_nat n) * w) with (w + Z.of_nat n * w) by lia.
    pose proof (pow2_pos (w - 1) ltac:(lia)) as HF.
    assert (Hp : 2 ^ w = 2 ^ (w - 1) * 2).
    { replace w with (w - 1 + 1) at 1 by lia.
      rewrite Z.pow_add_r by lia. lia. }
    set (c := v <=? bits.lowbits (x mod 2 ^ w) (w - 1)).
    assert (Hc : 0 <= (if c then 2 ^ (w - 1) else 0) < 2 ^ w)
      by (destruct c; lia).
    rewrite lowbits_concat by lia.
    rewrite popcount_concat_Z; [|lia|assumption|apply lowbits_range; lia].
    rewrite IH by lia.
    cbn [count_geq]. fold c. f_equal.
    destruct c; [apply popcount_pow2; lia|reflexivity].
Qed.

End swar_facts.

Section bitview_facts.

Lemma get_testbit (v : bitview.t) (b e i : Z) :
  0 <= b <= e -> 0 <= i ->
  Z.testbit (bitview.get v b e) i =
  (i <? e - b) && Z.testbit (bitview.bits v) (i + b).
Proof.
  intros Hb Hi. unfold bitview.get.
  rewrite Z.land_spec, Z.shiftr_spec by assumption.
  rewrite Z.testbit_ones_nonneg by lia.
  apply andb_comm.
Qed.

Lemma set_testbit (v : bitview.t) (b e x i : Z) :
  0 <= b <= e -> 0 <= i ->
  Z.testbit (bitview.bits (bitview.store v b e x)) i =
  if (b <=? i) && (i <? e) then Z.testbit x (i - b)
  else Z.testbit (bitview.bits v) i.
Proof.
  intros Hb Hi. unfold bitview.store. cbn [bitview.bits].
  rewrite Z.lor_spec, Z.ldiff_spec, !Z.shiftl_spec, Z.land_spec by assumption.
  destruct (Z.leb_spec b i); cbn [andb].
  - rewrite Z.testbit_ones_nonneg by lia.
    destruct (Z.ltb_spec i e); destruct (Z.ltb_spec (i - b) (e - b)); try lia;
      cbn [negb]; rewrite ?andb_true_r, ?andb_false_r, ?orb_false_r;
      reflexivity.
  - rewrite !(Z.testbit_neg_r _ (i - b)) by lia.
    cbn [negb]. rewrite andb_true_r, orb_false_r. reflexivity.
Qed.

Lemma get_range (v : bitview.t) (b e : Z) :
  b <= e -> 0 <= bitview.get v b e < 2 ^ (e - b).
Proof.
  intros Hb. unfold bitview.get. rewrite Z.land_ones by lia.
  apply Z.mod_pos_bound, pow2_pos. lia.
Qed.

Lemma get_split (v : bitview.t) (b m e : Z) :
  0 <= b <= m -> m <= e ->
  bitview.get v b e = bitview.get v b m + 2 ^ (m - b) * bitview.get v m e.
Proof.
  intros Hb He. apply Z.bits_inj'. intros i Hi.
  rewrite testbit_concat by (try apply get_range; lia).
  rewrite !get_testbit by lia.
  destruct (Z.ltb_spec i (m - b)).
  - destruct (Z.ltb_spec i (e - b)); [reflexivity|lia].
  - rewrite get_testbit by lia.
    replace (i - (m - b) + m) with (i + b) by lia.
    destruct (Z.ltb_spec i (e - b));
      destruct (Z.ltb_spec (i - (m - b)) (e - m)); try lia; reflexivity.
Qed.

Lemma get_mod (v : bitview.t) (b m e : Z) :
  0 <= b <= m -> m <= e ->
  bitview.get v b e mod 2 ^ (m - b) = bitview.get v b m.
Proof.
  intros Hb He. rewrite (get_split v b m e) by lia.
  apply concat_mod; [lia|apply get_range; lia].
Qed.

Lemma get_div (v : bitview.t) (b m e : Z) :
  0 <= b <= m -> m <= e ->
  bitview.get v b e / 2 ^ (m - b) = bitview.get v m e.
Proof.
  intros Hb He. rewrite (get_split v b m e) by lia.
  apply concat_div; [lia|apply get_range; lia].
Qed.

(** Reading what was written, and reading next to it. *)
Lemma get_set_same (v : bitview.t) (b e x : Z) :
  0 <= b <= e ->
  bitview.get (bitview.store v b e x) b e = bits.lowbits x (e - b).
Proof.
  intros Hb. apply Z.bits_inj'. intros i Hi.
  rewrite get_testbit, set_testbit by lia.
  unfold bits.lowbits. rewrite Z.land_spec, Z.testbit_ones_nonneg by lia.
  destruct (Z.ltb_spec i (e - b)); cbn [andb].
  - destruct (Z.leb_spec b (i + b)); destruct (Z.ltb_spec (i + b) e);
      try lia; cbn [andb].
    replace (i + b - b) with i by lia. rewrite andb_true_r. reflexivity.
  - rewrite andb_false_r. reflexivity.
Qed.

Lemma get_set_other (v : bitview.t) (b e x b' e' : Z) :
  0 <= b <= e -> 0 <= b' <= e' -> e' <= b \/ e <= b' ->
  bitview.get (bitview.store v b e x) b' e' = bitview.get v b' e'.
Proof.
  intros Hb Hb' Hd. apply Z.bits_inj'. intros i Hi.
  rewrite !get_testbit, set_testbit by lia.
  destruct (Z.ltb_spec i (e' - b')); cbn [andb]; [|reflexivity].
  destruct (Z.leb_spec b (i + b')); destruct (Z.ltb_spec (i + b') e);
    try lia; reflexivity.
Qed.

End bitview_facts.

Section repeat_facts.

Variable w : Z.
Hypothesis w_pos : 0 < w.

Lemma testbit_fm_mul (n : nat) (x i : Z) :
  0 <= x < 2 ^ w -> 0 <= i ->
  Z.testbit (fm n w * x) i = (i <? Z.of_nat n * w) && Z.testbit x (i mod w).
Proof.
  intros Hx. revert i. induction n as [|n IH]; intros i Hi.
  - cbn [fm]. rewrite Z.mul_0_l, Z.testbit_0_l.
    destruct (Z.ltb_spec i (Z.of_nat 0 * w)); [lia|reflexivity].
  - cbn [fm]. replace ((1 + 2 ^ w * fm n w) * x)
      with (x + 2 ^ w * (fm n w * x)) by lia.
    rewrite testbit_concat by lia.
    rewrite Nat2Z.inj_succ.
    destruct (Z.ltb_spec i w).
    + rewrite Z.mod_small by lia.
      destruct (Z.ltb_spec i (Z.succ (Z.of_nat n) * w)); [reflexivity|nia].
    + rewrite IH by lia.
      replace ((i - w) mod w) with (i mod w).
      2:{ replace i with (i - w + 1 * w) at 1 by lia.
          apply Z.mod_add. lia. }
      f_equal.
      destruct (Z.ltb_spec (i - w) (Z.of_nat n * w));
        destruct (Z.ltb_spec i (Z.succ (Z.of_nat n) * w)); try lia;
        reflexivity.
Qed.

End repeat_facts.

Lemma fpw_pos (w : Z) : 0 < w <= W -> 0 < W / w.
Proof. intros; apply Z.div_str_pos; lia. Qed.

Lemma bpw_range (w : Z) : 0 < w <= W -> 0 < W / w * w <= W.
Proof.
  intros Hw. pose proof (fpw_pos w Hw). split; [nia|].
  rewrite Z.mul_comm. apply Z.mul_div_le. lia.
Qed.

Section repeat_loop_facts.

Variables (w lv end_ P0 : Z).
Hypothesis w_range : 0 < w <= W.
Hypothesis lv_range : 0 <= lv < 2 ^ w.

Let fpw := W / w.
Let bpw := fpw * w.
Let Eb := end_ * w.
Let rem := (Eb - P0) mod bpw.
Let value := wrap (fm (Z.to_nat fpw) w * lv).

Lemma value_testbit (i : Z) :
  0 <= i < bpw -> Z.testbit value i = Z.testbit lv (i mod w).
Proof.
  intros Hi.
  assert (Hf : 0 < fpw) by (apply fpw_pos; assumption).
  assert (Hb : 0 < bpw <= W) by (apply bpw_range; assumption).
  unfold value.
  pose proof (fm_mul_range w ltac:(lia) (Z.to_nat fpw) lv lv_range) as Hr.
  rewrite Z2Nat.id in Hr by lia. fold bpw in Hr.
  rewrite wrap_small.
  2:{ split; [lia|]. eapply Z.lt_le_trans; [apply Hr|].
      apply Z.pow_le_mono_r; lia. }
  rewrite testbit_fm_mul by lia.
  rewrite Z2Nat.id by lia. fold bpw.
  destruct (Z.ltb_spec i bpw); [reflexivity|lia].
Qed.

Lemma repeat_loop_spec (fuel : nat) :
  forall (v : packed_view.t) (p : Z),
    packed_view._width v = w ->
    0 <= P0 <= p -> p <= Eb -> Eb < 2 ^ 64 ->
    Eb <= bitview.size (packed_view._bits v) ->
    p = Eb \/ (p - P0) mod bpw = 0 ->
    (Z.to_nat (Eb - p) < fuel)%nat ->
    exists v',
      packed_view.repeat_loop fuel v end_ rem bpw value (Eb - p) p = Some v'
      /\ packed_view._width v' = w
      /\ packed_view._field_mask v' = packed_view._field_mask v
      /\ bitview.size (packed_view._bits v')
         = bitview.size (packed_view._bits v)
      /\ forall j, 0 <= j ->
           Z.testbit (bitview.bits (packed_view._bits v')) j =
           if (p <=? j) && (j <? Eb) then Z.testbit lv ((j - P0) mod w)
           else Z.testbit (bitview.bits (packed_view._bits v)) j.
Proof.
  assert (Hf : 0 < fpw) by (apply fpw_pos; assumption).
  assert (Hb : 0 < bpw <= W) by (apply bpw_range; assumption).
  induction fuel as [|fuel IH]; intros v p Hw HP Hp HE HL Hal Hfuel; [lia|].
  cbn [packed_view.repeat_loop]. unfold packed_view.width. rewrite Hw.
  fold Eb. destruct (Z.ltb_spec p Eb) as [Hlt|Hge].
  - assert (Hmod : (p - P0) mod bpw = 0) by (destruct Hal; [lia|assumption]).
    apply Z.mod_divide in Hmod; [|lia]. destruct Hmod as [q Hq].
    set (step := if Eb - p <? bpw then rem else bpw).
    assert (Hstep : 0 < step <= bpw /\ p + step <= Eb
                    /\ (p + step = Eb \/ (p + step - P0) mod bpw = 0)).
    { unfold step. destruct (Z.ltb_spec (Eb - p) bpw) as [Hs|Hs].
      - assert (rem = Eb - p).
        { unfold rem. replace (Eb - P0) with (Eb - p + q * bpw) by lia.
          rewrite Z.mod_add by lia. apply Z.mod_small. lia. }
        lia.
      - split; [lia|]. split; [lia|]. right.
        replace (p + bpw - P0) with ((q + 1) * bpw) by lia.
        apply Z.mod_mul. lia. }
    destruct Hstep as (Hs1 & Hs2 & Hs3).
    rewrite szsub_small by lia.
    replace (Eb - p - step) with (Eb - (p + step)) by lia.
    unfold bitview.set.
    destruct (Z.leb_spec (p + step) (bitview.size (packed_view._bits v)));
      [|lia].
    edestruct (IH (packed_view.mk
                     (bitview.store (packed_view._bits v) p (p + step) value)
                     w (packed_view._field_mask v))
                  (p + step)) as (v' & Hv' & Hw' & Hm' & Hsz' & Hbits);
      try assumption; try reflexivity; try lia.
    exists v'. split; [exact Hv'|]. split; [exact Hw'|].
    split; [exact Hm'|]. split; [exact Hsz'|].
    intros j Hj. rewrite Hbits by assumption.
    cbn [packed_view._bits]. rewrite set_testbit by lia.
    destruct (Z.leb_spec (p + step) j); destruct (Z.ltb_spec j Eb);
      destruct (Z.leb_spec p j); destruct (Z.ltb_spec j (p + step));
      cbn [andb]; try lia; try reflexivity.
    rewrite value_testbit by lia. f_equal.
    replace (j - P0) with (j - p + (q * fpw) * w) by (unfold bpw in Hq; lia).
    rewrite Z.mod_add by lia. reflexivity.
  - exists v. repeat split; try assumption. intros j Hj.
    destruct (Z.leb_spec p j); destruct (Z.ltb_spec j Eb); cbn [andb];
      try lia; reflexivity.
Qed.

End repeat_loop_facts.

(** * The packed view: [repeat] and [find] *)

(** Reads and writes through [operator[]], inside and outside the view. *)
Lemma item_inside (v : packed_view.t) (k : Z) :
  k < packed_view.size v -> packed_view.item v k = Ok (packed_view.value v k).
Proof.
  intros Hk. unfold packed_view.item, packed_view.subscript, assert.
  destruct (Z.ltb_spec k (packed_view.size v)); [reflexivity|lia].
Qed.

Lemma item_outside (v : packed_view.t) (k : Z) :
  packed_view.size v <= k -> packed_view.item v k = Err AssertionFailure.
Proof.
  intros Hk. unfold packed_view.item, packed_view.subscript, assert.
  destruct (Z.ltb_spec k (packed_view.size v)); [lia|reflexivity].
Qed.

Lemma fields_fit (v : packed_view.t) (n : Z) :
  0 < packed_view.width v -> n <= packed_view.size v ->
  n * packed_view.width v <= bitview.size (packed_view._bits v).
Proof.
  unfold packed_view.size, packed_view.width. intros Hw Hn.
  pose proof (Z.mul_div_le (bitview.size (packed_view._bits v))
                           (packed_view._width v) Hw).
  nia.
Qed.

(** C9.  On a packed view of field width [w], [0 < w < W], whose field
    mask is the one the constructor computes, and for [n] up to the number
    of fields of the view, [repeat(0, n, pattern)] terminates and
    afterwards every field [i] of [[0, n)], read through [operator[]],
    is [lowbits(pattern, w)]. *)
Theorem repeat_get (v : packed_view.t) (n pattern : Z) :
  0 < packed_view.width v < W ->
  packed_view.field_mask v = packed_view.built_mask (packed_view.width v) ->
  0 <= n <= packed_view.size v -> n * packed_view.width v < 2 ^ 64 ->
  exists v',
    packed_view.repeat v 0 n pattern = Some v' /\
    forall i, 0 <= i < n ->
      packed_view.item v' i = Ok (bits.lowbits pattern (packed_view.width v)).
Proof.
  intros Hw Hm Hn Hb. set (w := packed_view.width v) in *.
  pose proof (fields_fit v n ltac:(fold w; lia) ltac:(lia)) as Hfit.
  fold w in Hfit.
  unfold packed_view.repeat. fold w. rewrite Hm.
  rewrite compute_field_mask_fm by lia.
  assert (Hn64 : n < 2 ^ 64) by nia.
  rewrite szsub_small by lia. rewrite Z.sub_0_r.
  pose proof (lowbits_range pattern w ltac:(lia)) as Hl.
  destruct (repeat_loop_spec w (bits.lowbits pattern w) n (0 * w)
              ltac:(lia) Hl (S (Z.to_nat (n * w))) v (0 * w))
    as (v' & Hv' & Hw' & _ & Hsz' & Hbits); try lia; try reflexivity.
  { right. replace (0 * w - 0 * w) with 0 by lia. apply Z.mod_0_l.
    pose proof (bpw_range w ltac:(lia)). lia. }
  replace (n * w - 0 * w) with (n * w) in Hv' by lia.
  exists v'. split; [exact Hv'|]. intros i Hi.
  rewrite item_inside.
  2:{ unfold packed_view.size. rewrite Hsz', Hw'.
      change (i < packed_view.size v). lia. }
  f_equal.
  unfold packed_view.value, packed_view.get, packed_view.width. rewrite Hw'.
  apply Z.bits_inj'. intros j Hj.
  rewrite get_testbit by nia.
  unfold bits.lowbits at 1. rewrite Z.land_spec.
  rewrite (Z.testbit_ones_nonneg w j) by lia.
  replace ((i + 1) * w - i * w) with w by lia.
  destruct (Z.ltb_spec j w); cbn [andb]; [|rewrite andb_false_r; reflexivity].
  rewrite Hbits by lia.
  destruct (Z.leb_spec (0 * w) (j + i * w));
    destruct (Z.ltb_spec (j + i * w) (n * w)); cbn [andb]; try nia.
  replace (j + i * w - 0 * w) with (j + i * w) by lia.
  rewrite Z.mod_add, Z.mod_small by lia.
  unfold bits.lowbits. rewrite Z.land_spec, Z.testbit_ones_nonneg by lia.
  destruct (Z.ltb_spec j w); [|lia]. reflexivity.
Qed.

(** C9 at [repeat_example] with pattern 77. *)
Lemma repeat_get_witness :
  exists v',
    packed_view.repeat repeat_example 0 10 77 = Some v' /\
    forall i, 0 <= i < 10 ->
      packed_view.item v' i
      = Ok (bits.lowbits 77 (packed_view.width repeat_example)).
Proof.
  apply (repeat_get repeat_example 10 77); vm_compute; try reflexivity;
    try (split; reflexivity); try (split; discriminate); try discriminate.
Defined.

Section count_facts.

Lemma count_range_bound (n : nat) (i : Z) (P : Z -> bool) :
  0 <= count_range n i P <= Z.of_nat n.
Proof.
  revert i. induction n as [|n IH]; intros i; cbn [count_range]; [lia|].
  specialize (IH (i + 1)). destruct (P i); lia.
Qed.

Lemma count_range_app (n m : nat) (i : Z) (P : Z -> bool) :
  count_range (n + m) i P =
  count_range n i P + count_range m (i + Z.of_nat n) P.
Proof.
  revert i. induction n as [|n IH]; intros i.
  - cbn [count_range Nat.add]. replace (i + Z.of_nat 0) with i by lia. lia.
  - cbn [count_range Nat.add]. rewrite IH.
    replace (i + 1 + Z.of_nat n) with (i + Z.of_nat (S n)) by lia. lia.
Qed.

Lemma count_range_negb (n : nat) (i : Z) (P : Z -> bool) :
  count_range n i (fun j => negb (P j)) = Z.of_nat n - count_range n i P.
Proof.
  revert i. induction n as [|n IH]; intros i; cbn [count_range]; [lia|].
  rewrite IH. destruct (P i); cbn [negb]; lia.
Qed.

Lemma count_range_ext (n : nat) (i : Z) (P Q : Z -> bool) :
  (forall j, i <= j < i + Z.of_nat n -> P j = Q j) ->
  count_range n i P = count_range n i Q.
Proof.
  revert i. induction n as [|n IH]; intros i H; cbn [count_range]; [lia|].
  rewrite (H i) by lia. rewrite (IH (i + 1)); [reflexivity|].
  intros j Hj. apply H. lia.
Qed.

End count_facts.

Section find_facts.

Variable w : Z.
Hypothesis w_range : 0 < w <= W.

Lemma swar_diff_range (m : nat) (x v : Z) :
  0 <= x < 2 ^ (Z.of_nat m * w) -> 0 <= v < 2 ^ (w - 1) ->
  0 <= Z.lor x (fm m w * 2 ^ (w - 1)) - fm m w * v < 2 ^ (Z.of_nat m * w).
Proof.
  intros Hx Hv. revert x Hx. induction m as [|m IH]; intros x Hx.
  - cbn [fm]. replace (Z.of_nat 0 * w) with 0 in * by lia.
    rewrite Z.pow_0_r in *. replace x with 0 by lia. simpl. lia.
  - cbn [fm]. rewrite Nat2Z.inj_succ in *.
    replace (Z.succ (Z.of_nat m) * w) with (w + Z.of_nat m * w) in * by lia.
    rewrite Z.pow_add_r in * by lia.
    pose proof (pow2_pos (w - 1) ltac:(lia)) as HF.
    pose proof (pow2_pos w ltac:(lia)) as Hw.
    pose proof (pow2_pos (Z.of_nat m * w) ltac:(lia)) as Hmw.
    assert (Hp : 2 ^ w = 2 ^ (w - 1) * 2).
    { replace w with (w - 1 + 1) at 1 by lia.
      rewrite Z.pow_add_r by lia. lia. }
    pose proof (Z.div_mod x (2 ^ w) ltac:(lia)) as Hdm.
    pose proof (Z.mod_pos_bound x (2 ^ w) ltac:(lia)) as Hm.
    assert (Hq : 0 <= x / 2 ^ w < 2 ^ (Z.of_nat m * w)).
    { split; [apply Z.div_pos; lia|apply Z.div_lt_upper_bound; lia]. }
    specialize (IH _ Hq).
    set (x0 := x mod 2 ^ w) in *. set (x1 := x / 2 ^ w) in *.
    set (M := fm m w) in *.
    replace ((1 + 2 ^ w * M) * 2 ^ (w - 1))
      with (2 ^ (w - 1) + 2 ^ w * (M * 2 ^ (w - 1))) by lia.
    replace (Z.lor x (2 ^ (w - 1) + 2 ^ w * (M * 2 ^ (w - 1))))
      with (Z.lor (x0 + 2 ^ w * x1)
                  (2 ^ (w - 1) + 2 ^ w * (M * 2 ^ (w - 1))))
      by (f_equal; lia).
    rewrite concat_lor by lia.
    rewrite lor_flag by lia.
    pose proof (lowbits_range x0 (w - 1) ltac:(lia)) as Hl.
    nia.
Qed.

Lemma pv_get_mod (v : packed_view.t) (p n : Z) :
  packed_view.width v = w -> 0 <= p -> 0 <= n ->
  packed_view.get v p (p + 1 + n) mod 2 ^ w = packed_view.value v p.
Proof.
  intros Hw Hp Hn. unfold packed_view.value, packed_view.get. rewrite Hw.
  replace (2 ^ w) with (2 ^ ((p + 1) * w - p * w)) by (f_equal; lia).
  apply get_mod; nia.
Qed.

Lemma pv_get_div (v : packed_view.t) (p n : Z) :
  packed_view.width v = w -> 0 <= p -> 0 <= n ->
  packed_view.get v p (p + 1 + n) / 2 ^ w = packed_view.get v (p + 1) (p + 1 + n).
Proof.
  intros Hw Hp Hn. unfold packed_view.get. rewrite Hw.
  replace (2 ^ w) with (2 ^ ((p + 1) * w - p * w)) by (f_equal; lia).
  apply get_div; nia.
Qed.

Lemma count_geq_get (n : nat) (v : packed_view.t) (th p : Z) :
  packed_view.width v = w -> 0 <= p ->
  count_geq n w th (packed_view.get v p (p + Z.of_nat n)) =
  count_range n p
    (fun i => th <=? bits.lowbits (packed_view.value v i) (w - 1)).
Proof.
  intros Hw. revert p. induction n as [|n IH]; intros p Hp;
    cbn [count_geq count_range]; [reflexivity|].
  replace (p + Z.of_nat (S n)) with (p + 1 + Z.of_nat n) by lia.
  rewrite pv_get_mod, pv_get_div by (assumption || lia).
  f_equal. apply IH. lia.
Qed.

Variables (v : packed_view.t) (begin end_ th : Z).
Hypothesis v_width : packed_view.width v = w.
Hypothesis v_mask :
  packed_view.field_mask v = packed_view.built_mask w.
Hypothesis th_range : 0 <= th < 2 ^ (w - 1).

Let fpw := W / w.
Let rem := (end_ - begin) mod fpw.
Let value := wrap (packed_view.field_mask v * th).
Let geq := fun i => th <=? bits.lowbits (packed_view.value v i) (w - 1).

Lemma find_loop_spec (fuel : nat) :
  forall (p result : Z),
    0 <= begin <= p -> p <= end_ ->
    p = end_ \/ (p - begin) mod fpw = 0 ->
    (Z.to_nat (end_ - p) < fuel)%nat ->
    end_ - p <= result < 2 ^ 64 ->
    packed_view.find_loop fuel v end_ rem fpw value result (end_ - p) p =
    Some (result - count_range (Z.to_nat (end_ - p)) p geq).
Proof.
  assert (Hf : 0 < fpw) by (apply fpw_pos; assumption).
  assert (Hb : 0 < fpw * w <= W) by (apply bpw_range; assumption).
  induction fuel as [|fuel IH]; intros p result HP Hp Hal Hfuel Hres; [lia|].
  cbn [packed_view.find_loop].
  destruct (Z.ltb_spec p end_) as [Hlt|Hge].
  - assert (Hmod : (p - begin) mod fpw = 0) by (destruct Hal; [lia|assumption]).
    apply Z.mod_divide in Hmod; [|lia]. destruct Hmod as [q Hq].
    set (step := if end_ - p <? fpw then rem else fpw).
    assert (Hstep : 0 < step <= fpw /\ p + step <= end_
                    /\ (p + step = end_ \/ (p + step - begin) mod fpw = 0)).
    { unfold step. destruct (Z.ltb_spec (end_ - p) fpw) as [Hs|Hs].
      - assert (rem = end_ - p).
        { unfold rem. replace (end_ - begin) with (end_ - p + q * fpw) by lia.
          rewrite Z.mod_add by lia. apply Z.mod_small. lia. }
        lia.
      - split; [lia|]. split; [lia|]. right.
        replace (p + fpw - begin) with ((q + 1) * fpw) by lia.
        apply Z.mod_mul. lia. }
    destruct Hstep as (Hs1 & Hs2 & Hs3).
    set (x := packed_view.get v p (p + step)).
    assert (Hx : 0 <= x < 2 ^ (Z.of_nat (Z.to_nat fpw) * w)).
    { unfold x, packed_view.get. rewrite v_width.
      pose proof (get_range (packed_view._bits v) (p * w) ((p + step) * w)
                    ltac:(nia)) as Hg.
      split; [lia|]. eapply Z.lt_le_trans; [apply Hg|].
      apply Z.pow_le_mono_r; [lia|]. rewrite Z2Nat.id by lia. nia. }
    assert (Hflag : packed_view.flag_mask v
                    = fm (Z.to_nat fpw) w * 2 ^ (w - 1)).
    { unfold packed_view.flag_mask.
      change (packed_view._field_mask v) with (packed_view.field_mask v).
      change (packed_view._width v) with (packed_view.width v).
      rewrite v_mask, v_width, compute_field_mask_fm by lia.
      rewrite Z.shiftl_mul_pow2 by lia. apply wrap_small.
      pose proof (fm_mul_range w ltac:(lia) (Z.to_nat fpw) (2 ^ (w - 1))) as Hr.
      rewrite Z2Nat.id in Hr by lia.
      assert (2 ^ (w - 1) < 2 ^ w) by (apply Z.pow_lt_mono_r; lia).
      pose proof (pow2_pos (w - 1) ltac:(lia)).
      specialize (Hr ltac:(lia)). split; [lia|].
      eapply Z.lt_le_trans; [apply Hr|]. apply Z.pow_le_mono_r; lia. }
    assert (Hvalue : value = fm (Z.to_nat fpw) w * th).
    { unfold value. rewrite v_mask, compute_field_mask_fm by lia.
      apply wrap_small.
      assert (2 ^ (w - 1) < 2 ^ w) by (apply Z.pow_lt_mono_r; lia).
      pose proof (fm_mul_range w ltac:(lia) (Z.to_nat fpw) th ltac:(lia)) as Hr.
      rewrite Z2Nat.id in Hr by lia. split; [lia|].
      eapply Z.lt_le_trans; [apply Hr|]. apply Z.pow_le_mono_r; lia. }
    assert (Hcnt :
      bits.popcount
        (bits.lowbits
           (Z.land (packed_view.flag_mask v)
                   (wrap (Z.lor x (packed_view.flag_mask v) - value)))
           (step * packed_view.width v))
      = count_range (Z.to_nat step) p geq).
    { rewrite Hflag, Hvalue.
      pose proof (swar_diff_range (Z.to_nat fpw) x th Hx th_range) as Hd.
      rewrite (wrap_small (Z.lor x _ - _)).
      2:{ split; [lia|]. eapply Z.lt_le_trans; [apply Hd|].
          apply Z.pow_le_mono_r; [lia|]. rewrite Z2Nat.id by lia. lia. }
      change (Z.land (fm (Z.to_nat fpw) w * 2 ^ (w - 1))
                (Z.lor x (fm (Z.to_nat fpw) w * 2 ^ (w - 1))
                 - fm (Z.to_nat fpw) w * th))
        with (swar w (Z.to_nat fpw) x th).
      rewrite v_width.
      replace (step * w) with (Z.of_nat (Z.to_nat step) * w)
        by (rewrite Z2Nat.id by lia; reflexivity).
      rewrite swar_count by lia.
      unfold x. replace (p + step) with (p + Z.of_nat (Z.to_nat step))
        by (rewrite Z2Nat.id by lia; reflexivity).
      rewrite count_geq_get by (assumption || lia).
      reflexivity. }
    rewrite Hcnt.
    pose proof (count_range_bound (Z.to_nat step) p geq) as Hc.
    rewrite !szsub_small by lia.
    replace (end_ - p - step) with (end_ - (p + Z.of_nat (Z.to_nat step)))
      by lia.
    replace (Z.to_nat (end_ - p))
      with (Z.to_nat step + Z.to_nat (end_ - (p + Z.of_nat (Z.to_nat step))))%nat
      by lia.
    rewrite count_range_app.
    rewrite Z2Nat.id by lia.
    rewrite IH by lia. f_equal. lia.
  - replace (Z.to_nat (end_ - p)) with O by lia. cbn [count_range].
    f_equal. lia.
Qed.

End find_facts.

(** C4, as amended.  For a range [[begin, end)] within the size of a packed
    view of field width [w], [find(begin, end, value)] returns the number of
    fields of the range whose [w - 1] low bits are strictly below the [w - 1]
    low bits of [value]: the flag bit of the fields and of the threshold is
    left out of the comparison.  When the fields of the range and [value] are
    all below [2^(w-1)], this is the number of fields strictly below
    [value]. *)
Theorem find_counts_below (v : packed_view.t) (begin end_ value : Z) :
  0 < packed_view.width v < W ->
  packed_view.field_mask v = packed_view.built_mask (packed_view.width v) ->
  0 <= begin <= end_ -> end_ <= packed_view.size v -> end_ < 2 ^ 64 ->
  packed_view.find v begin end_ value =
  Some (fields_below v begin end_
          (fun a => bits.lowbits a (packed_view.width v - 1)
                    <? bits.lowbits value (packed_view.width v - 1)))
  /\ ((forall i, begin <= i < end_ ->
         packed_view.value v i < 2 ^ (packed_view.width v - 1)) ->
      0 <= value < 2 ^ (packed_view.width v - 1) ->
      packed_view.find v begin end_ value =
      Some (fields_below v begin end_ (fun a => a <? value))).
Proof.
  intros Hw Hm Hb _ He. set (w := packed_view.width v) in *.
  assert (Hfind :
    packed_view.find v begin end_ value =
    Some (fields_below v begin end_
            (fun a => bits.lowbits a (w - 1) <? bits.lowbits value (w - 1)))).
  { unfold packed_view.find. fold w.
    rewrite szsub_small by lia.
    pose proof (lowbits_range value (w - 1) ltac:(lia)) as Hth.
    pose proof (find_loop_spec w ltac:(lia) v begin end_
                  (bits.lowbits value (w - 1)) eq_refl Hm Hth
                  (S (Z.to_nat (end_ - begin))) begin (end_ - begin)) as Hl.
    rewrite Hl; try lia.
    2:{ right. rewrite Z.sub_diag. apply Z.mod_0_l.
        pose proof (fpw_pos w ltac:(lia)). lia. }
    f_equal. unfold fields_below.
    rewrite <- (Z2Nat.id (end_ - begin)) at 1 by lia.
    rewrite <- count_range_negb. apply count_range_ext.
    intros j _. cbn beta.
    destruct (Z.leb_spec (bits.lowbits value (w - 1))
                (bits.lowbits (packed_view.value v j) (w - 1)));
      destruct (Z.ltb_spec (bits.lowbits (packed_view.value v j) (w - 1))
                  (bits.lowbits value (w - 1))); cbn [negb]; lia. }
  split; [exact Hfind|]. intros Hitems Hval. rewrite Hfind. f_equal.
  unfold fields_below. apply count_range_ext. intros j Hj. cbn beta.
  rewrite (lowbits_small value) by lia.
  rewrite (lowbits_small (packed_view.value v j)); [reflexivity|lia|].
  split; [|apply Hitems; lia].
  unfold packed_view.value, packed_view.get. apply get_range. fold w. nia.
Qed.

(** The theorem at [find_example], on its only field, with threshold 2. *)
Lemma find_counts_below_witness :
  packed_view.find find_example 0 1 2 =
  Some (fields_below find_example 0 1
          (fun a => bits.lowbits a (packed_view.width find_example - 1)
                    <? bits.lowbits 2 (packed_view.width find_example - 1))).
Proof.
  apply (find_counts_below find_example 0 1 2); vm_compute; try reflexivity;
    try (split; reflexivity); try discriminate;
    try (split; discriminate).
Defined.

(** C4, as stated, fails: the field holds 1, which is below
    [lowbits(2, 2) = 2], and [find] counts no field. *)
Lemma find_claim_counterexample :
  packed_view.find find_example 0 1 2 <>
  Some (fields_below find_example 0 1
          (fun a => a <? bits.lowbits 2 (packed_view.width find_example))).
Proof. vm_compute. discriminate. Qed.

(** The values at the counterexample. *)
Example find_example_values :
  packed_view.value find_example 0 = 1 /\
  bits.lowbits 2 (packed_view.width find_example) = 2 /\
  packed_view.find find_example 0 1 2 = Some 0.
Proof. vm_compute. repeat split. Qed.

Section range_facts.

Lemma in_range (n k : Z) : In k (tree.range n) <-> 0 <= k < n.
Proof.
  unfold tree.range. rewrite in_map_iff. split.
  - intros (i & <- & Hi). apply in_seq in Hi. lia.
  - intros Hk. exists (Z.to_nat k). split; [lia|]. apply in_seq. lia.
Qed.

Lemma forallb_range (n : Z) (f : Z -> bool) :
  forallb f (tree.range n) = true <-> forall k, 0 <= k < n -> f k = true.
Proof.
  rewrite forallb_forall. split; intros H k Hk; apply H, in_range, Hk.
Qed.

End range_facts.

(** Counting below a threshold in a non-decreasing sequence. *)
Section monotone_facts.

Variables (f : Z -> Z) (x : Z).

Lemma count_lt_monotone (n : nat) (i : Z) :
  (forall j, i <= j < i + Z.of_nat n - 1 -> f j <= f (j + 1)) ->
  let m := count_range n i (fun j => f j <? x) in
  0 <= m <= Z.of_nat n
  /\ (forall j, i <= j < i + m -> f j < x)
  /\ (forall j, i + m <= j < i + Z.of_nat n -> x <= f j).
Proof.
  revert i. induction n as [|n IH]; intros i Hmono; cbn zeta.
  - cbn [count_range]. repeat split; intros; lia.
  - cbn [count_range].
    specialize (IH (i + 1) ltac:(intros j Hj; apply Hmono; lia)).
    cbn zeta in IH. destruct IH as (Hm & Hlt & Hge).
    destruct (Z.ltb_spec (f i) x) as [Hi|Hi].
    + split; [lia|]. split.
      * intros j Hj. destruct (Z.eq_dec j i) as [->|]; [assumption|].
        apply Hlt. lia.
      * intros j Hj. apply Hge. lia.
    + assert (Hall : forall j, i <= j < i + Z.of_nat (S n) -> x <= f j).
      { intros j Hj.
        assert (Hk : forall k : nat, i + Z.of_nat k < i + Z.of_nat (S n) ->
                                     x <= f (i + Z.of_nat k)).
        { induction k as [|k IHk]; intros Hb.
          - replace (i + Z.of_nat 0) with i by lia. assumption.
          - replace (i + Z.of_nat (S k)) with (i + Z.of_nat k + 1) by lia.
            specialize (IHk ltac:(lia)).
            specialize (Hmono (i + Z.of_nat k) ltac:(lia)). lia. }
        replace j with (i + Z.of_nat (Z.to_nat (j - i))) by lia.
        apply Hk. lia. }
      assert (Hz : count_range n (i + 1) (fun j => f j <? x) = 0).
      { destruct (Z.eq_dec (count_range n (i + 1) (fun j => f j <? x)) 0)
          as [|Hne]; [assumption|].
        specialize (Hlt (i + 1) ltac:(lia)).
        specialize (Hall (i + 1) ltac:(lia)). lia. }
      rewrite Hz. split; [lia|]. split; [intros; lia|].
      intros j Hj. apply Hall. lia.
Qed.

End monotone_facts.

Section node_facts.

Import bitvector.

Lemma count_range_shift (n : nat) (i : Z) (P : Z -> bool) :
  count_range n i P = count_range n 0 (fun k => P (i + k)).
Proof.
  revert i P. induction n as [|n IH]; intros i P; cbn [count_range];
    [reflexivity|].
  rewrite Z.add_0_r. f_equal.
  rewrite (IH (i + 1) P), (IH (0 + 1) (fun k => P (i + k))).
  apply count_range_ext. intros j _. f_equal. lia.
Qed.

Lemma flag_mask_fm (a : packed_view.t) (w : Z) :
  0 < w <= W ->
  packed_view.width a = w ->
  packed_view.field_mask a = packed_view.built_mask w ->
  packed_view.flag_mask a = fm (Z.to_nat (W / w)) w * 2 ^ (w - 1).
Proof.
  intros Hw Ha Hm. unfold packed_view.flag_mask.
  change (packed_view._field_mask a) with (packed_view.field_mask a).
  change (packed_view._width a) with (packed_view.width a).
  rewrite Hm, Ha, compute_field_mask_fm by lia.
  rewrite Z.shiftl_mul_pow2 by lia. apply wrap_small.
  pose proof (fpw_pos w Hw) as Hf. pose proof (bpw_range w Hw) as Hb.
  pose proof (fm_mul_range w ltac:(lia) (Z.to_nat (W / w)) (2 ^ (w - 1))) as Hr.
  rewrite Z2Nat.id in Hr by lia.
  assert (2 ^ (w - 1) < 2 ^ w) by (apply Z.pow_lt_mono_r; lia).
  pose proof (pow2_pos (w - 1) ltac:(lia)).
  specialize (Hr ltac:(lia)). split; [lia|].
  eapply Z.lt_le_trans; [apply Hr|]. apply Z.pow_le_mono_r; lia.
Qed.

Variable v : t.
Hypothesis Hparams : tree.params_ok v = true.

Let c := counter_width v.
Let d := degree v.

Lemma params_facts :
  0 < c <= W /\ d = W / c /\ 0 < d /\ d * c <= W
  /\ packed_view.width (_sizes v) = c
  /\ packed_view.field_mask (_sizes v) = packed_view.built_mask c
  /\ 0 <= packed_view.width (_pointers v)
  /\ 0 <= packed_view.width (_ranks v)
  /\ 0 <= _height v < 2 ^ 64.
Proof.
  unfold tree.params_ok in Hparams. fold c d in Hparams.
  repeat (apply andb_prop in Hparams; destruct Hparams as [Hparams ?]).
  assert (Hc : 0 < c <= W) by lia.
  assert (Hd : d = W / c) by lia.
  pose proof (fpw_pos c Hc). pose proof (bpw_range c Hc).
  repeat split; try lia.
Qed.

Variables (idx h size rk : Z).
Hypothesis Hnode : tree.node_ok v idx size = true.
Hypothesis Hh : 0 < h < 2 ^ 64.

Let r := ref idx h size rk.
Let cm := tree.cum v idx size.

Lemma node_facts :
  0 <= idx /\ 0 <= size < 2 ^ (c - 1)
  /\ (forall k, 0 <= k <= d -> cm (k - 1) <= cm k)
  /\ (forall k, 0 <= k <= d -> cm (k - 1) < size -> cm (k - 1) < cm k)
  /\ (forall k, 0 <= k <= d -> cm (k - 1) < cm k -> tree.ptr v idx k <> 0).
Proof.
  unfold tree.node_ok in Hnode. fold c d cm in Hnode.
  apply andb_prop in Hnode. destruct Hnode as [Hn Hall].
  repeat (apply andb_prop in Hn; destruct Hn as [Hn ?]).
  rewrite forallb_range in Hall.
  split; [lia|]. split; [lia|].
  repeat split; intros k Hk; specialize (Hall k ltac:(lia));
    repeat (apply andb_prop in Hall; destruct Hall as [Hall ?]).
  - lia.
  - intros Hlt.
    destruct (Z.ltb_spec (cm (k - 1)) size); [|lia].
    destruct (Z.ltb_spec (cm (k - 1)) (cm k)); [lia|discriminate].
  - intros Hlt.
    destruct (Z.ltb_spec (cm (k - 1)) (cm k)); [|lia].
    destruct (Z.eqb_spec (tree.ptr v idx k) 0); [discriminate|assumption].
Qed.

Lemma cum_bounds (k : Z) : -1 <= k <= d -> 0 <= cm k <= size.
Proof.
  destruct node_facts as (Hi & Hs & Hmono & _).
  destruct params_facts as (Hc & _ & Hd & _).
  intros Hk.
  assert (Hlow : forall n : nat, Z.of_nat n <= d + 1 ->
                                 0 <= cm (Z.of_nat n - 1)).
  { induction n as [|n IHn]; intros Hb.
    - unfold cm, tree.cum. simpl. lia.
    - specialize (IHn ltac:(lia)).
      specialize (Hmono (Z.of_nat (S n) - 1) ltac:(lia)).
      replace (Z.of_nat (S n) - 1 - 1) with (Z.of_nat n - 1) in Hmono by lia.
      lia. }
  assert (Hup : forall n : nat, Z.of_nat n <= d + 1 ->
                                cm (d - Z.of_nat n) <= size).
  { induction n as [|n IHn]; intros Hb.
    - unfold cm, tree.cum. fold d. rewrite Z.sub_0_r.
      destruct (Z.ltb_spec d 0); [lia|].
      destruct (Z.ltb_spec d d); lia.
    - specialize (IHn ltac:(lia)).
      specialize (Hmono (d - Z.of_nat n) ltac:(lia)).
      replace (d - Z.of_nat n - 1) with (d - Z.of_nat (S n)) in Hmono by lia.
      lia. }
  split.
  - specialize (Hlow (Z.to_nat (k + 1)) ltac:(lia)).
    replace (Z.of_nat (Z.to_nat (k + 1)) - 1) with k in Hlow by lia. lia.
  - specialize (Hup (Z.to_nat (d - k)) ltac:(lia)).
    replace (d - Z.of_nat (Z.to_nat (d - k))) with k in Hup by lia. lia.
Qed.

Lemma is_node_r : is_node r = true.
Proof. unfold is_node, r. cbn. apply Z.ltb_lt. lia. Qed.

Lemma sizes_at_ok (k : Z) :
  0 <= k < d -> sizes_at v r k = Ok (cm k).
Proof.
  intros Hk. unfold sizes_at, sizes_range. rewrite is_node_r.
  fold d. cbn [assert bind].
  destruct (Z.ltb_spec k d); [|lia]. destruct (Z.leb_spec (k + 1) d); [|lia].
  cbn [assert bind]. unfold cm, tree.cum. fold d.
  destruct (Z.ltb_spec k 0); [lia|]. destruct (Z.ltb_spec k d); [|lia].
  reflexivity.
Qed.

Lemma ranks_at_ok (k : Z) :
  0 <= k < d -> exists x, ranks_at v r k = Ok x.
Proof.
  intros Hk. unfold ranks_at, ranks_range. rewrite is_node_r.
  fold d. cbn [assert bind].
  destruct (Z.ltb_spec k d); [|lia]. destruct (Z.leb_spec (k + 1) d); [|lia].
  cbn [assert bind]. eexists. reflexivity.
Qed.

Lemma pointers_at_ok (k : Z) :
  0 <= k <= d -> pointers_at v r k = Ok (tree.ptr v idx k).
Proof.
  intros Hk. unfold pointers_at, pointers_range. rewrite is_node_r.
  fold d. cbn [assert bind].
  destruct (Z.eqb_spec k (k + 1)); [lia|]. cbn [orb].
  destruct (Z.ltb_spec k (d + 1)); [|lia].
  destruct (Z.leb_spec (k + 1) (d + 1)); [|lia].
  cbn [assert bind]. unfold tree.ptr. fold d. unfold r. cbn [t_index].
  rewrite Z.add_assoc. reflexivity.
Qed.

(** The SWAR search counts the counters below the index. *)
Lemma find_insert_point_count (index : Z) :
  0 <= index < 2 ^ (c - 1) ->
  exists sw,
    sizes_word v r = Ok sw /\
    bits.popcount
      (Z.land (size_flag_mask v)
              (wrap (sw - wrap (index_mask v * wrap index))))
    = d - count_range (Z.to_nat d) 0 (fun k => cm k <? index).
Proof.
  intros Hidx.
  destruct params_facts as (Hc & Hd & Hd0 & Hdc & Hw & Hm & _).
  destruct node_facts as (Hi & Hs & _).
  unfold sizes_word, sizes_range. rewrite is_node_r. fold d.
  cbn [assert bind].
  destruct (Z.ltb_spec 0 d); [|lia]. destruct (Z.leb_spec d d); [|lia].
  cbn [assert bind]. eexists. split; [reflexivity|].
  unfold packed_array.get_flagged, size_flag_mask, index_mask,
    packed_array.flagbit_mask, packed_array.index_mask.
  rewrite (flag_mask_fm (_sizes v) c Hc Hw Hm), Hm.
  rewrite compute_field_mask_fm by lia.
  rewrite <- Hd.
  change (t_index r) with idx.
  set (x := packed_view.get (_sizes v) (idx * d + 0) (idx * d + d)).
  assert (Hpow : 2 ^ (c - 1) < 2 ^ c) by (apply Z.pow_lt_mono_r; lia).
  assert (Hcw : 2 ^ c <= 2 ^ W) by (apply Z.pow_le_mono_r; lia).
  assert (Hdw : 2 ^ (Z.of_nat (Z.to_nat d) * c) <= 2 ^ W).
  { apply Z.pow_le_mono_r; [lia|]. rewrite Z2Nat.id by lia. lia. }
  assert (Hx : 0 <= x < 2 ^ (Z.of_nat (Z.to_nat d) * c)).
  { unfold x, packed_view.get. rewrite Hw.
    pose proof (get_range (packed_view._bits (_sizes v))
                  ((idx * d + 0) * c) ((idx * d + d) * c) ltac:(nia)) as Hg.
    rewrite Z2Nat.id by lia.
    replace ((idx * d + d) * c - (idx * d + 0) * c) with (d * c) in Hg by lia.
    exact Hg. }
  rewrite (wrap_small index) by lia.
  pose proof (fm_mul_range c ltac:(lia) (Z.to_nat d) index ltac:(lia)) as Hv.
  rewrite (wrap_small (fm _ _ * index)) by lia.
  pose proof (swar_diff_range c Hc (Z.to_nat d) x index Hx Hidx) as Hdiff.
  rewrite wrap_small by lia.
  change (Z.land (fm (Z.to_nat d) c * 2 ^ (c - 1))
            (Z.lor x (fm (Z.to_nat d) c * 2 ^ (c - 1))
             - fm (Z.to_nat d) c * index))
    with (swar c (Z.to_nat d) x index).
  assert (Hsw : bits.lowbits (swar c (Z.to_nat d) x index)
                             (Z.of_nat (Z.to_nat d) * c)
                = swar c (Z.to_nat d) x index).
  { apply lowbits_small; [lia|]. unfold swar. apply land_range; [lia|].
    pose proof (fm_mul_range c ltac:(lia) (Z.to_nat d) (2 ^ (c - 1))) as Hr.
    pose proof (pow2_pos (c - 1) ltac:(lia)).
    apply Hr. lia. }
  rewrite <- Hsw.
  rewrite swar_count by lia.
  unfold x. replace (idx * d + d) with (idx * d + 0 + Z.of_nat (Z.to_nat d))
    by lia.
  rewrite (count_geq_get c Hc) by (assumption || lia).
  rewrite count_range_shift.
  pose proof (count_range_negb (Z.to_nat d) 0 (fun k => cm k <? index))
    as Hneg.
  rewrite Z2Nat.id in Hneg by lia. rewrite <- Hneg.
  apply count_range_ext. intros k Hk. cbn beta.
  unfold cm, tree.cum, packed_array.get_stripped, packed_view.value.
  fold d. rewrite Hw.
  destruct (Z.ltb_spec k 0); [lia|]. destruct (Z.ltb_spec k d); [|lia].
  replace (idx * d + 0 + k) with (idx * d + k) by lia.
  destruct (Z.leb_spec index
              (bits.lowbits (packed_view.get (_sizes v) (idx * d + k)
                                             (idx * d + k + 1)) (c - 1)));
    destruct (Z.ltb_spec
                (bits.lowbits (packed_view.get (_sizes v) (idx * d + k)
                                               (idx * d + k + 1)) (c - 1))
                index); cbn [negb]; lia.
Qed.

Lemma find_insert_point_ok (index : Z) :
  0 <= index < size ->
  exists k,
    0 <= k <= d
    /\ (forall j, 0 <= j < k -> cm j < index)
    /\ index <= cm k
    /\ find_insert_point v r index = Ok (k, index - cm (k - 1)).
Proof.
  intros Hidx.
  destruct params_facts as (Hc & Hd & Hd0 & Hdc & Hw & Hm & _).
  destruct node_facts as (Hi & Hs & Hmono & _).
  destruct (find_insert_point_count index ltac:(lia)) as (sw & Hsw & Hpc).
  pose proof (count_lt_monotone cm index (Z.to_nat d) 0
                ltac:(intros j Hj;
                      specialize (Hmono (j + 1) ltac:(lia));
                      replace (j + 1 - 1) with j in Hmono by lia;
                      exact Hmono)) as Hcount.
  cbn zeta in Hcount.
  set (k := count_range (Z.to_nat d) 0 (fun j => cm j <? index)) in *.
  destruct Hcount as (Hk & Hlt & Hge).
  exists k. split; [lia|]. split; [intros j Hj; apply Hlt; lia|].
  assert (Hck : index <= cm k).
  { destruct (Z.eq_dec k d) as [->|].
    - unfold cm, tree.cum. fold d.
      destruct (Z.ltb_spec d 0); [lia|]. destruct (Z.ltb_spec d d); lia.
    - apply Hge. lia. }
  split; [exact Hck|].
  unfold find_insert_point. rewrite is_node_r. cbn [assert bind].
  rewrite Hsw. cbn [bind]. rewrite Hpc. fold d.
  assert (Hd64 : d < 2 ^ 64).
  { unfold W in Hdc. assert (d <= 64) by nia. lia. }
  rewrite szsub_small by lia.
  replace (d - (d - k)) with k by lia.
  destruct (Z.ltb_spec 0 k).
  - rewrite sizes_at_ok by lia. cbn [bind].
    specialize (Hlt (k - 1) ltac:(lia)).
    pose proof (cum_bounds (k - 1) ltac:(lia)).
    assert (H64 : 2 ^ (c - 1) < 2 ^ 64).
    { apply Z.pow_lt_mono_r; unfold W in Hc; lia. }
    rewrite szsub_small by lia. reflexivity.
  - cbn [bind]. replace k with 0 by lia.
    change (cm (0 - 1)) with 0. rewrite Z.sub_0_r. reflexivity.
Qed.

Lemma child_ok (k : Z) :
  0 <= k <= d -> tree.ptr v idx k <> 0 ->
  exists x,
    child v r k = Ok (ref (tree.ptr v idx k) (h - 1) (cm k - cm (k - 1)) x).
Proof.
  intros Hk Hp.
  destruct params_facts as (Hc & Hd & Hd0 & Hdc & Hw & Hm & _).
  destruct node_facts as (Hi & Hs & Hmono & _).
  unfold child. fold d. destruct (Z.leb_spec k d); [|lia].
  cbn [assert bind]. rewrite pointers_at_ok by lia. cbn [bind].
  destruct (Z.eqb_spec (tree.ptr v idx k) 0); [contradiction|].
  cbn [negb assert bind].
  pose proof (cum_bounds (k - 1) ltac:(lia)) as Hb1.
  pose proof (cum_bounds k ltac:(lia)) as Hb2.
  specialize (Hmono k ltac:(lia)).
  assert (H64 : 2 ^ (c - 1) < 2 ^ 64).
  { apply Z.pow_lt_mono_r; unfold W in Hc; lia. }
  assert (Hsz : exists s,
    (if k =? 0 then sizes_at v r k
     else if k =? d then
            s1 <- sizes_at v r (k - 1) ;; Ok (szsub (t_size r) s1)
          else
            s0 <- sizes_at v r k ;;
            s1 <- sizes_at v r (k - 1) ;; Ok (szsub s0 s1))
    = Ok s /\ s = cm k - cm (k - 1)).
  { destruct (Z.eqb_spec k 0) as [->|].
    - rewrite sizes_at_ok by lia. eexists. split; [reflexivity|].
      change (cm (0 - 1)) with 0. lia.
    - destruct (Z.eqb_spec k d) as [->|].
      + rewrite sizes_at_ok by lia. cbn [bind]. eexists.
        split; [reflexivity|]. unfold r. cbn [t_size].
        rewrite szsub_small by lia.
        unfold cm at 2, tree.cum. fold d.
        destruct (Z.ltb_spec d 0); [lia|].
        destruct (Z.ltb_spec d d); [lia|]. reflexivity.
      + rewrite !sizes_at_ok by lia. cbn [bind]. eexists.
        split; [reflexivity|]. apply szsub_small; lia. }
  destruct Hsz as (s & -> & ->). cbn [bind].
  assert (Hrk : exists x,
    (if k =? 0 then ranks_at v r k
     else if k =? d then
            r1 <- ranks_at v r (k - 1) ;; Ok (szsub (t_rank r) r1)
          else
            r0 <- ranks_at v r k ;;
            r1 <- ranks_at v r (k - 1) ;; Ok (szsub r0 r1))
    = Ok x).
  { destruct (Z.eqb_spec k 0) as [->|].
    - apply ranks_at_ok. lia.
    - destruct (Z.eqb_spec k d) as [->|].
      + destruct (ranks_at_ok (d - 1) ltac:(lia)) as (x & ->).
        cbn [bind]. eexists. reflexivity.
      + destruct (ranks_at_ok k ltac:(lia)) as (x & ->).
        destruct (ranks_at_ok (k - 1) ltac:(lia)) as (y & ->).
        cbn [bind]. eexists. reflexivity. }
  destruct Hrk as (x & ->). cbn [bind]. exists x.
  unfold r at 1. cbn [t_height].
  rewrite szsub_small by lia. reflexivity.
Qed.

End node_facts.

Section find_and_access.

Import bitvector.

Lemma find_ok (v : t) (idx h size rk index : Z) :
  tree.params_ok v = true -> tree.node_ok v idx size = true ->
  0 < h < 2 ^ 64 -> 0 <= index < size ->
  exists k,
    0 <= k <= degree v
    /\ (forall j, 0 <= j < k -> tree.cum v idx size j < index)
    /\ index <= tree.cum v idx size k
    /\ find_insert_point v (ref idx h size rk) index
       = Ok (k, index - tree.cum v idx size (k - 1))
    /\ find v (ref idx h size rk) index
       = Ok (if index - tree.cum v idx size (k - 1)
                =? tree.cum v idx size k - tree.cum v idx size (k - 1)
             then (k + 1, 0)
             else (k, index - tree.cum v idx size (k - 1))).
Proof.
  intros Hp Hn Hh Hi.
  destruct (find_insert_point_ok v Hp idx h size rk Hn Hh index Hi)
    as (k & Hk & Hlt & Hge & Hfip).
  exists k. repeat (split; [assumption|]).
  destruct (node_facts v idx size Hn) as (_ & _ & Hmono & Hstrict & Hptr).
  set (cm := tree.cum v idx size) in *.
  assert (Hprev : cm (k - 1) <= index /\ cm (k - 1) < cm k).
  { destruct (Z.eq_dec k 0) as [->|].
    - change (cm (0 - 1)) with 0. split; [lia|].
      apply (Hstrict 0); [lia|]. change (cm (0 - 1)) with 0. lia.
    - specialize (Hlt (k - 1) ltac:(lia)). lia. }
  destruct (child_ok v Hp idx h size rk Hn Hh k Hk (Hptr k Hk (proj2 Hprev)))
    as (x & Hchild).
  unfold find. rewrite Hfip. cbn [bind]. rewrite Hchild. cbn [bind t_size].
  fold cm. destruct (Z.eqb_spec (index - cm (k - 1)) (cm k - cm (k - 1))).
  - assert (k <> degree v).
    { intros ->. unfold cm, tree.cum in e.
      destruct (Z.ltb_spec (degree v) 0); [lia|].
      destruct (Z.ltb_spec (degree v) (degree v)); lia. }
    destruct (Z.ltb_spec (k + 1) (degree v + 1)); [|lia]. reflexivity.
  - destruct (Z.ltb_spec k (degree v + 1)); [|lia]. reflexivity.
Qed.

Lemma access_at_out_of_range (fuel : nat) (v : t) (r : subtree_ref)
      (index : Z) :
  t_size r <= index -> access_at fuel v r index = Err OutOfRange.
Proof.
  intros H. destruct fuel; cbn [access_at];
    destruct (Z.leb_spec (t_size r) index); try lia; reflexivity.
Qed.

Lemma access_at_ok (v : t) :
  tree.params_ok v = true ->
  forall (h fuel : nat) (idx size rk index : Z),
    tree.wf_subtree h v idx size = true ->
    Z.of_nat h < 2 ^ 64 -> (h <= fuel)%nat -> 0 <= index < size ->
    exists b, access_at fuel v (ref idx (Z.of_nat h) size rk) index = Ok b.
Proof.
  intros Hp. induction h as [|h IH]; intros fuel idx size rk index Hwf Hh Hf Hi.
  - cbn [tree.wf_subtree] in Hwf. apply andb_prop in Hwf.
    destruct Hwf as [Hidx Hlen]. apply Nat.ltb_lt in Hlen.
    assert (Hleaf : exists w, leaf v (ref idx (Z.of_nat 0) size rk) = Ok w).
    { unfold leaf. cbn [is_leaf t_height t_index assert bind].
      change (Z.of_nat 0 =? 0) with true. cbn [assert bind].
      destruct (nth_error (_leaves v) (Z.to_nat idx)) eqn:E;
        [eexists; reflexivity|].
      apply nth_error_None in E. lia. }
    destruct Hleaf as (w & Hw).
    destruct fuel; cbn [access_at t_size];
      (destruct (Z.leb_spec size index); [lia|]);
      change (is_leaf (ref idx (Z.of_nat 0) size rk)) with true;
      cbn match; rewrite Hw; cbn [bind]; eexists; reflexivity.
  - cbn [tree.wf_subtree] in Hwf. apply andb_prop in Hwf.
    destruct Hwf as [Hnode Hall]. rewrite forallb_range in Hall.
    destruct fuel as [|fuel]; [lia|].
    cbn [access_at t_size]. destruct (Z.leb_spec size index); [lia|].
    assert (Hnl : is_leaf (ref idx (Z.of_nat (S h)) size rk) = false).
    { unfold is_leaf. cbn [t_height]. apply Z.eqb_neq. lia. }
    rewrite Hnl.
    destruct (find_ok v idx (Z.of_nat (S h)) size rk index Hp Hnode
                ltac:(lia) Hi) as (k & Hk & Hlt & Hge & _ & Hfind).
    rewrite Hfind. clear Hfind.
    destruct (node_facts v idx size Hnode)
      as (_ & _ & Hmono & Hstrict & Hptr).
    set (cm := tree.cum v idx size) in *.
    assert (Hprev : cm (k - 1) <= index /\ cm (k - 1) < cm k).
    { destruct (Z.eq_dec k 0) as [->|].
      - change (cm (0 - 1)) with 0. split; [lia|].
        apply (Hstrict 0); [lia|]. change (cm (0 - 1)) with 0. lia.
      - specialize (Hlt (k - 1) ltac:(lia)). lia. }
    assert (Hsub : forall k' ni,
               0 <= k' <= degree v -> cm (k' - 1) < cm k' ->
               0 <= ni < cm k' - cm (k' - 1) ->
               exists b,
                 (c <- child v (ref idx (Z.of_nat (S h)) size rk) k' ;;
                  access_at fuel v c ni) = Ok b).
    { intros k' ni Hk' Hne Hni.
      destruct (child_ok v Hp idx (Z.of_nat (S h)) size rk Hnode
                  ltac:(lia) k' Hk' (Hptr k' Hk' Hne)) as (x & Hchild).
      rewrite Hchild. cbn [bind].
      replace (Z.of_nat (S h) - 1) with (Z.of_nat h) by lia.
      fold cm. apply IH; try lia.
      specialize (Hall k' ltac:(lia)). fold cm in Hall.
      destruct (Z.ltb_spec (cm (k' - 1)) (cm k')); [|lia].
      exact Hall. }
    destruct (Z.eqb_spec (index - cm (k - 1)) (cm k - cm (k - 1))).
    + cbn [bind].
      assert (k <> degree v).
      { intros ->. unfold cm, tree.cum in e.
        destruct (Z.ltb_spec (degree v) 0); [lia|].
        destruct (Z.ltb_spec (degree v) (degree v)); lia. }
      assert (Hnext : cm k < cm (k + 1)).
      { specialize (Hstrict (k + 1) ltac:(lia)).
        replace (k + 1 - 1) with k in Hstrict by lia.
        apply Hstrict. lia. }
      apply Hsub; replace (k + 1 - 1) with k by lia; lia.
    + cbn [bind]. apply Hsub; lia.
Qed.

End find_and_access.

(** * Search in a node, and [access] *)

(** X22.  In a node whose counters are cumulative ([tree.node_ok]) and for
    an index below the size of its subtree, [find_insert_point(index)]
    returns [(k, index')] where [k] is the leftmost child whose cumulative
    size is at least [index] and [index' = index - sizes[k - 1]] ([index]
    itself when [k = 0]); [find(index)] returns the same pair, except that
    it returns [(k + 1, 0)] when [index'] is the full size of child [k]. *)
Theorem find_insert_point_selects_child
        (v : bitvector.t) (idx h size rk index : Z) :
  tree.params_ok v = true -> tree.node_ok v idx size = true ->
  0 < h < 2 ^ 64 -> 0 <= index < size ->
  exists k,
    0 <= k <= bitvector.degree v
    /\ (forall j, 0 <= j < k -> tree.cum v idx size j < index)
    /\ index <= tree.cum v idx size k
    /\ bitvector.find_insert_point v (bitvector.ref idx h size rk) index
       = Ok (k, index - tree.cum v idx size (k - 1))
    /\ bitvector.find v (bitvector.ref idx h size rk) index
       = Ok (if index - tree.cum v idx size (k - 1)
                =? tree.cum v idx size k - tree.cum v idx size (k - 1)
             then (k + 1, 0)
             else (k, index - tree.cum v idx size (k - 1))).
Proof. apply find_ok. Qed.

(** X23.  On a bit vector whose tree is well formed ([tree.wf]: cumulative
    counters, allocated leaves), [access(index)] fails with [OutOfRange] if
    and only if [index >= size], and returns a bit when [index < size].
    [access] is a [const] member: it is a function of the vector and returns
    no new vector, so the structure is unchanged. *)
Theorem access_out_of_range_iff (v : bitvector.t) (index : Z) :
  tree.wf v = true -> 0 <= index ->
  (bitvector.access v index = Err OutOfRange <-> bitvector.size v <= index)
  /\ (index < bitvector.size v -> exists b, bitvector.access v index = Ok b).
Proof.
  intros Hwf Hi. unfold tree.wf in Hwf. apply andb_prop in Hwf.
  destruct Hwf as [Hp Hsub].
  destruct (params_facts v Hp) as (_ & _ & _ & _ & _ & _ & _ & _ & Hh).
  assert (Hok : index < bitvector.size v ->
                exists b, bitvector.access v index = Ok b).
  { intros Hlt. unfold bitvector.access, bitvector.root.
    unfold bitvector.size in Hlt.
    pose proof (access_at_ok v Hp (Z.to_nat (bitvector._height v))
                  (Z.to_nat (bitvector._height v)) 0 (bitvector._size v)
                  (bitvector._rank v) index Hsub ltac:(lia) ltac:(lia)
                  ltac:(lia)) as H.
    rewrite Z2Nat.id in H by lia. exact H. }
  split; [|exact Hok]. split.
  - intros Herr. destruct (Z.le_gt_cases (bitvector.size v) index) as [|Hlt];
      [assumption|].
    destruct (Hok ltac:(lia)) as (b & Hb). congruence.
  - intros Hge. apply access_at_out_of_range. exact Hge.
Qed.

Section no_overflow_facts.

Lemma no_overflow_bind {A B : Type} (m : result A) (k : A -> result B) :
  no_overflow m -> (forall a, no_overflow (k a)) -> no_overflow (bind m k).
Proof.
  intros Hm Hk. destruct m as [a|e]; cbn [bind]; [apply Hk|].
  intros E. apply Hm. congruence.
Qed.

Lemma no_overflow_assert (b : bool) : no_overflow (assert b).
Proof. destruct b; discriminate. Qed.

End no_overflow_facts.

Create HintDb noov.

Ltac noov :=
  repeat (intros;
    match goal with
    | |- no_overflow (Ok _) => discriminate
    | |- no_overflow (Err _) => discriminate
    | |- no_overflow (assert _) => apply no_overflow_assert
    | |- no_overflow (bind _ _) => apply no_overflow_bind
    | |- no_overflow (let _ := _ in _) => cbv zeta
    | |- no_overflow (if ?c then _ else _) => destruct c
    | |- no_overflow (match ?x with _ => _ end) => destruct x
    | |- _ => solve [auto with noov]
    end).

Section no_overflow_ranges.

Import bitvector.

Variable v : t.
Variable r : subtree_ref.

Lemma noov_alloc_node : no_overflow (alloc_node v).
Proof. unfold alloc_node. noov. Qed.
Lemma noov_is_root : no_overflow (is_root v r).
Proof. unfold is_root. noov. Qed.
Lemma noov_sizes_range b e : no_overflow (sizes_range v r b e).
Proof. unfold sizes_range. noov. Qed.
Lemma noov_ranks_range b e : no_overflow (ranks_range v r b e).
Proof. unfold ranks_range. noov. Qed.
Lemma noov_pointers_range b e : no_overflow (pointers_range v r b e).
Proof. unfold pointers_range. noov. Qed.

End no_overflow_ranges.

#[export] Hint Resolve noov_alloc_node noov_is_root noov_sizes_range
  noov_ranks_range noov_pointers_range : noov.

Section no_overflow_arrays.

Lemma noov_bitview_set v b e x : no_overflow (bitview.set v b e x).
Proof. unfold bitview.set. noov. Qed.

#[local] Hint Resolve noov_bitview_set : noov.

Lemma noov_view_set a b e x : no_overflow (packed_view.set a b e x).
Proof. unfold packed_view.set. noov. Qed.

#[local] Hint Resolve noov_view_set : noov.

Lemma noov_array_set a b e x : no_overflow (packed_array.set a b e x).
Proof. unfold packed_array.set. noov. Qed.
Lemma noov_array_add a b e x : no_overflow (packed_array.add a b e x).
Proof. unfold packed_array.add. noov. Qed.
Lemma noov_array_shl a b e n : no_overflow (packed_array.shl a b e n).
Proof. unfold packed_array.shl. noov. Qed.
Lemma noov_array_resize w n : no_overflow (packed_array.resize w n).
Proof.
  unfold packed_array.resize, packed_view.new, packed_view.compute_field_mask.
  noov.
Qed.

End no_overflow_arrays.

#[export] Hint Resolve noov_array_set noov_array_add noov_array_shl
  noov_array_resize : noov.

Section no_overflow_fields.

Import bitvector.

Variable v : t.
Variable r : subtree_ref.

Lemma noov_sizes_word : no_overflow (sizes_word v r).
Proof. unfold sizes_word. noov. Qed.
Lemma noov_sizes_at k : no_overflow (sizes_at v r k).
Proof. unfold sizes_at. noov. Qed.
Lemma noov_ranks_at k : no_overflow (ranks_at v r k).
Proof. unfold ranks_at. noov. Qed.
Lemma noov_pointers_at k : no_overflow (pointers_at v r k).
Proof. unfold pointers_at. noov. Qed.
Lemma noov_set_sizes b e x : no_overflow (set_sizes v r b e x).
Proof. unfold set_sizes. noov. Qed.
Lemma noov_add_sizes b e x : no_overflow (add_sizes v r b e x).
Proof. unfold add_sizes. noov. Qed.
Lemma noov_shl_sizes b e x : no_overflow (shl_sizes v r b e x).
Proof. unfold shl_sizes. noov. Qed.
Lemma noov_set_ranks b e x : no_overflow (set_ranks v r b e x).
Proof. unfold set_ranks. noov. Qed.
Lemma noov_add_ranks b e x : no_overflow (add_ranks v r b e x).
Proof. unfold add_ranks. noov. Qed.
Lemma noov_shl_ranks b e x : no_overflow (shl_ranks v r b e x).
Proof. unfold shl_ranks. noov. Qed.
Lemma noov_set_pointers b e x : no_overflow (set_pointers v r b e x).
Proof. unfold set_pointers. noov. Qed.
Lemma noov_shl_pointers b e x : no_overflow (shl_pointers v r b e x).
Proof. unfold shl_pointers. noov. Qed.
Lemma noov_leaf : no_overflow (leaf v r).
Proof. unfold leaf. noov. Qed.
Lemma noov_set_leaf x : no_overflow (set_leaf v r x).
Proof. unfold set_leaf. noov. Qed.

End no_overflow_fields.

#[export] Hint Resolve noov_sizes_word noov_sizes_at noov_ranks_at
  noov_pointers_at noov_set_sizes noov_add_sizes noov_shl_sizes
  noov_set_ranks noov_add_ranks noov_shl_ranks noov_set_pointers
  noov_shl_pointers noov_leaf noov_set_leaf : noov.

Section no_overflow_node.

Import bitvector.

Lemma noov_clear_keys v r b e : no_overflow (clear_keys v r b e).
Proof. unfold clear_keys. noov. Qed.
Lemma noov_copy v r : no_overflow (copy v r).
Proof. unfold copy. noov. Qed.
Lemma noov_child v r k : no_overflow (child v r k).
Proof. unfold child. noov. Qed.
Lemma noov_insert_child v r k : no_overflow (insert_child v r k).
Proof. unfold insert_child. noov. Qed.
Lemma noov_find_insert_point v r i : no_overflow (find_insert_point v r i).
Proof. unfold find_insert_point. noov. Qed.

End no_overflow_node.

#[export] Hint Resolve noov_clear_keys noov_copy noov_child noov_insert_child
  noov_find_insert_point : noov.

Section no_overflow_insert.

Import bitvector.

Lemma noov_nkeys v r : no_overflow (nkeys v r).
Proof. unfold nkeys. noov. Qed.

#[local] Hint Resolve noov_nkeys : noov.

Lemma noov_free_slots v r l m i : no_overflow (free_slots v r l m i).
Proof. unfold free_slots. noov. Qed.

#[local] Hint Resolve noov_free_slots : noov.

Lemma noov_sum_window n : forall v r l m i f,
    no_overflow (sum_window n v r l m i f).
Proof. induction n; cbn [sum_window]; noov. Qed.

Lemma noov_slide_window n : forall v r l m k b e f mf w,
    no_overflow (slide_window n v r l m k b e f mf w).
Proof. induction n; cbn [slide_window]; noov. Qed.

#[local] Hint Resolve noov_sum_window noov_slide_window : noov.

Lemma noov_find_adjacent_children v r k :
  no_overflow (find_adjacent_children v r k).
Proof. unfold find_adjacent_children. noov. Qed.

Lemma noov_gather_bits n : forall v r i p view,
    no_overflow (gather_bits n v r i p view).
Proof. induction n; cbn [gather_bits]; noov. Qed.

Lemma noov_spread_bits n : forall v r view bpl i p pc rem count,
    no_overflow (spread_bits n v r view bpl i p pc rem count).
Proof. induction n; cbn [spread_bits]; noov. Qed.

#[local] Hint Resolve noov_gather_bits noov_spread_bits : noov.

Lemma noov_redistribute_bits v r b e c :
  no_overflow (redistribute_bits v r b e c).
Proof. unfold redistribute_bits. noov. Qed.

Lemma noov_gather_node n : forall v r i c ps,
    no_overflow (gather_node n v r i c ps).
Proof. induction n; cbn [gather_node]; noov. Qed.

#[local] Hint Resolve noov_gather_node : noov.

Lemma noov_gather_keys n : forall v r i ps,
    no_overflow (gather_keys n v r i ps).
Proof. induction n; cbn [gather_keys]; noov. Qed.

Lemma noov_fill_node n : forall v r ps i p j,
    no_overflow (fill_node n v r ps i p j).
Proof. induction n; cbn [fill_node]; noov. Qed.

#[local] Hint Resolve noov_gather_keys noov_fill_node : noov.

Lemma noov_spread_keys n : forall v r ps kpn i p rem count,
    no_overflow (spread_keys n v r ps kpn i p rem count).
Proof. induction n; cbn [spread_keys]; noov. Qed.

#[local] Hint Resolve noov_spread_keys : noov.

Lemma noov_redistribute_keys v r b e c :
  no_overflow (redistribute_keys v r b e c).
Proof. unfold redistribute_keys. noov. Qed.

Lemma noov_split_root v r : no_overflow (split_root v r).
Proof. unfold split_root. noov. Qed.

#[local] Hint Resolve noov_find_adjacent_children noov_redistribute_bits
  noov_redistribute_keys noov_split_root : noov.

Lemma noov_make_room_in_leaves v r k :
  no_overflow (make_room_in_leaves v r k).
Proof. unfold make_room_in_leaves. noov. Qed.

Lemma noov_make_room_in_nodes v r k :
  no_overflow (make_room_in_nodes v r k).
Proof. unfold make_room_in_nodes. noov. Qed.

#[local] Hint Resolve noov_make_room_in_leaves noov_make_room_in_nodes : noov.

Lemma noov_insert_at fuel : forall v r i b,
    no_overflow (insert_at fuel v r i b).
Proof. induction fuel; cbn [insert_at]; noov. Qed.

End no_overflow_insert.

(** C3, as amended.  [insert] makes no capacity check: whatever the size
    of the vector, also when [size == capacity], it never surfaces an
    [Overflow] error and runs the ordinary insertion path. *)
Theorem insert_never_overflow (v : bitvector.t) (index : Z) (bit : bool) :
  bitvector.insert v index bit <> Err Overflow.
Proof. apply noov_insert_at. Qed.

Section frame_facts.

Import bitvector.

Lemma same_refl v : frame.same v v.
Proof. repeat split. apply Z.le_refl. Qed.

Lemma same_trans v1 v2 v3 :
  frame.same v1 v2 -> frame.same v2 v3 -> frame.same v1 v3.
Proof. unfold frame.same. intuition (try congruence; lia). Qed.

Lemma same_grows v v' : frame.same v v' -> frame.grows v v'.
Proof. unfold frame.same, frame.grows. intuition. Qed.

Lemma grows_refl v : frame.grows v v.
Proof. repeat split. apply Z.le_refl. Qed.

Lemma grows_trans v1 v2 v3 :
  frame.grows v1 v2 -> frame.grows v2 v3 -> frame.grows v1 v3.
Proof. unfold frame.grows. intuition (try congruence; lia). Qed.

Lemma keeps_ok {A} (proj : A -> t) v a :
  frame.same v (proj a) -> frame.keeps proj v (Ok a).
Proof. intros H a' E. inversion E; subst. exact H. Qed.

Lemma keeps_err {A} (proj : A -> t) v e : frame.keeps proj v (Err e).
Proof. intros a E. discriminate. Qed.

Lemma keeps_bind {A B} (pa : A -> t) (pb : B -> t) v
      (m : result A) (k : A -> result B) :
  frame.keeps pa v m ->
  (forall a, frame.keeps pb (pa a) (k a)) ->
  frame.keeps pb v (bind m k).
Proof.
  intros Hm Hk b E. destruct m as [a|e]; cbn [bind] in E; [|discriminate].
  eapply same_trans; [apply Hm; reflexivity|apply Hk; exact E].
Qed.

Lemma bind_ok {A B} (m : result A) (k : A -> result B) (b : B) :
  bind m k = Ok b -> exists a, m = Ok a /\ k a = Ok b.
Proof.
  destruct m as [a|e]; cbn [bind]; [|discriminate].
  intros E. exists a. split; [reflexivity|exact E].
Qed.

Lemma assert_ok (b : bool) (u : unit) : assert b = Ok u -> b = true.
Proof. destruct b; [reflexivity|discriminate]. Qed.

Lemma keeps_bind_pure {A B} (pb : B -> t) v
      (m : result A) (k : A -> result B) :
  (forall a, frame.keeps pb v (k a)) -> frame.keeps pb v (bind m k).
Proof.
  intros Hk b E. destruct m as [a|e]; cbn [bind] in E; [|discriminate].
  apply (Hk a). exact E.
Qed.

Lemma keeps_same {A} (proj : A -> t) v v' r :
  frame.same v v' -> frame.keeps proj v' r -> frame.keeps proj v r.
Proof. intros H Hr a E. eapply same_trans; [exact H|apply Hr; exact E]. Qed.

End frame_facts.

Section write_facts.

(** A write that returns is the store, and it ends inside the view. *)
Lemma bitview_set_ok v b e x v' :
  bitview.set v b e x = Ok v' ->
  v' = bitview.store v b e x /\ e <= bitview.size v.
Proof.
  unfold bitview.set. destruct (Z.leb_spec e (bitview.size v)); [|discriminate].
  intros E. inversion E. split; [reflexivity|assumption].
Qed.

Lemma bitview_set_inside v b e x :
  e <= bitview.size v -> bitview.set v b e x = Ok (bitview.store v b e x).
Proof.
  intros H. unfold bitview.set.
  destruct (Z.leb_spec e (bitview.size v)); [reflexivity|lia].
Qed.

Lemma bitview_set_outside v b e x :
  bitview.size v < e -> bitview.set v b e x = Err OutOfBounds.
Proof.
  intros H. unfold bitview.set.
  destruct (Z.leb_spec e (bitview.size v)); [lia|reflexivity].
Qed.

Lemma view_set_ok a b e x a' :
  packed_view.set a b e x = Ok a' ->
  a' = packed_view.store a b e x
  /\ e * packed_view.width a <= bitview.size (packed_view._bits a).
Proof.
  unfold packed_view.set. intros H. apply bind_ok in H.
  destruct H as (bits & Hb & H). apply bitview_set_ok in Hb.
  destruct Hb as (-> & Hb). inversion H. split; [reflexivity|exact Hb].
Qed.

Lemma view_set_inside a b e x :
  e * packed_view.width a <= bitview.size (packed_view._bits a) ->
  packed_view.set a b e x = Ok (packed_view.store a b e x).
Proof.
  intros H. unfold packed_view.set. rewrite bitview_set_inside by exact H.
  reflexivity.
Qed.

Lemma view_set_outside a b e x :
  bitview.size (packed_view._bits a) < e * packed_view.width a ->
  packed_view.set a b e x = Err OutOfBounds.
Proof.
  intros H. unfold packed_view.set. rewrite bitview_set_outside by exact H.
  reflexivity.
Qed.

Lemma array_set_ok a b e x a' :
  packed_array.set a b e x = Ok a' ->
  a' = packed_array.store a b e x
  /\ e * packed_view.width a <= bitview.size (packed_view._bits a).
Proof. apply view_set_ok. Qed.

Lemma array_add_ok a b e x a' :
  packed_array.add a b e x = Ok a' ->
  a' = packed_array.store_add a b e x
  /\ e * packed_view.width a <= bitview.size (packed_view._bits a).
Proof. apply view_set_ok. Qed.

Lemma array_shl_ok a b e n a' :
  packed_array.shl a b e n = Ok a' ->
  a' = packed_array.store_shl a b e n
  /\ e * packed_view.width a <= bitview.size (packed_view._bits a).
Proof. apply view_set_ok. Qed.

Lemma array_set_inside a b e x :
  e * packed_view.width a <= bitview.size (packed_view._bits a) ->
  packed_array.set a b e x = Ok (packed_array.store a b e x).
Proof. apply view_set_inside. Qed.

Lemma array_add_inside a b e x :
  e * packed_view.width a <= bitview.size (packed_view._bits a) ->
  packed_array.add a b e x = Ok (packed_array.store_add a b e x).
Proof. apply view_set_inside. Qed.

Lemma array_shl_inside a b e n :
  e * packed_view.width a <= bitview.size (packed_view._bits a) ->
  packed_array.shl a b e n = Ok (packed_array.store_shl a b e n).
Proof. apply view_set_inside. Qed.

(** Building a view or an array of a width other than 0. *)
Lemma compute_field_mask_ok w m :
  packed_view.compute_field_mask w = Ok m ->
  m = packed_view.built_mask w /\ w <> 0.
Proof.
  unfold packed_view.compute_field_mask. destruct (Z.eqb_spec w 0);
    [discriminate|].
  intros E. inversion E. split; [reflexivity|assumption].
Qed.

Lemma view_new_ok w n a :
  packed_view.new w n = Ok a -> a = packed_view.zeroed w n /\ w <> 0.
Proof.
  unfold packed_view.new. intros H. apply bind_ok in H.
  destruct H as (m & Hm & H). apply compute_field_mask_ok in Hm.
  destruct Hm as (-> & Hw). inversion H. split; [reflexivity|exact Hw].
Qed.

Lemma view_new_built w n :
  w <> 0 -> packed_view.new w n = Ok (packed_view.zeroed w n).
Proof.
  intros Hw. unfold packed_view.new, packed_view.compute_field_mask.
  destruct (Z.eqb_spec w 0); [contradiction|reflexivity].
Qed.

Lemma view_new_zero n : packed_view.new 0 n = Err DivisionByZero.
Proof. reflexivity. Qed.

Lemma array_resize_ok w n a :
  packed_array.resize w n = Ok a -> a = packed_array.zeroed w n /\ w <> 0.
Proof. apply view_new_ok. Qed.

Lemma array_resize_built w n :
  w <> 0 -> packed_array.resize w n = Ok (packed_array.zeroed w n).
Proof. apply view_new_built. Qed.

End write_facts.

Ltac inv_ok :=
  repeat match goal with
    | H : bind _ _ = Ok _ |- _ =>
        apply bind_ok in H; destruct H as (? & ? & H)
    | H : assert _ = Ok _ |- _ => apply assert_ok in H
    | H : Ok _ = Ok _ |- _ => inversion H; subst; clear H
    | H : Err _ = Ok _ |- _ => discriminate H
    | H : (let '(_, _) := (_, _) in _) = Ok _ |- _ => cbn beta iota in H
    | H : (let '(_, _) := ?x in _) = Ok _ |- _ => destruct x
    | H : packed_array.set _ _ _ _ = Ok _ |- _ =>
        apply array_set_ok in H; destruct H as (? & ?); subst
    | H : packed_array.add _ _ _ _ = Ok _ |- _ =>
        apply array_add_ok in H; destruct H as (? & ?); subst
    | H : packed_array.shl _ _ _ _ = Ok _ |- _ =>
        apply array_shl_ok in H; destruct H as (? & ?); subst
    | H : packed_array.resize _ _ = Ok _ |- _ =>
        apply array_resize_ok in H; destruct H as (? & ?); subst
    end.

(** The frame of a single write to one of the three arrays. *)
Ltac keeps_write f :=
  let a := fresh "a" in
  let H := fresh "H" in
  intros a H; unfold f in H; inv_ok; cbn [fst snd];
  repeat split; cbn; lia.

Create HintDb keeps.

Ltac keeps_bind_step :=
  match goal with
  | |- frame.keeps _ _ (@bind bitvector.t _ _ _) =>
      apply (keeps_bind (fun x => x))
  | |- frame.keeps _ _ (@bind (Z * bitvector.t) _ _ _) =>
      apply (keeps_bind snd)
  | |- frame.keeps _ _ (@bind (bitvector.subtree_ref * bitvector.t) _ _ _) =>
      apply (keeps_bind snd)
  | |- frame.keeps _ _ (@bind (bitvector.t * Z) _ _ _) =>
      apply (keeps_bind fst)
  | |- frame.keeps _ _ (@bind (bitvector.t * Z * Z) _ _ _) =>
      apply (keeps_bind (fun x => fst (fst x)))
  | |- frame.keeps _ _ (@bind _ _ _ _) =>
      apply keeps_bind_pure
  end.

Ltac keeps :=
  repeat (intros; cbn [fst snd];
    match goal with
    | |- frame.keeps _ _ (Ok _) => apply keeps_ok; cbn [fst snd]
    | |- frame.keeps _ _ (Err _) => apply keeps_err
    | |- frame.keeps _ _ (bind _ _) => keeps_bind_step
    | |- frame.keeps _ _ (let _ := _ in _) => cbv zeta
    | |- frame.keeps _ _ (if ?c then _ else _) => destruct c
    | |- frame.keeps _ _ (match ?x with _ => _ end) => destruct x
    | |- frame.same ?v ?v => apply same_refl
    | |- frame.same _ _ => solve [repeat split; cbn; lia]
    | |- _ => solve [auto with keeps]
    end).

Section frame_tree.

Import bitvector.


Lemma keeps_alloc_node v : frame.keeps snd v (alloc_node v).
Proof. unfold alloc_node. keeps. Qed.

Lemma keeps_alloc_leaf v : frame.same v (snd (alloc_leaf v)).
Proof. unfold alloc_leaf. cbn [snd]. repeat split. apply Z.le_refl. Qed.

Lemma keeps_set_sizes v r b e x : frame.keeps (fun x : t => x) v (set_sizes v r b e x).
Proof. keeps_write set_sizes. Qed.
Lemma keeps_add_sizes v r b e x : frame.keeps (fun x : t => x) v (add_sizes v r b e x).
Proof. keeps_write add_sizes. Qed.
Lemma keeps_shl_sizes v r b e x : frame.keeps (fun x : t => x) v (shl_sizes v r b e x).
Proof. keeps_write shl_sizes. Qed.
Lemma keeps_set_ranks v r b e x : frame.keeps (fun x : t => x) v (set_ranks v r b e x).
Proof. keeps_write set_ranks. Qed.
Lemma keeps_add_ranks v r b e x : frame.keeps (fun x : t => x) v (add_ranks v r b e x).
Proof. keeps_write add_ranks. Qed.
Lemma keeps_shl_ranks v r b e x : frame.keeps (fun x : t => x) v (shl_ranks v r b e x).
Proof. keeps_write shl_ranks. Qed.
Lemma keeps_set_pointers v r b e x : frame.keeps (fun x : t => x) v (set_pointers v r b e x).
Proof. keeps_write set_pointers. Qed.
Lemma keeps_shl_pointers v r b e x : frame.keeps (fun x : t => x) v (shl_pointers v r b e x).
Proof. keeps_write shl_pointers. Qed.
Lemma keeps_set_leaf v r x : frame.keeps (fun x : t => x) v (set_leaf v r x).
Proof. unfold set_leaf. keeps. Qed.

#[local] Hint Resolve keeps_alloc_node keeps_set_sizes keeps_add_sizes
  keeps_shl_sizes keeps_set_ranks keeps_add_ranks keeps_shl_ranks
  keeps_set_pointers keeps_shl_pointers keeps_set_leaf : keeps.

Lemma keeps_clear_keys v r b e : frame.keeps (fun x : t => x) v (clear_keys v r b e).
Proof. unfold clear_keys. keeps. Qed.

Lemma keeps_copy v r : frame.keeps snd v (copy v r).
Proof.
  unfold copy. destruct (is_node r).
  - keeps.
  - pose proof (keeps_alloc_leaf v) as Ha.
    destruct (alloc_leaf v) as [n v1]. cbn [snd] in Ha.
    eapply keeps_same; [exact Ha|]. keeps.
Qed.

Lemma keeps_insert_child v r k : frame.keeps (fun x : t => x) v (insert_child v r k).
Proof. unfold insert_child. keeps. Qed.

#[local] Hint Resolve keeps_clear_keys keeps_copy keeps_insert_child : keeps.

Lemma keeps_spread_bits n : forall v r view bpl i p pc rem count,
    frame.keeps fst v (spread_bits n v r view bpl i p pc rem count).
Proof. induction n; cbn [spread_bits]; keeps. Qed.

#[local] Hint Resolve keeps_spread_bits : keeps.

Lemma keeps_redistribute_bits v r b e c :
  frame.keeps (fun x : t => x) v (redistribute_bits v r b e c).
Proof. unfold redistribute_bits. keeps. Qed.

Lemma keeps_fill_node n : forall v r ps i p j,
    frame.keeps (fun x : t => x) v (fill_node n v r ps i p j).
Proof. induction n; cbn [fill_node]; keeps. Qed.

#[local] Hint Resolve keeps_fill_node : keeps.

Lemma keeps_spread_keys n : forall v r ps kpn i p rem count,
    frame.keeps fst v (spread_keys n v r ps kpn i p rem count).
Proof. induction n; cbn [spread_keys]; keeps. Qed.

#[local] Hint Resolve keeps_spread_keys : keeps.

Lemma keeps_redistribute_keys v r b e c :
  frame.keeps (fun x : t => x) v (redistribute_keys v r b e c).
Proof. unfold redistribute_keys. keeps. Qed.

#[local] Hint Resolve keeps_redistribute_bits keeps_redistribute_keys : keeps.

Lemma keeps_make_room_in_leaves v r k :
  frame.keeps (fun x : t => x) v (make_room_in_leaves v r k).
Proof. unfold make_room_in_leaves. keeps. Qed.

Lemma keeps_make_room_in_nodes v r k :
  frame.keeps (fun x : t => x) v (make_room_in_nodes v r k).
Proof. unfold make_room_in_nodes. keeps. Qed.

End frame_tree.

#[export] Hint Resolve keeps_alloc_node keeps_set_sizes keeps_add_sizes
  keeps_shl_sizes keeps_set_ranks keeps_add_ranks keeps_shl_ranks
  keeps_set_pointers keeps_shl_pointers keeps_set_leaf keeps_clear_keys
  keeps_copy keeps_insert_child keeps_redistribute_bits
  keeps_redistribute_keys keeps_make_room_in_leaves
  keeps_make_room_in_nodes : keeps.

Section insert_steps.

Import bitvector.

Lemma find_insert_point_is_node v r i x :
  find_insert_point v r i = Ok x -> 0 < t_height r /\ 0 <= fst x.
Proof.
  unfold find_insert_point. intros H. inv_ok.
  unfold is_node in *. split; [lia|]. cbn [fst]. unfold szsub.
  apply Z.mod_pos_bound. lia.
Qed.

Lemma nkeys_is_node v r n :
  nkeys v r = Ok n -> 0 < t_height r /\ n = Z.min n (degree v)
                      /\ (degree v = 1 -> n = 1).
Proof.
  unfold nkeys. intros H. inv_ok.
  match goal with
  | H : find_insert_point _ _ _ = Ok _ |- _ =>
      apply find_insert_point_is_node in H; cbn [fst] in H
  end.
  split; [lia|]. split; lia.
Qed.

Lemma child_height v r k c :
  child v r k = Ok c -> t_height c = szsub (t_height r) 1.
Proof. unfold child. intros H. inv_ok. reflexivity. Qed.

Lemma szsub_pred (h : Z) : 0 < h -> 0 <= szsub h 1 < h.
Proof.
  intros Hh. unfold szsub.
  pose proof (Z.mod_pos_bound (h - 1) (2 ^ 64) ltac:(lia)).
  pose proof (Z.mod_le (h - 1) (2 ^ 64) ltac:(lia) ltac:(lia)). lia.
Qed.

Lemma split_root_not_root v r v1 :
  split_root v r = Ok v1 -> t_index r = 0 /\ t_height r = _height v.
Proof.
  unfold split_root, is_root. intros H. inv_ok.
  destruct (Z.eqb_spec (t_index r) 0);
    destruct (Z.eqb_spec (t_height r) (_height v));
    cbn in *; try discriminate; split; assumption.
Qed.

Lemma split_root_params v r v1 :
  split_root v r = Ok v1 ->
  _height v1 = _height v + 1 /\ _degree v1 = _degree v
  /\ _capacity v1 = _capacity v
  /\ _counter_width v1 = _counter_width v
  /\ _pointer_width v1 = _pointer_width v
  /\ _leaves_buffer v1 = _leaves_buffer v
  /\ _nodes_buffer v1 = _nodes_buffer v
  /\ nkeys v1 (root v1) = Ok 1.
Proof.
  unfold split_root. intros H. inv_ok.
  repeat match goal with
         | H : copy _ _ = Ok _ |- _ => apply keeps_copy in H
         | H : set_sizes _ _ _ _ _ = Ok _ |- _ => apply keeps_set_sizes in H
         | H : set_ranks _ _ _ _ _ = Ok _ |- _ => apply keeps_set_ranks in H
         | H : set_pointers _ _ _ _ _ = Ok _ |- _ =>
             apply keeps_set_pointers in H
         end.
  cbn [snd] in *. unfold frame.same in *.
  match goal with
  | H : (_ =? 1) = true |- _ => apply Z.eqb_eq in H; subst
  end.
  cbn [_height _degree _capacity _counter_width _pointer_width
       _leaves_buffer _nodes_buffer with_height] in *.
  intuition congruence.
Qed.

Lemma split_root_grows v r v1 : split_root v r = Ok v1 -> frame.grows v v1.
Proof.
  unfold split_root. intros H. inv_ok.
  repeat match goal with
         | H : copy _ _ = Ok _ |- _ => apply keeps_copy in H
         | H : set_sizes _ _ _ _ _ = Ok _ |- _ => apply keeps_set_sizes in H
         | H : set_ranks _ _ _ _ _ = Ok _ |- _ => apply keeps_set_ranks in H
         | H : set_pointers _ _ _ _ _ = Ok _ |- _ =>
             apply keeps_set_pointers in H
         end.
  cbn [snd] in *. unfold frame.same, frame.grows in *.
  cbn [_degree _sizes _ranks _pointers _free_node with_height] in *.
  intuition (try congruence; lia).
Qed.

End insert_steps.

Section insert_height_facts.

Import bitvector.

(** The two branches of [insert] below the root-split test. *)
Lemma keeps_leaf_branch v r index bit k new_index :
  frame.keeps (fun x : t => x) v
    (c <- child v r k ;;
     '(v, k, new_index) <-
       (if t_size c =? W then
          v <- make_room_in_leaves v r k ;;
          '(k, new_index) <- find_insert_point v r index ;;
          Ok (v, k, new_index)
        else Ok (v, k, new_index)) ;;
     v <- add_sizes v r k (degree v) (index_mask v) ;;
     v <- add_ranks v r k (degree v) (wrap (index_mask v * Z.b2z bit)) ;;
     c <- child v r k ;;
     w <- leaf v c ;;
     v <- set_leaf v c (bits.insert_bit w new_index bit) ;;
     Ok (with_size_rank v (_size v + 1) (_rank v + Z.b2z bit))).
Proof. keeps. Qed.

Lemma keeps_node_prefix v r index k new_index n :
  frame.keeps (fun x : t * Z * Z => fst (fst x)) v
    (if n =? degree v then
       v <- make_room_in_nodes v r k ;;
       '(k, new_index) <- find_insert_point v r index ;;
       Ok (v, k, new_index)
     else Ok (v, k, new_index)).
Proof. keeps. Qed.

Lemma insert_at_keeps (fuel : nat) :
  forall v r index bit v',
    t_height r <= _height v ->
    (t_height r = _height v ->
     exists n, nkeys v r = Ok n /\ n <> degree v) ->
    insert_at fuel v r index bit = Ok v' ->
    frame.same v v'.
Proof.
  induction fuel as [|fuel IH]; intros v r index bit v' Hle Hroot H;
    cbn [insert_at] in H; [discriminate|].
  apply bind_ok in H. destruct H as (n & Hn & H).
  destruct (Z.eqb_spec n (degree v)) as [->|Hnd].
  - apply bind_ok in H. destruct H as (v1 & Hsplit & _).
    apply split_root_not_root in Hsplit. destruct Hsplit as [_ Hh].
    destruct (Hroot Hh) as (n' & Hn' & Hne). congruence.
  - apply bind_ok in H. destruct H as ([k new_index] & Hfip & H).
    apply find_insert_point_is_node in Hfip. destruct Hfip as [Hh _].
    destruct (t_height r =? 1).
    + apply (keeps_leaf_branch v r index bit k new_index). exact H.
    + apply bind_ok in H. destruct H as (c & Hc & H).
      apply bind_ok in H. destruct H as (nc & Hnc & H).
      apply bind_ok in H. destruct H as ([[v1 k1] ni1] & Hpre & H).
      apply keeps_node_prefix in Hpre. cbn [fst] in Hpre.
      apply bind_ok in H. destruct H as (v2 & H2 & H).
      apply keeps_add_sizes in H2.
      apply bind_ok in H. destruct H as (v3 & H3 & H).
      apply keeps_add_ranks in H3.
      apply bind_ok in H. destruct H as (c' & Hc' & H).
      apply child_height in Hc'.
      pose proof (szsub_pred (t_height r) Hh) as Hpred.
      assert (Hs : frame.same v v3)
        by (eapply same_trans; [exact Hpre|];
            eapply same_trans; [exact H2|exact H3]).
      eapply same_trans; [exact Hs|].
      apply (IH v3 c' ni1 bit v'); [| |exact H].
      * destruct Hs as (_ & Hhv & _). lia.
      * destruct Hs as (_ & Hhv & _). intros E. lia.
Qed.

Lemma insert_at_degree_one (fuel : nat) :
  forall v r index bit v',
    degree v = 1 -> insert_at fuel v r index bit <> Ok v'.
Proof.
  induction fuel as [|fuel IH]; intros v r index bit v' Hd H;
    cbn [insert_at] in H; [discriminate|].
  apply bind_ok in H. destruct H as (n & Hn & H).
  apply nkeys_is_node in Hn. destruct Hn as (_ & _ & Hn1).
  rewrite (Hn1 Hd), Hd in H. cbn [Z.eqb Pos.eqb] in H.
  apply bind_ok in H. destruct H as (v1 & Hsplit & H).
  apply split_root_params in Hsplit.
  destruct Hsplit as (_ & Hd1 & _).
  apply (IH v1 (root v1) index bit v'); [|exact H].
  unfold degree in *. congruence.
Qed.

Lemma insert_height v index bit v' n :
  insert v index bit = Ok v' -> nkeys v (root v) = Ok n ->
  _height v' = (if n =? degree v then _height v + 1 else _height v)
  /\ _degree v' = _degree v.
Proof.
  unfold insert. intros H Hn.
  replace (Z.to_nat (_height v) + 3)%nat
    with (S (Z.to_nat (_height v) + 2)) in H by lia.
  destruct (Z.eqb_spec n (degree v)) as [->|Hnd].
  - cbn [insert_at] in H. rewrite Hn in H. cbn [bind] in H.
    rewrite Z.eqb_refl in H.
    apply bind_ok in H. destruct H as (v1 & Hsplit & H).
    apply split_root_params in Hsplit.
    destruct Hsplit as (Hh1 & Hd1 & _ & _ & _ & _ & _ & Hn1).
    destruct (Z.eq_dec (degree v1) 1) as [Hone|Hone].
    + exfalso. exact (insert_at_degree_one _ _ _ _ _ _ Hone H).
    + apply insert_at_keeps in H.
      * destruct H as (_ & Hh & _ & _ & Hd & _). split; congruence.
      * cbn [root t_height]. lia.
      * intros _. exists 1. split; [exact Hn1|]. congruence.
  - apply insert_at_keeps in H.
    + destruct H as (_ & Hh & _ & _ & Hd & _). split; assumption.
    + cbn [root t_height]. lia.
    + intros _. exists n. split; assumption.
Qed.

Lemma insert_at_grows (fuel : nat) :
  forall v r index bit v',
    insert_at fuel v r index bit = Ok v' -> frame.grows v v'.
Proof.
  induction fuel as [|fuel IH]; intros v r index bit v' H;
    cbn [insert_at] in H; [discriminate|].
  apply bind_ok in H. destruct H as (n & Hn & H).
  destruct (n =? degree v).
  - apply bind_ok in H. destruct H as (v1 & Hsplit & H).
    apply split_root_grows in Hsplit. apply IH in H.
    exact (grows_trans _ _ _ Hsplit H).
  - apply bind_ok in H. destruct H as ([k new_index] & Hfip & H).
    destruct (t_height r =? 1).
    + apply same_grows.
      apply (keeps_leaf_branch v r index bit k new_index). exact H.
    + apply bind_ok in H. destruct H as (c & Hc & H).
      apply bind_ok in H. destruct H as (nc & Hnc & H).
      apply bind_ok in H. destruct H as ([[v1 k1] ni1] & Hpre & H).
      apply keeps_node_prefix in Hpre. cbn [fst] in Hpre.
      apply bind_ok in H. destruct H as (v2 & H2 & H).
      apply keeps_add_sizes in H2.
      apply bind_ok in H. destruct H as (v3 & H3 & H).
      apply keeps_add_ranks in H3.
      apply bind_ok in H. destruct H as (c' & Hc' & H).
      apply IH in H.
      eapply grows_trans; [|exact H].
      apply same_grows.
      eapply same_trans; [exact Hpre|].
      eapply same_trans; [exact H2|exact H3].
Qed.

Lemma grows_alloc_ok v v' : alloc_ok v -> frame.grows v v' -> alloc_ok v'.
Proof.
  unfold alloc_ok, frame.grows, degree.
  intros (Hn & Hd & Hs & Hr & Hp) (Ed & Es & Er & Ep & Hf).
  rewrite Ed, Es, Er, Ep. repeat split; lia.
Qed.

Lemma make_alloc_ok capacity v : make capacity = Ok v -> alloc_ok v.
Proof.
  unfold make. cbv zeta. intros H.
  apply bind_ok in H. destruct H as (nodes_count & _ & H).
  apply bind_ok in H. destruct H as (? & _ & H).
  apply bind_ok in H. destruct H as (? & _ & H).
  apply bind_ok in H. destruct H as (sz & Hsz & H).
  apply bind_ok in H. destruct H as (rk & Hrk & H).
  apply bind_ok in H. destruct H as (pt & Hpt & H).
  apply array_resize_ok in Hsz. destruct Hsz as (-> & _).
  apply array_resize_ok in Hrk. destruct Hrk as (-> & _).
  apply array_resize_ok in Hpt. destruct Hpt as (-> & _).
  match type of H with
  | (let '(_, _) := alloc_leaf ?u in _) = _ =>
      pose proof (keeps_alloc_leaf u) as Hl;
      destruct (alloc_leaf u) as [l v1]
  end.
  cbn [snd] in Hl.
  apply bind_ok in H. destruct H as ([r v2] & Ha & H).
  pose proof Ha as Hfree.
  apply keeps_alloc_node in Ha. cbn [snd] in Ha.
  apply keeps_insert_child in H.
  pose proof (same_grows _ _ (same_trans _ _ _ Hl (same_trans _ _ _ Ha H)))
    as Hg.
  assert (Hv2 : 0 < _free_node v2).
  { unfold alloc_node in Hfree. inv_ok.
    destruct Hl as (_ & _ & _ & _ & _ & _ & _ & _ & _ & _ & Hl).
    cbn [_free_node with_free_node] in Hl |- *. lia. }
  pose proof (Z.log2_up_nonneg capacity) as Hlog.
  destruct Hg as (Ed & Es & Er & Ep & Hf).
  destruct H as (_ & _ & _ & _ & _ & _ & _ & _ & _ & _ & Hf2).
  unfold alloc_ok, degree. rewrite Ed, Es, Er, Ep.
  cbn [_degree _sizes _ranks _pointers packed_array.zeroed
       packed_view.width packed_view._width packed_view.zeroed].
  repeat split; try lia.
  - apply Z.div_pos; [unfold W|]; lia.
  - apply Z.log2_up_nonneg.
Qed.

Lemma reachable_alloc_ok v : reachable v -> alloc_ok v.
Proof.
  induction 1 as [capacity v H|v index bit v' _ IH H].
  - exact (make_alloc_ok capacity v H).
  - apply (grows_alloc_ok v v' IH).
    unfold insert in H. exact (insert_at_grows _ _ _ _ _ _ H).
Qed.

Lemma reachable_insert_all l : forall v v',
    reachable v -> insert_all v l = Ok v' -> reachable v'.
Proof.
  induction l as [|[i b] l IH]; intros v v' Hr H; cbn [insert_all] in H.
  - inversion H; subst. exact Hr.
  - apply bind_ok in H. destruct H as (v1 & H1 & H).
    apply (IH v1 v' (reach_insert v i b v1 Hr H1) H).
Qed.

Lemma reachable_run capacity l v0 v :
  make capacity = Ok v0 -> insert_all v0 l = Ok v -> reachable v.
Proof.
  intros H0 H. exact (reachable_insert_all l v0 v (reach_make _ _ H0) H).
Qed.

End insert_height_facts.

Section packed_array_facts.

Variable a : packed_array.t.
Hypothesis Hw : 0 <= packed_view.width a.

Lemma pa_set_width b e x :
  packed_view.width (packed_array.store a b e x) = packed_view.width a.
Proof. reflexivity. Qed.

Lemma pa_get_set_same b e x :
  0 <= b <= e ->
  packed_array.get (packed_array.store a b e x) b e
  = bits.lowbits x ((e - b) * packed_view.width a).
Proof.
  intros Hb. unfold packed_array.get, packed_array.store, packed_view.get,
    packed_view.store. cbn [packed_view._bits packed_view.width
                          packed_view._width].
  fold (packed_view.width a).
  rewrite get_set_same by nia. f_equal. lia.
Qed.

Lemma pa_get_set_other b e x b' e' :
  0 <= b <= e -> 0 <= b' <= e' -> e' <= b \/ e <= b' ->
  packed_array.get (packed_array.store a b e x) b' e'
  = packed_array.get a b' e'.
Proof.
  intros Hb Hb' Hd. unfold packed_array.get, packed_array.store,
    packed_view.get, packed_view.store.
  cbn [packed_view._bits packed_view.width packed_view._width].
  fold (packed_view.width a).
  apply get_set_other; nia.
Qed.

Lemma pa_get_set_zero b e b' e' :
  0 <= b <= b' -> b' <= e' -> e' <= e ->
  packed_array.get (packed_array.store a b e 0) b' e' = 0.
Proof.
  intros Hb Hb' He. unfold packed_array.get, packed_array.store,
    packed_view.get, packed_view.store.
  cbn [packed_view._bits packed_view.width packed_view._width].
  fold (packed_view.width a).
  apply Z.bits_inj'. intros i Hi.
  rewrite get_testbit, set_testbit by nia.
  rewrite !Z.testbit_0_l.
  destruct (Z.ltb_spec i (e' * packed_view.width a - b' * packed_view.width a));
    cbn [andb]; [|reflexivity].
  destruct (Z.leb_spec (b * packed_view.width a) (i + b' * packed_view.width a));
    destruct (Z.ltb_spec (i + b' * packed_view.width a) (e * packed_view.width a));
    cbn [andb]; try nia; reflexivity.
Qed.

Lemma pa_get_range b e :
  0 <= b <= e ->
  0 <= packed_array.get a b e < 2 ^ ((e - b) * packed_view.width a).
Proof.
  intros Hb. unfold packed_array.get, packed_view.get.
  replace ((e - b) * packed_view.width a)
    with (e * packed_view.width a - b * packed_view.width a) by lia.
  apply get_range. nia.
Qed.

End packed_array_facts.

Section split_root_facts.

Import bitvector.

Lemma set_sizes_eq v r b e x v' :
  set_sizes v r b e x = Ok v' ->
  v' = with_sizes v (packed_array.store (_sizes v) (t_index r * degree v + b)
                                      (t_index r * degree v + e) x).
Proof.
  unfold set_sizes, sizes_range. intros H. inv_ok. reflexivity.
Qed.

Lemma set_ranks_eq v r b e x v' :
  set_ranks v r b e x = Ok v' ->
  v' = with_ranks v (packed_array.store (_ranks v) (t_index r * degree v + b)
                                      (t_index r * degree v + e) x).
Proof.
  unfold set_ranks, ranks_range. intros H. inv_ok. reflexivity.
Qed.

Lemma set_pointers_eq v r b e x v' :
  set_pointers v r b e x = Ok v' ->
  v' = with_pointers v
         (packed_array.store (_pointers v) (t_index r * (degree v + 1) + b)
                           (t_index r * (degree v + 1) + e) x).
Proof.
  unfold set_pointers, pointers_range. intros H. inv_ok. reflexivity.
Qed.

Lemma copy_node_eq v r r' v' :
  is_node r = true -> copy v r = Ok (r', v') ->
  let n := _free_node v in
  let d := degree v in
  r' = ref n (t_height r) (t_size r) (t_rank r)
  /\ v' =
     with_pointers
       (with_ranks
          (with_sizes (with_free_node v (n + 1))
             (packed_array.store (_sizes v) (n * d + 0) (n * d + d)
                (packed_array.get (_sizes v) (t_index r * d + 0)
                                  (t_index r * d + d))))
          (packed_array.store (_ranks v) (n * d + 0) (n * d + d)
             (packed_array.get (_ranks v) (t_index r * d + 0)
                               (t_index r * d + d))))
       (packed_array.store (_pointers v) (n * (d + 1) + 0)
          (n * (d + 1) + (d + 1))
          (packed_array.get (_pointers v) (t_index r * (d + 1) + 0)
                            (t_index r * (d + 1) + (d + 1)))).
Proof.
  intros Hnode. unfold copy. rewrite Hnode. intros H.
  unfold alloc_node in H. inv_ok.
  repeat match goal with
         | H : sizes_range _ _ _ _ = Ok _ |- _ =>
             unfold sizes_range in H; inv_ok
         | H : ranks_range _ _ _ _ = Ok _ |- _ =>
             unfold ranks_range in H; inv_ok
         | H : pointers_range _ _ _ _ = Ok _ |- _ =>
             unfold pointers_range in H; inv_ok
         end.
  repeat match goal with
         | H : set_sizes _ _ _ _ _ = Ok _ |- _ =>
             apply set_sizes_eq in H; subst
         | H : set_ranks _ _ _ _ _ = Ok _ |- _ =>
             apply set_ranks_eq in H; subst
         | H : set_pointers _ _ _ _ _ = Ok _ |- _ =>
             apply set_pointers_eq in H; subst
         end.
  cbn zeta. split; reflexivity.
Qed.

End split_root_facts.

Ltac pa_side :=
  unfold packed_view.width in *;
  cbn [packed_array.store packed_view.store packed_view._width] in *; nia.

Section split_root_effect.

Import bitvector.

Lemma set_sizes_is_node v r b e x v' :
  set_sizes v r b e x = Ok v' -> is_node r = true.
Proof. unfold set_sizes, sizes_range. intros H. inv_ok. assumption. Qed.

Lemma split_root_effect (v v1 : t) :
  0 < _free_node v -> 0 <= degree v ->
  0 <= packed_view.width (_sizes v) ->
  0 <= packed_view.width (_ranks v) ->
  0 <= packed_view.width (_pointers v) ->
  split_root v (root v) = Ok v1 ->
  let n := _free_node v in
  let d := degree v in
  _height v1 = _height v + 1
  /\ _free_node v1 = n + 1
  /\ packed_array.get (_sizes v1) (n * d) (n * d + d)
     = packed_array.get (_sizes v) 0 d
  /\ packed_array.get (_ranks v1) (n * d) (n * d + d)
     = packed_array.get (_ranks v) 0 d
  /\ packed_array.get (_pointers v1) (n * (d + 1)) (n * (d + 1) + (d + 1))
     = packed_array.get (_pointers v) 0 (d + 1)
  /\ tree.ptr v1 0 0 = bits.lowbits n (packed_view.width (_pointers v))
  /\ (forall k, 1 <= k <= d -> tree.ptr v1 0 k = 0).
Proof.
  intros Hn Hd Hws Hwr Hwp H. cbn zeta.
  unfold split_root in H.
  apply bind_ok in H. destruct H as (ir & _ & H).
  apply bind_ok in H. destruct H as (u & _ & H).
  apply bind_ok in H. destruct H as ([r' va] & Hcopy & H).
  apply bind_ok in H. destruct H as (vb & Hs & H).
  pose proof (set_sizes_is_node _ _ _ _ _ _ Hs) as Hnode.
  apply (copy_node_eq v (root v) r' va Hnode) in Hcopy.
  cbn zeta in Hcopy. destruct Hcopy as [-> ->].
  apply set_sizes_eq in Hs. subst vb.
  apply bind_ok in H. destruct H as (vc & Hr & H).
  apply set_ranks_eq in Hr. subst vc.
  apply bind_ok in H. destruct H as (vd & Hp & H).
  apply set_pointers_eq in Hp. subst vd.
  apply bind_ok in H. destruct H as (ve & Hp & H).
  apply set_pointers_eq in Hp. subst ve.
  apply bind_ok in H. destruct H as (? & _ & H).
  apply bind_ok in H. destruct H as (? & _ & H).
  apply bind_ok in H. destruct H as (? & _ & H).
  apply bind_ok in H. destruct H as (? & _ & H).
  apply bind_ok in H. destruct H as (? & _ & H).
  inversion H; subst v1; clear H.
  unfold tree.ptr.
  cbn [root t_index t_size t_rank t_height degree _degree _height _sizes
       _ranks _pointers _free_node with_sizes with_ranks with_pointers
       with_free_node with_height].
  fold (degree v).
  set (n := _free_node v) in *. set (d := degree v) in *.
  replace (0 * d + 0) with 0 by lia. replace (0 * d + d) with d by lia.
  replace (0 * (d + 1) + 0) with 0 by lia.
  replace (0 * (d + 1) + (d + 1)) with (d + 1) by lia.
  replace (0 * (d + 1) + 1) with 1 by lia.
  replace (n * d + 0) with (n * d) by lia.
  replace (n * (d + 1) + 0) with (n * (d + 1)) by lia.
  split; [reflexivity|]. split; [reflexivity|].
  split; [|split; [|split; [|split]]].
  - rewrite pa_get_set_other by pa_side.
    rewrite pa_get_set_same by pa_side.
    apply lowbits_small; [pa_side|].
    replace (n * d + d - n * d) with (d - 0) by lia.
    apply pa_get_range; pa_side.
  - rewrite pa_get_set_other by pa_side.
    rewrite pa_get_set_same by pa_side.
    apply lowbits_small; [pa_side|].
    replace (n * d + d - n * d) with (d - 0) by lia.
    apply pa_get_range; pa_side.
  - rewrite !pa_get_set_other by pa_side.
    rewrite pa_get_set_same by pa_side.
    apply lowbits_small; [pa_side|].
    replace (n * (d + 1) + (d + 1) - n * (d + 1)) with (d + 1 - 0) by lia.
    apply pa_get_range; pa_side.
  - replace (0 + 1) with 1 by lia.
    rewrite pa_get_set_same by pa_side.
    f_equal. unfold packed_view.width.
    cbn [packed_array.store packed_view.store packed_view._width]. lia.
  - intros k Hk. replace (0 * (d + 1) + k) with k by lia.
    rewrite pa_get_set_other by pa_side.
    apply pa_get_set_zero; pa_side.
Qed.

End split_root_effect.

(** * The sample vectors *)

(** The sample vectors are what the code computes. *)
Example v65_reached : samples.tail_run 1000 65 = Ok samples.v65.
Proof. vm_compute. reflexivity. Qed.

Example v50_reached : samples.tail_run 50 50 = Ok samples.v50.
Proof. vm_compute. reflexivity. Qed.

Example v65_six_reached :
  bitvector.insert_child samples.v65 (bitvector.root samples.v65) 5
  = Ok samples.v65_six.
Proof. vm_compute. reflexivity. Qed.

Example v65_split_reached :
  bitvector.split_root samples.v65 (bitvector.root samples.v65)
  = Ok samples.v65_split.
Proof. vm_compute. reflexivity. Qed.

Example v65_grown_reached :
  bitvector.insert_child samples.v65_split (bitvector.root samples.v65_split) 2
  = Ok samples.v65_grown.
Proof. vm_compute. reflexivity. Qed.

Example v64_short_reached : samples.tail_run 64 63 = Ok samples.v64_short.
Proof. vm_compute. reflexivity. Qed.

Example v64_full_reached : samples.tail_run 64 64 = Ok samples.v64_full.
Proof. vm_compute. reflexivity. Qed.

Example v129_reached : samples.tail_run 129 64 = Ok samples.v129.
Proof. vm_compute. reflexivity. Qed.

Example v200_reached : samples.tail_run 200 65 = Ok samples.v200.
Proof. vm_compute. reflexivity. Qed.

(** The example views are what the constructor and [operator[]] build. *)
Example find_example_built :
  (v <- packed_view.new 2 1 ;; packed_view.set_item v 0 1) = Ok find_example.
Proof. vm_compute. reflexivity. Qed.

Example repeat_example_built : packed_view.new 5 10 = Ok repeat_example.
Proof. vm_compute. reflexivity. Qed.

Example sorted_example_built :
  (v <- packed_view.new 5 4 ;;
   v <- packed_view.set_item v 0 1 ;;
   v <- packed_view.set_item v 1 3 ;;
   v <- packed_view.set_item v 2 3 ;;
   packed_view.set_item v 3 7) = Ok sorted_example.
Proof. vm_compute. reflexivity. Qed.

(** Checks a property of every index of [[0, n)] by evaluation. *)
Lemma all_below (n : Z) (P : Z -> bool) (i : Z) :
  forallb P (tree.range n) = true -> 0 <= i < n -> P i = true.
Proof.
  intros H Hi. rewrite forallb_forall in H. apply H. apply in_range. lia.
Qed.

(** C1, evaluated at a failing input.  The vector of capacity 1000 holding
    the 65 alternating bits inserted at its tail reads them back in order;
    [insert(65, true)], for which [i <= size] and [size < capacity], does
    not return: it stops on a failed assertion. *)
Theorem insert_aborts_on_valid_input :
  bitvector.size samples.v65 = 65
  /\ bitvector.capacity samples.v65 = 1000
  /\ (forall i, 0 <= i < 65 ->
        bitvector.access samples.v65 i = Ok (Z.odd i))
  /\ bitvector.insert samples.v65 65 true = Err AssertionFailure.
Proof.
  split; [reflexivity|]. split; [reflexivity|]. split.
  - intros i Hi.
    assert (Hin : In i (tree.range 65)) by (apply in_range; lia).
    assert (Hall : forallb (fun i => match bitvector.access samples.v65 i with
                                     | Ok b => Bool.eqb b (Z.odd i)
                                     | Err _ => false
                                     end) (tree.range 65) = true)
      by (vm_compute; reflexivity).
    rewrite forallb_forall in Hall.
    specialize (Hall i Hin).
    destruct (bitvector.access samples.v65 i); [|discriminate].
    apply Bool.eqb_prop in Hall. congruence.
  - vm_compute. reflexivity.
Qed.

(** X23 at the vector [v65] and index 40. *)
Lemma access_out_of_range_iff_witness :
  (bitvector.access samples.v65 40 = Err OutOfRange
   <-> bitvector.size samples.v65 <= 40)
  /\ (40 < bitvector.size samples.v65 ->
      exists b, bitvector.access samples.v65 40 = Ok b).
Proof.
  apply (access_out_of_range_iff samples.v65 40).
  - vm_compute. reflexivity.
  - lia.
Defined.

(** C3, as stated, fails: on the vector of capacity 50 holding 50 bits,
    [insert] returns normally, with one bit more, and no [Overflow]. *)
Lemma insert_on_full_vector_counterexample :
  bitvector.size samples.v50 = bitvector.capacity samples.v50
  /\ exists v', bitvector.insert samples.v50 50 true = Ok v'
                /\ bitvector.size v' = 51
                /\ bitvector.insert samples.v50 50 true <> Err Overflow.
Proof.
  split; [reflexivity|]. eexists. split; [vm_compute; reflexivity|].
  split; [reflexivity|]. vm_compute. discriminate.
Qed.

(** X22 at the root of [v65] and index 30. *)
Lemma find_insert_point_selects_child_witness :
  exists k,
    0 <= k <= bitvector.degree samples.v65
    /\ (forall j, 0 <= j < k -> tree.cum samples.v65 0 65 j < 30)
    /\ 30 <= tree.cum samples.v65 0 65 k
    /\ bitvector.find_insert_point samples.v65 (bitvector.ref 0 1 65 32) 30
       = Ok (k, 30 - tree.cum samples.v65 0 65 (k - 1))
    /\ bitvector.find samples.v65 (bitvector.ref 0 1 65 32) 30
       = Ok (if 30 - tree.cum samples.v65 0 65 (k - 1)
                =? tree.cum samples.v65 0 65 k
                   - tree.cum samples.v65 0 65 (k - 1)
             then (k + 1, 0)
             else (k, 30 - tree.cum samples.v65 0 65 (k - 1))).
Proof.
  apply (find_insert_point_selects_child samples.v65 0 1 65 32 30).
  - vm_compute. reflexivity.
  - vm_compute. reflexivity.
  - split; [lia|]. vm_compute. reflexivity.
  - lia.
Defined.

(** C2, evaluated at a failing input.  The vector of capacity 64 takes 64
    bits, each inserted at the tail by a call with [i <= size] and
    [size < capacity].  After the first 63 every position reads back;
    after the 64th, [access(i)] fails an assertion for every [i < size],
    where it should return a bit, and fails with [OutOfRange] from the
    size on.  The counters are 7 bits wide and their top bit is the flag
    bit: each counter holds the flag bit alone, and reads 0 once it is
    stripped. *)
Theorem access_aborts_below_size :
  let u := samples.v64_short in
  let v := samples.v64_full in
  samples.tail_run 64 63 = Ok u
  /\ (forall i, 0 <= i < 63 -> bitvector.access u i = Ok (Z.odd i))
  /\ bitvector.size u < bitvector.capacity u
  /\ bitvector.insert u 63 true = Ok v
  /\ bitvector.size v = 64 /\ bitvector.capacity v = 64
  /\ bitvector.counter_width v = 7 /\ bitvector.degree v = 9
  /\ (forall k, 0 <= k < 9 ->
        packed_view.value (bitvector._sizes v) k = 2 ^ (7 - 1)
        /\ tree.cum v 0 64 k = 0)
  /\ (forall i, 0 <= i < 64 ->
        bitvector.access v i = Err AssertionFailure)
  /\ (forall i, 64 <= i -> bitvector.access v i = Err OutOfRange).
Proof.
  cbv zeta. split; [vm_compute; reflexivity|]. split.
  { intros i Hi.
    pose proof (all_below 63
                  (fun i => match bitvector.access samples.v64_short i with
                            | Ok b => Bool.eqb b (Z.odd i)
                            | Err _ => false
                            end) i ltac:(vm_compute; reflexivity) Hi) as H.
    cbv beta in H.
    destruct (bitvector.access samples.v64_short i); [|discriminate].
    apply Bool.eqb_prop in H. congruence. }
  split; [vm_compute; reflexivity|]. split; [vm_compute; reflexivity|].
  split; [reflexivity|]. split; [reflexivity|]. split; [reflexivity|].
  split; [reflexivity|]. split.
  { intros k Hk.
    pose proof (all_below 9
                  (fun k => (packed_view.value
                               (bitvector._sizes samples.v64_full) k
                             =? 2 ^ (7 - 1))
                            && (tree.cum samples.v64_full 0 64 k =? 0))
                  k ltac:(vm_compute; reflexivity) Hk) as H.
    cbv beta in H. apply andb_prop in H. destruct H as [H1 H2].
    apply Z.eqb_eq in H1, H2. split; assumption. }
  split.
  { intros i Hi.
    pose proof (all_below 64
                  (fun i => match bitvector.access samples.v64_full i with
                            | Err AssertionFailure => true
                            | _ => false
                            end) i ltac:(vm_compute; reflexivity) Hi) as H.
    cbv beta in H.
    destruct (bitvector.access samples.v64_full i) as [b|[]];
      try discriminate. reflexivity. }
  intros i Hi. apply access_at_out_of_range. exact Hi.
Qed.

(** C5, evaluated at a failing input.  On the root of the same vector of
    capacity 64, whose only child is the leaf that holds the 64 bits,
    [find_insert_point(1)] answers child 9, the absent last child, and
    [find(1)] fails the assertion of [child]; one insertion earlier both
    answer child 0.  For every index from 1 to 63 the answer is child 9,
    although position [index] lies in child 0. *)
Theorem find_insert_point_misses_child :
  let u := samples.v64_short in
  let v := samples.v64_full in
  bitvector.insert u 63 true = Ok v
  /\ bitvector.find_insert_point u (bitvector.root u) 1 = Ok (0, 1)
  /\ bitvector.find u (bitvector.root u) 1 = Ok (0, 1)
  /\ tree.ptr v 0 0 = 1
  /\ (forall k, 1 <= k < 10 -> tree.ptr v 0 k = 0)
  /\ bitvector.leaf v (bitvector.ref 1 0 64 32)
     = Ok 0xAAAAAAAAAAAAAAAA
  /\ (forall index, 1 <= index < 64 ->
        bitvector.find_insert_point v (bitvector.root v) index
        = Ok (9, index)
        /\ bitvector.find v (bitvector.root v) index
           = Err AssertionFailure)
  /\ bitvector.child v (bitvector.root v) 9 = Err AssertionFailure.
Proof.
  cbv zeta. split; [vm_compute; reflexivity|].
  split; [vm_compute; reflexivity|]. split; [vm_compute; reflexivity|].
  split; [vm_compute; reflexivity|]. split.
  { intros k Hk.
    pose proof (all_below 10
                  (fun k => (k =? 0) || (tree.ptr samples.v64_full 0 k =? 0))
                  k ltac:(vm_compute; reflexivity) ltac:(lia)) as H.
    cbv beta in H. destruct (Z.eqb_spec k 0); [lia|].
    apply Z.eqb_eq in H. exact H. }
  split; [vm_compute; reflexivity|]. split; [|vm_compute; reflexivity].
  intros index Hi.
  pose proof (all_below 64
                (fun i =>
                   (i =? 0)
                   || match bitvector.find_insert_point samples.v64_full
                              (bitvector.root samples.v64_full) i,
                            bitvector.find samples.v64_full
                              (bitvector.root samples.v64_full) i with
                      | Ok (k, j), Err AssertionFailure =>
                          (k =? 9) && (j =? i)
                      | _, _ => false
                      end)
                index ltac:(vm_compute; reflexivity) ltac:(lia)) as H.
  cbv beta in H. destruct (Z.eqb_spec index 0); [lia|]. cbn [orb] in H.
  destruct (bitvector.find_insert_point samples.v64_full
              (bitvector.root samples.v64_full) index) as [[k j]|];
    [|discriminate].
  destruct (bitvector.find samples.v64_full
              (bitvector.root samples.v64_full) index) as [|[]];
    try discriminate.
  apply andb_prop in H. destruct H as [H1 H2].
  apply Z.eqb_eq in H1, H2. subst. split; reflexivity.
Qed.

(** C6, evaluated at a failing input.  The vector of capacity 200 holding
    65 bits inserted at the tail: its root is full, so that every
    [insert] starts with the root split.  The constructor has sized the
    arrays for one node; [alloc_node] compares the slot with the number
    of fields, not of nodes, and its assertion passes; [copy] then writes
    the counters of the root to the fields [[7, 14)] of an array of 7
    fields.  No node slot receives the old root, and the height does not
    grow. *)
Theorem root_split_leaves_the_arrays :
  let v := samples.v200 in
  samples.tail_run 200 65 = Ok v
  /\ bitvector.size v = 65 /\ bitvector.capacity v = 200
  /\ bitvector.nkeys v (bitvector.root v) = Ok (bitvector.degree v)
  /\ bitvector.degree v = 7 /\ bitvector._free_node v = 1
  /\ packed_array.size (bitvector._sizes v) = 1 * 7
  /\ packed_array.size (bitvector._ranks v) = 1 * 7
  /\ packed_array.size (bitvector._pointers v) = 1 * (7 + 1)
  /\ (exists v1, bitvector.alloc_node v = Ok (1, v1))
  /\ bitvector.copy v (bitvector.root v) = Err OutOfBounds
  /\ bitvector.split_root v (bitvector.root v) = Err OutOfBounds
  /\ forall index bit, bitvector.insert v index bit = Err OutOfBounds.
Proof.
  cbv zeta. split; [vm_compute; reflexivity|].
  split; [reflexivity|]. split; [reflexivity|].
  split; [vm_compute; reflexivity|]. split; [reflexivity|].
  split; [reflexivity|]. split; [vm_compute; reflexivity|].
  split; [vm_compute; reflexivity|]. split; [vm_compute; reflexivity|].
  split; [eexists; vm_compute; reflexivity|].
  split; [vm_compute; reflexivity|].
  assert (Hsplit : bitvector.split_root samples.v200
                     (bitvector.root samples.v200) = Err OutOfBounds)
    by (vm_compute; reflexivity).
  split; [exact Hsplit|]. intros index bit.
  unfold bitvector.insert.
  change (Z.to_nat (bitvector._height samples.v200) + 3)%nat with 4%nat.
  cbn [bitvector.insert_at].
  replace (bitvector.nkeys samples.v200 (bitvector.root samples.v200))
    with (@Ok Z 7) by (vm_compute; reflexivity).
  cbn [bind]. change (7 =? bitvector.degree samples.v200) with true.
  cbv iota. rewrite Hsplit. reflexivity.
Qed.

(** C8, evaluated at a failing input: the call of [redistribute_keys] that
    [insert(65, true)] makes on [v65] (capacity 1000, 65 bits).  The root
    is full and is split; the copy of the old root, child 0 of the new
    root, is full, so that [insert] looks for a window, gets [[0, 2)] with
    5 keys, adds a child at position 2 and calls
    [redistribute_keys(root, 0, 3, 5)].  The first loop reads
    [t.child(0).child(c)] for every [c <= degree()]; the old root has the
    five children 0 to 4, so that the five triples are read and the read
    of child 5 fails [assert(pointers(k) != 0)]. *)
Theorem redistribute_keys_aborts_on_received_window :
  let v := samples.v65 in
  let v1 := samples.v65_split in
  let v2 := samples.v65_grown in
  bitvector.nkeys v (bitvector.root v) = Ok (bitvector.degree v)
  /\ bitvector.split_root v (bitvector.root v) = Ok v1
  /\ bitvector.nkeys v1 (bitvector.root v1) = Ok 1
  /\ bitvector.find_insert_point v1 (bitvector.root v1) 65 = Ok (0, 65)
  /\ bitvector.child v1 (bitvector.root v1) 0 = Ok (bitvector.ref 1 1 65 32)
  /\ bitvector.nkeys v1 (bitvector.ref 1 1 65 32) = Ok (bitvector.degree v1)
  /\ bitvector.find_adjacent_children v1 (bitvector.root v1) 0 = Ok (0, 2, 5)
  /\ bitvector.insert_child v1 (bitvector.root v1) 2 = Ok v2
  /\ map (tree.ptr v2 0) (tree.range 6) = [1; 0; 2; 0; 0; 0]
  /\ map (tree.ptr v2 1) (tree.range 6) = [1; 2; 3; 4; 5; 0]
  /\ map (tree.cum v2 1 65) (tree.range 5) = [13; 26; 39; 52; 65]
  /\ bitvector.gather_node 5 v2 (bitvector.root v2) 0 0 []
     = Ok [bitvector.mk_pointer 13 6 1; bitvector.mk_pointer 13 7 2;
           bitvector.mk_pointer 13 6 3; bitvector.mk_pointer 13 7 4;
           bitvector.mk_pointer 13 6 5]
  /\ bitvector.child v2 (bitvector.ref 1 1 65 32) 5 = Err AssertionFailure
  /\ bitvector.redistribute_keys v2 (bitvector.root v2) 0 3 5
     = Err AssertionFailure
  /\ bitvector.insert v 65 true = Err AssertionFailure.
Proof. vm_compute. repeat split. Qed.

(** C10, evaluated at a failing input: the call of [redistribute_bits] that
    [insert(64, true)] makes on the vector of capacity 129 holding 64 bits
    (its first leaf is full).  The window is [[0, 7)] with 64 bits, 10 or
    9 for each of 7 leaves.  Pointers are 2 bits wide: the leaves of
    children 1 and 2 get the indices 2 and 3, the leaf of child 3 gets
    index 4, of which [pointers(3)] keeps 0, and [t.child(3)] fails
    [assert(pointers(k) != 0)].  The bits are not spread and [insert]
    does not return. *)
Theorem redistribute_bits_aborts_on_received_window :
  let v := samples.v129 in
  let r := bitvector.root v in
  samples.tail_run 129 64 = Ok v
  /\ bitvector.size v = 64 /\ bitvector.capacity v = 129
  /\ bitvector.degree v = 7 /\ bitvector._leaves_buffer v = 7
  /\ bitvector.pointer_width v = 2
  /\ (forall i, 0 <= i < 64 -> bitvector.access v i = Ok (Z.odd i))
  /\ bitvector.nkeys v r = Ok 1
  /\ bitvector.find_insert_point v r 64 = Ok (0, 64)
  /\ bitvector.child v r 0 = Ok (bitvector.ref 1 0 64 32)
  /\ bitvector.find_adjacent_children v r 0 = Ok (0, 7, 64)
  /\ (exists view vc v3 v4,
        (a <- packed_array.resize 1 64 ;; bitvector.gather_bits 7 v r 0 0 a)
        = Ok view
        /\ bitvector.clear_keys v r 0 7 = Ok vc
        /\ bitvector.spread_bits 3 vc r view 9 0 0 0 1 64 = Ok (v3, 36)
        /\ map (tree.ptr v3 0) (tree.range 8) = [1; 2; 3; 0; 0; 0; 0; 0]
        /\ length (bitvector._leaves v3) = 4%nat
        /\ bitvector.insert_child v3 r 3 = Ok v4
        /\ length (bitvector._leaves v4) = 5%nat
        /\ tree.ptr v4 0 3 = bits.lowbits 4 2
        /\ bitvector.child v4 r 3 = Err AssertionFailure)
  /\ bitvector.redistribute_bits v r 0 7 64 = Err AssertionFailure
  /\ bitvector.insert v 64 true = Err AssertionFailure.
Proof.
  cbv zeta. split; [vm_compute; reflexivity|].
  split; [reflexivity|]. split; [reflexivity|]. split; [reflexivity|].
  split; [reflexivity|]. split; [reflexivity|]. split.
  { intros i Hi.
    pose proof (all_below 64
                  (fun i => match bitvector.access samples.v129 i with
                            | Ok b => Bool.eqb b (Z.odd i)
                            | Err _ => false
                            end) i ltac:(vm_compute; reflexivity) Hi) as H.
    cbv beta in H.
    destruct (bitvector.access samples.v129 i); [|discriminate].
    apply Bool.eqb_prop in H. congruence. }
  split; [vm_compute; reflexivity|]. split; [vm_compute; reflexivity|].
  split; [vm_compute; reflexivity|]. split; [vm_compute; reflexivity|].
  split; [|split; vm_compute; reflexivity].
  eexists. eexists. eexists. eexists.
  split; [vm_compute; reflexivity|]. split; [vm_compute; reflexivity|].
  split; [vm_compute; reflexivity|]. split; [vm_compute; reflexivity|].
  split; [vm_compute; reflexivity|]. split; [vm_compute; reflexivity|].
  split; [vm_compute; reflexivity|]. split; vm_compute; reflexivity.
Qed.

(** The assertions of [test_word] on [get] and [set] hold in the model of
    the bit view. *)
Example test_word_ok :
  exists w,
    test_word_view = Ok w /\
    bitview.container w 0 = 0xFFFFFFFFFFFFFFDF /\
    bitview.container w 1 = 0x3900000000000000 /\
    bitview.container w 2 = 0x30 /\
    bitview.container w 3 = 8 /\
    bitview.get1 w 5 = false /\
    bitview.get w 120 136 = 12345 /\
    bitview.get1 w 195 = true.
Proof. eexists. split; [reflexivity|]. vm_compute. repeat split. Qed.

(** * Further properties of the packed view *)

Section packed_view_more.

(** X1.  The masks of a view: for a width from 1 to [W] the constructor
    returns a view whose [field_mask] has the lowest bit of each of the
    [W / w] fields of a word, and whose [flag_mask] has the highest. *)
Theorem masks_bits (w n i : Z) :
  0 < w <= W -> 0 <= i ->
  exists v,
    packed_view.new w n = Ok v
    /\ Z.testbit (packed_view.field_mask v) i
       = (i <? W / w * w) && (i mod w =? 0)
    /\ Z.testbit (packed_view.flag_mask v) i
       = (i <? W / w * w) && (i mod w =? w - 1).
Proof.
  intros Hw Hi. exists (packed_view.zeroed w n).
  split; [apply view_new_built; lia|].
  pose proof (fpw_pos w Hw) as Hf.
  assert (Hm : packed_view.field_mask (packed_view.zeroed w n)
               = packed_view.built_mask w) by reflexivity.
  assert (H2 : 1 < 2 ^ w) by (apply Z.pow_gt_1; lia).
  assert (Hmod : 0 <= i mod w < w) by (apply Z.mod_pos_bound; lia).
  split.
  - rewrite Hm, compute_field_mask_fm by lia.
    rewrite <- (Z.mul_1_r (fm _ _)).
    rewrite testbit_fm_mul by lia. rewrite Z2Nat.id by lia.
    f_equal.
  - rewrite (flag_mask_fm (packed_view.zeroed w n) w Hw eq_refl Hm).
    rewrite testbit_fm_mul; [|lia| |lia].
    2:{ split; [apply Z.lt_le_incl, pow2_pos; lia|].
        apply Z.pow_lt_mono_r; lia. }
    rewrite Z2Nat.id by lia. f_equal.
    rewrite Z.pow2_bits_eqb by lia. apply Z.eqb_sym.
Qed.

(** X1 at width 5 and bit 55. *)
Lemma masks_bits_witness :
  exists v,
    packed_view.new 5 10 = Ok v
    /\ Z.testbit (packed_view.field_mask v) 55
       = (55 <? W / 5 * 5) && (55 mod 5 =? 0)
    /\ Z.testbit (packed_view.flag_mask v) 55
       = (55 <? W / 5 * 5) && (55 mod 5 =? 5 - 1).
Proof. apply (masks_bits 5 10 55); unfold W; lia. Defined.

Lemma store_size (v : packed_view.t) (b e x : Z) :
  packed_view.size (packed_view.store v b e x) = packed_view.size v.
Proof. reflexivity. Qed.

Lemma set_item_inside (v : packed_view.t) (k x : Z) :
  0 < packed_view.width v -> k < packed_view.size v ->
  packed_view.set_item v k x = Ok (packed_view.assign v k x).
Proof.
  intros Hw Hk. unfold packed_view.set_item, packed_view.subscript, assert.
  destruct (Z.ltb_spec k (packed_view.size v)); [|lia]. cbn [bind].
  apply view_set_inside. apply fields_fit; [exact Hw|lia].
Qed.

Lemma set_item_outside (v : packed_view.t) (k x : Z) :
  packed_view.size v <= k ->
  packed_view.set_item v k x = Err AssertionFailure.
Proof.
  intros Hk. unfold packed_view.set_item, packed_view.subscript, assert.
  destruct (Z.ltb_spec k (packed_view.size v)); [lia|reflexivity].
Qed.

(** X2.  Fields written and read through [operator[]].  Below the number
    of fields, [v[k] = x] returns, [v[k]] then reads [lowbits(x, w)], every
    other field reads what it read before, and the width, the number of
    fields and the mask are unchanged.  From the number of fields on, the
    assertion of [operator[]] fails, for the write and for the read. *)
Theorem set_item_item (v : packed_view.t) (k x : Z) :
  0 < packed_view.width v -> 0 <= k ->
  (k < packed_view.size v ->
   exists v',
     packed_view.set_item v k x = Ok v'
     /\ packed_view.item v' k = Ok (bits.lowbits x (packed_view.width v))
     /\ (forall j, 0 <= j -> j <> k ->
           packed_view.item v' j = packed_view.item v j)
     /\ packed_view.width v' = packed_view.width v
     /\ packed_view.size v' = packed_view.size v
     /\ packed_view.field_mask v' = packed_view.field_mask v)
  /\ (packed_view.size v <= k ->
      packed_view.set_item v k x = Err AssertionFailure
      /\ packed_view.item v k = Err AssertionFailure).
Proof.
  intros Hw Hk. set (w := packed_view.width v) in *. split.
  - intros Hin. exists (packed_view.assign v k x).
    split; [apply set_item_inside; assumption|].
    assert (Hsz : packed_view.size (packed_view.assign v k x)
                  = packed_view.size v) by reflexivity.
    split; [|split; [|repeat split]].
    + rewrite item_inside by (rewrite Hsz; exact Hin). f_equal.
      unfold packed_view.value, packed_view.assign, packed_view.get,
        packed_view.store, packed_view.width.
      cbn [packed_view._bits packed_view._width].
      fold (packed_view.width v). fold w.
      rewrite get_set_same by nia. f_equal. lia.
    + intros j Hj Hne.
      destruct (Z.lt_ge_cases j (packed_view.size v)) as [Hlt|Hge].
      * rewrite !item_inside by (try rewrite Hsz; exact Hlt). f_equal.
        unfold packed_view.value, packed_view.assign, packed_view.get,
          packed_view.store, packed_view.width.
        cbn [packed_view._bits packed_view._width].
        fold (packed_view.width v). fold w.
        apply get_set_other; nia.
      * rewrite !item_outside by (try rewrite Hsz; exact Hge). reflexivity.
  - intros Hout. split; [apply set_item_outside|apply item_outside];
      exact Hout.
Qed.

(** X2 at item 3 of [repeat_example] and the value 77. *)
Lemma set_item_item_witness :
  exists v',
    packed_view.set_item repeat_example 3 77 = Ok v'
    /\ packed_view.item v' 3
       = Ok (bits.lowbits 77 (packed_view.width repeat_example))
    /\ (forall j, 0 <= j -> j <> 3 ->
          packed_view.item v' j = packed_view.item repeat_example j)
    /\ packed_view.width v' = packed_view.width repeat_example
    /\ packed_view.size v' = packed_view.size repeat_example
    /\ packed_view.field_mask v' = packed_view.field_mask repeat_example.
Proof.
  apply (set_item_item repeat_example 3 77);
    [vm_compute; reflexivity|lia|vm_compute; reflexivity].
Defined.

(** X3.  [repeat(begin, end, pattern)] on any range of the view: it
    terminates, the fields of the range read [lowbits(pattern, w)], and
    every other field reads what it read before; the reads are those of
    [operator[]]. *)
Theorem repeat_range (v : packed_view.t) (begin end_ pattern : Z) :
  0 < packed_view.width v <= W ->
  packed_view.field_mask v
  = packed_view.built_mask (packed_view.width v) ->
  0 <= begin <= end_ -> end_ <= packed_view.size v ->
  end_ * packed_view.width v < 2 ^ 64 ->
  exists v',
    packed_view.repeat v begin end_ pattern = Some v'
    /\ packed_view.width v' = packed_view.width v
    /\ packed_view.field_mask v' = packed_view.field_mask v
    /\ packed_view.size v' = packed_view.size v
    /\ (forall i, begin <= i < end_ ->
          packed_view.item v' i
          = Ok (bits.lowbits pattern (packed_view.width v)))
    /\ (forall i, 0 <= i -> i < begin \/ end_ <= i ->
          packed_view.item v' i = packed_view.item v i).
Proof.
  intros Hw Hm Hb Hs He. set (w := packed_view.width v) in *.
  pose proof (fields_fit v end_ ltac:(fold w; lia) Hs) as Hfit.
  fold w in Hfit.
  assert (Hn64 : end_ < 2 ^ 64) by nia.
  pose proof (lowbits_range pattern w ltac:(lia)) as Hl.
  destruct (repeat_loop_spec w (bits.lowbits pattern w) end_ (begin * w)
              ltac:(lia) Hl (S (Z.to_nat (end_ * w - begin * w))) v
              (begin * w))
    as (v' & Hv' & Hw' & Hm' & Hsz' & Hbits); try nia; try reflexivity.
  { right. rewrite Z.sub_diag. apply Z.mod_0_l.
    pose proof (bpw_range w ltac:(lia)). lia. }
  assert (Hsize : packed_view.size v' = packed_view.size v).
  { unfold packed_view.size. rewrite Hsz', Hw'. reflexivity. }
  exists v'. split.
  { unfold packed_view.repeat. fold w. rewrite Hm.
    rewrite compute_field_mask_fm by lia.
    rewrite szsub_small by lia.
    replace ((end_ - begin) * w) with (end_ * w - begin * w) by lia.
    exact Hv'. }
  split; [exact Hw'|]. split; [exact Hm'|]. split; [exact Hsize|].
  assert (Hitem : forall i, 0 <= i ->
            packed_view.value v' i
            = if (begin <=? i) && (i <? end_) then bits.lowbits pattern w
              else packed_view.value v i).
  { intros i Hi.
    unfold packed_view.value, packed_view.get, packed_view.width.
    rewrite Hw'. fold (packed_view.width v). fold w.
    apply Z.bits_inj'. intros j Hj.
    rewrite get_testbit by nia.
    replace ((i + 1) * w - i * w) with w by lia.
    destruct (Z.ltb_spec j w) as [Hjw|Hjw]; cbn [andb].
    - rewrite Hbits by nia.
      assert (Hin : (begin * w <=? j + i * w) && (j + i * w <? end_ * w)
                    = (begin <=? i) && (i <? end_)).
      { destruct (Z.leb_spec begin i); destruct (Z.ltb_spec i end_);
          destruct (Z.leb_spec (begin * w) (j + i * w));
          destruct (Z.ltb_spec (j + i * w) (end_ * w));
          cbn [andb]; try reflexivity; nia. }
      rewrite Hin. destruct ((begin <=? i) && (i <? end_)) eqn:E.
      + apply andb_prop in E. destruct E as [E1 E2].
        apply Z.leb_le in E1.
        replace (j + i * w - begin * w) with (j + (i - begin) * w) by lia.
        rewrite Z.mod_add, Z.mod_small by lia. reflexivity.
      + rewrite get_testbit by nia.
        replace ((i + 1) * w - i * w) with w by lia.
        destruct (Z.ltb_spec j w); [reflexivity|lia].
    - destruct ((begin <=? i) && (i <? end_)).
      + unfold bits.lowbits.
        rewrite Z.land_spec, Z.testbit_ones_nonneg by lia.
        destruct (Z.ltb_spec j w); [lia|]. symmetry. apply andb_false_r.
      + rewrite get_testbit by nia.
        replace ((i + 1) * w - i * w) with w by lia.
        destruct (Z.ltb_spec j w); [lia|]. reflexivity. }
  split.
  - intros i Hi. rewrite item_inside by lia. f_equal.
    rewrite Hitem by lia.
    destruct (Z.leb_spec begin i); destruct (Z.ltb_spec i end_);
      try lia. reflexivity.
  - intros i Hi Hout.
    destruct (Z.lt_ge_cases i (packed_view.size v)) as [Hlt|Hge].
    + rewrite !item_inside by lia. f_equal. rewrite Hitem by lia.
      destruct (Z.leb_spec begin i); destruct (Z.ltb_spec i end_);
        try lia; reflexivity.
    + rewrite !item_outside by lia. reflexivity.
Qed.

(** X3 at [repeat_example], the range [[3, 7)] and the pattern 77. *)
Lemma repeat_range_witness :
  exists v',
    packed_view.repeat repeat_example 3 7 77 = Some v'
    /\ packed_view.width v' = packed_view.width repeat_example
    /\ packed_view.field_mask v' = packed_view.field_mask repeat_example
    /\ packed_view.size v' = packed_view.size repeat_example
    /\ (forall i, 3 <= i < 7 ->
          packed_view.item v' i
          = Ok (bits.lowbits 77 (packed_view.width repeat_example)))
    /\ (forall i, 0 <= i -> i < 3 \/ 7 <= i ->
          packed_view.item v' i = packed_view.item repeat_example i).
Proof.
  apply (repeat_range repeat_example 3 7 77).
  - vm_compute. split; [reflexivity|discriminate].
  - vm_compute. reflexivity.
  - lia.
  - vm_compute. discriminate.
  - vm_compute. reflexivity.
Defined.

Lemma find_fields_below (v : packed_view.t) (begin end_ value : Z) :
  0 < packed_view.width v <= W ->
  packed_view.field_mask v
  = packed_view.built_mask (packed_view.width v) ->
  0 <= begin <= end_ -> end_ < 2 ^ 64 ->
  packed_view.find v begin end_ value =
  Some (fields_below v begin end_
          (fun a => bits.lowbits a (packed_view.width v - 1)
                    <? bits.lowbits value (packed_view.width v - 1))).
Proof.
  intros Hw Hm Hb He. set (w := packed_view.width v) in *.
  unfold packed_view.find. fold w.
  rewrite szsub_small by lia.
  pose proof (lowbits_range value (w - 1) ltac:(lia)) as Hth.
  pose proof (find_loop_spec w ltac:(lia) v begin end_
                (bits.lowbits value (w - 1)) eq_refl Hm Hth
                (S (Z.to_nat (end_ - begin))) begin (end_ - begin)) as Hl.
  rewrite Hl; try lia.
  2:{ right. rewrite Z.sub_diag. apply Z.mod_0_l.
      pose proof (fpw_pos w ltac:(lia)). lia. }
  f_equal. unfold fields_below.
  rewrite <- (Z2Nat.id (end_ - begin)) at 1 by lia.
  rewrite <- count_range_negb. apply count_range_ext.
  intros j _. cbn beta.
  destruct (Z.leb_spec (bits.lowbits value (w - 1))
              (bits.lowbits (packed_view.value v j) (w - 1)));
    destruct (Z.ltb_spec (bits.lowbits (packed_view.value v j) (w - 1))
                (bits.lowbits value (w - 1))); cbn [negb]; lia.
Qed.

(** X4.  [find] over a range is the sum of [find] over its two parts, and it
    never exceeds the number of fields searched. *)
Theorem find_split (v : packed_view.t) (begin mid end_ value : Z) :
  0 < packed_view.width v <= W ->
  packed_view.field_mask v
  = packed_view.built_mask (packed_view.width v) ->
  0 <= begin <= mid -> mid <= end_ -> end_ < 2 ^ 64 ->
  exists r1 r2,
    packed_view.find v begin mid value = Some r1
    /\ packed_view.find v mid end_ value = Some r2
    /\ packed_view.find v begin end_ value = Some (r1 + r2)
    /\ 0 <= r1 <= mid - begin /\ 0 <= r2 <= end_ - mid.
Proof.
  intros Hw Hm Hb Hme He.
  rewrite !find_fields_below by (assumption || lia).
  eexists. eexists. split; [reflexivity|]. split; [reflexivity|].
  unfold fields_below. split.
  - f_equal.
    replace (Z.to_nat (end_ - begin))
      with (Z.to_nat (mid - begin) + Z.to_nat (end_ - mid))%nat by lia.
    rewrite count_range_app. f_equal. f_equal. lia.
  - split.
    + pose proof (count_range_bound (Z.to_nat (mid - begin)) begin
        (fun i => bits.lowbits (packed_view.value v i)
                               (packed_view.width v - 1)
                  <? bits.lowbits value (packed_view.width v - 1))). lia.
    + pose proof (count_range_bound (Z.to_nat (end_ - mid)) mid
        (fun i => bits.lowbits (packed_view.value v i)
                               (packed_view.width v - 1)
                  <? bits.lowbits value (packed_view.width v - 1))). lia.
Qed.

(** X4 at [sorted_example], split after field 0, and the value 3. *)
Lemma find_split_witness :
  exists r1 r2,
    packed_view.find sorted_example 0 1 3 = Some r1
    /\ packed_view.find sorted_example 1 4 3 = Some r2
    /\ packed_view.find sorted_example 0 4 3 = Some (r1 + r2)
    /\ 0 <= r1 <= 1 - 0 /\ 0 <= r2 <= 4 - 1.
Proof.
  apply (find_split sorted_example 0 1 4 3).
  - vm_compute. split; [reflexivity|discriminate].
  - vm_compute. reflexivity.
  - lia.
  - lia.
  - vm_compute. reflexivity.
Defined.

(** X5.  [find] as a search: when the fields of the range are in non-decreasing
    order and, like the threshold, below the flag bit, [find] returns
    the position, relative to [begin], of the first field that is not
    below the threshold. *)
Theorem find_sorted (v : packed_view.t) (begin end_ value : Z) :
  0 < packed_view.width v <= W ->
  packed_view.field_mask v
  = packed_view.built_mask (packed_view.width v) ->
  0 <= begin <= end_ -> end_ < 2 ^ 64 ->
  (forall i, begin <= i < end_ ->
     packed_view.value v i < 2 ^ (packed_view.width v - 1)) ->
  0 <= value < 2 ^ (packed_view.width v - 1) ->
  (forall i, begin <= i -> i + 1 < end_ ->
     packed_view.value v i <= packed_view.value v (i + 1)) ->
  exists r,
    packed_view.find v begin end_ value = Some r
    /\ 0 <= r <= end_ - begin
    /\ (forall i, begin <= i < begin + r -> packed_view.value v i < value)
    /\ (forall i, begin + r <= i < end_ -> value <= packed_view.value v i).
Proof.
  intros Hw Hm Hb He Hitems Hval Hsorted.
  set (w := packed_view.width v) in *.
  rewrite find_fields_below by (assumption || lia). fold w.
  unfold fields_below.
  pose proof (count_lt_monotone (packed_view.value v) value
                (Z.to_nat (end_ - begin)) begin
                ltac:(intros j Hj; apply Hsorted; lia)) as Hc.
  cbn zeta in Hc. destruct Hc as (Hr & Hlt & Hge).
  assert (E : count_range (Z.to_nat (end_ - begin)) begin
                (fun i => bits.lowbits (packed_view.value v i) (w - 1)
                          <? bits.lowbits value (w - 1))
              = count_range (Z.to_nat (end_ - begin)) begin
                  (fun j => packed_view.value v j <? value)).
  { apply count_range_ext. intros j Hj. cbn beta.
    rewrite (lowbits_small value) by lia.
    rewrite (lowbits_small (packed_view.value v j)); [reflexivity|lia|].
    split; [|apply Hitems; lia].
    unfold packed_view.value, packed_view.get. apply get_range. fold w. nia. }
  rewrite E. eexists. split; [reflexivity|].
  split; [lia|]. split.
  - intros i Hi. apply Hlt. lia.
  - intros i Hi. apply Hge. lia.
Qed.

(** X5 at [sorted_example] and the value 3. *)
Lemma find_sorted_witness :
  exists r,
    packed_view.find sorted_example 0 4 3 = Some r
    /\ 0 <= r <= 4 - 0
    /\ (forall i, 0 <= i < 0 + r -> packed_view.value sorted_example i < 3)
    /\ (forall i, 0 + r <= i < 4 -> 3 <= packed_view.value sorted_example i).
Proof.
  apply (find_sorted sorted_example 0 4 3).
  - vm_compute. split; [reflexivity|discriminate].
  - vm_compute. reflexivity.
  - lia.
  - vm_compute. reflexivity.
  - intros i Hi.
    assert (Hc : i = 0 \/ i = 1 \/ i = 2 \/ i = 3) by lia.
    destruct Hc as [->|[->|[->| ->]]]; vm_compute; reflexivity.
  - vm_compute. split; [discriminate|reflexivity].
  - intros i Hi Hj.
    assert (Hc : i = 0 \/ i = 1 \/ i = 2) by lia.
    destruct Hc as [->|[->| ->]]; vm_compute; discriminate.
Defined.

End packed_view_more.

Section field_facts.

Variable w : Z.
Hypothesis w_pos : 0 < w.

Lemma word_field_testbit (x i t : Z) :
  0 <= i -> 0 <= t ->
  Z.testbit (word_field w x i) t = (t <? w) && Z.testbit x (t + i * w).
Proof.
  intros Hi Ht. unfold word_field.
  destruct (Z.ltb_spec t w).
  - rewrite Z.mod_pow2_bits_low by lia.
    rewrite Z.div_pow2_bits by nia. reflexivity.
  - rewrite Z.mod_pow2_bits_high by lia. reflexivity.
Qed.

Lemma word_field_range (x i : Z) : 0 <= word_field w x i < 2 ^ w.
Proof. apply Z.mod_pos_bound, pow2_pos. lia. Qed.

Lemma word_field_zero (x : Z) : word_field w x 0 = x mod 2 ^ w.
Proof.
  unfold word_field. rewrite Z.mul_0_l, Z.pow_0_r, Z.div_1_r. reflexivity.
Qed.

Lemma word_field_succ (x i : Z) :
  0 <= i -> word_field w x (i + 1) = word_field w (x / 2 ^ w) i.
Proof.
  intros Hi. unfold word_field.
  replace ((i + 1) * w) with (w + i * w) by lia.
  rewrite Z.pow_add_r by nia.
  pose proof (pow2_pos w ltac:(lia)). pose proof (pow2_pos (i * w) ltac:(nia)).
  rewrite Z.div_div by lia.
  reflexivity.
Qed.

(** Adding the field mask adds 1 to every field, as long as no field
    overflows. *)
Lemma add_fm_fields (n : nat) :
  forall x,
    0 <= x < 2 ^ (Z.of_nat n * w) ->
    (forall i, 0 <= i < Z.of_nat n -> word_field w x i + 1 < 2 ^ w) ->
    0 <= x + fm n w < 2 ^ (Z.of_nat n * w)
    /\ forall i, 0 <= i < Z.of_nat n ->
         word_field w (x + fm n w) i = word_field w x i + 1.
Proof.
  induction n as [|n IH]; intros x Hx Hf.
  - cbn [fm]. split; [lia|]. intros i Hi. lia.
  - rewrite Nat2Z.inj_succ in *.
    replace (Z.succ (Z.of_nat n) * w) with (w + Z.of_nat n * w) in * by lia.
    rewrite Z.pow_add_r in * by lia.
    pose proof (pow2_pos w ltac:(lia)) as Hw.
    pose proof (pow2_pos (Z.of_nat n * w) ltac:(lia)) as Hnw.
    pose proof (Z.div_mod x (2 ^ w) ltac:(lia)) as Hdm.
    pose proof (Z.mod_pos_bound x (2 ^ w) ltac:(lia)) as Hm.
    assert (Hq : 0 <= x / 2 ^ w < 2 ^ (Z.of_nat n * w)).
    { split; [apply Z.div_pos; lia|apply Z.div_lt_upper_bound; lia]. }
    destruct (IH (x / 2 ^ w) Hq) as (Hr & Hfi).
    { intros i Hi. rewrite <- word_field_succ by lia. apply Hf. lia. }
    pose proof (Hf 0 ltac:(lia)) as H0. rewrite word_field_zero in H0.
    cbn [fm].
    assert (E : x + (1 + 2 ^ w * fm n w)
                = (x mod 2 ^ w + 1) + 2 ^ w * (x / 2 ^ w + fm n w)) by lia.
    rewrite E. split; [nia|].
    intros i Hi. destruct (Z.eq_dec i 0) as [->|Hne].
    + rewrite !word_field_zero. apply concat_mod; lia.
    + replace i with (i - 1 + 1) by lia.
      rewrite !word_field_succ by lia.
      rewrite concat_div by lia. apply Hfi. lia.
Qed.

(** The fields below [n] do not see what is added above them. *)
Lemma word_field_low (n x q i : Z) :
  0 <= i < n -> 0 <= x ->
  word_field w (x + 2 ^ (n * w) * q) i = word_field w x i.
Proof.
  intros Hi Hx. unfold word_field.
  replace (n * w) with (i * w + (n - i) * w) by lia.
  rewrite Z.pow_add_r by nia.
  replace (x + 2 ^ (i * w) * 2 ^ ((n - i) * w) * q)
    with (x + (2 ^ ((n - i) * w) * q) * 2 ^ (i * w)) by lia.
  pose proof (pow2_pos (i * w) ltac:(nia)).
  rewrite Z.div_add by lia.
  replace ((n - i) * w) with (w + (n - i - 1) * w) by lia.
  rewrite Z.pow_add_r by nia.
  replace (x / 2 ^ (i * w) + 2 ^ w * 2 ^ ((n - i - 1) * w) * q)
    with (x / 2 ^ (i * w) + (2 ^ ((n - i - 1) * w) * q) * 2 ^ w) by lia.
  apply Z.mod_add. pose proof (pow2_pos w ltac:(lia)). lia.
Qed.

Lemma fm_app (n m : nat) :
  fm (n + m) w = fm n w + 2 ^ (Z.of_nat n * w) * fm m w.
Proof.
  induction n as [|n IH].
  - cbn [fm Nat.add]. replace (Z.of_nat 0 * w) with 0 by lia.
    rewrite Z.pow_0_r. lia.
  - cbn [fm Nat.add]. rewrite IH. rewrite Nat2Z.inj_succ.
    replace (Z.succ (Z.of_nat n) * w) with (w + Z.of_nat n * w) by lia.
    rewrite Z.pow_add_r by lia. lia.
Qed.

Lemma word_field_wrap (x i : Z) :
  0 <= i -> (i + 1) * w <= W -> 0 <= x ->
  word_field w (wrap x) i = word_field w x i.
Proof.
  intros Hi Hb Hx. apply Z.bits_inj'. intros t Ht.
  rewrite !word_field_testbit by lia.
  destruct (Z.ltb_spec t w); cbn [andb]; [|reflexivity].
  unfold wrap. apply Z.mod_pow2_bits_low. nia.
Qed.

End field_facts.

Section packed_fields.

Variable a : packed_view.t.
Let w := packed_view.width a.
Hypothesis w_pos : 0 < w.

Lemma item_field (b e j : Z) :
  0 <= b <= j -> j < e ->
  packed_view.value a j = word_field w (packed_view.get a b e) (j - b).
Proof.
  intros Hb He. apply Z.bits_inj'. intros t Ht.
  rewrite word_field_testbit by lia.
  unfold packed_view.value, packed_view.get. fold w.
  rewrite !get_testbit by nia.
  replace ((j + 1) * w - j * w) with w by lia.
  destruct (Z.ltb_spec t w); cbn [andb]; [|reflexivity].
  destruct (Z.ltb_spec (t + (j - b) * w) (e * w - b * w)); [|nia].
  cbn [andb]. f_equal. lia.
Qed.

Lemma item_set (b e x j : Z) :
  0 <= b <= e -> 0 <= j ->
  packed_view.value (packed_view.store a b e x) j
  = if (b <=? j) && (j <? e) then word_field w x (j - b)
    else packed_view.value a j.
Proof.
  intros Hb Hj.
  destruct (Z.leb_spec b j); destruct (Z.ltb_spec j e); cbn [andb].
  - apply Z.bits_inj'. intros t Ht.
    rewrite word_field_testbit by lia.
    unfold packed_view.value, packed_view.get, packed_view.store,
      packed_view.width.
    cbn [packed_view._bits packed_view._width].
    fold (packed_view.width a). fold w.
    rewrite get_testbit, set_testbit by nia.
    replace ((j + 1) * w - j * w) with w by lia.
    destruct (Z.ltb_spec t w); cbn [andb]; [|reflexivity].
    destruct (Z.leb_spec (b * w) (t + j * w)); [|nia].
    destruct (Z.ltb_spec (t + j * w) (e * w)); [|nia].
    cbn [andb]. f_equal. lia.
  - unfold packed_view.value, packed_view.get, packed_view.store,
      packed_view.width.
    cbn [packed_view._bits packed_view._width].
    fold (packed_view.width a). fold w.
    apply get_set_other; nia.
  - unfold packed_view.value, packed_view.get, packed_view.store,
      packed_view.width.
    cbn [packed_view._bits packed_view._width].
    fold (packed_view.width a). fold w.
    apply get_set_other; nia.
  - lia.
Qed.

(** [range += field_mask] adds 1 to every field of the range. *)
Lemma add_mask_items (b e : Z) (D : nat) :
  0 <= b < e -> (e - b) * w <= W -> e - b <= Z.of_nat D ->
  (forall j, b <= j < e -> packed_view.value a j + 1 < 2 ^ w) ->
  forall j, 0 <= j ->
    packed_view.value (packed_array.store_add a b e (fm D w)) j
    = if (b <=? j) && (j <? e) then packed_view.value a j + 1
      else packed_view.value a j.
Proof.
  intros Hb Hw HD Hf j Hj. unfold packed_array.store_add.
  rewrite item_set by lia.
  destruct ((b <=? j) && (j <? e)) eqn:E; [|reflexivity].
  apply andb_prop in E. destruct E as [E1 E2].
  apply Z.leb_le in E1. apply Z.ltb_lt in E2.
  set (R := packed_view.get a b e).
  set (n := Z.to_nat (e - b)).
  assert (HR : 0 <= R < 2 ^ (Z.of_nat n * w)).
  { unfold R, packed_view.get. fold w.
    pose proof (get_range (packed_view._bits a) (b * w) (e * w)
                  ltac:(nia)) as Hg.
    replace (Z.of_nat n * w) with (e * w - b * w) by (unfold n; nia).
    exact Hg. }
  assert (Hfields : forall i, 0 <= i < Z.of_nat n ->
                      word_field w R i + 1 < 2 ^ w).
  { intros i Hi. unfold R.
    replace i with (b + i - b) by lia.
    rewrite <- item_field by (unfold n in Hi; lia).
    apply Hf. unfold n in Hi. lia. }
  destruct (add_fm_fields w w_pos n R HR Hfields) as (Hsum & Hadd).
  replace D with (n + (D - n))%nat by (unfold n; lia).
  rewrite (fm_app w w_pos).
  pose proof (fm_range w w_pos (D - n)) as Hfm.
  pose proof (pow2_pos (Z.of_nat n * w) ltac:(nia)) as Hp.
  rewrite word_field_wrap; [|lia|lia|unfold n in *; nia|nia].
  replace (R + (fm n w + 2 ^ (Z.of_nat n * w) * fm (D - n) w))
    with (R + fm n w + 2 ^ (Z.of_nat n * w) * fm (D - n) w) by lia.
  rewrite word_field_low; [|lia|unfold n; lia|lia].
  rewrite Hadd by (unfold n; lia).
  f_equal. unfold R. symmetry. apply item_field; lia.
Qed.

End packed_fields.

(** * Further properties of [insert] *)

Section counters_facts.

Import bitvector.

Lemma counters_refl v : counters.same v v.
Proof. split; reflexivity. Qed.

Lemma counters_trans v1 v2 v3 :
  counters.same v1 v2 -> counters.same v2 v3 -> counters.same v1 v3.
Proof. unfold counters.same. intuition congruence. Qed.

Lemma counters_ok {A} (proj : A -> t) v a :
  counters.same v (proj a) -> counters.keeps proj v (Ok a).
Proof. intros H a' E. inversion E; subst. exact H. Qed.

Lemma counters_err {A} (proj : A -> t) v e : counters.keeps proj v (Err e).
Proof. intros a E. discriminate. Qed.

Lemma counters_bind {A B} (pa : A -> t) (pb : B -> t) v
      (m : result A) (k : A -> result B) :
  counters.keeps pa v m ->
  (forall a, counters.keeps pb (pa a) (k a)) ->
  counters.keeps pb v (bind m k).
Proof.
  intros Hm Hk b E. destruct m as [a|e]; cbn [bind] in E; [|discriminate].
  eapply counters_trans; [apply Hm; reflexivity|apply Hk; exact E].
Qed.

Lemma counters_bind_pure {A B} (pb : B -> t) v
      (m : result A) (k : A -> result B) :
  (forall a, counters.keeps pb v (k a)) -> counters.keeps pb v (bind m k).
Proof.
  intros Hk b E. destruct m as [a|e]; cbn [bind] in E; [|discriminate].
  apply (Hk a). exact E.
Qed.

Lemma counters_same {A} (proj : A -> t) v v' r :
  counters.same v v' -> counters.keeps proj v' r -> counters.keeps proj v r.
Proof.
  intros H Hr a E. eapply counters_trans; [exact H|apply Hr; exact E].
Qed.

End counters_facts.

Create HintDb counters.

Ltac counters_bind_step :=
  match goal with
  | |- counters.keeps _ _ (@bind bitvector.t _ _ _) =>
      apply (counters_bind (fun x => x))
  | |- counters.keeps _ _ (@bind (Z * bitvector.t) _ _ _) =>
      apply (counters_bind snd)
  | |- counters.keeps _ _
         (@bind (bitvector.subtree_ref * bitvector.t) _ _ _) =>
      apply (counters_bind snd)
  | |- counters.keeps _ _ (@bind (bitvector.t * Z) _ _ _) =>
      apply (counters_bind fst)
  | |- counters.keeps _ _ (@bind (bitvector.t * Z * Z) _ _ _) =>
      apply (counters_bind (fun x => fst (fst x)))
  | |- counters.keeps _ _ (@bind _ _ _ _) =>
      apply counters_bind_pure
  end.

Ltac counters :=
  repeat (intros; cbn [fst snd];
    match goal with
    | |- counters.keeps _ _ (Ok _) => apply counters_ok; cbn [fst snd]
    | |- counters.keeps _ _ (Err _) => apply counters_err
    | |- counters.keeps _ _ (bind _ _) => counters_bind_step
    | |- counters.keeps _ _ (let _ := _ in _) => cbv zeta
    | |- counters.keeps _ _ (if ?c then _ else _) => destruct c
    | |- counters.keeps _ _ (match ?x with _ => _ end) => destruct x
    | |- counters.same _ _ => solve [split; reflexivity]
    | |- _ => solve [auto with counters]
    end).

Section counters_tree.

Import bitvector.

Lemma counters_alloc_node v : counters.keeps snd v (alloc_node v).
Proof. unfold alloc_node. counters. Qed.

Lemma counters_alloc_leaf v : counters.same v (snd (alloc_leaf v)).
Proof. split; reflexivity. Qed.

Lemma counters_set_sizes v r b e x :
  counters.keeps (fun x : t => x) v (set_sizes v r b e x).
Proof. unfold set_sizes. counters. Qed.
Lemma counters_add_sizes v r b e x :
  counters.keeps (fun x : t => x) v (add_sizes v r b e x).
Proof. unfold add_sizes. counters. Qed.
Lemma counters_shl_sizes v r b e x :
  counters.keeps (fun x : t => x) v (shl_sizes v r b e x).
Proof. unfold shl_sizes. counters. Qed.
Lemma counters_set_ranks v r b e x :
  counters.keeps (fun x : t => x) v (set_ranks v r b e x).
Proof. unfold set_ranks. counters. Qed.
Lemma counters_add_ranks v r b e x :
  counters.keeps (fun x : t => x) v (add_ranks v r b e x).
Proof. unfold add_ranks. counters. Qed.
Lemma counters_shl_ranks v r b e x :
  counters.keeps (fun x : t => x) v (shl_ranks v r b e x).
Proof. unfold shl_ranks. counters. Qed.
Lemma counters_set_pointers v r b e x :
  counters.keeps (fun x : t => x) v (set_pointers v r b e x).
Proof. unfold set_pointers. counters. Qed.
Lemma counters_shl_pointers v r b e x :
  counters.keeps (fun x : t => x) v (shl_pointers v r b e x).
Proof. unfold shl_pointers. counters. Qed.
Lemma counters_set_leaf v r x :
  counters.keeps (fun x : t => x) v (set_leaf v r x).
Proof. unfold set_leaf. counters. Qed.

#[local] Hint Resolve counters_alloc_node counters_set_sizes
  counters_add_sizes counters_shl_sizes counters_set_ranks
  counters_add_ranks counters_shl_ranks counters_set_pointers
  counters_shl_pointers counters_set_leaf : counters.

Lemma counters_clear_keys v r b e :
  counters.keeps (fun x : t => x) v (clear_keys v r b e).
Proof. unfold clear_keys. counters. Qed.

Lemma counters_copy v r : counters.keeps snd v (copy v r).
Proof.
  unfold copy. destruct (is_node r).
  - counters.
  - pose proof (counters_alloc_leaf v) as Ha.
    destruct (alloc_leaf v) as [n v1]. cbn [snd] in Ha.
    eapply counters_same; [exact Ha|]. counters.
Qed.

Lemma counters_insert_child v r k :
  counters.keeps (fun x : t => x) v (insert_child v r k).
Proof.
  unfold insert_child. counters.
Qed.

#[local] Hint Resolve counters_clear_keys counters_copy
  counters_insert_child : counters.

Lemma counters_spread_bits n : forall v r view bpl i p pc rem count,
    counters.keeps fst v (spread_bits n v r view bpl i p pc rem count).
Proof. induction n; cbn [spread_bits]; counters. Qed.

#[local] Hint Resolve counters_spread_bits : counters.

Lemma counters_redistribute_bits v r b e c :
  counters.keeps (fun x : t => x) v (redistribute_bits v r b e c).
Proof. unfold redistribute_bits. counters. Qed.

Lemma counters_fill_node n : forall v r ps i p j,
    counters.keeps (fun x : t => x) v (fill_node n v r ps i p j).
Proof. induction n; cbn [fill_node]; counters. Qed.

#[local] Hint Resolve counters_fill_node : counters.

Lemma counters_spread_keys n : forall v r ps kpn i p rem count,
    counters.keeps fst v (spread_keys n v r ps kpn i p rem count).
Proof. induction n; cbn [spread_keys]; counters. Qed.

#[local] Hint Resolve counters_spread_keys : counters.

Lemma counters_redistribute_keys v r b e c :
  counters.keeps (fun x : t => x) v (redistribute_keys v r b e c).
Proof. unfold redistribute_keys. counters. Qed.

#[local] Hint Resolve counters_redistribute_bits
  counters_redistribute_keys : counters.

Lemma counters_make_room_in_leaves v r k :
  counters.keeps (fun x : t => x) v (make_room_in_leaves v r k).
Proof. unfold make_room_in_leaves. counters. Qed.

Lemma counters_make_room_in_nodes v r k :
  counters.keeps (fun x : t => x) v (make_room_in_nodes v r k).
Proof. unfold make_room_in_nodes. counters. Qed.

Lemma counters_split_root v r :
  counters.keeps (fun x : t => x) v (split_root v r).
Proof. unfold split_root. counters. Qed.

End counters_tree.

#[export] Hint Resolve counters_alloc_node counters_set_sizes
  counters_add_sizes counters_shl_sizes counters_set_ranks
  counters_add_ranks counters_shl_ranks counters_set_pointers
  counters_shl_pointers counters_set_leaf counters_clear_keys
  counters_copy counters_insert_child counters_redistribute_bits
  counters_redistribute_keys counters_make_room_in_leaves
  counters_make_room_in_nodes counters_split_root : counters.

Section insert_steps.

Import bitvector.

Lemma counters_leaf_prefix v r index k new_index c :
  counters.keeps (fun x : t * Z * Z => fst (fst x)) v
    (if t_size c =? W then
       v <- make_room_in_leaves v r k ;;
       '(k, new_index) <- find_insert_point v r index ;;
       Ok (v, k, new_index)
     else Ok (v, k, new_index)).
Proof. counters. Qed.

Lemma counters_node_prefix v r index k new_index n :
  counters.keeps (fun x : t * Z * Z => fst (fst x)) v
    (if n =? degree v then
       v <- make_room_in_nodes v r k ;;
       '(k, new_index) <- find_insert_point v r index ;;
       Ok (v, k, new_index)
     else Ok (v, k, new_index)).
Proof. counters. Qed.

Lemma insert_at_counters (fuel : nat) :
  forall v r index bit v',
    insert_at fuel v r index bit = Ok v' ->
    _size v' = _size v + 1 /\ _rank v' = _rank v + Z.b2z bit.
Proof.
  induction fuel as [|fuel IH]; intros v r index bit v' H;
    cbn [insert_at] in H; [discriminate|].
  apply bind_ok in H. destruct H as (n & Hn & H).
  destruct (n =? degree v).
  - apply bind_ok in H. destruct H as (v1 & Hsplit & H).
    apply counters_split_root in Hsplit. apply IH in H.
    destruct Hsplit as [Hs Hr]. lia.
  - apply bind_ok in H. destruct H as ([k new_index] & Hfip & H).
    destruct (t_height r =? 1).
    + apply bind_ok in H. destruct H as (c & Hc & H).
      apply bind_ok in H. destruct H as ([[v1 k1] ni1] & Hpre & H).
      apply counters_leaf_prefix in Hpre. cbn [fst] in Hpre.
      apply bind_ok in H. destruct H as (v2 & H2 & H).
      apply counters_add_sizes in H2.
      apply bind_ok in H. destruct H as (v3 & H3 & H).
      apply counters_add_ranks in H3.
      apply bind_ok in H. destruct H as (c' & Hc' & H).
      apply bind_ok in H. destruct H as (w & Hw & H).
      apply bind_ok in H. destruct H as (v4 & H4 & H).
      apply counters_set_leaf in H4.
      inversion H; subst v'; clear H.
      cbn [_size _rank with_size_rank].
      destruct Hpre, H2, H3, H4. lia.
    + apply bind_ok in H. destruct H as (c & Hc & H).
      apply bind_ok in H. destruct H as (nc & Hnc & H).
      apply bind_ok in H. destruct H as ([[v1 k1] ni1] & Hpre & H).
      apply counters_node_prefix in Hpre. cbn [fst] in Hpre.
      apply bind_ok in H. destruct H as (v2 & H2 & H).
      apply counters_add_sizes in H2.
      apply bind_ok in H. destruct H as (v3 & H3 & H).
      apply counters_add_ranks in H3.
      apply bind_ok in H. destruct H as (c' & Hc' & H).
      apply IH in H.
      destruct Hpre, H2, H3. lia.
Qed.

Lemma insert_at_parameters (fuel : nat) :
  forall v r index bit v',
    insert_at fuel v r index bit = Ok v' ->
    _capacity v' = _capacity v
    /\ _counter_width v' = _counter_width v
    /\ _pointer_width v' = _pointer_width v
    /\ _degree v' = _degree v
    /\ _leaves_buffer v' = _leaves_buffer v
    /\ _nodes_buffer v' = _nodes_buffer v
    /\ _height v <= _height v'.
Proof.
  assert (Hsame : forall v v', frame.same v v' ->
            _capacity v' = _capacity v
            /\ _counter_width v' = _counter_width v
            /\ _pointer_width v' = _pointer_width v
            /\ _degree v' = _degree v
            /\ _leaves_buffer v' = _leaves_buffer v
            /\ _nodes_buffer v' = _nodes_buffer v
            /\ _height v <= _height v').
  { unfold frame.same. intros v v' Hs. intuition lia. }
  induction fuel as [|fuel IH]; intros v r index bit v' H;
    cbn [insert_at] in H; [discriminate|].
  apply bind_ok in H. destruct H as (n & Hn & H).
  destruct (n =? degree v).
  - apply bind_ok in H. destruct H as (v1 & Hsplit & H).
    apply split_root_params in Hsplit. apply IH in H.
    intuition (try congruence; lia).
  - apply bind_ok in H. destruct H as ([k new_index] & Hfip & H).
    destruct (t_height r =? 1).
    + apply Hsame.
      apply (keeps_leaf_branch v r index bit k new_index). exact H.
    + apply bind_ok in H. destruct H as (c & Hc & H).
      apply bind_ok in H. destruct H as (nc & Hnc & H).
      apply bind_ok in H. destruct H as ([[v1 k1] ni1] & Hpre & H).
      apply keeps_node_prefix in Hpre. cbn [fst] in Hpre.
      apply bind_ok in H. destruct H as (v2 & H2 & H).
      apply keeps_add_sizes in H2.
      apply bind_ok in H. destruct H as (v3 & H3 & H).
      apply keeps_add_ranks in H3.
      apply bind_ok in H. destruct H as (c' & Hc' & H).
      apply IH in H.
      pose proof (Hsame _ _ (same_trans _ _ _ Hpre
                               (same_trans _ _ _ H2 H3))) as Hs.
      intuition (try congruence; lia).
Qed.

End insert_steps.

(** X13.  Whenever [insert] returns, the size has grown by exactly 1 and the
    rank by the inserted bit, whatever the path taken through the tree. *)
Theorem insert_counters (v v' : bitvector.t) (index : Z) (bit : bool) :
  bitvector.insert v index bit = Ok v' ->
  bitvector.size v' = bitvector.size v + 1
  /\ bitvector.rank v' = bitvector.rank v + Z.b2z bit.
Proof. unfold bitvector.insert. apply insert_at_counters. Qed.

(** X13 at the insertion that takes [v64] to [v65]. *)
Lemma insert_counters_witness :
  bitvector.size samples.v65 = bitvector.size runs.v64 + 1
  /\ bitvector.rank samples.v65 = bitvector.rank runs.v64 + Z.b2z false.
Proof.
  apply (insert_counters runs.v64 samples.v65 64 false).
  vm_compute. reflexivity.
Defined.

(** X14.  [insert] never changes the parameters the constructor has set
    (capacity, counter and pointer widths, degree, buffer sizes), and
    the height of the tree stays or grows by one. *)
Theorem insert_keeps_parameters (v v' : bitvector.t) (index : Z) (bit : bool) :
  bitvector.insert v index bit = Ok v' ->
  bitvector.capacity v' = bitvector.capacity v
  /\ bitvector.counter_width v' = bitvector.counter_width v
  /\ bitvector.pointer_width v' = bitvector.pointer_width v
  /\ bitvector.degree v' = bitvector.degree v
  /\ bitvector._leaves_buffer v' = bitvector._leaves_buffer v
  /\ bitvector._nodes_buffer v' = bitvector._nodes_buffer v
  /\ (bitvector._height v' = bitvector._height v
      \/ bitvector._height v' = bitvector._height v + 1).
Proof.
  intros H.
  pose proof (insert_at_parameters _ _ _ _ _ _ H)
    as (H1 & H2 & H3 & H4 & H5 & H6 & _).
  repeat (split; [assumption|]).
  assert (Hn : exists n, bitvector.nkeys v (bitvector.root v) = Ok n).
  { unfold bitvector.insert in H.
    replace (Z.to_nat (bitvector._height v) + 3)%nat
      with (S (Z.to_nat (bitvector._height v) + 2)) in H by lia.
    cbn [bitvector.insert_at] in H.
    apply bind_ok in H. destruct H as (n & Hn & _). exists n. exact Hn. }
  destruct Hn as (n & Hn).
  destruct (insert_height v index bit v' n H Hn) as [Hh _].
  destruct (n =? bitvector.degree v); [right|left]; exact Hh.
Qed.

(** X14 at the insertion that takes [v64] to [v65]. *)
Lemma insert_keeps_parameters_witness :
  bitvector.capacity samples.v65 = bitvector.capacity runs.v64
  /\ bitvector.counter_width samples.v65 = bitvector.counter_width runs.v64
  /\ bitvector.pointer_width samples.v65 = bitvector.pointer_width runs.v64
  /\ bitvector.degree samples.v65 = bitvector.degree runs.v64
  /\ bitvector._leaves_buffer samples.v65 = bitvector._leaves_buffer runs.v64
  /\ bitvector._nodes_buffer samples.v65 = bitvector._nodes_buffer runs.v64
  /\ (bitvector._height samples.v65 = bitvector._height runs.v64
      \/ bitvector._height samples.v65 = bitvector._height runs.v64 + 1).
Proof.
  apply (insert_keeps_parameters runs.v64 samples.v65 64 false).
  vm_compute. reflexivity.
Defined.

Section window_past_degree.

Import bitvector.

Lemma keeps_bits_prefix v r begin end_ :
  frame.keeps (fun x : t => x) v
    (if 0 <? begin then
       ptr <- pointers_at v r (begin - 1) ;;
       if negb (ptr =? 0) then
         c <- child v r (begin - 1) ;;
         v <- set_sizes v r begin end_ (wrap (index_mask v * t_size c)) ;;
         c <- child v r (begin - 1) ;;
         set_ranks v r begin end_ (wrap (index_mask v * t_rank c))
       else Ok v
     else Ok v).
Proof. keeps. Qed.

Lemma clear_keys_past_degree v r begin end_ :
  degree v < end_ -> clear_keys v r begin end_ = Err AssertionFailure.
Proof.
  intros H. unfold clear_keys, set_sizes, sizes_range.
  destruct (is_node r); cbn [assert bind]; [|reflexivity].
  destruct (begin <? degree v); cbn [assert bind]; [|reflexivity].
  destruct (Z.leb_spec end_ (degree v)); [lia|]. reflexivity.
Qed.

End window_past_degree.

(** X17.  A window that ends past the last counter, as [insert] passes it after
    [insert_child(end++)] when the window already ended at [degree()]:
    [clear_keys] fails the assertion [end <= degree()] of [sizes(begin,
    end)], so that [redistribute_bits] never returns, although its loop
    provides for the child [degree()]. *)
Theorem redistribute_bits_past_degree
        (v : bitvector.t) (r : bitvector.subtree_ref) (begin end_ count : Z) :
  bitvector.degree v < end_ ->
  bitvector.clear_keys v r begin end_ = Err AssertionFailure
  /\ forall v', bitvector.redistribute_bits v r begin end_ count <> Ok v'.
Proof.
  intros Hd. split; [apply clear_keys_past_degree; exact Hd|].
  intros v' H. unfold bitvector.redistribute_bits in H.
  apply bind_ok in H. destruct H as (u & _ & H).
  apply bind_ok in H. destruct H as (view0 & _ & H).
  apply bind_ok in H. destruct H as (view & _ & H).
  apply bind_ok in H. destruct H as (v1 & Hpre & H).
  apply keeps_bits_prefix in Hpre.
  apply bind_ok in H. destruct H as (v2 & Hclear & _).
  rewrite clear_keys_past_degree in Hclear; [discriminate|].
  destruct Hpre as (_ & _ & _ & _ & Hdeg & _).
  unfold bitvector.degree in *. lia.
Qed.

(** X17 at the root of [v65_six] and the window [[0, 6)]. *)
Lemma redistribute_bits_past_degree_witness :
  bitvector.clear_keys samples.v65_six
    (bitvector.root samples.v65_six) 0 6 = Err AssertionFailure
  /\ forall v',
       bitvector.redistribute_bits samples.v65_six
         (bitvector.root samples.v65_six) 0 6 65 <> Ok v'.
Proof.
  apply (redistribute_bits_past_degree samples.v65_six
           (bitvector.root samples.v65_six) 0 6 65).
  vm_compute. reflexivity.
Defined.

Section flat_facts.

Import bitvector.

Variable v : t.
Hypothesis Hflat : flat.flat_ok v = true.

Let c := counter_width v.
Let d := degree v.
Let size := _size v.
Let cm := tree.cum v 0 size.

Lemma flat_facts :
  tree.params_ok v = true /\ _height v = 1
  /\ tree.node_ok v 0 size = true
  /\ tree.ptr v 0 0 <> 0
  /\ (forall k, 0 <= k <= d -> cm k - cm (k - 1) <= W)
  /\ (forall k, 0 <= k <= d -> tree.ptr v 0 k <> 0 ->
        (Z.to_nat (tree.ptr v 0 k) < length (_leaves v))%nat)
  /\ (forall j k, 0 <= j <= d -> 0 <= k <= d -> j <> k ->
        tree.ptr v 0 k <> 0 -> tree.ptr v 0 j <> tree.ptr v 0 k).
Proof.
  unfold flat.flat_ok in Hflat. fold d size cm in Hflat.
  apply andb_prop in Hflat. destruct Hflat as [H Hall].
  apply andb_prop in H. destruct H as [H Hp0].
  apply andb_prop in H. destruct H as [H Hnode].
  apply andb_prop in H. destruct H as [Hpar Hh].
  rewrite forallb_range in Hall.
  split; [assumption|]. split; [lia|]. split; [assumption|].
  split; [destruct (Z.eqb_spec (tree.ptr v 0 0) 0); [discriminate|assumption]|].
  split; [|split].
  - intros k Hk. specialize (Hall k ltac:(lia)).
    apply andb_prop in Hall. destruct Hall as [Hall _]. lia.
  - intros k Hk Hp. specialize (Hall k ltac:(lia)).
    apply andb_prop in Hall. destruct Hall as [_ Hall].
    destruct (Z.eqb_spec (tree.ptr v 0 k) 0); [contradiction|].
    cbn [negb implb] in Hall. apply andb_prop in Hall.
    destruct Hall as [Hall _]. apply Nat.ltb_lt in Hall. exact Hall.
  - intros j k Hj Hk Hjk Hp. specialize (Hall k ltac:(lia)).
    apply andb_prop in Hall. destruct Hall as [_ Hall].
    destruct (Z.eqb_spec (tree.ptr v 0 k) 0); [contradiction|].
    cbn [negb implb] in Hall. apply andb_prop in Hall.
    destruct Hall as [_ Hall]. rewrite forallb_range in Hall.
    specialize (Hall j ltac:(lia)).
    destruct (Z.eqb_spec j k); [contradiction|]. cbn [orb] in Hall.
    destruct (Z.eqb_spec (tree.ptr v 0 j) (tree.ptr v 0 k));
      [discriminate|assumption].
Qed.

End flat_facts.

Section node_more.

Import bitvector.

Variable v : t.
Hypothesis Hparams : tree.params_ok v = true.
Variables (idx h size rk : Z).
Hypothesis Hnode : tree.node_ok v idx size = true.
Hypothesis Hh : 0 < h < 2 ^ 64.

Let c := counter_width v.
Let d := degree v.
Let r := ref idx h size rk.
Let cm := tree.cum v idx size.

Lemma cum_mono (a b : Z) : -1 <= a <= b -> b <= d -> cm a <= cm b.
Proof.
  destruct (node_facts v idx size Hnode) as (_ & _ & Hmono & _).
  fold d cm in Hmono.
  intros Ha Hb.
  assert (H : forall n : nat, a + Z.of_nat n <= d ->
                              cm a <= cm (a + Z.of_nat n)).
  { induction n as [|n IH]; intros Hn.
    - replace (a + Z.of_nat 0) with a by lia. lia.
    - specialize (IH ltac:(lia)).
      specialize (Hmono (a + Z.of_nat (S n)) ltac:(lia)).
      replace (a + Z.of_nat (S n) - 1) with (a + Z.of_nat n) in Hmono
        by lia.
      lia. }
  specialize (H (Z.to_nat (b - a)) ltac:(lia)).
  replace (a + Z.of_nat (Z.to_nat (b - a))) with b in H by lia.
  exact H.
Qed.

Lemma cum_last : cm d = size.
Proof.
  destruct (params_facts v Hparams) as (_ & _ & Hd0 & _). fold d in Hd0.
  unfold cm, tree.cum. fold d.
  destruct (Z.ltb_spec d 0); [lia|].
  destruct (Z.ltb_spec d d); [lia|]. reflexivity.
Qed.

Lemma cum_first : cm (-1) = 0.
Proof. reflexivity. Qed.

(** The insertion point of any index up to the size. *)
Lemma find_insert_point_le (index : Z) :
  0 <= index <= size ->
  exists k,
    0 <= k <= d
    /\ (forall j, 0 <= j < k -> cm j < index)
    /\ index <= cm k
    /\ cm (k - 1) <= index
    /\ find_insert_point v r index = Ok (k, index - cm (k - 1)).
Proof.
  intros Hidx.
  destruct (params_facts v Hparams) as (Hc & Hd & Hd0 & Hdc & Hw & Hm & _).
  destruct (node_facts v idx size Hnode) as (Hi & Hs & Hmono & _).
  fold c d in Hc, Hd, Hd0, Hdc, Hw, Hm. fold c d cm in Hs, Hmono.
  destruct (find_insert_point_count v Hparams idx h size rk Hnode Hh index
              ltac:(fold c; lia)) as (sw & Hsw & Hpc).
  fold d cm in Hpc.
  pose proof (count_lt_monotone cm index (Z.to_nat d) 0
                ltac:(intros j Hj;
                      specialize (Hmono (j + 1) ltac:(lia));
                      replace (j + 1 - 1) with j in Hmono by lia;
                      exact Hmono)) as Hcount.
  cbn zeta in Hcount.
  set (k := count_range (Z.to_nat d) 0 (fun j => cm j <? index)) in *.
  destruct Hcount as (Hk & Hlt & Hge).
  exists k. split; [lia|]. split; [intros j Hj; apply Hlt; lia|].
  assert (Hck : index <= cm k).
  { destruct (Z.eq_dec k d) as [E|E].
    - rewrite E, cum_last. lia.
    - apply Hge. lia. }
  split; [exact Hck|].
  assert (Hprev : cm (k - 1) <= index).
  { destruct (Z.eq_dec k 0) as [E|E].
    - rewrite E. change (cm (0 - 1)) with 0. lia.
    - specialize (Hlt (k - 1) ltac:(lia)). lia. }
  split; [exact Hprev|].
  unfold find_insert_point, r.
  rewrite (is_node_r v idx h size rk Hh). cbn [assert bind].
  rewrite Hsw. cbn [bind]. rewrite Hpc. fold d.
  assert (Hd64 : d < 2 ^ 64).
  { unfold W in Hdc. assert (d <= 64) by nia. lia. }
  rewrite szsub_small by lia.
  replace (d - (d - k)) with k by lia.
  destruct (Z.ltb_spec 0 k).
  - rewrite (sizes_at_ok v idx h size rk Hh) by (fold d; lia).
    cbn [bind]. fold cm.
    pose proof (cum_bounds v Hparams idx size Hnode (k - 1)
                  ltac:(fold d; lia)) as Hb. fold cm in Hb.
    assert (H64 : 2 ^ (c - 1) < 2 ^ 64).
    { apply Z.pow_lt_mono_r; unfold W in Hc; lia. }
    rewrite szsub_small by lia. reflexivity.
  - cbn [bind]. replace k with 0 by lia.
    change (cm (0 - 1)) with 0. rewrite Z.sub_0_r. reflexivity.
Qed.

End node_more.

Section nkeys_facts.

Import bitvector.

Variable v : t.
Hypothesis Hparams : tree.params_ok v = true.
Variables (idx h size rk : Z).
Hypothesis Hnode : tree.node_ok v idx size = true.
Hypothesis Hh : 0 < h < 2 ^ 64.

Let c := counter_width v.
Let d := degree v.
Let cm := tree.cum v idx size.

Lemma nkeys_pos :
  0 < size ->
  exists k,
    0 <= k <= d
    /\ (forall j, 0 <= j < k -> cm j < size - 1)
    /\ size - 1 <= cm k
    /\ nkeys v (ref idx h size rk) = Ok (Z.min (k + 1) d).
Proof.
  intros Hs.
  destruct (params_facts v Hparams) as (Hc & _).
  destruct (node_facts v idx size Hnode) as (_ & Hsz & _).
  fold c in Hc, Hsz.
  assert (H64 : 2 ^ (c - 1) < 2 ^ 64).
  { apply Z.pow_lt_mono_r; unfold W in Hc; lia. }
  destruct (find_insert_point_le v Hparams idx h size rk Hnode Hh (size - 1)
              ltac:(lia)) as (k & Hk & Hlt & Hge & _ & Hfip).
  exists k. repeat (split; [assumption|]).
  unfold nkeys. cbn [t_size]. rewrite szsub_small by lia.
  rewrite Hfip. reflexivity.
Qed.

End nkeys_facts.

Section empty_node.

Lemma lor_flags_zero (w : Z) (n : nat) :
  0 < w <= W ->
  forall (a : packed_view.t) (p : Z),
    packed_view.width a = w -> 0 <= p ->
    (forall i, p <= i < p + Z.of_nat n ->
       bits.lowbits (packed_view.value a i) (w - 1) = 0) ->
    Z.lor (packed_view.get a p (p + Z.of_nat n)) (fm n w * 2 ^ (w - 1))
    = fm n w * 2 ^ (w - 1).
Proof.
  intros Hw a p Ha. revert p. induction n as [|n IH]; intros p Hp Hz.
  - cbn [fm]. rewrite Z.mul_0_l, Z.lor_0_r.
    replace (p + Z.of_nat 0) with p by lia.
    unfold packed_view.get. unfold bitview.get.
    rewrite Z.sub_diag. change (Z.ones 0) with 0. apply Z.land_0_r.
  - replace (p + Z.of_nat (S n)) with (p + 1 + Z.of_nat n) by lia.
    set (x := packed_view.get a p (p + 1 + Z.of_nat n)).
    pose proof (pow2_pos w ltac:(lia)) as Hpw.
    pose proof (pow2_pos (w - 1) ltac:(lia)) as HF.
    assert (Hlt : 2 ^ (w - 1) < 2 ^ w) by (apply Z.pow_lt_mono_r; lia).
    pose proof (Z.div_mod x (2 ^ w) ltac:(lia)) as Hdm.
    pose proof (Z.mod_pos_bound x (2 ^ w) ltac:(lia)) as Hm.
    assert (E0 : x mod 2 ^ w = packed_view.value a p)
      by (apply (pv_get_mod w); (assumption || lia)).
    assert (E1 : x / 2 ^ w = packed_view.get a (p + 1) (p + 1 + Z.of_nat n))
      by (apply (pv_get_div w); (assumption || lia)).
    cbn [fm].
    replace ((1 + 2 ^ w * fm n w) * 2 ^ (w - 1))
      with (2 ^ (w - 1) + 2 ^ w * (fm n w * 2 ^ (w - 1))) by lia.
    rewrite Hdm at 1.
    rewrite (Z.add_comm (2 ^ w * (x / 2 ^ w))).
    assert (Hq : 0 <= x / 2 ^ w).
    { apply Z.div_pos; [|lia]. unfold x, packed_view.get.
      apply get_range. rewrite Ha. nia. }
    pose proof (fm_mul_range w ltac:(lia) n (2 ^ (w - 1)) ltac:(lia)) as Hfm.
    rewrite concat_lor by lia.
    rewrite (lor_flag w ltac:(lia)) by lia.
    rewrite E0, E1. rewrite Hz by lia.
    rewrite IH; [lia|lia|]. intros i Hi. apply Hz. lia.
Qed.

Lemma empty_child_index (c : Z) :
  2 <= c <= 64 ->
  let n := Z.to_nat (W / c) in
  szsub (W / c)
        (bits.popcount
           (Z.land (fm n c * 2 ^ (c - 1))
                   (wrap (fm n c * 2 ^ (c - 1)
                          - wrap (fm n c * wrap (szsub 0 1))))))
  = 0.
Proof.
  intros Hc.
  assert (H : forall k, 0 <= k < 63 ->
    (szsub (W / (k + 2))
        (bits.popcount
           (Z.land (fm (Z.to_nat (W / (k + 2))) (k + 2) * 2 ^ (k + 2 - 1))
                   (wrap (fm (Z.to_nat (W / (k + 2))) (k + 2) * 2 ^ (k + 2 - 1)
                          - wrap (fm (Z.to_nat (W / (k + 2))) (k + 2)
                                  * wrap (szsub 0 1))))))
     =? 0) = true).
  { apply forallb_range. vm_compute. reflexivity. }
  specialize (H (c - 2) ltac:(lia)).
  replace (c - 2 + 2) with c in H by lia.
  apply Z.eqb_eq in H. exact H.
Qed.

Import bitvector.

(** On an empty node [size() - 1] wraps around, every counter compares
    below it, and [nkeys()] is 1. *)
Lemma nkeys_empty (v : t) (idx h rk : Z) :
  tree.params_ok v = true -> tree.node_ok v idx 0 = true ->
  0 < h < 2 ^ 64 -> 1 < counter_width v ->
  find_insert_point v (ref idx h 0 rk) (szsub 0 1) = Ok (0, szsub 0 1)
  /\ nkeys v (ref idx h 0 rk) = Ok 1.
Proof.
  intros Hp Hn Hh Hc1.
  destruct (params_facts v Hp) as (Hc & Hd & Hd0 & Hdc & Hw & Hm & _).
  destruct (node_facts v idx 0 Hn) as (Hi & _).
  set (c := counter_width v) in *. set (d := degree v) in *.
  assert (Hfip : find_insert_point v (ref idx h 0 rk) (szsub 0 1)
                 = Ok (0, szsub 0 1)).
  { unfold find_insert_point, sizes_word, sizes_range.
    rewrite (is_node_r v idx h 0 rk Hh). fold d. cbn [assert bind].
    destruct (Z.ltb_spec 0 d); [|lia]. destruct (Z.leb_spec d d); [|lia].
    cbn [assert bind t_index].
    unfold packed_array.get_flagged, size_flag_mask, index_mask,
      packed_array.flagbit_mask, packed_array.index_mask.
    rewrite (flag_mask_fm (_sizes v) c Hc Hw Hm), Hm.
    rewrite compute_field_mask_fm by lia.
    rewrite <- Hd.
    replace (idx * d + d) with (idx * d + 0 + Z.of_nat (Z.to_nat d)) by lia.
    rewrite (lor_flags_zero c (Z.to_nat d)); try lia; try assumption.
    - rewrite Hd. rewrite (empty_child_index c) by (unfold W in Hc; lia).
      reflexivity.
    - intros i Hrange.
      pose proof (cum_bounds v Hp idx 0 Hn (i - idx * d)
                    ltac:(fold d; lia)) as Hb.
      unfold tree.cum in Hb. fold d in Hb.
      destruct (Z.ltb_spec (i - idx * d) 0); [lia|].
      destruct (Z.ltb_spec (i - idx * d) d); [|lia].
      unfold packed_array.get_stripped in Hb. rewrite Hw in Hb.
      replace (idx * d + (i - idx * d)) with i in Hb by lia.
      unfold packed_view.value. lia. }
  split; [exact Hfip|].
  unfold nkeys. cbn [t_size]. rewrite Hfip. cbn [bind]. fold d.
  f_equal. lia.
Qed.

End empty_node.

Section leaf_words.

Lemma insert_bit_testbit (word k i : Z) (b : bool) :
  0 <= k -> 0 <= i < W ->
  Z.testbit (bits.insert_bit word k b) i
  = if i <? k then Z.testbit word i
    else if i =? k then b else Z.testbit word (i - 1).
Proof.
  intros Hk Hi. unfold bits.insert_bit, wrap.
  rewrite Z.mod_pow2_bits_low by lia.
  rewrite !Z.lor_spec, Z.land_spec, !Z.shiftl_spec, Z.ldiff_spec by lia.
  assert (Hb : Z.testbit (Z.b2z b) (i - k) = (i =? k) && b).
  { destruct (Z.eqb_spec i k) as [->|Hne].
    - rewrite Z.sub_diag. apply Z.b2z_bit0.
    - destruct (Z.lt_ge_cases (i - k) 0);
        [apply Z.testbit_neg_r; assumption|].
      destruct b; cbn [Z.b2z andb].
      + destruct (i - k) eqn:E; try lia; reflexivity.
      + apply Z.testbit_0_l. }
  assert (Ho : Z.testbit word (i - 1) && negb (Z.testbit (Z.ones k) (i - 1))
               = (k <? i) && Z.testbit word (i - 1)).
  { destruct (Z.eq_dec i 0) as [->|Hne].
    - rewrite (Z.testbit_neg_r word) by lia.
      destruct (Z.ltb_spec k 0); [lia|]. reflexivity.
    - rewrite Z.testbit_ones_nonneg by lia.
      destruct (Z.ltb_spec (i - 1) k); destruct (Z.ltb_spec k i);
        try lia; cbn [negb andb]; auto using andb_false_r, andb_true_r. }
  rewrite Hb, Ho. rewrite Z.testbit_ones_nonneg by lia.
  destruct (Z.ltb_spec i k); destruct (Z.eqb_spec i k);
    destruct (Z.ltb_spec k i); try lia; cbn [andb orb].
  - rewrite andb_true_r, !orb_false_r. reflexivity.
  - rewrite andb_false_r. destruct b; reflexivity.
  - rewrite andb_false_r. reflexivity.
Qed.

Lemma list_set_length (l : list Z) (n : nat) (x : Z) :
  length (bitvector.list_set l n x) = length l.
Proof.
  revert n. induction l as [|y l IH]; intros n; [reflexivity|].
  destruct n; cbn [bitvector.list_set length]; [reflexivity|].
  rewrite IH. reflexivity.
Qed.

Lemma list_set_nth (l : list Z) (n m : nat) (x : Z) :
  (n < length l)%nat ->
  nth m (bitvector.list_set l n x) 0 = if Nat.eqb m n then x else nth m l 0.
Proof.
  revert n m. induction l as [|y l IH]; intros n m Hn; [cbn in Hn; lia|].
  destruct n as [|n]; destruct m as [|m]; cbn [bitvector.list_set nth Nat.eqb];
    try reflexivity.
  apply IH. cbn [length] in Hn. lia.
Qed.

End leaf_words.

Section flat_access.

Import bitvector.

Variable v : t.
Hypothesis Hflat : flat.flat_ok v = true.

Let d := degree v.
Let size := _size v.
Let cm := tree.cum v 0 size.

Lemma root_flat : root v = ref 0 1 size (_rank v).
Proof.
  destruct (flat_facts v Hflat) as (_ & Hh & _).
  unfold root. rewrite Hh. reflexivity.
Qed.

(** The child that holds a position is determined by the counters. *)
Lemma holder_unique (j s s' : Z) :
  0 <= s <= d -> 0 <= s' <= d ->
  cm (s - 1) <= j < cm s -> cm (s' - 1) <= j < cm s' -> s = s'.
Proof.
  destruct (flat_facts v Hflat) as (Hp & _ & Hn & _).
  intros Hs Hs' H H'.
  destruct (Z.lt_trichotomy s s') as [Hlt|[Heq|Hgt]]; [|assumption|].
  -     pose proof (cum_mono v 0 size Hn s (s' - 1) ltac:(lia) ltac:(fold d; lia))
      as Hm. fold cm in Hm. lia.
  - pose proof (cum_mono v 0 size Hn s' (s - 1) ltac:(lia) ltac:(fold d; lia))
      as Hm. fold cm in Hm. lia.
Qed.

Lemma leaf_flat (s sz x : Z) :
  0 <= s <= d -> tree.ptr v 0 s <> 0 ->
  leaf v (ref (tree.ptr v 0 s) 0 sz x) = Ok (flat.leaf_word v s).
Proof.
  destruct (flat_facts v Hflat) as (_ & _ & _ & _ & _ & Hlen & _).
  intros Hs Hp. specialize (Hlen s Hs Hp).
  unfold leaf, is_leaf, flat.leaf_word. cbn [t_height t_index].
  change (0 =? 0) with true. cbn [assert bind].
  destruct (nth_error (_leaves v) (Z.to_nat (tree.ptr v 0 s))) eqn:E.
  - f_equal. symmetry. apply nth_error_nth. exact E.
  - apply nth_error_None in E. lia.
Qed.

(** What [access] reads: the bit of the leaf that holds the position. *)
Lemma access_flat (j : Z) :
  0 <= j < size ->
  exists s,
    0 <= s <= d /\ cm (s - 1) <= j < cm s
    /\ access v j
       = Ok (bits.get_bit (flat.leaf_word v s) (j - cm (s - 1))).
Proof.
  intros Hj.
  destruct (flat_facts v Hflat) as (Hp & Hh & Hn & _).
  destruct (node_facts v 0 size Hn) as (_ & _ & Hmono & Hstrict & Hptr).
  fold d cm in Hmono, Hstrict, Hptr.
  destruct (find_ok v 0 1 size (_rank v) j Hp Hn ltac:(lia) Hj)
    as (k & Hk & Hlt & Hge & _ & Hfind).
  fold d cm in Hk, Hlt, Hge, Hfind.
  assert (Hprev : cm (k - 1) <= j).
  { destruct (Z.eq_dec k 0) as [->|].
    - change (cm (0 - 1)) with 0. lia.
    - specialize (Hlt (k - 1) ltac:(lia)). lia. }
  assert (Hsub : forall s, 0 <= s <= d -> cm (s - 1) <= j < cm s ->
            (c <- child v (ref 0 1 size (_rank v)) s ;;
             access_at 0 v c (j - cm (s - 1)))
            = Ok (bits.get_bit (flat.leaf_word v s) (j - cm (s - 1)))).
  { intros s Hs Hin.
    assert (Hps : tree.ptr v 0 s <> 0) by (apply Hptr; lia).
    destruct (child_ok v Hp 0 1 size (_rank v) Hn ltac:(lia) s
                ltac:(fold d; lia) Hps) as (x & Hchild).
    rewrite Hchild. cbn [bind]. fold cm.
    cbn [access_at t_size is_leaf t_height].
    destruct (Z.leb_spec (cm s - cm (s - 1)) (j - cm (s - 1))); [lia|].
    change (1 - 1 =? 0) with true. cbn match.
    change (1 - 1) with 0. rewrite (leaf_flat s) by (assumption || lia).
    reflexivity. }
  unfold access. rewrite root_flat, Hh. change (Z.to_nat 1) with 1%nat.
  cbn [access_at t_size is_leaf t_height]. fold size.
  destruct (Z.leb_spec size j); [lia|].
  change (1 =? 0) with false. cbn match.
  rewrite Hfind.
  destruct (Z.eqb_spec (j - cm (k - 1)) (cm k - cm (k - 1))) as [E|E].
  - cbn [bind].
    assert (Hkd : k <> d).
    { intros Ek. rewrite Ek in E.
      pose proof (cum_last v Hp 0 size) as Hl. fold d cm in Hl. lia. }
    assert (Hnext : cm k < cm (k + 1)).
    { specialize (Hstrict (k + 1) ltac:(lia)).
      replace (k + 1 - 1) with k in Hstrict by lia.
      apply Hstrict. lia. }
    exists (k + 1). split; [lia|].
    replace (k + 1 - 1) with k by lia. split; [lia|].
    specialize (Hsub (k + 1) ltac:(lia)).
    replace (k + 1 - 1) with k in Hsub by lia.
    replace (j - cm k) with 0 in Hsub |- * by lia.
    apply Hsub. lia.
  - cbn [bind]. exists k. split; [lia|]. split; [lia|].
    apply Hsub; lia.
Qed.

End flat_access.

Section intro_facts.

Import bitvector.

Lemma node_ok_intro (v : t) (idx size : Z) :
  0 <= idx -> 0 <= size < 2 ^ (counter_width v - 1) ->
  (forall k, 0 <= k <= degree v ->
     tree.cum v idx size (k - 1) <= tree.cum v idx size k
     /\ (tree.cum v idx size (k - 1) < size ->
         tree.cum v idx size (k - 1) < tree.cum v idx size k)
     /\ (tree.cum v idx size (k - 1) < tree.cum v idx size k ->
         tree.ptr v idx k <> 0)) ->
  tree.node_ok v idx size = true.
Proof.
  intros Hi Hs Hall. unfold tree.node_ok.
  apply andb_true_intro. split.
  - apply andb_true_intro. split; [|apply Z.ltb_lt; lia].
    apply andb_true_intro. split; apply Z.leb_le; lia.
  - apply forallb_range. intros k Hk.
    destruct (Hall k ltac:(lia)) as (H1 & H2 & H3).
    apply andb_true_intro. split; [apply andb_true_intro; split|].
    + apply Z.leb_le. exact H1.
    + destruct (Z.ltb_spec (tree.cum v idx size (k - 1)) size);
        [|reflexivity].
      cbn [implb]. apply Z.ltb_lt. apply H2. assumption.
    + destruct (Z.ltb_spec (tree.cum v idx size (k - 1))
                  (tree.cum v idx size k)); [|reflexivity].
      cbn [implb]. destruct (Z.eqb_spec (tree.ptr v idx k) 0);
        [|reflexivity].
      exfalso. apply (H3 ltac:(assumption)). assumption.
Qed.

Lemma flat_ok_intro (v : t) :
  tree.params_ok v = true -> _height v = 1 ->
  tree.node_ok v 0 (_size v) = true ->
  tree.ptr v 0 0 <> 0 ->
  (forall k, 0 <= k <= degree v ->
     tree.cum v 0 (_size v) k - tree.cum v 0 (_size v) (k - 1) <= W) ->
  (forall k, 0 <= k <= degree v -> tree.ptr v 0 k <> 0 ->
     (Z.to_nat (tree.ptr v 0 k) < length (_leaves v))%nat) ->
  (forall j k, 0 <= j <= degree v -> 0 <= k <= degree v -> j <> k ->
     tree.ptr v 0 k <> 0 -> tree.ptr v 0 j <> tree.ptr v 0 k) ->
  flat.flat_ok v = true.
Proof.
  intros Hp Hh Hn H0 Hw Hlen Hdist. unfold flat.flat_ok.
  rewrite Hp, Hn, Hh. change (1 =? 1) with true. cbn [andb].
  apply andb_true_intro. split.
  - destruct (Z.eqb_spec (tree.ptr v 0 0) 0); [contradiction|reflexivity].
  - apply forallb_range. intros k Hk.
    apply andb_true_intro. split; [apply Z.leb_le; apply Hw; lia|].
    destruct (Z.eqb_spec (tree.ptr v 0 k) 0); [reflexivity|].
    cbn [negb implb]. apply andb_true_intro. split.
    + apply Nat.ltb_lt. apply Hlen; [lia|assumption].
    + apply forallb_range. intros j Hj.
      destruct (Z.eqb_spec j k); [reflexivity|]. cbn [orb].
      destruct (Z.eqb_spec (tree.ptr v 0 j) (tree.ptr v 0 k));
        [|reflexivity].
      exfalso. apply (Hdist j k); (assumption || lia).
Qed.

Lemma lowbits_succ (x n : Z) :
  0 <= n -> bits.lowbits x n + 1 < 2 ^ n ->
  bits.lowbits (x + 1) n = bits.lowbits x n + 1.
Proof.
  intros Hn Hx. rewrite !lowbits_mod in * by assumption.
  pose proof (pow2_pos n Hn) as Hp.
  pose proof (Z.mod_pos_bound x (2 ^ n) ltac:(lia)) as Hb.
  rewrite Z.add_mod by lia.
  assert (H1 : 1 < 2 ^ n) by lia.
  rewrite (Z.mod_small 1) by lia.
  apply Z.mod_small. lia.
Qed.

Lemma item_succ_bound (x w : Z) :
  0 < w -> 0 <= x < 2 ^ w -> bits.lowbits x (w - 1) + 1 < 2 ^ (w - 1) ->
  x + 1 < 2 ^ w.
Proof.
  intros Hw Hx Hl. rewrite lowbits_mod in Hl by lia.
  pose proof (pow2_pos (w - 1) ltac:(lia)) as Hp.
  assert (E : 2 ^ w = 2 ^ (w - 1) * 2).
  { replace w with (w - 1 + 1) at 1 by lia.
    rewrite Z.pow_add_r by lia. lia. }
  pose proof (Z.div_mod x (2 ^ (w - 1)) ltac:(lia)) as Hdm.
  assert (Hq : x / 2 ^ (w - 1) < 2)
    by (apply Z.div_lt_upper_bound; lia).
  nia.
Qed.

End intro_facts.

Section child_facts.

Import bitvector.

Lemma child_at (v : t) (idx h size rk k : Z) :
  0 < h < 2 ^ 64 -> 0 <= k < degree v -> tree.ptr v idx k <> 0 ->
  exists s x,
    child v (ref idx h size rk) k = Ok (ref (tree.ptr v idx k) (h - 1) s x).
Proof.
  intros Hh Hk Hp. unfold child.
  destruct (Z.leb_spec k (degree v)); [|lia]. cbn [assert bind].
  rewrite (pointers_at_ok v idx h size rk Hh) by lia. cbn [bind].
  destruct (Z.eqb_spec (tree.ptr v idx k) 0); [contradiction|].
  cbn [negb assert bind t_height].
  rewrite szsub_small by lia.
  destruct (Z.eqb_spec k (degree v)); [lia|].
  destruct (Z.eqb_spec k 0) as [->|Hk0].
  - rewrite (sizes_at_ok v idx h size rk Hh) by lia. cbn [bind].
    destruct (ranks_at_ok v idx h size rk Hh 0 ltac:(lia)) as (x & ->).
    cbn [bind]. eexists. eexists. reflexivity.
  - rewrite !(sizes_at_ok v idx h size rk Hh) by lia. cbn [bind].
    destruct (ranks_at_ok v idx h size rk Hh k ltac:(lia)) as (x & ->).
    destruct (ranks_at_ok v idx h size rk Hh (k - 1) ltac:(lia)) as (y & ->).
    cbn [bind]. eexists. eexists. reflexivity.
Qed.

End child_facts.

Section fits_facts.

Import bitvector.

Lemma root_fits_facts v :
  flat.root_fits v = true ->
  degree v * packed_view.width (_sizes v)
  <= bitview.size (packed_view._bits (_sizes v))
  /\ degree v * packed_view.width (_ranks v)
     <= bitview.size (packed_view._bits (_ranks v))
  /\ (degree v + 1) * packed_view.width (_pointers v)
     <= bitview.size (packed_view._bits (_pointers v)).
Proof.
  unfold flat.root_fits. intros H.
  apply andb_prop in H. destruct H as [H H3].
  apply andb_prop in H. destruct H as [H1 H2].
  apply Z.leb_le in H1, H2, H3. repeat split; assumption.
Qed.

End fits_facts.

Section insert_flat.

Import bitvector.

Variable v : t.
Variables (index : Z) (bit : bool).
Hypothesis Hflat : flat.flat_ok v = true.
Hypothesis Hfits : flat.root_fits v = true.
Hypothesis Hidx : 0 <= index <= _size v.
Hypothesis Hroom : _size v + 1 < 2 ^ (counter_width v - 1).
Hypothesis Hroot : nkeys v (root v) <> Ok (degree v).
Hypothesis Hleaf :
  forall k ni c, find_insert_point v (root v) index = Ok (k, ni) ->
                 child v (root v) k = Ok c -> t_size c <> W.

Let c := counter_width v.
Let d := degree v.
Let size := _size v.
Let cm := tree.cum v 0 size.
Let r := ref 0 1 size (_rank v).

(** The child the bit goes to. *)
Lemma insert_child_index :
  exists k n,
    0 <= k < d
    /\ (forall j, 0 <= j < k -> cm j < index)
    /\ cm (k - 1) <= index <= cm k
    /\ tree.ptr v 0 k <> 0
    /\ cm k - cm (k - 1) < W
    /\ nkeys v r = Ok n /\ n <> d
    /\ find_insert_point v r index = Ok (k, index - cm (k - 1))
    /\ exists x, child v r k
                 = Ok (ref (tree.ptr v 0 k) 0 (cm k - cm (k - 1)) x).
Proof.
  destruct (flat_facts v Hflat) as (Hp & Hh & Hn & Hp0 & Hw & _).
  destruct (params_facts v Hp) as (Hc & Hd & Hd0 & _).
  destruct (node_facts v 0 size Hn) as (_ & Hs & Hmono & Hstrict & Hptr).
  fold c d in Hc, Hd, Hd0. fold c d cm in Hs, Hmono, Hstrict, Hptr.
  fold d size cm in Hw.
  pose proof (root_flat v Hflat) as Hr. fold size r in Hr.
  rewrite Hr in Hroot, Hleaf.
  destruct (find_insert_point_le v Hp 0 1 size (_rank v) Hn ltac:(lia)
              index Hidx) as (k & Hk & Hlt & Hge & Hprev & Hfip).
  fold d cm r in Hk, Hlt, Hge, Hprev, Hfip.
  assert (Hnk : exists n, nkeys v r = Ok n /\ n <> d /\ k < d).
  { destruct (Z.eq_dec size 0) as [E0|E0].
    - assert (Hc1 : 1 < c).
      { fold c size in Hroom. rewrite E0 in Hroom.
        destruct (Z.le_gt_cases c 1) as [Hle|]; [|assumption].
        assert (c = 1) by lia. subst c. rewrite H in Hroom.
        simpl in Hroom. lia. }
      assert (Hn0 := Hn). change (_size v) with size in Hn0.
      rewrite E0 in Hn0.
      destruct (nkeys_empty v 0 1 (_rank v) Hp Hn0 ltac:(lia) Hc1)
        as (_ & Hnk).
      exists 1. unfold r. rewrite E0. split; [exact Hnk|].
      assert (Hd1 : 1 <> d).
      { intros E. apply Hroot. unfold r. rewrite E0, Hnk. f_equal.
        exact E. }
      split; [exact Hd1|].
      destruct (Z.eq_dec k 0) as [->|Hk0]; [lia|].
      specialize (Hlt 0 ltac:(lia)).
      pose proof (cum_bounds v Hp 0 size Hn 0 ltac:(fold d; lia)) as Hb.
      fold cm in Hb. lia.
    - destruct (nkeys_pos v Hp 0 1 size (_rank v) Hn ltac:(lia) ltac:(lia))
        as (K & HK & HKlt & HKge & Hnk).
      fold d cm r in HK, HKlt, HKge, Hnk.
      exists (Z.min (K + 1) d). split; [exact Hnk|].
      assert (Hne : Z.min (K + 1) d <> d).
      { intros E. apply Hroot. rewrite Hnk. f_equal. exact E. }
      split; [exact Hne|].
      destruct (Z.eq_dec k d) as [Ek|]; [|lia]. exfalso.
      assert (HK2 : K <= d - 2) by lia.
      pose proof (Hlt (d - 1) ltac:(lia)) as Hl1.
      pose proof (cum_mono v 0 size Hn K (d - 2) ltac:(lia)
                    ltac:(fold d; lia)) as Hm1.
      fold cm in Hm1.
      pose proof (Hmono (d - 1) ltac:(lia)) as Hm2.
      pose proof (Hstrict (d - 1) ltac:(lia)) as Hm3.
      replace (d - 1 - 1) with (d - 2) in Hm2, Hm3 by lia.
      lia. }
  destruct Hnk as (n & Hnk & Hnd & Hkd).
  assert (Hpk : tree.ptr v 0 k <> 0).
  { destruct (Z.eq_dec k 0) as [->|Hk0]; [exact Hp0|].
    apply Hptr; [lia|]. specialize (Hlt (k - 1) ltac:(lia)). lia. }
  destruct (child_ok v Hp 0 1 size (_rank v) Hn ltac:(lia) k
              ltac:(fold d; lia) Hpk) as (x & Hchild).
  fold cm r in Hchild. change (1 - 1) with 0 in Hchild.
  pose proof (Hleaf _ _ _ Hfip Hchild) as Hnf. cbn [t_size] in Hnf.
  pose proof (Hw k ltac:(lia)) as Hwk.
  exists k, n. split; [lia|]. split; [exact Hlt|]. split; [lia|].
  split; [exact Hpk|]. split; [lia|]. split; [exact Hnk|].
  split; [exact Hnd|]. split; [exact Hfip|]. exists x. exact Hchild.
Qed.

(** What [insert] computes on this path. *)
Lemma insert_flat_run (k : Z) :
  0 <= k < d ->
  tree.ptr v 0 k <> 0 ->
  cm k - cm (k - 1) < W ->
  (exists n, nkeys v r = Ok n /\ n <> d) ->
  find_insert_point v r index = Ok (k, index - cm (k - 1)) ->
  (exists x, child v r k
             = Ok (ref (tree.ptr v 0 k) 0 (cm k - cm (k - 1)) x)) ->
  insert v index bit = Ok (flat.leaf_insert v k index bit).
Proof.
  intros Hk Hpk Hwk (n & Hnk & Hnd) Hfip (x & Hchild).
  destruct (flat_facts v Hflat) as (Hp & Hh & Hn & Hp0 & Hw & Hlen & _).
  unfold insert. rewrite (root_flat v Hflat), Hh. fold size r.
  change (Z.to_nat 1 + 3)%nat with 4%nat.
  cbn [insert_at]. rewrite Hnk. cbn [bind]. fold d.
  destruct (Z.eqb_spec n d); [contradiction|].
  rewrite Hfip. cbn [bind]. unfold r at 1. cbn [t_height].
  change (1 =? 1) with true. cbn match. fold r.
  rewrite Hchild. cbn [bind t_size].
  destruct (Z.eqb_spec (cm k - cm (k - 1)) W); [lia|]. cbn [bind].
  unfold add_sizes, sizes_range. unfold r at 1. unfold is_node.
  cbn [t_height t_index]. change (0 <? 1) with true. cbn [assert bind].
  fold d. destruct (Z.ltb_spec k d); [|lia].
  destruct (Z.leb_spec d d); [|lia]. cbn [assert bind].
  destruct (root_fits_facts v Hfits) as (Hfs & Hfr & _).
  fold d in Hfs, Hfr.
  rewrite array_add_inside by (unfold r; cbn [t_index]; lia). cbn [bind].
  unfold add_ranks, ranks_range. unfold r at 1. unfold is_node.
  cbn [t_height t_index]. change (0 <? 1) with true. cbn [assert bind].
  cbn [degree _degree with_sizes]. fold (degree v). fold d.
  destruct (Z.ltb_spec k d); [|lia].
  destruct (Z.leb_spec d d); [|lia]. cbn [assert bind].
  cbn [_ranks with_sizes].
  rewrite array_add_inside by (unfold r; cbn [t_index]; lia). cbn [bind].
  set (v1 := with_sizes v _). set (v2 := with_ranks v1 _).
  destruct (child_at v2 0 1 size (_rank v) k ltac:(lia) ltac:(exact Hk) Hpk)
    as (s & y & Hc2).
  fold r in Hc2. rewrite Hc2. cbn [bind]. change (1 - 1) with 0.
  assert (Hl2 : leaf v2 (ref (tree.ptr v2 0 k) 0 s y)
                = Ok (flat.leaf_word v k)).
  { apply (leaf_flat v Hflat k s y); [fold d; lia|exact Hpk]. }
  rewrite Hl2. cbn [bind].
  unfold set_leaf, is_leaf. cbn [t_height t_index].
  change (0 =? 0) with true. cbn [assert bind].
  pose proof (Hlen k ltac:(fold d; lia) Hpk) as Hlk.
  change (_leaves v2) with (_leaves v).
  change (tree.ptr v2 0 k) with (tree.ptr v 0 k).
  destruct (Nat.ltb_spec (Z.to_nat (tree.ptr v 0 k)) (length (_leaves v)));
    [|lia].
  cbn [bind]. reflexivity.
Qed.

Section after.

Variable k : Z.
Hypothesis Hk : 0 <= k < d.
Hypothesis Hlt : forall j, 0 <= j < k -> cm j < index.
Hypothesis Hin : cm (k - 1) <= index <= cm k.
Hypothesis Hpk : tree.ptr v 0 k <> 0.
Hypothesis Hwk : cm k - cm (k - 1) < W.

Let v' := flat.leaf_insert v k index bit.
Let cm' := tree.cum v' 0 (size + 1).

Lemma after_params :
  tree.params_ok v' = true /\ _height v' = 1 /\ degree v' = d
  /\ counter_width v' = c /\ _size v' = size + 1
  /\ _rank v' = _rank v + Z.b2z bit.
Proof.
  destruct (flat_facts v Hflat) as (Hp & Hh & _).
  split; [exact Hp|]. split; [exact Hh|]. repeat split.
Qed.

Lemma after_ptr (j : Z) : tree.ptr v' 0 j = tree.ptr v 0 j.
Proof. reflexivity. Qed.

Lemma after_leaves :
  length (_leaves v') = length (_leaves v)
  /\ forall j, 0 <= j <= d -> tree.ptr v 0 j <> 0 ->
       flat.leaf_word v' j
       = if j =? k
         then bits.insert_bit (flat.leaf_word v k) (index - cm (k - 1)) bit
         else flat.leaf_word v j.
Proof.
  destruct (flat_facts v Hflat) as (_ & _ & _ & _ & _ & Hlen & Hdist).
  fold d in Hlen, Hdist.
  pose proof (Hlen k ltac:(lia) Hpk) as Hlk.
  split.
  - unfold v', flat.leaf_insert. cbn [_leaves with_size_rank with_leaves].
    apply list_set_length.
  - intros j Hj Hpj. unfold flat.leaf_word at 1. rewrite after_ptr.
    unfold v', flat.leaf_insert.
    cbn [_leaves with_size_rank with_leaves with_ranks with_sizes].
    rewrite list_set_nth by exact Hlk.
    destruct (Z.eqb_spec j k) as [->|Hne].
    + rewrite Nat.eqb_refl. reflexivity.
    + pose proof (Hdist j k Hj ltac:(lia) Hne Hpk) as Hd.
      pose proof (Hlen j Hj Hpj) as Hlj.
      destruct (Nat.eqb_spec (Z.to_nat (tree.ptr v 0 j))
                  (Z.to_nat (tree.ptr v 0 k))) as [E|E]; [|reflexivity].
      exfalso. apply Hd.
      assert (0 <= tree.ptr v 0 j /\ 0 <= tree.ptr v 0 k) as [H1 H2].
      { unfold tree.ptr, packed_array.get, packed_view.get.
        destruct (flat_facts v Hflat) as (Hp & _).
        destruct (params_facts v Hp) as (_ & _ & Hd0 & _ & _ & _ & Hwp & _).
        split; apply get_range; nia. }
      lia.
Qed.

Lemma after_cum (j : Z) :
  -1 <= j <= d -> cm' j = cm j + (if k <=? j then 1 else 0).
Proof.
  intros Hj.
  destruct (flat_facts v Hflat) as (Hp & Hh & Hn & _).
  destruct (params_facts v Hp) as (Hc & Hd & Hd0 & Hdc & Hw & Hm & _).
  fold c d in Hc, Hd, Hd0, Hdc, Hw, Hm.
  unfold cm', cm, tree.cum.
  change (degree v') with d. fold d.
  destruct (Z.ltb_spec j 0).
  - destruct (Z.leb_spec k j); [lia|]. lia.
  - destruct (Z.ltb_spec j d).
    + unfold packed_array.get_stripped.
      change (packed_view.width (_sizes v')) with (packed_view.width (_sizes v)).
      rewrite Hw.
      change (packed_view.get (_sizes v') (0 * d + j) (0 * d + j + 1))
        with (packed_view.value
                (packed_array.store_add (_sizes v) (0 * d + k) (0 * d + d)
                                  (index_mask v)) (0 * d + j)).
      change (packed_view.get (_sizes v) (0 * d + j) (0 * d + j + 1))
        with (packed_view.value (_sizes v) (0 * d + j)).
      unfold index_mask, packed_array.index_mask. rewrite Hm.
      rewrite compute_field_mask_fm by lia. rewrite <- Hd.
      assert (Hitem : forall i, 0 <= i < d ->
                0 <= packed_view.value (_sizes v) (0 * d + i) < 2 ^ c
                /\ bits.lowbits (packed_view.value (_sizes v) (0 * d + i))
                                (c - 1) = cm i).
      { intros i Hi. split.
        - unfold packed_view.value, packed_view.get. rewrite Hw.
          pose proof (get_range (packed_view._bits (_sizes v))
                        ((0 * d + i) * c) ((0 * d + i + 1) * c)
                        ltac:(nia)) as Hg.
          replace ((0 * d + i + 1) * c - (0 * d + i) * c) with c in Hg
            by lia.
          exact Hg.
        - unfold cm, tree.cum. fold d.
          destruct (Z.ltb_spec i 0); [lia|].
          destruct (Z.ltb_spec i d); [|lia].
          unfold packed_array.get_stripped. rewrite Hw. reflexivity. }
      assert (Hbound : forall i, 0 <= i < d -> cm i + 1 < 2 ^ (c - 1)).
      { intros i Hi.
        pose proof (cum_bounds v Hp 0 size Hn i ltac:(fold d; lia)) as Hb.
        fold cm in Hb. fold c size in Hroom. lia. }
      rewrite <- Hw.
      rewrite (add_mask_items (_sizes v)); rewrite ?Hw; try lia.
      * destruct (Z.leb_spec (0 * d + k) (0 * d + j));
          destruct (Z.ltb_spec (0 * d + j) (0 * d + d));
          destruct (Z.leb_spec k j); try lia; cbn [andb].
        -- destruct (Hitem j ltac:(lia)) as (Hr & Hl).
           rewrite lowbits_succ; [fold cm; lia|lia|].
           rewrite Hl. apply Hbound. lia.
        -- fold cm. lia.
      * intros i Hi. destruct (Hitem (i - 0 * d) ltac:(lia)) as (Hr & Hl).
        replace (0 * d + (i - 0 * d)) with i in Hr, Hl by lia.
        apply item_succ_bound; [lia|exact Hr|].
        rewrite Hl. apply Hbound. lia.
    + assert (j = d) by lia. subst j.
      destruct (Z.leb_spec k d); lia.
Qed.

Lemma after_flat : flat.flat_ok v' = true.
Proof.
  destruct (flat_facts v Hflat) as (Hp & Hh & Hn & Hp0 & Hw & Hlen & Hdist).
  destruct (node_facts v 0 size Hn) as (_ & Hs & Hmono & Hstrict & Hptr).
  fold d cm in Hmono, Hstrict, Hptr. fold d in Hlen, Hdist.
  change (_size v) with size in Hw. fold d cm in Hw.
  destruct after_params as (Hp' & Hh' & Hd' & Hc' & Hs' & _).
  destruct after_leaves as (Hlen' & _).
  apply flat_ok_intro; try assumption.
  - rewrite Hs'. apply node_ok_intro; [lia|rewrite Hc'; fold c size in Hroom; lia|].
    rewrite Hd'. intros j Hj. fold cm'.
    rewrite !after_cum by lia.
    pose proof (Hmono j Hj) as H1. pose proof (Hstrict j Hj) as H2.
    pose proof (Hptr j Hj) as H3.
    destruct (Z.leb_spec k (j - 1)); destruct (Z.leb_spec k j); try lia.
    + split; [lia|]. split; [intros; lia|]. rewrite after_ptr.
      intros. apply H3. lia.
    + assert (j = k) by lia. subst j.
      split; [lia|]. split; [intros; lia|]. rewrite after_ptr.
      intros. exact Hpk.
    + split; [lia|]. split.
      * intros _.
        destruct (Z.eq_dec j 0) as [->|Hj0].
        -- change (cm (0 - 1)) with 0.
           specialize (Hlt 0 ltac:(lia)). 
           pose proof (cum_bounds v Hp 0 size Hn 0 ltac:(fold d; lia)) as Hb.
           fold cm in Hb.
           apply Z.add_lt_mono_r, H2. change (cm (0 - 1)) with 0.
           pose proof (cum_bounds v Hp 0 size Hn k ltac:(fold d; lia)) as Hbk.
           fold cm in Hbk. lia.
        -- apply Z.add_lt_mono_r, H2.
           specialize (Hlt (j - 1) ltac:(lia)).
           pose proof (cum_bounds v Hp 0 size Hn k ltac:(fold d; lia)) as Hbk.
           fold cm in Hbk. lia.
      * rewrite after_ptr. intros. apply H3. lia.
  - rewrite Hs', Hd'. intros j Hj. fold cm'. rewrite !after_cum by lia.
    pose proof (Hw j Hj).
    destruct (Z.leb_spec k (j - 1)); destruct (Z.leb_spec k j); try lia.
    assert (j = k) by lia. subst j. lia.
  - rewrite Hd'. intros j Hj. rewrite after_ptr, Hlen'. apply Hlen. exact Hj.
Qed.

Lemma after_access :
  access v' index = Ok bit
  /\ (forall j, 0 <= j < index -> access v' j = access v j)
  /\ (forall j, index < j <= size -> access v' j = access v (j - 1)).
Proof.
  destruct (flat_facts v Hflat) as (Hp & Hh & Hn & Hp0 & Hw & Hlen & Hdist).
  destruct (node_facts v 0 size Hn) as (_ & Hs & Hmono & Hstrict & Hptr).
  fold d cm in Hmono, Hstrict, Hptr.
  change (_size v) with size in Hw. fold d cm in Hw.
  destruct after_params as (Hp' & Hh' & Hd' & Hc' & Hs' & _).
  destruct after_leaves as (_ & Hleaves).
  pose proof after_flat as Hflat'.
  assert (Hcum0 : 0 <= cm (k - 1)).
  { pose proof (cum_bounds v Hp 0 size Hn (k - 1) ltac:(fold d; lia)) as Hb.
    fold cm in Hb. lia. }
  assert (Hread : forall j' s, 0 <= j' < size + 1 -> 0 <= s <= d ->
            cm' (s - 1) <= j' < cm' s ->
            access v' j'
            = Ok (bits.get_bit (flat.leaf_word v' s) (j' - cm' (s - 1)))).
  { intros j' s Hj' Hsd Hin'.
    destruct (access_flat v' Hflat' j' ltac:(rewrite Hs'; lia))
      as (s' & Hs'd & Hin'' & Hacc).
    rewrite Hd', Hs' in *. fold cm' in Hin'', Hacc.
    assert (s = s').
    { apply (holder_unique v' Hflat' j'); rewrite ?Hd', ?Hs'; assumption. }
    subst s'. exact Hacc. }
  split; [|split].
  - rewrite (Hread index k); [|lia|lia|].
    + rewrite Hleaves by (assumption || lia). rewrite Z.eqb_refl.
      rewrite after_cum by lia.
      destruct (Z.leb_spec k (k - 1)); [lia|]. rewrite Z.add_0_r.
      unfold bits.get_bit. rewrite insert_bit_testbit by lia.
      destruct (Z.ltb_spec (index - cm (k - 1)) (index - cm (k - 1))); [lia|].
      rewrite Z.eqb_refl. reflexivity.
    + rewrite !after_cum by lia.
      destruct (Z.leb_spec k (k - 1)); [lia|].
      destruct (Z.leb_spec k k); lia.
  - intros j Hj.
    destruct (access_flat v Hflat j ltac:(fold size; lia))
      as (s & Hsd & Hins & Hacc).
    fold d size cm in Hsd, Hins, Hacc.
    assert (Hsk : s <= k).
    { destruct (Z.le_gt_cases s k); [assumption|].
      pose proof (cum_mono v 0 size Hn k (s - 1) ltac:(lia)
                    ltac:(fold d; lia)) as Hm. fold cm in Hm. lia. }
    assert (Hps : tree.ptr v 0 s <> 0) by (apply Hptr; lia).
    rewrite (Hread j s); [|lia|lia|].
    + rewrite Hacc. rewrite Hleaves by assumption.
      rewrite after_cum by lia.
      destruct (Z.leb_spec k (s - 1)); [lia|]. rewrite Z.add_0_r.
      destruct (Z.eqb_spec s k) as [->|]; [|reflexivity].
      unfold bits.get_bit. rewrite insert_bit_testbit by lia.
      destruct (Z.ltb_spec (j - cm (k - 1)) (index - cm (k - 1))); [|lia].
      reflexivity.
    + rewrite !after_cum by lia.
      destruct (Z.leb_spec k (s - 1)); [lia|].
      destruct (Z.leb_spec k s); lia.
  - intros j Hj.
    destruct (access_flat v Hflat (j - 1) ltac:(fold size; lia))
      as (s & Hsd & Hins & Hacc).
    fold d size cm in Hsd, Hins, Hacc.
    assert (Hsk : k <= s).
    { destruct (Z.le_gt_cases k s); [assumption|].
      specialize (Hlt s ltac:(lia)). lia. }
    assert (Hps : tree.ptr v 0 s <> 0) by (apply Hptr; lia).
    rewrite (Hread j s); [|lia|lia|].
    + rewrite Hacc. rewrite Hleaves by assumption.
      rewrite after_cum by lia.
      destruct (Z.eqb_spec s k) as [->|Hne].
      * destruct (Z.leb_spec k (k - 1)); [lia|]. rewrite Z.add_0_r.
        unfold bits.get_bit. rewrite insert_bit_testbit by lia.
        destruct (Z.ltb_spec (j - cm (k - 1)) (index - cm (k - 1))); [lia|].
        destruct (Z.eqb_spec (j - cm (k - 1)) (index - cm (k - 1))); [lia|].
        f_equal. f_equal. lia.
      * destruct (Z.leb_spec k (s - 1)); [|lia].
        f_equal. f_equal. lia.
    + rewrite !after_cum by lia.
      destruct (Z.leb_spec k (s - 1)); destruct (Z.leb_spec k s); lia.
Qed.

End after.

End insert_flat.

(** X15.  [insert] on the path that redistributes nothing.  On a tree of height
    1 in order ([flat.flat_ok]) whose root lies inside the arrays
    ([flat.root_fits]), when the root is not full, the leaf at the
    insertion point is not full and the size after the insertion is still
    below the flag bit of a counter ([size + 1 < 2^(counter_width - 1)]),
    [insert(index, bit)] returns; the tree is in order again, the size has
    grown by 1 and the rank by [bit], [access(index)] reads [bit], the
    positions before [index] read what they read before and the positions
    after it read what the position before them read. *)
Theorem insert_into_leaf (v : bitvector.t) (index : Z) (bit : bool) :
  flat.flat_ok v = true ->
  flat.root_fits v = true ->
  0 <= index <= bitvector.size v ->
  bitvector.size v + 1 < 2 ^ (bitvector.counter_width v - 1) ->
  bitvector.nkeys v (bitvector.root v) <> Ok (bitvector.degree v) ->
  (forall k ni c,
     bitvector.find_insert_point v (bitvector.root v) index = Ok (k, ni) ->
     bitvector.child v (bitvector.root v) k = Ok c ->
     bitvector.t_size c <> W) ->
  exists v',
    bitvector.insert v index bit = Ok v'
    /\ flat.flat_ok v' = true
    /\ flat.root_fits v' = true
    /\ bitvector.size v' = bitvector.size v + 1
    /\ bitvector.rank v' = bitvector.rank v + Z.b2z bit
    /\ bitvector.access v' index = Ok bit
    /\ (forall j, 0 <= j < index ->
          bitvector.access v' j = bitvector.access v j)
    /\ (forall j, index < j <= bitvector.size v ->
          bitvector.access v' j = bitvector.access v (j - 1)).
Proof.
  intros Hflat Hfits Hidx Hroom Hroot Hleaf.
  destruct (insert_child_index v index Hflat Hidx Hroom Hroot Hleaf)
    as (k & n & Hk & Hlt & Hin & Hpk & Hwk & Hnk & Hnd & Hfip & Hchild).
  exists (flat.leaf_insert v k index bit).
  split.
  { apply (insert_flat_run v index bit Hflat Hfits k); try assumption.
    exists n. split; assumption. }
  split; [apply after_flat; assumption|].
  split; [exact Hfits|].
  split; [reflexivity|]. split; [reflexivity|].
  apply after_access; assumption.
Qed.

(** X15 at [v10], index 4 and a set bit. *)
Lemma insert_into_leaf_witness :
  exists v',
    bitvector.insert runs.v10 4 true = Ok v'
    /\ flat.flat_ok v' = true
    /\ flat.root_fits v' = true
    /\ bitvector.size v' = bitvector.size runs.v10 + 1
    /\ bitvector.rank v' = bitvector.rank runs.v10 + Z.b2z true
    /\ bitvector.access v' 4 = Ok true
    /\ (forall j, 0 <= j < 4 ->
          bitvector.access v' j = bitvector.access runs.v10 j)
    /\ (forall j, 4 < j <= bitvector.size runs.v10 ->
          bitvector.access v' j = bitvector.access runs.v10 (j - 1)).
Proof.
  apply (insert_into_leaf runs.v10 4 true).
  - vm_compute. reflexivity.
  - vm_compute. reflexivity.
  - vm_compute. split; discriminate.
  - vm_compute. reflexivity.
  - vm_compute. discriminate.
  - intros k ni c Hf Hc. vm_compute in Hf. inversion Hf; subst k ni.
    vm_compute in Hc. inversion Hc; subst c. vm_compute. discriminate.
Defined.

(** * The constructor *)

Section constructor_facts.

Import bitvector.

(** The loop that counts the nodes stops when every node has a minimum
    degree of at least 1, and with a minimum degree of 0 it never does. *)
Lemma count_nodes_total (fuel : nat) :
  forall md l a,
    1 <= md -> 0 <= l -> (Z.to_nat l < fuel)%nat ->
    exists n, count_nodes fuel md l a = Ok n /\ a <= n.
Proof.
  induction fuel as [|fuel IH]; intros md l a Hmd Hl Hf; [lia|].
  cbn [count_nodes].
  assert (Hlev : 0 <= (l + md) / (md + 1)) by (apply Z.div_pos; lia).
  destruct (Z.ltb_spec 1 ((l + md) / (md + 1))) as [H1|H1].
  - assert (Hlt : (l + md) / (md + 1) < l).
    { apply Z.div_lt_upper_bound; [lia|].
      assert (2 <= l); [|nia].
      destruct (Z.le_gt_cases 2 l); [assumption|].
      assert ((l + md) / (md + 1) <= 1); [|lia].
      apply Z.div_le_upper_bound; lia. }
    destruct (IH md ((l + md) / (md + 1)) (a + (l + md) / (md + 1))
                Hmd Hlev ltac:(lia)) as (n & Hn & Ha).
    exists n. split; [exact Hn|lia].
  - eexists. split; [reflexivity|lia].
Qed.

Lemma count_nodes_ge (fuel : nat) :
  forall md l a n,
    0 <= md -> 0 <= l -> count_nodes fuel md l a = Ok n ->
    a + (l + md) / (md + 1) <= n.
Proof.
  induction fuel as [|fuel IH]; intros md l a n Hmd Hl H;
    cbn [count_nodes] in H; [discriminate|].
  assert (Hlev : 0 <= (l + md) / (md + 1)) by (apply Z.div_pos; lia).
  destruct (1 <? (l + md) / (md + 1)).
  - apply IH in H; try lia.
    assert (0 <= ((l + md) / (md + 1) + md) / (md + 1))
      by (apply Z.div_pos; lia).
    lia.
  - inversion H; subst. lia.
Qed.

Lemma count_nodes_mono (fuel1 : nat) :
  forall fuel2 md l1 l2 a1 a2 n1 n2,
    0 <= md -> 0 <= l1 <= l2 -> a1 <= a2 ->
    count_nodes fuel1 md l1 a1 = Ok n1 ->
    count_nodes fuel2 md l2 a2 = Ok n2 ->
    n1 <= n2.
Proof.
  induction fuel1 as [|fuel1 IH];
    intros fuel2 md l1 l2 a1 a2 n1 n2 Hmd Hl Ha H1 H2;
    cbn [count_nodes] in H1; [discriminate|].
  assert (Hlev : (l1 + md) / (md + 1) <= (l2 + md) / (md + 1))
    by (apply Z.div_le_mono; lia).
  assert (Hlev0 : 0 <= (l1 + md) / (md + 1)) by (apply Z.div_pos; lia).
  pose proof (count_nodes_ge fuel2 md l2 a2 n2 Hmd ltac:(lia) H2) as Hge.
  destruct (Z.ltb_spec 1 ((l1 + md) / (md + 1))) as [Hc|Hc].
  - destruct fuel2 as [|fuel2]; cbn [count_nodes] in H2; [discriminate|].
    destruct (Z.ltb_spec 1 ((l2 + md) / (md + 1))); [|lia].
    eapply (IH fuel2 md); [exact Hmd| | |exact H1|exact H2]; lia.
  - inversion H1; subst. lia.
Qed.

Lemma count_nodes_diverges (fuel : nat) :
  forall l a, 1 < l -> count_nodes fuel 0 l a = Err OutOfFuel.
Proof.
  induction fuel as [|fuel IH]; intros l a Hl; [reflexivity|].
  cbn [count_nodes]. rewrite Z.add_0_r.
  change (0 + 1) with 1. rewrite Z.div_1_r.
  destruct (Z.ltb_spec 1 l); [|lia]. apply IH. exact Hl.
Qed.

End constructor_facts.

(** X7.  A capacity below 50 needs no leaf beyond the first and no node:
    the constructor computes a pointer width of 0, and sizing the array of
    pointers divides [W] by that width.  No vector is built. *)
Theorem make_small_capacity (capacity : Z) :
  1 <= capacity < 50 -> bitvector.make capacity = Err DivisionByZero.
Proof.
  intros Hc.
  assert (H : forall k, 0 <= k < 49 ->
            (match bitvector.make (k + 1) with
             | Err DivisionByZero => true
             | _ => false
             end) = true).
  { apply forallb_range. vm_compute. reflexivity. }
  specialize (H (capacity - 1) ltac:(lia)).
  replace (capacity - 1 + 1) with capacity in H by lia.
  destruct (bitvector.make capacity) as [v|[]]; try discriminate.
  reflexivity.
Qed.

(** X7 at capacity 49. *)
Lemma make_small_capacity_witness :
  bitvector.make 49 = Err DivisionByZero.
Proof. apply (make_small_capacity 49). lia. Defined.

(** X8.  A capacity above [2^20] gives a degree of 2, a node buffer of 1 and
    a minimum degree of 0: the loop that counts the nodes divides the
    number of leaves by 1 for ever, and the constructor does not return. *)
Theorem make_large_capacity (capacity : Z) :
  2 ^ 20 < capacity <= 2 ^ 29 ->
  (forall fuel nodes,
     bitvector.count_nodes fuel 0 (capacity * 3 / 124) nodes
     = Err OutOfFuel)
  /\ bitvector.make capacity = Err OutOfFuel.
Proof.
  intros Hc.
  assert (Hl : 20 < Z.log2_up capacity <= 29).
  { split.
    - apply Z.log2_up_lt_pow2; lia.
    - apply Z.log2_up_le_pow2; lia. }
  assert (Hlc : 1 < capacity * 3 / 124).
  { assert (2 <= capacity * 3 / 124); [|lia].
    apply Z.div_le_lower_bound; lia. }
  split; [intros; apply count_nodes_diverges; exact Hlc|].
  unfold bitvector.make. cbv zeta.
  set (c := Z.log2_up capacity + 1).
  assert (Hd : W / c = 2).
  { unfold W. symmetry. apply (Z.div_unique 64 c 2 (64 - c * 2)); lia. }
  rewrite Hd.
  change (Z.min (Z.max (Z.sqrt_up W - 1) 1) 2) with 2.
  change (Z.max (Z.sqrt_up 2 - 1) 1) with 1.
  change (1 * (2 - 1) / (1 + 1)) with 0.
  change (2 + 1) with 3. change (2 * (W - 2)) with 124.
  rewrite count_nodes_diverges by exact Hlc. reflexivity.
Qed.

(** X8 at capacity 2^20 + 1. *)
Lemma make_large_capacity_witness :
  bitvector.make (2 ^ 20 + 1) = Err OutOfFuel.
Proof. apply (make_large_capacity (2 ^ 20 + 1)). lia. Defined.

Section fresh_facts.

Import bitvector.

Lemma blank_get (w sz b e : Z) :
  packed_view.get (packed_array.zeroed w sz) b e = 0.
Proof.
  unfold packed_array.zeroed, packed_view.zeroed, packed_view.get, bitview.get,
    bitview.new.
  cbn [packed_view._bits bitview.bits]. rewrite Z.shiftr_0_l. reflexivity.
Qed.

Lemma blank_set (w sz b e : Z) :
  packed_view.store (packed_array.zeroed w sz) b e 0
  = packed_array.zeroed w sz.
Proof.
  unfold packed_array.zeroed, packed_view.zeroed, packed_view.store, bitview.store,
    bitview.new.
  cbn [packed_view._bits packed_view._width packed_view._field_mask
       bitview.bits bitview.size packed_view.width].
  rewrite Z.shiftl_0_l. reflexivity.
Qed.

Lemma blank_shl (w sz b e n : Z) :
  packed_array.store_shl (packed_array.zeroed w sz) b e n
  = packed_array.zeroed w sz.
Proof.
  unfold packed_array.store_shl. rewrite blank_get, Z.shiftl_0_l.
  change (wrap 0) with 0. apply blank_set.
Qed.

Lemma blank_stripped (w sz k : Z) :
  packed_array.get_stripped (packed_array.zeroed w sz) k = 0.
Proof. unfold packed_array.get_stripped. rewrite blank_get. reflexivity. Qed.

Lemma blank_size (w sz : Z) :
  0 < w -> packed_array.size (packed_array.zeroed w sz) = sz.
Proof.
  intros Hw. unfold packed_array.size, packed_view.size, packed_array.zeroed,
    packed_view.zeroed, bitview.new.
  cbn [packed_view._bits packed_view._width bitview.size].
  rewrite Z.mul_comm. apply Z.div_mul. lia.
Qed.

Lemma zeroed_fits (w sz e : Z) :
  0 <= w -> e <= sz ->
  e * packed_view.width (packed_array.zeroed w sz)
  <= bitview.size (packed_view._bits (packed_array.zeroed w sz)).
Proof.
  intros Hw He. unfold packed_array.zeroed, packed_view.zeroed,
    packed_view.width, bitview.new.
  cbn [packed_view._width packed_view._bits bitview.size]. nia.
Qed.

(** The constructor, given the outcome of its loop and of its tests. *)
Lemma make_eq (capacity nodes : Z) :
  let c := Z.log2_up capacity + 1 in
  let d := W / c in
  let lb := Z.min (Z.max (Z.sqrt_up W - 1) 1) d in
  let nb := Z.max (Z.sqrt_up d - 1) 1 in
  let lc := capacity * (lb + 1) / (lb * (W - lb)) in
  let md := nb * (d - nb) / (nb + 1) in
  let pw := Z.log2_up (Z.max nodes (lc + 1)) in
  count_nodes (S (Z.to_nat lc)) md lc 0 = Ok nodes ->
  0 < pw -> pw <= c -> pw * (d + 1) <= W -> 0 < nodes * d -> 0 < d ->
  make capacity = Ok (flat.fresh capacity c pw d lb nb nodes).
Proof.
  intros c d lb nb lc md pw Hcount Hpw Hpc Hpd Hnd Hd.
  assert (Hc : 0 < c) by (pose proof (Z.log2_up_nonneg capacity); lia).
  assert (Hnodes : 1 <= nodes) by nia.
  unfold make. cbv zeta. fold c. fold d. fold lb. fold nb. fold lc. fold md.
  rewrite Hcount. cbn [bind]. fold pw.
  destruct (Z.leb_spec pw c); [|lia].
  destruct (Z.leb_spec (pw * (d + 1)) W); [|lia].
  cbn [assert bind].
  rewrite !array_resize_built by lia. cbn [bind alloc_leaf].
  unfold alloc_node.
  cbn [_free_node _sizes with_leaves _leaves app length].
  rewrite blank_size by exact Hc.
  destruct (Z.ltb_spec 0 (nodes * d)); [|lia].
  cbn [assert bind]. unfold insert_child, root, is_node.
  unfold sizes_at, ranks_at, shl_sizes, shl_ranks, shl_pointers, set_sizes,
    set_ranks, set_pointers, sizes_range, ranks_range, pointers_range,
    is_node.
  repeat (cbn [t_height t_index degree _degree with_sizes with_ranks
               with_pointers _sizes _ranks _pointers counter_width
               pointer_width _counter_width _pointer_width _height
               with_free_node with_leaves _leaves _free_node _capacity
               _size _rank _leaves_buffer _nodes_buffer alloc_leaf
               length app orb assert bind fst snd];
          rewrite ?array_shl_inside, ?array_set_inside
            by (apply zeroed_fits; nia);
          unfold packed_array.store;
          rewrite ?blank_stripped, ?blank_get, ?blank_shl, ?blank_set;
          change (0 <? 1) with true; change (1 =? 1) with true;
          first [ match goal with
                  | |- context [Z.ltb ?a ?b] =>
                      destruct (Z.ltb_spec a b); [|lia]
                  end
                | match goal with
                  | |- context [Z.leb ?a ?b] =>
                      destruct (Z.leb_spec a b); [|lia]
                  end
                | match goal with
                  | |- context [Z.eqb ?a ?b] =>
                      destruct (Z.eqb_spec a b); [lia|]
                  end
                | idtac ]).
  reflexivity.
Qed.

End fresh_facts.

Section fresh_flat.

Import bitvector.

Variables (capacity c pw d lb nb nodes : Z).
Hypothesis Hc : 0 < c <= W.
Hypothesis Hd : d = W / c.
Hypothesis Hpw : 1 <= pw.

Let v := flat.fresh capacity c pw d lb nb nodes.

Lemma fresh_cum (k : Z) : tree.cum v 0 0 k = 0.
Proof.
  unfold tree.cum, v, flat.fresh. cbn [degree _degree _sizes].
  rewrite blank_stripped.
  destruct (k <? 0); destruct (k <? d); reflexivity.
Qed.

Lemma fresh_ptr (k : Z) :
  0 <= k -> tree.ptr v 0 k = if k =? 0 then 1 else 0.
Proof.
  intros Hk. unfold tree.ptr, v, flat.fresh.
  cbn [degree _degree _pointers].
  unfold packed_array.get, packed_array.store.
  change (packed_view.get
            (packed_view.store (packed_array.zeroed pw (nodes * (d + 1))) 0 1 1)
            (0 * (d + 1) + k) (0 * (d + 1) + k + 1))
    with (packed_view.value
            (packed_view.store (packed_array.zeroed pw (nodes * (d + 1))) 0 1 1)
            (0 * (d + 1) + k)).
  rewrite item_set; [| |lia|lia].
  2:{ unfold packed_array.zeroed, packed_view.zeroed, packed_view.width.
      cbn [packed_view._width]. lia. }
  change (packed_view.width (packed_array.zeroed pw (nodes * (d + 1))))
    with pw.
  destruct (Z.eqb_spec k 0) as [->|Hne].
  - cbn [Z.mul Z.add Z.leb Z.ltb Z.compare andb Z.sub Z.opp].
    rewrite word_field_zero by lia. apply Z.mod_small.
    assert (2 ^ 1 <= 2 ^ pw) by (apply Z.pow_le_mono_r; lia). lia.
  - destruct (Z.leb_spec 0 (0 * (d + 1) + k));
      destruct (Z.ltb_spec (0 * (d + 1) + k) 1); try lia; cbn [andb].
    unfold packed_view.value. apply blank_get.
Qed.

Lemma fresh_params : tree.params_ok v = true.
Proof.
  unfold tree.params_ok, v, flat.fresh.
  cbn [counter_width _counter_width degree _degree _sizes _pointers _ranks
       _height].
  unfold packed_array.store, packed_array.zeroed, packed_view.store,
    packed_view.zeroed, packed_view.width, packed_view.field_mask.
  cbn [packed_view._width packed_view._field_mask].
  destruct (Z.ltb_spec 0 c); [|lia]. destruct (Z.leb_spec c W); [|lia].
  destruct (Z.eqb_spec d (W / c)); [|lia].
  rewrite !Z.eqb_refl.
  destruct (Z.leb_spec 0 pw); [|lia].
  destruct (Z.leb_spec 0 c); [|lia]. reflexivity.
Qed.

Lemma fresh_fits : 1 <= nodes -> 0 <= d -> flat.root_fits v = true.
Proof.
  intros Hn Hd0. unfold flat.root_fits, v, flat.fresh.
  cbn [degree _degree _sizes _ranks _pointers].
  unfold packed_array.store, packed_view.store, packed_array.zeroed,
    packed_view.zeroed, packed_view.width, bitview.store, bitview.new.
  cbn [packed_view._width packed_view._bits bitview.size].
  apply andb_true_intro. split; [apply andb_true_intro; split|];
    apply Z.leb_le; nia.
Qed.

Lemma fresh_flat_ok :
  1 < c -> flat.flat_ok v = true.
Proof.
  intros Hc1.
  apply flat_ok_intro.
  - exact fresh_params.
  - reflexivity.
  - apply node_ok_intro; [lia| |].
    + change (_size v) with 0. change (counter_width v) with c.
      split; [lia|]. apply pow2_pos. lia.
    + intros k Hk. change (_size v) with 0. rewrite !fresh_cum.
      split; [lia|]. split; intros; lia.
  - rewrite fresh_ptr by lia. discriminate.
  - intros k Hk. change (_size v) with 0. rewrite !fresh_cum.
    unfold W. lia.
  - intros k Hk Hp. rewrite fresh_ptr in * by lia.
    destruct (k =? 0); [|contradiction].
    change (Z.to_nat 1) with 1%nat. cbn. lia.
  - intros j k Hj Hk Hne Hp. rewrite !fresh_ptr in * by lia.
    destruct (Z.eqb_spec k 0); [|contradiction].
    destruct (Z.eqb_spec j 0); [lia|]. discriminate.
Qed.

End fresh_flat.

Section make_classes.

Import bitvector.

(** The capacities of one class: the same logarithm [l], hence the same
    widths, degree and buffers.  The number of leaves and of nodes grows
    with the capacity, so that the two tests of the constructor need
    checking at the largest capacity only, and the presence of a node at
    the smallest. *)
Lemma make_class (l lo hi nhi : Z) :
  let c := l + 1 in
  let d := W / c in
  let lb := Z.min (Z.max (Z.sqrt_up W - 1) 1) d in
  let nb := Z.max (Z.sqrt_up d - 1) 1 in
  let md := nb * (d - nb) / (nb + 1) in
  let lchi := hi * (lb + 1) / (lb * (W - lb)) in
  let pwhi := Z.log2_up (Z.max nhi (lchi + 1)) in
  0 <= l -> 0 < d -> 0 < lb -> 0 < lb * (W - lb) -> 1 <= md ->
  1 <= lo * (lb + 1) / (lb * (W - lb)) ->
  count_nodes 64 md lchi 0 = Ok nhi ->
  pwhi <= c -> pwhi * (d + 1) <= W ->
  forall capacity,
    lo <= capacity <= hi -> Z.log2_up capacity = l ->
    exists nodes pw,
      make capacity = Ok (flat.fresh capacity c pw d lb nb nodes)
      /\ 1 <= pw /\ 1 <= nodes.
Proof.
  intros c d lb nb md lchi pwhi Hl Hd Hlb HD Hmd Hlo Hhi Hp1 Hp2
         capacity Hcap Hlog.
  set (lc := capacity * (lb + 1) / (lb * (W - lb))).
  assert (Hlc : 1 <= lc <= lchi).
  { unfold lc, lchi. split.
    - eapply Z.le_trans; [exact Hlo|]. apply Z.div_le_mono; nia.
    - apply Z.div_le_mono; nia. }
  destruct (count_nodes_total (S (Z.to_nat lc)) md lc 0 Hmd ltac:(lia)
              ltac:(lia)) as (nodes & Hnodes & Hn0).
  pose proof (count_nodes_ge (S (Z.to_nat lc)) md lc 0 nodes ltac:(lia)
                ltac:(lia) Hnodes) as Hge.
  assert (Hfirst : 1 <= (lc + md) / (md + 1))
    by (apply Z.div_le_lower_bound; lia).
  pose proof (count_nodes_mono (S (Z.to_nat lc)) 64 md lc lchi 0 0 nodes nhi
                ltac:(lia) ltac:(lia) ltac:(lia) Hnodes Hhi) as Hle.
  set (pw := Z.log2_up (Z.max nodes (lc + 1))).
  assert (Hpw : 1 <= pw <= pwhi).
  { unfold pw, pwhi. split.
    - assert (H : Z.log2_up 2 <= Z.log2_up (Z.max nodes (lc + 1)))
        by (apply Z.log2_up_le_mono; lia).
      exact H.
    - apply Z.log2_up_le_mono. lia. }
  exists nodes, pw. split; [|lia].
  pose proof (make_eq capacity nodes) as H. cbv zeta in H.
  rewrite Hlog in H. fold c d lb nb md lc pw in H. fold d lb in H.
  apply H; try assumption; try lia; nia.
Qed.

End make_classes.

Ltac closed_goal :=
  vm_compute; first [reflexivity | discriminate | intro; discriminate].

Ltac make_class_at l lo hi :=
  eapply (make_class l lo hi);
  [closed_goal | closed_goal | closed_goal | closed_goal | closed_goal
  | closed_goal | vm_compute; reflexivity | closed_goal | closed_goal
  | lia | assumption].

Section make_total.

Import bitvector.

Lemma make_fresh (capacity : Z) :
  50 <= capacity <= 2 ^ 20 ->
  exists c d lb nb nodes pw,
    make capacity = Ok (flat.fresh capacity c pw d lb nb nodes)
    /\ c = Z.log2_up capacity + 1 /\ d = W / c
    /\ 7 <= c <= 21 /\ 3 <= d /\ 1 <= pw /\ 1 <= nodes.
Proof.
  intros Hcap.
  assert (Hl : 5 < Z.log2_up capacity <= 20).
  { split.
    - apply Z.log2_up_lt_pow2; lia.
    - apply Z.log2_up_le_pow2; lia. }
  pose proof (Z.log2_up_spec capacity ltac:(lia)) as Hspec.
  remember (Z.log2_up capacity) as l eqn:Hlog. symmetry in Hlog.
  assert (Hd3 : 3 <= W / (l + 1)).
  { apply Z.div_le_lower_bound; unfold W; lia. }
  assert (Hmain : exists nodes pw,
            make capacity
            = Ok (flat.fresh capacity (l + 1) pw (W / (l + 1))
                    (Z.min (Z.max (Z.sqrt_up W - 1) 1) (W / (l + 1)))
                    (Z.max (Z.sqrt_up (W / (l + 1)) - 1) 1) nodes)
            /\ 1 <= pw /\ 1 <= nodes).
  { assert (Hcases : l = 6 \/ l = 7 \/ l = 8 \/ l = 9 \/ l = 10 \/ l = 11
                     \/ l = 12 \/ l = 13 \/ l = 14 \/ l = 15 \/ l = 16
                     \/ l = 17 \/ l = 18 \/ l = 19 \/ l = 20) by lia.
    repeat (destruct Hcases as [E|Hcases];
            [rewrite E in *; change (Z.pred ?x) with (x - 1) in Hspec|]).
    - make_class_at 6 50 (2 ^ 6).
    - make_class_at 7 (2 ^ 6 + 1) (2 ^ 7).
    - make_class_at 8 (2 ^ 7 + 1) (2 ^ 8).
    - make_class_at 9 (2 ^ 8 + 1) (2 ^ 9).
    - make_class_at 10 (2 ^ 9 + 1) (2 ^ 10).
    - make_class_at 11 (2 ^ 10 + 1) (2 ^ 11).
    - make_class_at 12 (2 ^ 11 + 1) (2 ^ 12).
    - make_class_at 13 (2 ^ 12 + 1) (2 ^ 13).
    - make_class_at 14 (2 ^ 13 + 1) (2 ^ 14).
    - make_class_at 15 (2 ^ 14 + 1) (2 ^ 15).
    - make_class_at 16 (2 ^ 15 + 1) (2 ^ 16).
    - make_class_at 17 (2 ^ 16 + 1) (2 ^ 17).
    - make_class_at 18 (2 ^ 17 + 1) (2 ^ 18).
    - make_class_at 19 (2 ^ 18 + 1) (2 ^ 19).
    - rewrite Hcases in *. change (Z.pred ?x) with (x - 1) in Hspec.
      make_class_at 20 (2 ^ 19 + 1) (2 ^ 20). }
  destruct Hmain as (nodes & pw & Hmake & Hpw & Hnodes).
  eexists. eexists. eexists. eexists. exists nodes, pw.
  split; [exact Hmake|]. split; [reflexivity|]. split; [reflexivity|].
  split; [lia|]. split; [exact Hd3|]. split; [exact Hpw|exact Hnodes].
Qed.

End make_total.

Section oracle_facts.

Lemma list_insert_length (l : list bool) (i : Z) (b : bool) :
  0 <= i <= Z.of_nat (length l) ->
  Z.of_nat (length (oracle.list_insert l i b)) = Z.of_nat (length l) + 1.
Proof.
  intros Hi. unfold oracle.list_insert.
  rewrite length_app. cbn [length].
  rewrite length_firstn, length_skipn. lia.
Qed.

Lemma list_insert_nth (l : list bool) (i j : Z) (b : bool) :
  0 <= i <= Z.of_nat (length l) -> 0 <= j ->
  nth (Z.to_nat j) (oracle.list_insert l i b) false
  = if j <? i then nth (Z.to_nat j) l false
    else if j =? i then b else nth (Z.to_nat (j - 1)) l false.
Proof.
  intros Hi Hj. unfold oracle.list_insert.
  assert (Hlen : length (firstn (Z.to_nat i) l) = Z.to_nat i).
  { rewrite length_firstn. lia. }
  destruct (Z.ltb_spec j i).
  - rewrite app_nth1 by lia.
    rewrite nth_firstn.
    destruct (Nat.ltb_spec (Z.to_nat j) (Z.to_nat i)); [reflexivity|lia].
  - rewrite app_nth2 by lia. rewrite Hlen.
    destruct (Z.eqb_spec j i) as [->|Hne].
    + rewrite Nat.sub_diag. reflexivity.
    + replace (Z.to_nat j - Z.to_nat i)%nat
        with (S (Z.to_nat (j - 1) - Z.to_nat i)) by lia.
      cbn [nth]. rewrite nth_skipn. f_equal. lia.
Qed.

End oracle_facts.

Section first_leaf.

Import bitvector.

Lemma first_leaf_step (v : t) (l : list bool) (i : Z) (b : bool) :
  oracle.holds v l -> flat.root_fits v = true ->
  0 <= i <= _size v -> _size v < W ->
  _size v + 1 < 2 ^ (counter_width v - 1) -> 2 <= degree v ->
  exists v',
    insert v i b = Ok v'
    /\ oracle.holds v' (oracle.list_insert l i b)
    /\ flat.root_fits v' = true
    /\ counter_width v' = counter_width v /\ degree v' = degree v.
Proof.
  intros (Hflat & Hsize & Hcum & Hacc) Hfits Hi Hfull Hroom Hd2.
  destruct (flat_facts v Hflat) as (Hp & Hh & Hn & Hp0 & _).
  pose proof (root_flat v Hflat) as Hroot.
  set (n := _size v) in *. set (d := degree v) in *.
  set (cm := tree.cum v 0 n) in *.
  assert (Hk0 : forall k, 0 <= k <= d ->
                  (forall j, 0 <= j < k -> cm j < i) -> k = 0).
  { intros k Hk Hlt. destruct (Z.eq_dec k 0) as [|Hne]; [assumption|].
    specialize (Hlt 0 ltac:(lia)). rewrite (Hcum 0) in Hlt by lia. lia. }
  assert (Hnk : nkeys v (root v) <> Ok d).
  { rewrite Hroot. destruct (Z.eq_dec n 0) as [E0|E0].
    - assert (Hc1 : 1 < counter_width v).
      { rewrite E0 in Hroom.
        destruct (Z.le_gt_cases (counter_width v) 1) as [Hle|]; [|assumption].
        destruct (params_facts v Hp) as (Hc & _).
        assert (E : counter_width v = 1) by lia. rewrite E in Hroom.
        simpl in Hroom. lia. }
      assert (Hn0 := Hn). fold n in Hn0. rewrite E0 in Hn0.
      destruct (nkeys_empty v 0 1 (_rank v) Hp Hn0 ltac:(lia) Hc1)
        as (_ & Hnk).
      rewrite E0, Hnk. intros E. inversion E. lia.
    - destruct (nkeys_pos v Hp 0 1 n (_rank v) Hn ltac:(lia) ltac:(lia))
        as (K & HK & HKlt & _ & Hnk).
      fold d cm in HK, HKlt, Hnk.
      assert (K = 0).
      { destruct (Z.eq_dec K 0) as [|Hne]; [assumption|].
        specialize (HKlt 0 ltac:(lia)). rewrite (Hcum 0) in HKlt by lia.
        lia. }
      subst K. rewrite Hnk. intros E. inversion E. lia. }
  assert (Hleaf : forall k ni c,
            find_insert_point v (root v) i = Ok (k, ni) ->
            child v (root v) k = Ok c -> t_size c <> W).
  { intros k ni c Hfip Hchild. rewrite Hroot in Hfip, Hchild.
    destruct (find_insert_point_le v Hp 0 1 n (_rank v) Hn ltac:(lia) i Hi)
      as (k' & Hk' & Hlt & _ & _ & Hfip').
    fold d cm in Hk', Hlt, Hfip'.
    rewrite Hfip' in Hfip. inversion Hfip; subst k ni; clear Hfip.
    pose proof (Hk0 k' Hk' Hlt) as E. subst k'.
    destruct (child_ok v Hp 0 1 n (_rank v) Hn ltac:(lia) 0
                ltac:(fold d; lia) Hp0) as (x & Hc).
    rewrite Hc in Hchild. inversion Hchild; subst c; clear Hchild.
    cbn [t_size]. fold cm. rewrite (Hcum 0) by lia.
    replace (cm (-1)) with 0 by reflexivity. lia. }
  destruct (insert_child_index v i Hflat Hi Hroom Hnk Hleaf)
    as (k & m & Hk & Hlt & Hin & Hpk & Hwk & Hm & Hmd & Hfip & Hchild).
  fold n d cm in Hk, Hlt, Hin, Hwk, Hm, Hmd, Hfip, Hchild.
  pose proof (Hk0 k ltac:(lia) Hlt) as E. subst k.
  exists (flat.leaf_insert v 0 i b).
  split.
  { apply (insert_flat_run v i b Hflat Hfits 0); try assumption.
    exists m. split; assumption. }
  pose proof (after_flat v i b Hflat Hi Hroom 0 ltac:(assumption) Hlt Hin
                Hpk Hwk) as Hflat'.
  pose proof (after_access v i b Hflat Hi Hroom 0 ltac:(assumption) Hlt Hin
                Hpk Hwk) as (Ha1 & Ha2 & Ha3).
  split; [|split; [exact Hfits|split; reflexivity]].
  split; [exact Hflat'|].
  change (_size (flat.leaf_insert v 0 i b)) with (n + 1).
  change (degree (flat.leaf_insert v 0 i b)) with d.
  split; [rewrite list_insert_length by lia; lia|].
  split.
  - intros j Hj.
    pose proof (after_cum v i b Hflat Hroom 0 ltac:(assumption) Hin Hwk j
                  ltac:(fold d; lia)) as Hc.
    fold n cm in Hc. rewrite Hc. rewrite (Hcum j) by lia.
    destruct (Z.leb_spec 0 j); lia.
  - intros j Hj. rewrite list_insert_nth by lia.
    destruct (Z.ltb_spec j i).
    + rewrite Ha2 by lia. apply Hacc. lia.
    + destruct (Z.eqb_spec j i) as [->|Hne]; [exact Ha1|].
      fold n in Ha3. rewrite Ha3 by lia. apply Hacc. lia.
Qed.

Lemma first_leaf_run (ops : list (Z * bool)) :
  forall (v : t) (l : list bool),
    oracle.holds v l -> flat.root_fits v = true ->
    oracle.valid ops (_size v) = true ->
    _size v + Z.of_nat (length ops) <= W ->
    _size v + Z.of_nat (length ops) < 2 ^ (counter_width v - 1) ->
    2 <= degree v ->
    exists v',
      insert_all v ops = Ok v'
      /\ oracle.holds v' (oracle.replay l ops)
      /\ _size v' = _size v + Z.of_nat (length ops).
Proof.
  induction ops as [|[i b] ops IH]; intros v l Hv Hfits Hvalid Hw Hroom Hd.
  - exists v. cbn [insert_all oracle.replay length]. split; [reflexivity|].
    split; [exact Hv|lia].
  - cbn [oracle.valid] in Hvalid.
    apply andb_prop in Hvalid. destruct Hvalid as [Hi Hvalid].
    apply andb_prop in Hi. destruct Hi as [Hi0 Hi1].
    apply Z.leb_le in Hi0. apply Z.leb_le in Hi1.
    cbn [length] in Hw, Hroom. rewrite Nat2Z.inj_succ in Hw, Hroom.
    destruct (first_leaf_step v l i b Hv Hfits ltac:(lia) ltac:(lia)
                ltac:(lia) Hd)
      as (v1 & Hins & Hv1 & Hfits1 & Hc1 & Hd1).
    assert (Hs1 : _size v1 = _size v + 1).
    { destruct Hv as (_ & Hs & _). destruct Hv1 as (_ & Hs1 & _).
      rewrite Hs1, Hs. apply list_insert_length. lia. }
    destruct (IH v1 (oracle.list_insert l i b) Hv1 Hfits1)
      as (v' & Hrun & Hv' & Hs'); rewrite ?Hs1, ?Hc1, ?Hd1; try lia;
      try assumption.
    exists v'. cbn [insert_all oracle.replay]. rewrite Hins. cbn [bind].
    split; [exact Hrun|]. split; [exact Hv'|].
    cbn [length]. rewrite Nat2Z.inj_succ. lia.
Qed.

End first_leaf.

Section flat_is_wf.

Import bitvector.

Lemma flat_wf (v : t) : flat.flat_ok v = true -> tree.wf v = true.
Proof.
  intros Hflat.
  destruct (flat_facts v Hflat) as (Hp & Hh & Hn & _ & _ & Hlen & _).
  destruct (node_facts v 0 (_size v) Hn) as (_ & _ & _ & _ & Hptr).
  destruct (params_facts v Hp) as (_ & _ & Hd0 & _ & _ & _ & Hwp & _).
  unfold tree.wf. rewrite Hp, Hh. cbn [andb].
  change (Z.to_nat 1) with 1%nat. cbn [tree.wf_subtree].
  rewrite Hn. cbn [andb]. apply forallb_range. intros k Hk.
  destruct (Z.ltb_spec (tree.cum v 0 (_size v) (k - 1))
              (tree.cum v 0 (_size v) k)) as [Hlt|]; [|reflexivity].
  cbn [implb]. pose proof (Hptr k ltac:(lia) Hlt) as Hpk.
  apply andb_true_intro. split.
  - apply Z.leb_le. unfold tree.ptr, packed_array.get, packed_view.get.
    apply get_range. nia.
  - apply Nat.ltb_lt. apply Hlen; [lia|exact Hpk].
Qed.

End flat_is_wf.

(** X9.  For every capacity from 50 to [2^20] the constructor returns, and the
    vector it returns is empty and well formed: size and rank 0, height
    1, the counter width and the degree computed from the capacity, and
    every [access] fails with [OutOfRange]. *)
Theorem make_succeeds (capacity : Z) :
  50 <= capacity <= 2 ^ 20 ->
  exists v,
    bitvector.make capacity = Ok v
    /\ bitvector.capacity v = capacity
    /\ bitvector.size v = 0 /\ bitvector.rank v = 0
    /\ bitvector.empty v = true
    /\ bitvector._height v = 1
    /\ bitvector.counter_width v = Z.log2_up capacity + 1
    /\ bitvector.degree v = W / bitvector.counter_width v
    /\ tree.wf v = true
    /\ forall i, 0 <= i -> bitvector.access v i = Err OutOfRange.
Proof.
  intros Hcap.
  destruct (make_fresh capacity Hcap)
    as (c & d & lb & nb & nodes & pw & Hmake & Hc & Hd & Hc7 & Hd3 & Hpw
        & Hnodes).
  exists (flat.fresh capacity c pw d lb nb nodes).
  split; [exact Hmake|]. split; [reflexivity|]. split; [reflexivity|].
  split; [reflexivity|]. split; [reflexivity|]. split; [reflexivity|].
  split; [exact Hc|]. split; [exact Hd|]. split.
  - apply flat_wf. apply fresh_flat_ok; try assumption; unfold W; lia.
  - intros i Hi. unfold bitvector.access.
    apply access_at_out_of_range. cbn. exact Hi.
Qed.

(** X9 at capacity 1000. *)
Lemma make_succeeds_witness :
  exists v,
    bitvector.make 1000 = Ok v
    /\ bitvector.capacity v = 1000
    /\ bitvector.size v = 0 /\ bitvector.rank v = 0
    /\ bitvector.empty v = true
    /\ bitvector._height v = 1
    /\ bitvector.counter_width v = Z.log2_up 1000 + 1
    /\ bitvector.degree v = W / bitvector.counter_width v
    /\ tree.wf v = true
    /\ forall i, 0 <= i -> bitvector.access v i = Err OutOfRange.
Proof. apply (make_succeeds 1000). lia. Defined.

(** X16.  The first bits of a vector.  On a vector built for a capacity from 50
    to [2^20], any run of at most [W] = 64 calls of [insert], each at an
    index up to the size at that time, returns (the run must also stay
    below the flag bit of the counters, which only excludes a 64th bit
    for the capacities up to 64); the size is the number of calls,
    [access(j)] reads the bit that the same run of insertions puts at
    position [j] of a list, and fails with [OutOfRange] from the size
    on. *)
Theorem first_inserts (capacity : Z) (ops : list (Z * bool)) :
  50 <= capacity <= 2 ^ 20 ->
  oracle.valid ops 0 = true ->
  Z.of_nat (length ops) <= W ->
  Z.of_nat (length ops) < 2 ^ Z.log2_up capacity ->
  exists v0 v,
    bitvector.make capacity = Ok v0
    /\ bitvector.insert_all v0 ops = Ok v
    /\ bitvector.size v = Z.of_nat (length ops)
    /\ (forall j, 0 <= j < Z.of_nat (length ops) ->
          bitvector.access v j
          = Ok (nth (Z.to_nat j) (oracle.replay [] ops) false))
    /\ (forall j, Z.of_nat (length ops) <= j ->
          bitvector.access v j = Err OutOfRange).
Proof.
  intros Hcap Hvalid Hlen Hroom.
  destruct (make_fresh capacity Hcap)
    as (c & d & lb & nb & nodes & pw & Hmake & Hc & Hd & Hc7 & Hd3 & Hpw
        & Hnodes).
  set (v0 := flat.fresh capacity c pw d lb nb nodes) in *.
  assert (Hv0 : oracle.holds v0 []).
  { split; [apply fresh_flat_ok; try assumption; unfold W; lia|].
    split; [reflexivity|]. split.
    - intros j Hj. apply fresh_cum.
    - intros j Hj. change (bitvector._size v0) with 0 in Hj. lia. }
  destruct (first_leaf_run ops v0 [] Hv0) as (v & Hrun & Hv & Hs).
  - apply fresh_fits; unfold W in *; lia.
  - exact Hvalid.
  - change (bitvector._size v0) with 0. lia.
  - change (bitvector._size v0) with 0.
    change (bitvector.counter_width v0) with c.
    rewrite Hc. replace (Z.log2_up capacity + 1 - 1)
      with (Z.log2_up capacity) by lia. lia.
  - change (bitvector.degree v0) with d. lia.
  - change (bitvector._size v0) with 0 in Hs.
    exists v0, v. split; [exact Hmake|]. split; [exact Hrun|].
    destruct Hv as (_ & _ & _ & Hacc).
    split; [exact Hs|]. split.
    + intros j Hj. apply Hacc. lia.
    + intros j Hj. unfold bitvector.access.
      apply access_at_out_of_range. cbn [bitvector.root bitvector.t_size].
      lia.
Qed.

(** X16 at capacity 1000 and three insertions. *)
Lemma first_inserts_witness :
  exists v0 v,
    bitvector.make 1000 = Ok v0
    /\ bitvector.insert_all v0 [(0, true); (0, false); (1, true)] = Ok v
    /\ bitvector.size v = Z.of_nat (length [(0, true); (0, false); (1, true)])
    /\ (forall j, 0 <= j < Z.of_nat (length [(0, true); (0, false); (1, true)]) ->
          bitvector.access v j
          = Ok (nth (Z.to_nat j)
                    (oracle.replay [] [(0, true); (0, false); (1, true)])
                    false))
    /\ (forall j, Z.of_nat (length [(0, true); (0, false); (1, true)]) <= j ->
          bitvector.access v j = Err OutOfRange).
Proof.
  apply (first_inserts 1000 [(0, true); (0, false); (1, true)]).
  - lia.
  - vm_compute. reflexivity.
  - vm_compute. discriminate.
  - vm_compute. reflexivity.
Defined.

(** X10.  [nkeys()] on a node whose counters are cumulative.  It is 1 plus the
    index that [find_insert_point] gives to the last position,
    [size() - 1], capped at the degree: the leftmost child whose
    cumulative size reaches [size() - 1].  On an empty node
    [size() - 1] wraps around and [nkeys()] is 1. *)
Theorem nkeys_value (v : bitvector.t) (idx h size rk : Z) :
  tree.params_ok v = true -> tree.node_ok v idx size = true ->
  0 < h < 2 ^ 64 ->
  (size = 0 -> 1 < bitvector.counter_width v ->
   bitvector.nkeys v (bitvector.ref idx h size rk) = Ok 1)
  /\ (0 < size ->
      exists k,
        0 <= k <= bitvector.degree v
        /\ (forall j, 0 <= j < k -> tree.cum v idx size j < size - 1)
        /\ size - 1 <= tree.cum v idx size k
        /\ bitvector.nkeys v (bitvector.ref idx h size rk)
           = Ok (Z.min (k + 1) (bitvector.degree v))).
Proof.
  intros Hp Hn Hh. split.
  - intros E Hc. subst size.
    apply (nkeys_empty v idx h rk Hp Hn Hh Hc).
  - intros Hs. apply (nkeys_pos v Hp idx h size rk Hn Hh Hs).
Qed.

(** X10 at the root of [v65]. *)
Lemma nkeys_value_witness :
  exists k,
    0 <= k <= bitvector.degree samples.v65
    /\ (forall j, 0 <= j < k -> tree.cum samples.v65 0 65 j < 65 - 1)
    /\ 65 - 1 <= tree.cum samples.v65 0 65 k
    /\ bitvector.nkeys samples.v65 (bitvector.ref 0 1 65 32)
       = Ok (Z.min (k + 1) (bitvector.degree samples.v65)).
Proof.
  apply (nkeys_value samples.v65 0 1 65 32).
  - vm_compute. reflexivity.
  - vm_compute. reflexivity.
  - split; [lia|]. vm_compute. reflexivity.
  - lia.
Defined.

(** X11.  What [access] reads on a tree of height 1 in order: position [j] is
    held by the only child [s] whose cumulative counters enclose it, and
    [access(j)] is bit [j - sizes[s - 1]] of the leaf under pointer
    [s]. *)
Theorem access_reads_leaf (v : bitvector.t) (j : Z) :
  flat.flat_ok v = true -> 0 <= j < bitvector.size v ->
  exists s,
    0 <= s <= bitvector.degree v
    /\ tree.cum v 0 (bitvector.size v) (s - 1) <= j
       < tree.cum v 0 (bitvector.size v) s
    /\ (forall s', 0 <= s' <= bitvector.degree v ->
          tree.cum v 0 (bitvector.size v) (s' - 1) <= j
          < tree.cum v 0 (bitvector.size v) s' -> s' = s)
    /\ bitvector.access v j
       = Ok (bits.get_bit (flat.leaf_word v s)
                          (j - tree.cum v 0 (bitvector.size v) (s - 1))).
Proof.
  intros Hflat Hj.
  destruct (access_flat v Hflat j Hj) as (s & Hs & Hin & Hacc).
  exists s. split; [exact Hs|]. split; [exact Hin|]. split; [|exact Hacc].
  intros s' Hs' Hin'.
  apply (holder_unique v Hflat j s' s Hs' Hs Hin' Hin).
Qed.

(** X11 at [v65] and position 30. *)
Lemma access_reads_leaf_witness :
  exists s,
    0 <= s <= bitvector.degree samples.v65
    /\ tree.cum samples.v65 0 (bitvector.size samples.v65) (s - 1) <= 30
       < tree.cum samples.v65 0 (bitvector.size samples.v65) s
    /\ (forall s', 0 <= s' <= bitvector.degree samples.v65 ->
          tree.cum samples.v65 0 (bitvector.size samples.v65) (s' - 1) <= 30
          < tree.cum samples.v65 0 (bitvector.size samples.v65) s' -> s' = s)
    /\ bitvector.access samples.v65 30
       = Ok (bits.get_bit (flat.leaf_word samples.v65 s)
               (30 - tree.cum samples.v65 0 (bitvector.size samples.v65)
                              (s - 1))).
Proof.
  apply (access_reads_leaf samples.v65 30).
  - vm_compute. reflexivity.
  - vm_compute. split; [discriminate|reflexivity].
Defined.

(** * A tree that cannot grow *)

Section local_facts.

Import bitvector.

Lemma local_refl v : single.local v v.
Proof. split; [apply same_refl|]. split; reflexivity. Qed.

Lemma local_trans v1 v2 v3 :
  single.local v1 v2 -> single.local v2 v3 -> single.local v1 v3.
Proof.
  intros (Hs1 & Hf1 & Hp1) (Hs2 & Hf2 & Hp2).
  split; [exact (same_trans _ _ _ Hs1 Hs2)|]. split; [congruence|].
  intros j Hj. rewrite Hp2, Hp1; [reflexivity|exact Hj|].
  destruct Hs1 as (_ & _ & _ & _ & Hd & _). unfold degree in *. lia.
Qed.

(** A step that leaves the pointers and the node slots alone. *)
Lemma local_intro v v' :
  frame.same v v' -> _free_node v' = _free_node v ->
  _pointers v' = _pointers v -> single.local v v'.
Proof.
  intros Hs Hf Hp. split; [exact Hs|]. split; [exact Hf|].
  intros j _. rewrite Hp. reflexivity.
Qed.

Lemma local_set_sizes v r b e x v' :
  set_sizes v r b e x = Ok v' -> single.local v v'.
Proof.
  intros H. apply local_intro; [exact (keeps_set_sizes v r b e x _ H)| |];
    unfold set_sizes in H; inv_ok; reflexivity.
Qed.

Lemma local_add_sizes v r b e x v' :
  add_sizes v r b e x = Ok v' -> single.local v v'.
Proof.
  intros H. apply local_intro; [exact (keeps_add_sizes v r b e x _ H)| |];
    unfold add_sizes in H; inv_ok; reflexivity.
Qed.

Lemma local_shl_sizes v r b e x v' :
  shl_sizes v r b e x = Ok v' -> single.local v v'.
Proof.
  intros H. apply local_intro; [exact (keeps_shl_sizes v r b e x _ H)| |];
    unfold shl_sizes in H; inv_ok; reflexivity.
Qed.

Lemma local_set_ranks v r b e x v' :
  set_ranks v r b e x = Ok v' -> single.local v v'.
Proof.
  intros H. apply local_intro; [exact (keeps_set_ranks v r b e x _ H)| |];
    unfold set_ranks in H; inv_ok; reflexivity.
Qed.

Lemma local_add_ranks v r b e x v' :
  add_ranks v r b e x = Ok v' -> single.local v v'.
Proof.
  intros H. apply local_intro; [exact (keeps_add_ranks v r b e x _ H)| |];
    unfold add_ranks in H; inv_ok; reflexivity.
Qed.

Lemma local_shl_ranks v r b e x v' :
  shl_ranks v r b e x = Ok v' -> single.local v v'.
Proof.
  intros H. apply local_intro; [exact (keeps_shl_ranks v r b e x _ H)| |];
    unfold shl_ranks in H; inv_ok; reflexivity.
Qed.

Lemma local_set_leaf v r x v' :
  set_leaf v r x = Ok v' -> single.local v v'.
Proof.
  intros H. apply local_intro; [exact (keeps_set_leaf v r x _ H)| |];
    unfold set_leaf in H; inv_ok;
    destruct (Nat.ltb _ _); inv_ok; reflexivity.
Qed.

Lemma local_clear_keys v r b e v' :
  clear_keys v r b e = Ok v' -> single.local v v'.
Proof.
  unfold clear_keys. intros H. apply bind_ok in H.
  destruct H as (v1 & H1 & H2).
  exact (local_trans _ _ _ (local_set_sizes _ _ _ _ _ _ H1)
                     (local_set_ranks _ _ _ _ _ _ H2)).
Qed.

(** A write of pointers of the root stays in the slot of the root. *)
Lemma local_set_pointers v r b e x v' :
  t_index r = 0 -> 0 <= b <= e ->
  0 < packed_view.width (_pointers v) ->
  set_pointers v r b e x = Ok v' -> single.local v v'.
Proof.
  intros Hr Hb Hw H. split; [exact (keeps_set_pointers v r b e x _ H)|].
  unfold set_pointers, pointers_range in H. inv_ok.
  split; [reflexivity|]. intros j Hj.
  cbn [_pointers with_pointers]. unfold packed_array.store.
  rewrite item_set by (rewrite ?Hr; lia).
  match goal with H : (e <=? _) = true |- _ => apply Z.leb_le in H end.
  rewrite Hr.
  destruct (Z.ltb_spec j (0 * (degree v + 1) + e)); [lia|].
  rewrite andb_false_r. reflexivity.
Qed.

Lemma local_shl_pointers v r b e n v' :
  t_index r = 0 -> 0 <= b <= e ->
  0 < packed_view.width (_pointers v) ->
  shl_pointers v r b e n = Ok v' -> single.local v v'.
Proof.
  intros Hr Hb Hw H. split; [exact (keeps_shl_pointers v r b e n _ H)|].
  unfold shl_pointers, pointers_range in H. inv_ok.
  split; [reflexivity|]. intros j Hj.
  cbn [_pointers with_pointers]. unfold packed_array.store_shl.
  rewrite item_set by (rewrite ?Hr; lia).
  match goal with H : (e <=? _) = true |- _ => apply Z.leb_le in H end.
  rewrite Hr.
  destruct (Z.ltb_spec j (0 * (degree v + 1) + e)); [lia|].
  rewrite andb_false_r. reflexivity.
Qed.

Lemma local_width v v' :
  single.local v v' ->
  packed_view.width (_pointers v') = packed_view.width (_pointers v).
Proof. intros ((_ & _ & _ & _ & _ & _ & _ & _ & _ & H & _) & _). exact H. Qed.

Lemma local_degree v v' : single.local v v' -> degree v' = degree v.
Proof. intros ((_ & _ & _ & _ & H & _) & _). exact H. Qed.

Lemma local_alloc_leaf v : single.local v (snd (alloc_leaf v)).
Proof.
  apply local_intro; [apply keeps_alloc_leaf|reflexivity|reflexivity].
Qed.

(** [insert_child] on the root of a tree of height 1 takes a leaf, not a
    node slot, and writes pointers of the root only. *)
Lemma local_insert_child v r k v' :
  t_index r = 0 -> t_height r = 1 -> 0 <= k ->
  0 < packed_view.width (_pointers v) ->
  insert_child v r k = Ok v' -> single.local v v'.
Proof.
  intros Hr Hh Hk Hw H. unfold insert_child in H.
  apply bind_ok in H. destruct H as (u1 & _ & H).
  apply bind_ok in H. destruct H as (u2 & Hkd & H).
  apply assert_ok, Z.leb_le in Hkd.
  apply bind_ok in H. destruct H as (v1 & H1 & H).
  rewrite Hh in H. change (1 =? 1) with true in H. cbn [bind] in H.
  unfold alloc_leaf in H.
  assert (L1 : single.local v v1).
  { destruct (Z.ltb_spec k (degree v)) as [Hlt|Hge].
    - apply bind_ok in H1. destruct H1 as (s & _ & H1).
      apply bind_ok in H1. destruct H1 as (rk & _ & H1).
      apply bind_ok in H1. destruct H1 as (a1 & Ha1 & H1).
      apply bind_ok in H1. destruct H1 as (a2 & Ha2 & H1).
      apply bind_ok in H1. destruct H1 as (a3 & Ha3 & H1).
      apply bind_ok in H1. destruct H1 as (a4 & Ha4 & H1).
      apply local_shl_sizes in Ha1. apply local_shl_ranks in Ha2.
      pose proof (local_trans _ _ _ Ha1 Ha2) as L2.
      apply local_shl_pointers in Ha3;
        [|exact Hr|rewrite (local_degree _ _ L2); lia
         |rewrite (local_width _ _ L2); exact Hw].
      apply local_set_sizes in Ha4. apply local_set_ranks in H1.
      exact (local_trans _ _ _ L2
               (local_trans _ _ _ Ha3 (local_trans _ _ _ Ha4 H1))).
    - inversion H1; subst. apply local_refl. }
  apply (local_trans _ _ _ L1).
  apply (local_trans _ _ _ (local_alloc_leaf v1)).
  unfold alloc_leaf. cbn [snd].
  eapply local_set_pointers; [exact Hr| | |exact H]; [lia|].
  cbn [with_leaves _pointers].
  rewrite (local_width _ _ L1). exact Hw.
Qed.

End local_facts.

Section local_leaves.

Import bitvector.

Lemma local_spread_bits (n : nat) :
  forall v r view bpl i p popcnt rem count v' c,
    t_index r = 0 -> t_height r = 1 -> 0 <= i ->
    0 < packed_view.width (_pointers v) ->
    spread_bits n v r view bpl i p popcnt rem count = Ok (v', c) ->
    single.local v v'.
Proof.
  induction n as [|n IH];
    intros v r view bpl i p popcnt rem count v' c Hr Hh Hi Hw H;
    cbn [spread_bits] in H.
  - inversion H; subst. apply local_refl.
  - destruct (negb (rem =? 0)); cbn beta iota in H;
      (apply bind_ok in H; destruct H as (ptr & _ & H);
       apply bind_ok in H; destruct H as (v1 & H1 & H);
       apply bind_ok in H; destruct H as (ch & _ & H);
       apply bind_ok in H; destruct H as (v2 & H2 & H);
       apply bind_ok in H; destruct H as ([[v3 p3] pc3] & H3 & H);
       assert (L1 : single.local v v1)
         by (destruct (ptr =? 0);
             [exact (local_insert_child _ _ _ _ Hr Hh Hi Hw H1)
             |inversion H1; subst; apply local_refl]);
       apply local_set_leaf in H2;
       assert (L3 : single.local v2 v3)
         by (destruct (i <? degree v2);
             [apply bind_ok in H3; destruct H3 as (a1 & Ha1 & H3);
              apply bind_ok in H3; destruct H3 as (a2 & Ha2 & H3);
              inversion H3; subst;
              exact (local_trans _ _ _ (local_add_sizes _ _ _ _ _ _ Ha1)
                                 (local_add_ranks _ _ _ _ _ _ Ha2))
             |inversion H3; subst; apply local_refl]);
       pose proof (local_trans _ _ _ L1 (local_trans _ _ _ H2 L3)) as L;
       apply (local_trans _ _ _ L);
       refine (IH _ _ _ _ _ _ _ _ _ _ _ Hr Hh _ _ H);
       [lia|rewrite (local_width _ _ L); exact Hw]).
Qed.

Lemma local_redistribute_bits v r begin end_ count v' :
  t_index r = 0 -> t_height r = 1 -> 0 <= begin ->
  0 < packed_view.width (_pointers v) ->
  redistribute_bits v r begin end_ count = Ok v' -> single.local v v'.
Proof.
  intros Hr Hh Hb Hw H. unfold redistribute_bits in H.
  apply bind_ok in H. destruct H as (u & _ & H).
  apply bind_ok in H. destruct H as (view0 & _ & H).
  apply bind_ok in H. destruct H as (view & _ & H).
  apply bind_ok in H. destruct H as (v1 & H1 & H).
  apply bind_ok in H. destruct H as (v2 & H2 & H).
  apply bind_ok in H. destruct H as ([v3 c3] & H3 & H).
  apply bind_ok in H. destruct H as (u' & _ & H).
  inversion H; subst.
  assert (L1 : single.local v v1).
  { destruct (0 <? begin); [|inversion H1; subst; apply local_refl].
    apply bind_ok in H1. destruct H1 as (ptr & _ & H1).
    destruct (negb (ptr =? 0)); [|inversion H1; subst; apply local_refl].
    apply bind_ok in H1. destruct H1 as (c1 & _ & H1).
    apply bind_ok in H1. destruct H1 as (a1 & Ha1 & H1).
    apply bind_ok in H1. destruct H1 as (c2 & _ & H1).
    exact (local_trans _ _ _ (local_set_sizes _ _ _ _ _ _ Ha1)
                       (local_set_ranks _ _ _ _ _ _ H1)). }
  apply local_clear_keys in H2.
  pose proof (local_trans _ _ _ L1 H2) as L.
  apply (local_trans _ _ _ L).
  refine (local_spread_bits _ _ _ _ _ _ _ _ _ _ _ _ Hr Hh Hb _ H3).
  rewrite (local_width _ _ L). exact Hw.
Qed.

(** The windows that [find_adjacent_children] looks at lie inside the
    node. *)
Lemma slide_window_range (fuel : nat) :
  forall v r leaves mc k b e fs mfs w b' e' mfs' w',
    0 <= b <= e -> e <= degree v + 1 ->
    0 <= fst w <= snd w -> snd w <= degree v + 1 ->
    slide_window fuel v r leaves mc k b e fs mfs w = Ok (b', e', mfs', w') ->
    0 <= fst w' <= snd w' /\ snd w' <= degree v + 1.
Proof.
  induction fuel as [|fuel IH];
    intros v r leaves mc k b e fs mfs w b' e' mfs' w' Hb He Hw1 Hw2 H;
    cbn [slide_window] in H.
  - destruct ((b <? k) && (e <? degree v + 1)); [discriminate|].
    inversion H; subst. split; assumption.
  - destruct ((b <? k) && (e <? degree v + 1)) eqn:E;
      [|inversion H; subst; split; assumption].
    apply andb_prop in E. destruct E as [_ E]. apply Z.ltb_lt in E.
    apply bind_ok in H. destruct H as (c0 & _ & H).
    apply bind_ok in H. destruct H as (c1 & _ & H).
    cbv zeta in H.
    destruct (mfs <? (fs - c0 + c1) mod 2 ^ 64).
    + refine (IH _ _ _ _ _ _ _ _ _ _ _ _ _ _ _ _ _ _ H);
        cbn [fst snd]; lia.
    + refine (IH _ _ _ _ _ _ _ _ _ _ _ _ _ _ _ _ Hw1 Hw2 H); lia.
Qed.

Lemma find_adjacent_children_range v r k b e count :
  0 <= degree v -> 0 <= _leaves_buffer v -> 0 <= _nodes_buffer v ->
  0 <= k ->
  find_adjacent_children v r k = Ok (b, e, count) ->
  0 <= b <= e /\ e <= degree v + 1.
Proof.
  intros Hd Hlb Hnb Hk H. unfold find_adjacent_children in H.
  apply bind_ok in H. destruct H as (c & Hc & H). cbv zeta in H.
  assert (Hkd : k <= degree v).
  { unfold child in Hc. apply bind_ok in Hc. destruct Hc as (u & Hu & _).
    apply assert_ok, Z.leb_le in Hu. exact Hu. }
  set (buffer := if is_leaf c then _leaves_buffer v else _nodes_buffer v)
    in *.
  assert (Hbuf : 0 <= buffer) by (unfold buffer; destruct (is_leaf c); lia).
  set (b0 := if buffer <? k then k - buffer - 1 else 0) in *.
  assert (Hb0 : 0 <= b0 <= degree v).
  { unfold b0. destruct (Z.ltb_spec buffer k); lia. }
  apply bind_ok in H. destruct H as (fs & _ & H).
  apply bind_ok in H. destruct H as ([[[b1 e1] mfs] w] & Hs & H).
  apply bind_ok in H. destruct H as (u & _ & H).
  inversion H; subst.
  refine (slide_window_range _ _ _ _ _ _ _ _ _ _ _ _ _ _ _ _ _ _ _ Hs);
    cbn [fst snd]; lia.
Qed.

Lemma local_make_room_in_leaves v r k v' :
  t_index r = 0 -> t_height r = 1 -> 0 <= k ->
  0 <= degree v -> 0 <= _leaves_buffer v -> 0 <= _nodes_buffer v ->
  0 < packed_view.width (_pointers v) ->
  make_room_in_leaves v r k = Ok v' -> single.local v v'.
Proof.
  intros Hr Hh Hk Hd Hlb Hnb Hw H. unfold make_room_in_leaves in H.
  apply bind_ok in H. destruct H as ([[b e] count] & Hf & H).
  apply (find_adjacent_children_range _ _ _ _ _ _ Hd Hlb Hnb Hk) in Hf.
  apply bind_ok in H. destruct H as ([v1 e1] & H1 & H).
  assert (L1 : single.local v v1).
  { destruct (_leaves_buffer v * (W - _leaves_buffer v) <=? count);
      [|inversion H1; subst; apply local_refl].
    apply bind_ok in H1. destruct H1 as (n & _ & H1).
    apply bind_ok in H1. destruct H1 as (u & _ & H1).
    apply bind_ok in H1. destruct H1 as (a1 & Ha1 & H1).
    inversion H1; subst.
    refine (local_insert_child _ _ _ _ Hr Hh _ Hw Ha1). lia. }
  apply (local_trans _ _ _ L1).
  refine (local_redistribute_bits _ _ _ _ _ _ Hr Hh _ _ H); [lia|].
  rewrite (local_width _ _ L1). exact Hw.
Qed.

End local_leaves.

Section full_root.

Import bitvector.

Lemma pointers_at_ptr u r k p :
  pointers_at u r k = Ok p -> p = tree.ptr u (t_index r) k.
Proof.
  unfold pointers_at, pointers_range, tree.ptr. intros H. inv_ok.
  rewrite Z.add_assoc. reflexivity.
Qed.

Lemma child_ptr u r k c :
  child u r k = Ok c ->
  k <= degree u /\ t_index c = tree.ptr u (t_index r) k
  /\ tree.ptr u (t_index r) k <> 0
  /\ t_height c = szsub (t_height r) 1.
Proof.
  unfold child. intros H.
  apply bind_ok in H. destruct H as (u1 & Hk & H).
  apply assert_ok, Z.leb_le in Hk.
  apply bind_ok in H. destruct H as (p & Hp & H).
  apply pointers_at_ptr in Hp. subst p.
  apply bind_ok in H. destruct H as (u2 & Hn & H).
  apply assert_ok, negb_true_iff, Z.eqb_neq in Hn.
  apply bind_ok in H. destruct H as (s & _ & H).
  apply bind_ok in H. destruct H as (rk & _ & H).
  inversion H; subst. cbn [t_index t_height]. repeat split; assumption.
Qed.

(** The root split writes the slot of the root and the slot it takes for
    the copy, no other. *)
Lemma split_root_far (v v1 : t) :
  0 < _free_node v -> 0 <= degree v ->
  0 <= packed_view.width (_pointers v) ->
  split_root v (root v) = Ok v1 ->
  forall j, (_free_node v + 1) * (degree v + 1) <= j ->
    packed_view.value (_pointers v1) j = packed_view.value (_pointers v) j.
Proof.
  intros Hn Hd Hwp H j Hj.
  unfold split_root in H.
  apply bind_ok in H. destruct H as (ir & _ & H).
  apply bind_ok in H. destruct H as (u & _ & H).
  apply bind_ok in H. destruct H as ([r' va] & Hcopy & H).
  apply bind_ok in H. destruct H as (vb & Hs & H).
  pose proof (set_sizes_is_node _ _ _ _ _ _ Hs) as Hnode.
  apply (copy_node_eq v (root v) r' va Hnode) in Hcopy.
  cbn zeta in Hcopy. destruct Hcopy as [-> ->].
  apply set_sizes_eq in Hs. subst vb.
  apply bind_ok in H. destruct H as (vc & Hr & H).
  apply set_ranks_eq in Hr. subst vc.
  apply bind_ok in H. destruct H as (vd & Hp & H).
  apply set_pointers_eq in Hp. subst vd.
  apply bind_ok in H. destruct H as (ve & Hp & H).
  apply set_pointers_eq in Hp. subst ve.
  apply bind_ok in H. destruct H as (? & _ & H).
  apply bind_ok in H. destruct H as (? & _ & H).
  apply bind_ok in H. destruct H as (? & _ & H).
  apply bind_ok in H. destruct H as (? & _ & H).
  apply bind_ok in H. destruct H as (? & _ & H).
  inversion H; subst v1; clear H.
  cbn [root t_index t_size t_rank t_height degree _degree _height _sizes
       _ranks _pointers _free_node with_sizes with_ranks with_pointers
       with_free_node with_height].
  fold (degree v).
  set (n := _free_node v) in *. set (d := degree v) in *.
  unfold packed_view.value.
  change packed_view.get with packed_array.get.
  rewrite !pa_get_set_other by pa_side. reflexivity.
Qed.

(** What the root split has checked when it returns: the copy of the old
    root is child 0 of the new root and is still full. *)
Lemma split_root_child (v v1 : t) r :
  split_root v r = Ok v1 ->
  exists c, child v1 (root v1) 0 = Ok c /\ nkeys v1 c = Ok (degree v1).
Proof.
  unfold split_root. intros H.
  apply bind_ok in H. destruct H as (ir & _ & H).
  apply bind_ok in H. destruct H as (u & _ & H).
  apply bind_ok in H. destruct H as ([r' va] & _ & H).
  apply bind_ok in H. destruct H as (vb & _ & H).
  apply bind_ok in H. destruct H as (vc & _ & H).
  apply bind_ok in H. destruct H as (vd & _ & H).
  apply bind_ok in H. destruct H as (ve & _ & H).
  cbv zeta in H.
  apply bind_ok in H. destruct H as (n1 & _ & H).
  apply bind_ok in H. destruct H as (u1 & _ & H).
  apply bind_ok in H. destruct H as (c & Hc & H).
  apply bind_ok in H. destruct H as (n2 & Hn2 & H).
  apply bind_ok in H. destruct H as (u2 & Hu2 & H).
  apply assert_ok, Z.eqb_eq in Hu2.
  inversion H; subst v1. exists c. split; [exact Hc|].
  rewrite Hn2, Hu2. reflexivity.
Qed.

(** [insert_child] on a root above height 1 takes the next node slot and
    writes its index into pointer [k]; it writes pointers of the root
    only. *)
Lemma insert_child_node v r k v' :
  t_index r = 0 -> t_height r <> 1 -> 0 <= k ->
  0 < packed_view.width (_pointers v) ->
  insert_child v r k = Ok v' ->
  degree v' = degree v
  /\ tree.ptr v' 0 k
     = bits.lowbits (_free_node v) (packed_view.width (_pointers v))
  /\ forall j, degree v + 1 <= j ->
       packed_view.value (_pointers v') j = packed_view.value (_pointers v) j.
Proof.
  intros Hr Hh Hk Hw H. unfold insert_child in H.
  apply bind_ok in H. destruct H as (u1 & _ & H).
  apply bind_ok in H. destruct H as (u2 & Hkd & H).
  apply assert_ok, Z.leb_le in Hkd.
  apply bind_ok in H. destruct H as (v1 & H1 & H).
  destruct (Z.eqb_spec (t_height r) 1) as [E|_]; [contradiction|].
  apply bind_ok in H. destruct H as ([n v2] & H2 & H).
  assert (L1 : single.local v v1).
  { destruct (Z.ltb_spec k (degree v)) as [Hlt|Hge].
    - apply bind_ok in H1. destruct H1 as (s & _ & H1).
      apply bind_ok in H1. destruct H1 as (rk & _ & H1).
      apply bind_ok in H1. destruct H1 as (a1 & Ha1 & H1).
      apply bind_ok in H1. destruct H1 as (a2 & Ha2 & H1).
      apply bind_ok in H1. destruct H1 as (a3 & Ha3 & H1).
      apply bind_ok in H1. destruct H1 as (a4 & Ha4 & H1).
      apply local_shl_sizes in Ha1. apply local_shl_ranks in Ha2.
      pose proof (local_trans _ _ _ Ha1 Ha2) as L2.
      apply local_shl_pointers in Ha3;
        [|exact Hr|rewrite (local_degree _ _ L2); lia
         |rewrite (local_width _ _ L2); exact Hw].
      apply local_set_sizes in Ha4. apply local_set_ranks in H1.
      exact (local_trans _ _ _ L2
               (local_trans _ _ _ Ha3 (local_trans _ _ _ Ha4 H1))).
    - inversion H1; subst. apply local_refl. }
  unfold alloc_node in H2.
  apply bind_ok in H2. destruct H2 as (u3 & _ & H2).
  inversion H2; subst n v2. clear H2.
  apply set_pointers_eq in H. subst v'.
  destruct L1 as (Hs1 & Hf1 & Hp1).
  pose proof Hs1 as (_ & _ & _ & _ & Hd1 & _ & _ & _ & _ & Hw1 & _).
  fold (degree v1) in Hd1. fold (degree v) in Hd1.
  unfold tree.ptr.
  cbn [degree _degree with_pointers with_free_node _pointers _free_node].
  fold (degree v1). rewrite Hd1, Hr, Hf1.
  split; [reflexivity|]. split.
  - replace (0 * (degree v + 1) + (k + 1))
      with (0 * (degree v + 1) + k + 1) by lia.
    rewrite pa_get_set_same by lia.
    rewrite Hw1. f_equal. lia.
  - intros j Hj. rewrite <- (Hp1 j Hj).
    unfold packed_view.value. change packed_view.get with packed_array.get.
    rewrite pa_get_set_other by lia. reflexivity.
Qed.

Lemma gather_node_first (m : nat) u r i c acc out :
  gather_node (S m) u r i c acc = Ok out ->
  exists ci g, child u r i = Ok ci /\ child u ci c = Ok g.
Proof.
  cbn [gather_node]. intros H.
  apply bind_ok in H. destruct H as (ci & Hci & H).
  apply bind_ok in H. destruct H as (g & Hg & _).
  exists ci, g. split; assumption.
Qed.

Lemma gather_keys_each (n : nat) :
  forall u r i acc out j,
    gather_keys n u r i acc = Ok out ->
    i <= j < i + Z.of_nat n ->
    exists acc' out',
      gather_node (Z.to_nat (degree u + 1)) u r j 0 acc' = Ok out'.
Proof.
  induction n as [|n IH]; intros u r i acc out j H Hj; [lia|].
  cbn [gather_keys] in H.
  apply bind_ok in H. destruct H as (acc1 & H1 & H).
  destruct (Z.eq_dec j i) as [->|Hne].
  - exists acc, acc1. exact H1.
  - apply (IH _ _ _ _ _ j H). lia.
Qed.

End full_root.

Section never_grows.

Import bitvector.

(** After a root split the node branch of [insert] has to make room in
    the copy of the old root, which is full.  [insert_child] gives the
    root a second child in a node slot that holds no pointer, and
    [redistribute_keys] reads every pointer of every node of its window;
    the read of the empty node fails [assert(pointers(k) != 0)] in
    [child]. *)
Lemma make_room_in_nodes_fails v1 v2 :
  _height v1 <> 1 -> _free_node v1 = 2 ->
  0 < packed_view.width (_pointers v1) ->
  0 <= degree v1 <= W -> 0 <= _leaves_buffer v1 -> 0 <= _nodes_buffer v1 ->
  (forall j, 2 * (degree v1 + 1) <= j ->
     packed_view.value (_pointers v1) j = 0) ->
  make_room_in_nodes v1 (root v1) 0 <> Ok v2.
Proof.
  intros Hh Hfn Hw Hd Hlb Hnb Hfar H. unfold make_room_in_nodes in H.
  apply bind_ok in H. destruct H as ([[b e] count] & Hf & H).
  apply (find_adjacent_children_range v1 (root v1) 0 b e count
           (proj1 Hd) Hlb Hnb (Z.le_refl 0)) in Hf.
  apply bind_ok in H. destruct H as (n & _ & H).
  apply bind_ok in H. destruct H as (u & _ & H).
  apply bind_ok in H. destruct H as (va & Hins & H).
  assert (He : e <= degree v1).
  { unfold insert_child in Hins.
    apply bind_ok in Hins. destruct Hins as (u1 & _ & Hins).
    apply bind_ok in Hins. destruct Hins as (u2 & Hu2 & _).
    apply assert_ok, Z.leb_le in Hu2. exact Hu2. }
  apply (insert_child_node v1 (root v1) e va eq_refl Hh ltac:(lia) Hw)
    in Hins.
  destruct Hins as (Hda & Hpe & Hfa).
  unfold redistribute_keys in H. cbv zeta in H.
  apply bind_ok in H. destruct H as (u3 & _ & H).
  apply bind_ok in H. destruct H as (ptrs & Hg & _).
  assert (Hsz : szsub (e + 1) b = e + 1 - b).
  { unfold szsub. apply Z.mod_small. unfold W in Hd. lia. }
  rewrite Hsz in Hg.
  assert (Hin : b <= e < b + Z.of_nat (Z.to_nat (e + 1 - b))) by lia.
  destruct (gather_keys_each _ _ _ _ _ _ e Hg Hin) as (acc' & out' & Hnode).
  replace (Z.to_nat (degree va + 1)) with (S (Z.to_nat (degree va)))
    in Hnode by lia.
  apply gather_node_first in Hnode.
  destruct Hnode as (ci & g & Hci & Hgc).
  apply child_ptr in Hci. destruct Hci as (_ & Hi & Hnz & _).
  cbn [root t_index] in Hi, Hnz. rewrite Hpe, Hfn in Hi, Hnz.
  apply child_ptr in Hgc. destruct Hgc as (_ & _ & Hz & _).
  apply Hz. unfold tree.ptr.
  assert (E2 : t_index ci = 2).
  { rewrite Hi in *. rewrite lowbits_mod in * by lia.
    set (w := packed_view.width (_pointers v1)) in *.
    destruct (Z.eq_dec w 1) as [E|E].
    - rewrite E in Hnz. exfalso. apply Hnz. reflexivity.
    - apply Z.mod_small. split; [lia|].
      change 2 with (2 ^ 1) at 1. apply Z.pow_lt_mono_r; lia. }
  rewrite E2, Hda.
  pose proof (Hfa (2 * (degree v1 + 1) + 0) ltac:(lia)) as Hitem.
  unfold packed_view.value in Hitem. unfold packed_array.get.
  rewrite Hitem. apply (Hfar (2 * (degree v1 + 1) + 0)). lia.
Qed.

(** On a tree whose only node is a full root, [insert] never returns. *)
Lemma full_root_aborts_at (fuel : nat) v index bit v' :
  single.root_only v -> nkeys v (root v) = Ok (degree v) ->
  insert_at fuel v (root v) index bit <> Ok v'.
Proof.
  intros (Hh & Hfn & Hw & Hws & Hwr & Hd & Hlb & Hnb & Hclean) Hfull H.
  destruct fuel as [|fuel]; cbn [insert_at] in H; [discriminate|].
  rewrite Hfull in H. cbn [bind] in H. rewrite Z.eqb_refl in H.
  apply bind_ok in H. destruct H as (v1 & Hsplit & H).
  pose proof (split_root_params _ _ _ Hsplit)
    as (Hh1 & Hd1 & _ & _ & _ & Hlb1 & Hnb1 & Hn1).
  pose proof (split_root_grows _ _ _ Hsplit) as (_ & _ & _ & Hw1 & _).
  pose proof (split_root_effect v v1 ltac:(lia) ltac:(lia)
                Hws Hwr ltac:(lia) Hsplit) as Heff.
  cbv zeta in Heff. destruct Heff as (_ & Hfn1 & _ & _ & _ & _ & Hp1).
  pose proof (split_root_far v v1 ltac:(lia) ltac:(lia) ltac:(lia) Hsplit)
    as Hfar.
  destruct (split_root_child _ _ _ Hsplit) as (c0 & Hc0 & Hnc0).
  destruct (Z.eq_dec (degree v1) 1) as [Hone|Hone];
    [exact (insert_at_degree_one _ _ _ _ _ _ Hone H)|].
  destruct fuel as [|fuel]; cbn [insert_at] in H; [discriminate|].
  rewrite Hn1 in H. cbn [bind] in H.
  destruct (Z.eqb_spec 1 (degree v1)) as [E|_]; [lia|].
  apply bind_ok in H. destruct H as ([k ni] & Hfip & H).
  apply find_insert_point_is_node in Hfip. cbn [fst] in Hfip.
  destruct Hfip as [_ Hk0].
  cbn [root t_height] in H. rewrite Hh1, Hh in H.
  change (1 + 1 =? 1) with false in H. cbv iota in H.
  apply bind_ok in H. destruct H as (c & Hc & H).
  assert (Ek : k = 0).
  { pose proof Hc as Hc'. apply child_ptr in Hc'.
    destruct Hc' as (Hkd & _ & Hnz & _). cbn [t_index] in Hnz.
    destruct (Z.eq_dec k 0) as [E|E]; [exact E|].
    exfalso. apply Hnz. apply Hp1. unfold degree in *. lia. }
  subst k.
  change (ref 0 (1 + 1) (_size v1) (_rank v1)) with (root v1) in Hc.
  unfold root in Hc. rewrite Hh1, Hh in Hc.
  unfold root in Hc0. rewrite Hh1, Hh in Hc0.
  rewrite Hc0 in Hc. inversion Hc; subst c. clear Hc.
  rewrite Hnc0 in H. cbn [bind] in H. rewrite Z.eqb_refl in H.
  apply bind_ok in H. destruct H as ([[v2 k2] ni2] & Hroom & _).
  apply bind_ok in Hroom. destruct Hroom as (v2' & Hroom & _).
  apply (make_room_in_nodes_fails v1 v2'); try (unfold degree in *; lia).
  - intros j Hj. rewrite Hfar; [apply Hclean|];
      unfold degree in *; rewrite Hd1 in Hj; nia.
  - exact Hroom.
Qed.

End never_grows.

Section root_only_kept.

Import bitvector.

Lemma local_root_only v v' :
  single.root_only v -> single.local v v' -> single.root_only v'.
Proof.
  intros (Hh & Hfn & Hw & Hws & Hwr & Hd & Hlb & Hnb & Hclean)
         (Hs & Hf & Hp).
  destruct Hs as (_ & Eh & _ & _ & Ed & El & En & Es & Er & Ep & _).
  unfold single.root_only, degree in *.
  rewrite Eh, Hf, Ep, Es, Er, Ed, El, En.
  repeat split; try assumption; try lia.
  intros j Hj. rewrite Hp by exact Hj. apply Hclean. exact Hj.
Qed.

Lemma mul_pos_right (a b : Z) : 0 < a * b -> 0 <= b -> 0 < b /\ 1 <= a.
Proof.
  intros H Hb. destruct (Z.eq_dec b 0) as [->|Hne];
    [rewrite Z.mul_0_r in H; lia|].
  split; [lia|]. destruct (Z.le_gt_cases 1 a) as [Ha|Ha]; [exact Ha|].
  assert (a * b <= 0) by (apply Z.mul_nonpos_nonneg; lia). lia.
Qed.

(** The constructor, whenever it returns, returns the vector
    [flat.fresh] of its parameters. *)
Lemma make_inv (capacity : Z) (v : t) :
  make capacity = Ok v ->
  exists c pw d lb nb nodes,
    v = flat.fresh capacity c pw d lb nb nodes
    /\ 0 < c /\ d = W / c /\ 0 < d /\ 1 <= pw /\ 0 <= lb /\ 0 <= nb
    /\ c = Z.log2_up capacity + 1
    /\ lb = Z.min (Z.max (Z.sqrt_up W - 1) 1) d
    /\ 1 <= nodes
    /\ nb = Z.max (Z.sqrt_up d - 1) 1.
Proof.
  intros H. pose proof H as H0. unfold make in H. cbv zeta in H.
  set (c := Z.log2_up capacity + 1) in *.
  set (d := W / c) in *.
  set (lb := Z.min (Z.max (Z.sqrt_up W - 1) 1) d) in *.
  set (nb := Z.max (Z.sqrt_up d - 1) 1) in *.
  set (lc := capacity * (lb + 1) / (lb * (W - lb))) in *.
  set (md := nb * (d - nb) / (nb + 1)) in *.
  assert (Hc : 0 < c) by (pose proof (Z.log2_up_nonneg capacity); lia).
  assert (Hd0 : 0 <= d) by (apply Z.div_pos; [unfold W|]; lia).
  apply bind_ok in H. destruct H as (nodes & Hcount & H).
  set (pw := Z.log2_up (Z.max nodes (lc + 1))) in *.
  apply bind_ok in H. destruct H as (u1 & Hu1 & H).
  apply assert_ok, Z.leb_le in Hu1.
  apply bind_ok in H. destruct H as (u2 & Hu2 & H).
  apply assert_ok, Z.leb_le in Hu2.
  apply bind_ok in H. destruct H as (sz & Hsz & H).
  apply bind_ok in H. destruct H as (rk & Hrk & H).
  apply bind_ok in H. destruct H as (pt & Hpt & H).
  apply array_resize_ok in Hsz. destruct Hsz as (-> & _).
  apply array_resize_ok in Hrk. destruct Hrk as (-> & _).
  apply array_resize_ok in Hpt. destruct Hpt as (-> & Hpw0).
  cbn [alloc_leaf] in H.
  apply bind_ok in H. destruct H as ([n va] & Ha & _).
  unfold alloc_node in Ha.
  apply bind_ok in Ha. destruct Ha as (u3 & Hu3 & _).
  apply assert_ok, Z.ltb_lt in Hu3.
  cbn [_free_node _sizes with_leaves] in Hu3.
  rewrite blank_size in Hu3 by exact Hc.
  destruct (mul_pos_right _ _ Hu3 Hd0) as [Hd Hnodes].
  assert (Hnb : 1 <= nb <= d).
  { unfold nb. pose proof (Z.sqrt_up_le_lin d ltac:(lia)). lia. }
  assert (Hmd : 0 <= md)
    by (apply Z.div_pos; [apply Z.mul_nonneg_nonneg|]; lia).
  assert (Hlc : 1 <= lc).
  { destruct (Z.le_gt_cases 1 lc) as [Hle|Hgt]; [exact Hle|].
    exfalso. cbn [count_nodes] in Hcount.
    assert (Hlev : (lc + md) / (md + 1) <= 0).
    { assert ((lc + md) / (md + 1) < 1); [|lia].
      apply Z.div_lt_upper_bound; lia. }
    destruct (Z.ltb_spec 1 ((lc + md) / (md + 1))); [lia|].
    inversion Hcount. lia. }
  assert (Hpw : 1 <= pw).
  { unfold pw. change 1 with (Z.log2_up 2) at 1.
    apply Z.log2_up_le_mono. lia. }
  assert (Hpw1 : 0 < pw) by lia.
  pose proof (make_eq capacity nodes Hcount Hpw1 Hu1 Hu2 Hu3 Hd) as Heq.
  rewrite Heq in H0. inversion H0; subst v.
  exists c, pw, d, lb, nb, nodes.
  assert (Hlb : 0 <= lb) by (unfold lb; lia).
  repeat split; try assumption; try lia.
Qed.

Lemma make_root_only (capacity : Z) (v : t) :
  make capacity = Ok v -> single.root_only v.
Proof.
  intros H. destruct (make_inv capacity v H)
    as (c & pw & d & lb & nb & nodes & -> & Hc & Hd & Hd0 & Hpw & Hlb & Hnb
        & _).
  unfold single.root_only, flat.fresh, degree.
  cbn [_height _free_node _pointers _sizes _ranks _degree _leaves_buffer
       _nodes_buffer].
  split; [reflexivity|]. split; [reflexivity|].
  assert (Hwp : packed_view.width (packed_array.zeroed pw (nodes * (d + 1)))
                = pw) by reflexivity.
  split; [rewrite pa_set_width, Hwp; lia|].
  split; [cbn; lia|]. split; [cbn; lia|].
  split.
  { split; [lia|]. rewrite Hd. apply Z.div_le_upper_bound; [lia|].
    unfold W. nia. }
  split; [exact Hlb|]. split; [exact Hnb|].
  intros j Hj. unfold packed_array.store.
  rewrite item_set by (rewrite ?Hwp; lia).
  destruct (Z.ltb_spec j 1); [lia|]. rewrite andb_false_r.
  unfold packed_view.value. apply blank_get.
Qed.

(** A call of [insert] that returns keeps the root the only node. *)
Lemma insert_root_only v index bit v' :
  single.root_only v -> insert v index bit = Ok v' -> single.root_only v'.
Proof.
  intros Hinv H. pose proof Hinv as Hinv0.
  destruct Hinv as (Hh & Hfn & Hw & Hws & Hwr & Hd & Hlb & Hnb & Hclean).
  unfold insert in H. rewrite Hh in H.
  change (Z.to_nat 1 + 3)%nat with 4%nat in H.
  destruct (nkeys v (root v)) as [n|e] eqn:Hn;
    [|cbn [insert_at] in H; rewrite Hn in H; discriminate].
  destruct (Z.eq_dec n (degree v)) as [->|Hne].
  { exfalso. exact (full_root_aborts_at _ v index bit v' Hinv0 Hn H). }
  cbn [insert_at] in H.
  rewrite Hn in H. cbn [bind] in H.
  destruct (Z.eqb_spec n (degree v)) as [E|_]; [contradiction|].
  apply bind_ok in H. destruct H as ([k ni] & Hfip & H).
  apply find_insert_point_is_node in Hfip. cbn [fst] in Hfip.
  destruct Hfip as [_ Hk0].
  cbn [root t_height] in H. rewrite Hh in H.
  change (1 =? 1) with true in H. cbv iota in H.
  apply bind_ok in H. destruct H as (c & _ & H).
  apply bind_ok in H. destruct H as ([[v1 k1] ni1] & H1 & H).
  apply bind_ok in H. destruct H as (v2 & H2 & H).
  apply bind_ok in H. destruct H as (v3 & H3 & H).
  apply bind_ok in H. destruct H as (c' & _ & H).
  apply bind_ok in H. destruct H as (w & _ & H).
  apply bind_ok in H. destruct H as (v4 & H4 & H).
  inversion H; subst v'. clear H.
  assert (L1 : single.local v v1).
  { destruct (t_size c =? W); [|inversion H1; subst; apply local_refl].
    apply bind_ok in H1. destruct H1 as (va & Ha & H1).
    apply bind_ok in H1. destruct H1 as ([kb nb'] & _ & H1).
    inversion H1; subst.
    refine (local_make_room_in_leaves v (root v) k v1 eq_refl Hh Hk0 _ Hlb
              Hnb Hw Ha). lia. }
  apply local_add_sizes in H2. apply local_add_ranks in H3.
  apply local_set_leaf in H4.
  pose proof (local_trans _ _ _ L1
                (local_trans _ _ _ H2 (local_trans _ _ _ H3 H4))) as L.
  apply (local_root_only _ _ Hinv0).
  apply (local_trans _ _ _ L).
  apply local_intro; [|reflexivity|reflexivity].
  repeat split; cbn; lia.
Qed.

Lemma reachable_root_only v : reachable v -> single.root_only v.
Proof.
  induction 1 as [capacity v H|v index bit v' _ IH H].
  - exact (make_root_only capacity v H).
  - exact (insert_root_only v index bit v' IH H).
Qed.

End root_only_kept.

(** X20.  The tree never grows: every vector that the constructor and calls of
    [insert] can produce has height 1, and its root is the only node
    slot in use. *)
Theorem reachable_height_one (v : bitvector.t) :
  reachable v -> bitvector._height v = 1 /\ bitvector._free_node v = 1.
Proof.
  intros H. destruct (reachable_root_only v H) as (Hh & Hf & _).
  split; assumption.
Qed.

(** X20 at [v65]. *)
Lemma reachable_height_one_witness :
  bitvector._height samples.v65 = 1 /\ bitvector._free_node samples.v65 = 1.
Proof.
  apply (reachable_height_one samples.v65).
  apply (reachable_run 1000 (samples.alternating 65 0 false) samples.v0);
    vm_compute; reflexivity.
Defined.

(** X18.  Once the root is full, that is, once [nkeys()] of the root is the
    degree, no call of [insert] returns, whatever the index and the bit.
    If the root split returns, the redistribution among nodes that follows
    reads, through [child], every pointer of every node of its window;
    the node that [insert_child] has just allocated has none, so the
    assertion of [child] fails there at the latest (on [v65] it fails
    before, at the absent sixth child of the copy of the old root). *)
Theorem full_root_aborts (v : bitvector.t) (index : Z) (bit : bool) :
  reachable v ->
  bitvector.nkeys v (bitvector.root v) = Ok (bitvector.degree v) ->
  exists e, bitvector.insert v index bit = Err e.
Proof.
  intros Hr Hfull.
  destruct (bitvector.insert v index bit) as [v'|e] eqn:H.
  - exfalso. unfold bitvector.insert in H.
    exact (full_root_aborts_at _ v index bit v'
             (reachable_root_only v Hr) Hfull H).
  - exists e. reflexivity.
Qed.

(** X18 at [v65], whose root is full. *)
Lemma full_root_aborts_witness :
  exists e, bitvector.insert samples.v65 10 true = Err e.
Proof.
  apply (full_root_aborts samples.v65 10 true).
  - apply (reachable_run 1000 (samples.alternating 65 0 false) samples.v0);
      vm_compute; reflexivity.
  - vm_compute. reflexivity.
Defined.

(** * What [insert_child] moves *)

Section shifted_fields.

Variable a : packed_view.t.
Let w := packed_view.width a.
Hypothesis w_pos : 0 < w.

(** A range shifted by one field: the fields move up by one, the first
    one is cleared and the last one is lost. *)
Lemma item_shl (b e j : Z) :
  0 <= b <= e -> (e - b) * w <= W -> 0 <= j ->
  packed_view.value (packed_array.store_shl a b e w) j
  = if (b <=? j) && (j <? e)
    then if j =? b then 0 else packed_view.value a (j - 1)
    else packed_view.value a j.
Proof.
  intros Hb Hw Hj. unfold packed_array.store_shl.
  rewrite item_set by (fold w; lia). fold w.
  destruct (Z.leb_spec b j); destruct (Z.ltb_spec j e); cbn [andb];
    try reflexivity.
  assert (Hx : 0 <= packed_view.get a b e).
  { unfold packed_view.get. fold w.
    apply (get_range (packed_view._bits a)). nia. }
  rewrite word_field_wrap;
    [|exact w_pos|lia|nia|apply Z.shiftl_nonneg; exact Hx].
  apply Z.bits_inj'. intros t Ht.
  rewrite word_field_testbit by lia.
  rewrite Z.shiftl_spec by nia.
  destruct (Z.eqb_spec j b) as [->|Hne].
  - rewrite Z.testbit_0_l.
    replace (t + (b - b) * w - w) with (t - w) by lia.
    destruct (Z.ltb_spec t w); cbn [andb]; [|reflexivity].
    apply Z.testbit_neg_r. lia.
  - rewrite (item_field a w_pos b e (j - 1)) by lia. fold w.
    rewrite word_field_testbit by lia.
    f_equal. f_equal. lia.
Qed.

End shifted_fields.

Section insert_child_moves.

Import bitvector.

Lemma shl_sizes_eq v r b e n v' :
  shl_sizes v r b e n = Ok v' ->
  v' = with_sizes v (packed_array.store_shl (_sizes v) (t_index r * degree v + b)
                                      (t_index r * degree v + e) n).
Proof. unfold shl_sizes, sizes_range. intros H. inv_ok. reflexivity. Qed.

Lemma shl_ranks_eq v r b e n v' :
  shl_ranks v r b e n = Ok v' ->
  v' = with_ranks v (packed_array.store_shl (_ranks v) (t_index r * degree v + b)
                                      (t_index r * degree v + e) n).
Proof. unfold shl_ranks, ranks_range. intros H. inv_ok. reflexivity. Qed.

Lemma shl_pointers_eq v r b e n v' :
  shl_pointers v r b e n = Ok v' ->
  v' = with_pointers v
         (packed_array.store_shl (_pointers v) (t_index r * (degree v + 1) + b)
                           (t_index r * (degree v + 1) + e) n).
Proof. unfold shl_pointers, pointers_range. intros H. inv_ok. reflexivity. Qed.

Lemma sizes_at_eq v r k s :
  sizes_at v r k = Ok s ->
  s = packed_array.get_stripped (_sizes v) (t_index r * degree v + k).
Proof. unfold sizes_at, sizes_range. intros H. inv_ok. reflexivity. Qed.

Lemma ranks_at_eq v r k x :
  ranks_at v r k = Ok x ->
  x = packed_view.value (_ranks v) (t_index r * degree v + k).
Proof.
  unfold ranks_at, ranks_range, packed_view.value. intros H. inv_ok.
  rewrite Z.add_assoc. reflexivity.
Qed.

Lemma stripped_item a j :
  packed_array.get_stripped a j
  = bits.lowbits (packed_view.value a j) (packed_view.width a - 1).
Proof. reflexivity. Qed.

End insert_child_moves.

(** X12.  [insert_child(k)] below the last position.  The counters from [k] on
    move one field up and counter [k] keeps its value, so that the new
    child takes over the cumulative counter of the child that was at
    [k].  The pointers move one field up from [k + 1] on only: pointer
    [k] is overwritten with the new leaf or node, pointer [k + 1] is
    cleared, and the pointer that was at [k] is no longer in the node. *)
Theorem insert_child_shifts
        (v : bitvector.t) (r : bitvector.subtree_ref) (k : Z)
        (v' : bitvector.t) :
  let d := bitvector.degree v in
  let idx := bitvector.t_index r in
  let wp := packed_view.width (bitvector._pointers v) in
  let n := if bitvector.t_height r =? 1
           then Z.of_nat (length (bitvector._leaves v))
           else bitvector._free_node v in
  tree.params_ok v = true ->
  packed_view.width (bitvector._ranks v) = bitvector.counter_width v ->
  0 < wp -> bitvector.pointer_width v = wp -> (d + 1) * wp <= W ->
  0 <= idx -> 0 <= k < d ->
  bitvector.insert_child v r k = Ok v' ->
  bitvector.degree v' = d
  /\ (forall j, 0 <= j <= d ->
        tree.ptr v' idx j
        = if j <? k then tree.ptr v idx j
          else if j =? k then bits.lowbits n wp
          else if j =? k + 1 then 0
          else tree.ptr v idx (j - 1))
  /\ (forall j, 0 <= j < d ->
        packed_array.get_stripped (bitvector._sizes v') (idx * d + j)
        = packed_array.get_stripped (bitvector._sizes v)
            (idx * d + (if j <=? k then j else j - 1)))
  /\ (forall j, 0 <= j < d ->
        packed_view.value (bitvector._ranks v') (idx * d + j)
        = packed_view.value (bitvector._ranks v)
            (idx * d + (if j <=? k then j else j - 1))).
Proof.
  intros d idx wp n Hpar Hwr Hwp Hpw Hdw Hidx Hk H.
  destruct (params_facts v Hpar)
    as (Hc & Hdc & Hd & Hdcw & Hws & _ & _ & _ & _).
  fold d in Hdc, Hd, Hdcw.
  set (c := bitvector.counter_width v) in *.
  unfold bitvector.insert_child in H.
  apply bind_ok in H. destruct H as (u1 & _ & H).
  apply bind_ok in H. destruct H as (u2 & _ & H).
  apply bind_ok in H. destruct H as (v5 & H1 & H).
  fold d in H1. destruct (Z.ltb_spec k d) as [_|]; [|lia].
  apply bind_ok in H1. destruct H1 as (s & Hs & H1).
  apply sizes_at_eq in Hs.
  apply bind_ok in H1. destruct H1 as (rk & Hrk & H1).
  apply ranks_at_eq in Hrk.
  apply bind_ok in H1. destruct H1 as (v1 & Ha & H1).
  apply shl_sizes_eq in Ha. subst v1.
  apply bind_ok in H1. destruct H1 as (v2 & Ha & H1).
  apply shl_ranks_eq in Ha. subst v2.
  apply bind_ok in H1. destruct H1 as (v3 & Ha & H1).
  apply shl_pointers_eq in Ha. subst v3.
  apply bind_ok in H1. destruct H1 as (v4 & Ha & H1).
  apply set_sizes_eq in Ha. subst v4.
  apply set_ranks_eq in H1. subst v5.
  apply bind_ok in H. destruct H as ([n' v6] & Halloc & H).
  apply set_pointers_eq in H. subst v'.
  assert (Hn : n' = n /\ bitvector._pointers v6
                        = packed_array.store_shl (bitvector._pointers v)
                            (idx * (d + 1) + (k + 1))
                            (idx * (d + 1) + (d + 1)) wp
               /\ bitvector.degree v6 = d
               /\ bitvector._sizes v6
                  = packed_array.store
                      (packed_array.store_shl (bitvector._sizes v)
                         (idx * d + k) (idx * d + d) c)
                      (idx * d + k) (idx * d + (k + 1)) s
               /\ bitvector._ranks v6
                  = packed_array.store
                      (packed_array.store_shl (bitvector._ranks v)
                         (idx * d + k) (idx * d + d) c)
                      (idx * d + k) (idx * d + (k + 1)) rk).
  { unfold n. destruct (bitvector.t_height r =? 1).
    - inversion Halloc; subst n' v6. rewrite <- Hpw.
      repeat split; reflexivity.
    - unfold bitvector.alloc_node in Halloc.
      apply bind_ok in Halloc. destruct Halloc as (u3 & _ & Halloc).
      inversion Halloc; subst n' v6. rewrite <- Hpw.
      repeat split; reflexivity. }
  destruct Hn as (-> & Hp6 & Hd6 & Hs6 & Hr6).
  unfold tree.ptr.
  cbn [bitvector.degree bitvector._degree bitvector.with_pointers
       bitvector._pointers bitvector._sizes bitvector._ranks].
  fold (bitvector.degree v6). rewrite Hd6, Hp6, Hs6, Hr6. fold idx.
  split; [reflexivity|]. split; [|split].
  - intros j Hj. fold d.
    change (packed_array.get ?x ?b (?b + 1)) with (packed_view.value x b).
    unfold packed_array.store.
    rewrite item_set; [|change (0 < wp); exact Hwp|nia|nia].
    change (packed_view.width
              (packed_array.store_shl (bitvector._pointers v)
                 (idx * (d + 1) + (k + 1))
                 (idx * (d + 1) + (d + 1)) wp)) with wp.
    rewrite (item_shl (bitvector._pointers v) Hwp); fold wp; [|nia|nia|nia].
    destruct (Z.ltb_spec j k).
    + destruct (Z.leb_spec (idx * (d + 1) + k) (idx * (d + 1) + j)); [lia|].
      cbn [andb].
      destruct (Z.leb_spec (idx * (d + 1) + (k + 1)) (idx * (d + 1) + j));
        [lia|]. reflexivity.
    + destruct (Z.eqb_spec j k) as [->|Hne].
      * rewrite Z.leb_refl.
        destruct (Z.ltb_spec (idx * (d + 1) + k) (idx * (d + 1) + (k + 1)));
          [|lia].
        cbn [andb]. replace (idx * (d + 1) + k - (idx * (d + 1) + k))
          with 0 by lia.
        rewrite word_field_zero. symmetry. apply lowbits_mod. lia.
      * destruct (Z.ltb_spec (idx * (d + 1) + j) (idx * (d + 1) + (k + 1)));
          [lia|].
        rewrite andb_false_r.
        destruct (Z.leb_spec (idx * (d + 1) + (k + 1)) (idx * (d + 1) + j));
          [|lia].
        destruct (Z.ltb_spec (idx * (d + 1) + j) (idx * (d + 1) + (d + 1)));
          [|lia].
        cbn [andb].
        destruct (Z.eqb_spec j (k + 1)) as [->|Hne1].
        -- rewrite Z.eqb_refl. reflexivity.
        -- destruct (Z.eqb_spec (idx * (d + 1) + j)
                                (idx * (d + 1) + (k + 1))); [lia|].
           f_equal; lia.
  - intros j Hj. rewrite !stripped_item.
    change (packed_view.width
              (packed_array.store
                 (packed_array.store_shl (bitvector._sizes v)
                    (idx * d + k) (idx * d + d) c)
                 (idx * d + k) (idx * d + (k + 1)) s))
      with (packed_view.width (bitvector._sizes v)).
    unfold packed_array.store.
    rewrite item_set;
      [|change (0 < packed_view.width (bitvector._sizes v)); lia|nia|nia].
    change (packed_view.width
              (packed_array.store_shl (bitvector._sizes v)
                 (idx * d + k) (idx * d + d) c))
      with (packed_view.width (bitvector._sizes v)).
    pose proof (item_shl (bitvector._sizes v) ltac:(lia)
                  (idx * d + k) (idx * d + d) (idx * d + j)
                  ltac:(nia) ltac:(nia) ltac:(nia)) as Hshl.
    rewrite Hws in Hshl |- *. rewrite Hshl. clear Hshl.
    destruct (Z.leb_spec j k).
    + destruct (Z.eq_dec j k) as [->|Hne].
      * rewrite Z.leb_refl.
        destruct (Z.ltb_spec (idx * d + k) (idx * d + (k + 1))); [|lia].
        cbn [andb]. replace (idx * d + k - (idx * d + k)) with 0 by lia.
        rewrite word_field_zero. rewrite Hs, stripped_item, Hws.
        change (bitvector.t_index r * bitvector.degree v + k)
          with (idx * d + k).
        rewrite <- (lowbits_mod _ c) by lia.
        rewrite !lowbits_mod by lia.
        pose proof (Z.mod_pos_bound
                      (packed_view.value (bitvector._sizes v) (idx * d + k))
                      (2 ^ (c - 1)) (pow2_pos (c - 1) ltac:(lia))) as Hb.
        assert (Hlt : 2 ^ (c - 1) < 2 ^ c)
          by (apply Z.pow_lt_mono_r; lia).
        rewrite (Z.mod_small (_ mod 2 ^ (c - 1)) (2 ^ c)) by lia.
        apply Z.mod_small. exact Hb.
      * destruct (Z.leb_spec (idx * d + k) (idx * d + j)); [lia|].
        cbn [andb]. reflexivity.
    + destruct (Z.ltb_spec (idx * d + j) (idx * d + (k + 1))); [lia|].
      rewrite andb_false_r.
      destruct (Z.leb_spec (idx * d + k) (idx * d + j)); [|lia].
      destruct (Z.ltb_spec (idx * d + j) (idx * d + d)); [|lia].
      cbn [andb].
      destruct (Z.eqb_spec (idx * d + j) (idx * d + k)); [lia|].
      do 2 f_equal. lia.
  - intros j Hj.
    unfold packed_array.store.
    rewrite item_set;
      [|change (0 < packed_view.width (bitvector._ranks v)); lia|nia|nia].
    change (packed_view.width
              (packed_array.store_shl (bitvector._ranks v)
                 (idx * d + k) (idx * d + d) c))
      with (packed_view.width (bitvector._ranks v)).
    pose proof (item_shl (bitvector._ranks v) ltac:(lia)
                  (idx * d + k) (idx * d + d) (idx * d + j)
                  ltac:(nia) ltac:(nia) ltac:(nia)) as Hshl.
    rewrite Hwr in Hshl |- *. rewrite Hshl. clear Hshl.
    destruct (Z.leb_spec j k).
    + destruct (Z.eq_dec j k) as [->|Hne].
      * rewrite Z.leb_refl.
        destruct (Z.ltb_spec (idx * d + k) (idx * d + (k + 1))); [|lia].
        cbn [andb]. replace (idx * d + k - (idx * d + k)) with 0 by lia.
        rewrite word_field_zero. rewrite Hrk.
        change (bitvector.t_index r * bitvector.degree v + k)
          with (idx * d + k).
        apply Z.mod_small.
        assert (Hw0 : 0 <= packed_view.width (bitvector._ranks v)) by lia.
        pose proof (pa_get_range (bitvector._ranks v) Hw0
                      (idx * d + k) (idx * d + k + 1) ltac:(nia)) as Hg.
        replace ((idx * d + k + 1 - (idx * d + k))
                 * packed_view.width (bitvector._ranks v))
          with c in Hg by lia.
        exact Hg.
      * destruct (Z.leb_spec (idx * d + k) (idx * d + j)); [lia|].
        cbn [andb]. reflexivity.
    + destruct (Z.ltb_spec (idx * d + j) (idx * d + (k + 1))); [lia|].
      rewrite andb_false_r.
      destruct (Z.leb_spec (idx * d + k) (idx * d + j)); [|lia].
      destruct (Z.ltb_spec (idx * d + j) (idx * d + d)); [|lia].
      cbn [andb].
      destruct (Z.eqb_spec (idx * d + j) (idx * d + k)); [lia|].
      f_equal. lia.
Qed.

(** X12 at the root of [v65] and position 2. *)
Lemma insert_child_shifts_witness :
  bitvector.degree runs.v65_child2 = bitvector.degree samples.v65
  /\ (forall j, 0 <= j <= bitvector.degree samples.v65 ->
        tree.ptr runs.v65_child2 0 j
        = if j <? 2 then tree.ptr samples.v65 0 j
          else if j =? 2
               then bits.lowbits
                      (Z.of_nat (length (bitvector._leaves samples.v65)))
                      (packed_view.width (bitvector._pointers samples.v65))
          else if j =? 2 + 1 then 0
          else tree.ptr samples.v65 0 (j - 1))
  /\ (forall j, 0 <= j < bitvector.degree samples.v65 ->
        packed_array.get_stripped (bitvector._sizes runs.v65_child2)
          (0 * bitvector.degree samples.v65 + j)
        = packed_array.get_stripped (bitvector._sizes samples.v65)
            (0 * bitvector.degree samples.v65
             + (if j <=? 2 then j else j - 1)))
  /\ (forall j, 0 <= j < bitvector.degree samples.v65 ->
        packed_view.value (bitvector._ranks runs.v65_child2)
          (0 * bitvector.degree samples.v65 + j)
        = packed_view.value (bitvector._ranks samples.v65)
            (0 * bitvector.degree samples.v65
             + (if j <=? 2 then j else j - 1))).
Proof.
  apply (insert_child_shifts samples.v65 (bitvector.root samples.v65) 2
           runs.v65_child2).
  - vm_compute. reflexivity.
  - vm_compute. reflexivity.
  - vm_compute. reflexivity.
  - vm_compute. reflexivity.
  - vm_compute. discriminate.
  - vm_compute. discriminate.
  - vm_compute. split; [discriminate|reflexivity].
  - vm_compute. reflexivity.
Defined.

(** * The debugging output of a range *)

Section to_binary_facts.

Variable sep : Z.
Hypothesis sep_pos : 0 < sep.

Lemma div_pred (b : Z) :
  0 < b ->
  (b - 1) / sep = if b mod sep =? 0 then b / sep - 1 else b / sep.
Proof.
  intros Hb. pose proof (Z.div_mod b sep ltac:(lia)) as E.
  pose proof (Z.mod_pos_bound b sep sep_pos) as Hm.
  destruct (Z.eqb_spec (b mod sep) 0) as [H0|H0].
  - symmetry. apply (Z.div_unique (b - 1) sep (b / sep - 1) (sep - 1));
      [lia|]. rewrite H0 in E. lia.
  - symmetry. apply (Z.div_unique (b - 1) sep (b / sep) (b mod sep - 1));
      lia.
Qed.

Lemma chars_succ (b : Z) :
  0 <= b ->
  printing.chars sep (b + 1)
  = printing.chars sep b
    + (if (negb (b =? 0)) && (b mod sep =? 0) then 2 else 1).
Proof.
  intros Hb. unfold printing.chars.
  destruct (Z.eqb_spec (b + 1) 0); [lia|].
  replace (b + 1 - 1) with b by lia.
  destruct (Z.eqb_spec b 0) as [->|Hne]; cbn [negb andb].
  - rewrite Z.div_0_l by lia. lia.
  - rewrite (div_pred b) by lia.
    destruct (b mod sep =? 0); lia.
Qed.

Lemma bit_position (b t : Z) :
  0 <= t < b -> 0 <= t + t / sep < printing.chars sep b.
Proof.
  intros Ht. unfold printing.chars.
  destruct (Z.eqb_spec b 0); [lia|].
  pose proof (Z.div_pos t sep ltac:(lia) sep_pos).
  pose proof (Z.div_le_mono t (b - 1) sep sep_pos ltac:(lia)). lia.
Qed.

Lemma separator_position (b m : Z) :
  1 <= m -> m * sep < b -> 0 <= m * (sep + 1) - 1 < printing.chars sep b.
Proof.
  intros Hm Hb. unfold printing.chars.
  destruct (Z.eqb_spec b 0); [nia|].
  assert (m <= (b - 1) / sep)
    by (apply Z.div_le_lower_bound; [exact sep_pos|lia]).
  nia.
Qed.

Lemma nth_app_left {A} (s : list A) (x d : A) (p : Z) :
  0 <= p < Z.of_nat (length s) ->
  nth (Z.to_nat p) (s ++ [x]) d = nth (Z.to_nat p) s d.
Proof. intros Hp. apply app_nth1. lia. Qed.

Lemma nth_app_last {A} (s : list A) (x d : A) (p : Z) :
  p = Z.of_nat (length s) -> nth (Z.to_nat p) (s ++ [x]) d = x.
Proof.
  intros ->. rewrite Nat2Z.id, app_nth2 by lia.
  rewrite Nat.sub_diag. reflexivity.
Qed.

Lemma to_binary_loop_written (n : nat) :
  forall v i0 ssep b s,
    0 <= b -> printing.written v i0 sep ssep b s ->
    exists s',
      printing.to_binary_loop n v (i0 + b) b sep ssep s = Some s'
      /\ printing.written v i0 sep ssep (b + Z.of_nat n) s'.
Proof.
  induction n as [|n IH]; intros v i0 ssep b s Hb Hs.
  - exists s. split; [reflexivity|].
    replace (b + Z.of_nat 0) with b by lia. exact Hs.
  - cbn [printing.to_binary_loop].
    destruct (Z.eqb_spec sep 0) as [E|_]; [lia|].
    set (s1 := if b =? 0 then s
               else if b mod sep =? 0 then s ++ [ssep] else s).
    assert (E1 : (if b =? 0 then Some s
                  else Some (if b mod sep =? 0 then s ++ [ssep] else s))
                 = Some s1) by (unfold s1; destruct (b =? 0); reflexivity).
    rewrite E1.
    set (x := printing.bit_char
                (bitview.get1 (packed_view._bits v) (i0 + b))).
    replace (i0 + b + 1) with (i0 + (b + 1)) by lia.
    replace (b + Z.of_nat (S n)) with (b + 1 + Z.of_nat n) by lia.
    apply IH; [lia|].
    destruct Hs as (Hlen & Hbits & Hseps).
    assert (Hsep1 : (negb (b =? 0)) && (b mod sep =? 0) = true ->
                    s1 = s ++ [ssep]).
    { unfold s1. destruct (b =? 0); cbn [negb andb]; [discriminate|].
      intros ->. reflexivity. }
    assert (Hsep0 : (negb (b =? 0)) && (b mod sep =? 0) = false -> s1 = s).
    { unfold s1. destruct (b =? 0); cbn [negb andb]; [reflexivity|].
      intros ->. reflexivity. }
    pose proof (chars_succ b Hb) as Hch.
    destruct ((negb (b =? 0)) && (b mod sep =? 0)) eqn:E.
    + rewrite (Hsep1 eq_refl). clear Hsep1 Hsep0.
      apply andb_prop in E. destruct E as [Eb Em].
      apply negb_true_iff, Z.eqb_neq in Eb. apply Z.eqb_eq in Em.
      pose proof (Z.div_mod b sep ltac:(lia)) as Edm. rewrite Em in Edm.
      pose proof (div_pred b ltac:(lia)) as Ep. rewrite Em in Ep.
      cbn [Z.eqb] in Ep.
      assert (Hc : printing.chars sep b = b + b / sep - 1).
      { unfold printing.chars. destruct (Z.eqb_spec b 0); lia. }
      split; [|split].
      * rewrite !length_app. cbn [length]. lia.
      * intros t Ht. destruct (Z.eq_dec t b) as [->|Hne].
        -- rewrite nth_app_last; [reflexivity|].
           rewrite length_app. cbn [length]. lia.
        -- pose proof (bit_position b t ltac:(lia)).
           rewrite nth_app_left by (rewrite length_app; cbn [length]; lia).
           rewrite nth_app_left by lia. apply Hbits. lia.
      * intros m Hm Hmb.
        destruct (Z.eq_dec (m * sep) b) as [Emb|Hne].
        -- assert (m = b / sep) by nia.
           rewrite nth_app_left by (rewrite length_app; cbn [length]; nia).
           apply nth_app_last. nia.
        -- pose proof (separator_position b m Hm ltac:(lia)).
           rewrite nth_app_left by (rewrite length_app; cbn [length]; lia).
           rewrite nth_app_left by lia. apply Hseps; lia.
    + rewrite (Hsep0 eq_refl). clear Hsep1 Hsep0.
      assert (Hc : 0 <= b ->
                   printing.chars sep b = b + b / sep
                   /\ (b = 0 \/ b mod sep <> 0)).
      { intros _. unfold printing.chars.
        destruct (Z.eqb_spec b 0) as [->|Hne].
        - rewrite Z.div_0_l by lia. split; [lia|left; reflexivity].
        - cbn [negb andb] in E. apply Z.eqb_neq in E.
          rewrite (div_pred b) by lia.
          destruct (Z.eqb_spec (b mod sep) 0); [contradiction|].
          split; [lia|right; assumption]. }
      destruct (Hc Hb) as [Hcb Hnm].
      split; [|split].
      * rewrite length_app. cbn [length]. lia.
      * intros t Ht. destruct (Z.eq_dec t b) as [->|Hne].
        -- rewrite nth_app_last; [reflexivity|]. lia.
        -- pose proof (bit_position b t ltac:(lia)).
           rewrite nth_app_left by lia. apply Hbits. lia.
      * intros m Hm Hmb.
        assert (m * sep <> b).
        { intros Emb. destruct Hnm as [->|Hnm]; [nia|].
          apply Hnm. rewrite <- Emb. apply Z.mod_mul. lia. }
        pose proof (separator_position b m Hm ltac:(lia)).
        rewrite nth_app_left by lia. apply Hseps; lia.
Qed.

End to_binary_facts.

(** X6.  [to_binary] with a separator width [sep > 0] returns the bits of the
    range most significant first: read from its end, the string has bit
    [t] of the range at position [t + t / sep] and the separator before
    every multiple of [sep] but the first, and nothing else. *)
Theorem to_binary_layout
        (v : packed_view.t) (begin end_ sep : Z) (ssep : ascii) :
  0 < sep ->
  0 <= packed_view.width v -> 0 <= begin <= end_ ->
  let n := (end_ - begin) * packed_view.width v in
  exists s,
    printing.to_binary v begin end_ sep ssep = Some s
    /\ Z.of_nat (length s) = printing.chars sep n
    /\ (forall t, 0 <= t < n ->
          nth (Z.to_nat (t + t / sep)) (rev s) ssep
          = printing.bit_char
              (Z.testbit (bitview.bits (packed_view._bits v))
                         (begin * packed_view.width v + t)))
    /\ (forall m, 1 <= m -> m * sep < n ->
          nth (Z.to_nat (m * (sep + 1) - 1)) (rev s) "0"%char = ssep).
Proof.
  intros Hsep Hw Hb n. unfold printing.to_binary. cbv zeta.
  assert (Hinit : printing.written v (begin * packed_view.width v) sep ssep
                    0 []).
  { split; [reflexivity|]. split; intros; lia. }
  destruct (to_binary_loop_written sep Hsep
              (Z.to_nat (end_ * packed_view.width v
                         - begin * packed_view.width v))
              v (begin * packed_view.width v) ssep 0 [] ltac:(lia) Hinit)
    as (s & Hs & Hlen & Hbits & Hseps).
  rewrite Z.add_0_r in Hs. rewrite Hs. cbn [option_map].
  replace (0 + Z.of_nat (Z.to_nat (end_ * packed_view.width v
                                   - begin * packed_view.width v)))
    with n in * by (unfold n; nia).
  exists (rev s). rewrite length_rev, rev_involutive.
  split; [reflexivity|]. split; [exact Hlen|]. split; assumption.
Qed.

(** X6 at fields 1 and 2 of [sorted_example], separated every 4 bits. *)
Lemma to_binary_layout_witness :
  exists s,
    printing.to_binary sorted_example 1 3 4 " "%char = Some s
    /\ Z.of_nat (length s) = printing.chars 4 ((3 - 1) * 5)
    /\ (forall t, 0 <= t < (3 - 1) * 5 ->
          nth (Z.to_nat (t + t / 4)) (rev s) " "%char
          = printing.bit_char
              (Z.testbit (bitview.bits (packed_view._bits sorted_example))
                         (1 * 5 + t)))
    /\ (forall m, 1 <= m -> m * 4 < (3 - 1) * 5 ->
          nth (Z.to_nat (m * (4 + 1) - 1)) (rev s) "0"%char = " "%char).
Proof.
  apply (to_binary_layout sorted_example 1 3 4 " "%char).
  - lia.
  - vm_compute. discriminate.
  - lia.
Defined.

(** * The copy of a node *)

Section copied_fields.

Variable a : packed_view.t.
Hypothesis w_pos : 0 < packed_view.width a.

(** A range assigned from a range of the same length reads as the
    source did. *)
Lemma item_set_get (b e b0 e0 j : Z) :
  0 <= b <= e -> 0 <= b0 -> e0 - b0 = e - b -> 0 <= j ->
  packed_view.value (packed_array.store a b e (packed_array.get a b0 e0)) j
  = if (b <=? j) && (j <? e) then packed_view.value a (b0 + (j - b))
    else packed_view.value a j.
Proof.
  intros Hb Hb0 He Hj. unfold packed_array.store, packed_array.get.
  rewrite item_set by assumption.
  destruct (Z.leb_spec b j); destruct (Z.ltb_spec j e); cbn [andb];
    try reflexivity.
  rewrite (item_field a w_pos b0 e0 (b0 + (j - b))) by lia.
  f_equal. lia.
Qed.

End copied_fields.

Lemma fields_inside (a : packed_array.t) (e : Z) :
  0 < packed_view.width a ->
  e * packed_view.width a <= bitview.size (packed_view._bits a) ->
  e <= packed_array.size a.
Proof.
  intros Hw He. unfold packed_array.size, packed_view.size.
  apply Z.div_le_lower_bound; [exact Hw|].
  unfold packed_view.width in *. lia.
Qed.

Lemma copy_node_fits v r r' v' :
  bitvector.is_node r = true -> bitvector.copy v r = Ok (r', v') ->
  let n := bitvector._free_node v in
  let d := bitvector.degree v in
  (n * d + d) * packed_view.width (bitvector._sizes v)
  <= bitview.size (packed_view._bits (bitvector._sizes v))
  /\ (n * d + d) * packed_view.width (bitvector._ranks v)
     <= bitview.size (packed_view._bits (bitvector._ranks v))
  /\ (n * (d + 1) + (d + 1)) * packed_view.width (bitvector._pointers v)
     <= bitview.size (packed_view._bits (bitvector._pointers v)).
Proof.
  intros Hnode H. unfold bitvector.copy in H. rewrite Hnode in H.
  unfold bitvector.alloc_node, bitvector.set_sizes, bitvector.set_ranks,
    bitvector.set_pointers, bitvector.sizes_range, bitvector.ranks_range,
    bitvector.pointers_range in H.
  inv_ok. cbv zeta.
  cbn [bitvector._sizes bitvector._ranks bitvector._pointers
       bitvector.with_sizes bitvector.with_ranks bitvector.with_pointers
       bitvector.with_free_node bitvector.degree bitvector._degree
       bitvector.t_index bitvector._free_node] in *.
  repeat split; assumption.
Qed.

(** X19.  [copy()] of a node, when it returns, has taken the next node slot,
    which lies inside the three arrays, and has filled it with the
    counters and the pointers of the node, so that the copy reads as the
    node does; the node itself, every other slot and the leaves are left
    as they were, and the reference returned has the height, size and
    rank of the original. *)
Theorem copy_duplicates_node
        (v : bitvector.t) (r r' : bitvector.subtree_ref) (v' : bitvector.t) :
  let d := bitvector.degree v in
  let idx := bitvector.t_index r in
  let n := bitvector._free_node v in
  0 < bitvector.t_height r -> 0 <= idx < n -> 0 <= d ->
  0 < packed_view.width (bitvector._sizes v) ->
  0 < packed_view.width (bitvector._ranks v) ->
  0 < packed_view.width (bitvector._pointers v) ->
  bitvector.copy v r = Ok (r', v') ->
  r' = bitvector.ref n (bitvector.t_height r) (bitvector.t_size r)
                     (bitvector.t_rank r)
  /\ bitvector._free_node v' = n + 1
  /\ bitvector._leaves v' = bitvector._leaves v
  /\ (n + 1) * d <= packed_array.size (bitvector._sizes v)
  /\ (n + 1) * d <= packed_array.size (bitvector._ranks v)
  /\ (n + 1) * (d + 1) <= packed_array.size (bitvector._pointers v)
  /\ (forall j, 0 <= j ->
        packed_view.value (bitvector._sizes v') j
        = if (n * d <=? j) && (j <? n * d + d)
          then packed_view.value (bitvector._sizes v) (idx * d + (j - n * d))
          else packed_view.value (bitvector._sizes v) j)
  /\ (forall j, 0 <= j ->
        packed_view.value (bitvector._ranks v') j
        = if (n * d <=? j) && (j <? n * d + d)
          then packed_view.value (bitvector._ranks v) (idx * d + (j - n * d))
          else packed_view.value (bitvector._ranks v) j)
  /\ (forall j, 0 <= j ->
        packed_view.value (bitvector._pointers v') j
        = if (n * (d + 1) <=? j) && (j <? n * (d + 1) + (d + 1))
          then packed_view.value (bitvector._pointers v)
                 (idx * (d + 1) + (j - n * (d + 1)))
          else packed_view.value (bitvector._pointers v) j).
Proof.
  intros d idx n Hh Hidx Hd Hws Hwr Hwp H.
  assert (Hnode : bitvector.is_node r = true)
    by (unfold bitvector.is_node; apply Z.ltb_lt; exact Hh).
  pose proof (copy_node_fits v r r' v' Hnode H) as Hfit. cbv zeta in Hfit.
  fold d n in Hfit. destruct Hfit as (Hf1 & Hf2 & Hf3).
  destruct (copy_node_eq v r r' v' Hnode H) as [-> ->].
  fold d idx n.
  cbn [bitvector._free_node bitvector._leaves bitvector._sizes
       bitvector._ranks bitvector._pointers bitvector.with_pointers
       bitvector.with_ranks bitvector.with_sizes bitvector.with_free_node].
  split; [reflexivity|]. split; [reflexivity|]. split; [reflexivity|].
  split; [apply fields_inside; [exact Hws|lia]|].
  split; [apply fields_inside; [exact Hwr|lia]|].
  split; [apply fields_inside; [exact Hwp|lia]|].
  split; [|split]; intros j Hj.
  - rewrite (item_set_get _ Hws) by nia.
    destruct ((n * d + 0 <=? j) && (j <? n * d + d)) eqn:E;
      replace (n * d + 0) with (n * d) in * by lia; rewrite E;
      [f_equal; lia|reflexivity].
  - rewrite (item_set_get _ Hwr) by nia.
    destruct ((n * d + 0 <=? j) && (j <? n * d + d)) eqn:E;
      replace (n * d + 0) with (n * d) in * by lia; rewrite E;
      [f_equal; lia|reflexivity].
  - rewrite (item_set_get _ Hwp) by nia.
    destruct ((n * (d + 1) + 0 <=? j) && (j <? n * (d + 1) + (d + 1))) eqn:E;
      replace (n * (d + 1) + 0) with (n * (d + 1)) in * by lia; rewrite E;
      [f_equal; lia|reflexivity].
Qed.

(** X19 at the root of [v65]. *)
Lemma copy_duplicates_node_witness :
  fst runs.v65_copy
  = bitvector.ref (bitvector._free_node samples.v65)
      (bitvector.t_height (bitvector.root samples.v65))
      (bitvector.t_size (bitvector.root samples.v65))
      (bitvector.t_rank (bitvector.root samples.v65))
  /\ bitvector._free_node (snd runs.v65_copy)
     = bitvector._free_node samples.v65 + 1
  /\ bitvector._leaves (snd runs.v65_copy)
     = bitvector._leaves samples.v65
  /\ (1 + 1) * 5 <= packed_array.size (bitvector._sizes samples.v65)
  /\ (1 + 1) * 5 <= packed_array.size (bitvector._ranks samples.v65)
  /\ (1 + 1) * (5 + 1) <= packed_array.size (bitvector._pointers samples.v65)
  /\ (forall j, 0 <= j ->
        packed_view.value (bitvector._sizes (snd runs.v65_copy)) j
        = if (1 * 5 <=? j) && (j <? 1 * 5 + 5)
          then packed_view.value (bitvector._sizes samples.v65)
                 (0 * 5 + (j - 1 * 5))
          else packed_view.value (bitvector._sizes samples.v65) j)
  /\ (forall j, 0 <= j ->
        packed_view.value (bitvector._ranks (snd runs.v65_copy)) j
        = if (1 * 5 <=? j) && (j <? 1 * 5 + 5)
          then packed_view.value (bitvector._ranks samples.v65)
                 (0 * 5 + (j - 1 * 5))
          else packed_view.value (bitvector._ranks samples.v65) j)
  /\ (forall j, 0 <= j ->
        packed_view.value (bitvector._pointers (snd runs.v65_copy)) j
        = if (1 * (5 + 1) <=? j) && (j <? 1 * (5 + 1) + (5 + 1))
          then packed_view.value (bitvector._pointers samples.v65)
                 (0 * (5 + 1) + (j - 1 * (5 + 1)))
          else packed_view.value (bitvector._pointers samples.v65) j).
Proof.
  apply (copy_duplicates_node samples.v65 (bitvector.root samples.v65)
           (fst runs.v65_copy) (snd runs.v65_copy)).
  - vm_compute. reflexivity.
  - vm_compute. split; [discriminate|reflexivity].
  - vm_compute. discriminate.
  - vm_compute. reflexivity.
  - vm_compute. reflexivity.
  - vm_compute. reflexivity.
  - vm_compute. reflexivity.
Defined.

(** * The most a vector holds *)

Section zero_ranges.

Variable a : packed_view.t.
Let w := packed_view.width a.
Hypothesis w_pos : 0 < w.

Lemma items_zero_get (b e : Z) :
  0 <= b <= e ->
  (forall j, b <= j < e -> packed_view.value a j = 0) ->
  packed_view.get a b e = 0.
Proof.
  intros Hb Hz. apply Z.bits_inj'. intros t Ht.
  rewrite Z.testbit_0_l. unfold packed_view.get. fold w.
  rewrite get_testbit by nia.
  destruct (Z.ltb_spec t (e * w - b * w)); cbn [andb]; [|reflexivity].
  set (j := b + t / w).
  assert (Hq : 0 <= t / w) by (apply Z.div_pos; lia).
  assert (Hj : b <= j < e).
  { unfold j. split; [lia|].
    assert (t / w < e - b); [|lia].
    apply Z.div_lt_upper_bound; [lia|nia]. }
  pose proof (Hz j Hj) as Hitem.
  apply (f_equal (fun x => Z.testbit x (t mod w))) in Hitem.
  rewrite Z.testbit_0_l in Hitem.
  unfold packed_view.value, packed_view.get in Hitem. fold w in Hitem.
  pose proof (Z.mod_pos_bound t w w_pos) as Hm.
  rewrite get_testbit in Hitem by nia.
  destruct (Z.ltb_spec (t mod w) ((j + 1) * w - j * w)); [|nia].
  cbn [andb] in Hitem. rewrite <- Hitem. f_equal.
  unfold j. pose proof (Z.div_mod t w ltac:(lia)). nia.
Qed.

(** A word below the field size added into a range of zeros lands in the
    first field. *)
Lemma item_add_zero (b e x j : Z) :
  0 <= b < e -> w <= W ->
  (forall i, b <= i < e -> packed_view.value a i = 0) ->
  0 <= x < 2 ^ w -> 0 <= j ->
  packed_view.value (packed_array.store_add a b e x) j
  = if j =? b then x else packed_view.value a j.
Proof.
  intros Hb Hw Hz Hx Hj. unfold packed_array.store_add.
  rewrite items_zero_get by (try lia; exact Hz).
  rewrite Z.add_0_l.
  assert (Hx64 : 0 <= x < 2 ^ W).
  { split; [lia|]. apply Z.lt_le_trans with (2 ^ w); [lia|].
    apply Z.pow_le_mono_r; lia. }
  rewrite wrap_small by exact Hx64.
  rewrite item_set by (fold w; lia). fold w.
  destruct (Z.eqb_spec j b) as [->|Hne].
  - rewrite Z.leb_refl. destruct (Z.ltb_spec b e); [|lia]. cbn [andb].
    rewrite Z.sub_diag, word_field_zero. apply Z.mod_small. exact Hx.
  - destruct (Z.leb_spec b j); destruct (Z.ltb_spec j e); cbn [andb];
      try reflexivity.
    rewrite (Hz j) by lia. unfold word_field.
    rewrite Z.div_small; [apply Z.mod_0_l; apply Z.pow_nonzero; lia|].
    split; [lia|]. apply Z.lt_le_trans with (2 ^ w); [lia|].
    apply Z.pow_le_mono_r; [lia|nia].
Qed.

End zero_ranges.

Section sizes_only.

Import bitvector.

Lemma add_sizes_eq v r b e x v' :
  add_sizes v r b e x = Ok v' ->
  b < degree v /\ e <= degree v
  /\ v' = with_sizes v (packed_array.store_add (_sizes v) (t_index r * degree v + b)
                                         (t_index r * degree v + e) x).
Proof.
  unfold add_sizes, sizes_range. intros H. inv_ok.
  repeat match goal with
         | H : (_ <? _) = true |- _ => apply Z.ltb_lt in H
         | H : (_ <=? _) = true |- _ => apply Z.leb_le in H
         end.
  repeat split; assumption.
Qed.

Lemma add_ranks_sizes v r b e x v' :
  add_ranks v r b e x = Ok v' -> _sizes v' = _sizes v.
Proof. unfold add_ranks, ranks_range. intros H. inv_ok. reflexivity. Qed.

Lemma set_ranks_sizes v r b e x v' :
  set_ranks v r b e x = Ok v' -> _sizes v' = _sizes v.
Proof. unfold set_ranks, ranks_range. intros H. inv_ok. reflexivity. Qed.

Lemma set_leaf_sizes v r x v' :
  set_leaf v r x = Ok v' -> _sizes v' = _sizes v.
Proof.
  unfold set_leaf. intros H. inv_ok.
  destruct (Nat.ltb _ _); inv_ok; reflexivity.
Qed.

(** The parameters stay in order when the field mask of the sizes is
    kept. *)
Lemma params_ok_keeps v v' :
  frame.same v v' ->
  packed_view.field_mask (_sizes v') = packed_view.field_mask (_sizes v) ->
  tree.params_ok v = true -> tree.params_ok v' = true.
Proof.
  intros (_ & Eh & Ec & _ & Ed & _ & _ & Es & Er & Ep & _) Em H.
  unfold tree.params_ok, counter_width, degree in *.
  rewrite Eh, Ec, Ed, Es, Er, Ep, Em. exact H.
Qed.

(** The size counters after [insert_child(k)]. *)
Lemma insert_child_sizes_eq v r k v' :
  insert_child v r k = Ok v' ->
  _sizes v'
  = if k <? degree v
    then packed_array.store
           (packed_array.store_shl (_sizes v) (t_index r * degree v + k)
              (t_index r * degree v + degree v) (counter_width v))
           (t_index r * degree v + k) (t_index r * degree v + (k + 1))
           (packed_array.get_stripped (_sizes v) (t_index r * degree v + k))
    else _sizes v.
Proof.
  intros H. unfold insert_child in H.
  apply bind_ok in H. destruct H as (u1 & _ & H).
  apply bind_ok in H. destruct H as (u2 & _ & H).
  apply bind_ok in H. destruct H as (v5 & H1 & H).
  apply bind_ok in H. destruct H as ([n' v6] & Halloc & H).
  apply set_pointers_eq in H. subst v'.
  cbn [_sizes with_pointers].
  assert (E6 : _sizes v6 = _sizes v5).
  { destruct (t_height r =? 1).
    - inversion Halloc; subst. reflexivity.
    - unfold alloc_node in Halloc. inv_ok. reflexivity. }
  rewrite E6. clear E6 Halloc.
  destruct (k <? degree v); [|inversion H1; subst; reflexivity].
  apply bind_ok in H1. destruct H1 as (s & Hs & H1).
  apply sizes_at_eq in Hs.
  apply bind_ok in H1. destruct H1 as (rk & _ & H1).
  apply bind_ok in H1. destruct H1 as (v1 & Ha & H1).
  apply shl_sizes_eq in Ha. subst v1.
  apply bind_ok in H1. destruct H1 as (v2 & Ha & H1).
  apply shl_ranks_eq in Ha. subst v2.
  apply bind_ok in H1. destruct H1 as (v3 & Ha & H1).
  apply shl_pointers_eq in Ha. subst v3.
  apply bind_ok in H1. destruct H1 as (v4 & Ha & H1).
  apply set_sizes_eq in Ha. subst v4.
  apply set_ranks_eq in H1. subst v5. subst s. reflexivity.
Qed.

(** [insert_child(k)] on a node whose counters from [k] on are zero
    leaves every counter as it was. *)
Lemma insert_child_zero_sizes v r k v' :
  tree.params_ok v = true -> t_index r = 0 -> 0 <= k <= degree v ->
  (forall j, k <= j < degree v -> packed_view.value (_sizes v) j = 0) ->
  insert_child v r k = Ok v' ->
  tree.params_ok v' = true
  /\ forall j, 0 <= j -> packed_view.value (_sizes v') j
                         = packed_view.value (_sizes v) j.
Proof.
  intros Hpar Hr Hk Hz H.
  destruct (params_facts v Hpar) as (Hc & Hdc & Hd & Hdcw & Hws & _).
  pose proof (insert_child_sizes_eq v r k v' H) as Es.
  pose proof (keeps_insert_child v r k v' H) as Hsame.
  rewrite Hr in Es.
  destruct (Z.ltb_spec k (degree v)) as [Hlt|Hge].
  - split.
    + apply (params_ok_keeps v v' Hsame); [|exact Hpar].
      rewrite Es. reflexivity.
    + intros j Hj. rewrite Es. unfold packed_array.store.
      rewrite item_set;
        [|change (0 < packed_view.width (_sizes v)); lia|lia|lia].
      change (packed_view.width
                (packed_array.store_shl (_sizes v) (0 * degree v + k)
                   (0 * degree v + degree v) (counter_width v)))
        with (packed_view.width (_sizes v)).
      pose proof (item_shl (_sizes v) ltac:(lia)
                    (0 * degree v + k) (0 * degree v + degree v) j
                    ltac:(lia) ltac:(nia) Hj) as Hshl.
      rewrite Hws in Hshl |- *. rewrite Hshl. clear Hshl.
      destruct (Z.leb_spec (0 * degree v + k) j);
        destruct (Z.ltb_spec j (0 * degree v + (k + 1))); cbn [andb].
      * assert (j = k) by lia. subst j.
        replace (k - (0 * degree v + k)) with 0 by lia.
        rewrite word_field_zero, stripped_item.
        replace (0 * degree v + k) with k by lia.
        rewrite (Hz k) by lia. reflexivity.
      * destruct (Z.ltb_spec j (0 * degree v + degree v)).
        -- destruct (Z.eqb_spec j (0 * degree v + k)); [lia|].
           rewrite (Hz (j - 1)) by lia. rewrite (Hz j) by lia. reflexivity.
        -- reflexivity.
      * reflexivity.
      * reflexivity.
  - split.
    + apply (params_ok_keeps v v' Hsame); [|exact Hpar].
      rewrite Es. reflexivity.
    + intros j Hj. rewrite Es. reflexivity.
Qed.

Lemma child_size_first v r c :
  child v r 0 = Ok c ->
  t_size c = packed_array.get_stripped (_sizes v) (t_index r * degree v + 0)
  /\ t_height c = szsub (t_height r) 1.
Proof.
  unfold child. intros H.
  apply bind_ok in H. destruct H as (u1 & _ & H).
  apply bind_ok in H. destruct H as (p & _ & H).
  apply bind_ok in H. destruct H as (u2 & _ & H).
  change (0 =? 0) with true in H. cbv iota in H.
  apply bind_ok in H. destruct H as (s & Hs & H).
  apply sizes_at_eq in Hs.
  apply bind_ok in H. destruct H as (rk & _ & H).
  inversion H; subst. split; reflexivity.
Qed.

End sizes_only.

Section spread_counters.

Import bitvector.

Variable bpl : Z.
Hypothesis bpl_pos : 0 <= bpl.

(** The counters that the second loop of [redistribute_bits] writes into
    a window of cleared counters: they grow by at least [bits_per_leaf]
    from one child to the next and the last one is the number of bits
    spread. *)
Lemma spread_sizes (n : nat) :
  forall v r view i p popcnt rem count v' cnt',
    tree.params_ok v = true -> t_index r = 0 ->
    0 <= i -> i + Z.of_nat n <= degree v ->
    (forall j, i <= j < degree v -> packed_view.value (_sizes v) j = 0) ->
    0 <= p ->
    p + Z.of_nat n * (bpl + 1) < 2 ^ (counter_width v - 1) ->
    0 <= count < 2 ^ 64 ->
    spread_bits n v r view bpl i p popcnt rem count = Ok (v', cnt') ->
    tree.params_ok v' = true /\ frame.same v v'
    /\ (forall j, 0 <= j < i ->
          packed_view.value (_sizes v') j = packed_view.value (_sizes v) j)
    /\ (forall j, i + Z.of_nat n <= j < degree v ->
          packed_view.value (_sizes v') j = 0)
    /\ exists q,
         p + Z.of_nat n * bpl <= q <= p + Z.of_nat n * (bpl + 1)
         /\ cnt' = (count - (q - p)) mod 2 ^ 64
         /\ (n = O -> q = p)
         /\ (n <> O ->
             packed_view.value (_sizes v') (i + Z.of_nat n - 1) = q
             /\ p + bpl <= packed_view.value (_sizes v') i)
         /\ (forall j, i <= j -> j + 1 < i + Z.of_nat n ->
               packed_view.value (_sizes v') j + bpl
               <= packed_view.value (_sizes v') (j + 1)).
Proof.
  induction n as [|n IH];
    intros v r view i p popcnt rem count v' cnt' Hpar Hr Hi Hn Hz Hp Hbound
           Hcount H.
  - cbn [spread_bits] in H. inversion H; subst v' cnt'. clear H.
    split; [exact Hpar|]. split; [apply same_refl|].
    split; [reflexivity|]. split; [intros j Hj; apply Hz; lia|].
    exists p. split; [lia|]. split.
    { rewrite Z.sub_diag, Z.sub_0_r. symmetry. apply Z.mod_small.
      exact Hcount. }
    split; [reflexivity|]. split; [congruence|]. intros j H1 H2. lia.
  - cbn [spread_bits] in H.
    set (m := if negb (rem =? 0) then bpl + 1 else bpl).
    set (rem' := if negb (rem =? 0) then rem - 1 else rem).
    assert (Hm : bpl <= m <= bpl + 1)
      by (unfold m; destruct (negb (rem =? 0)); lia).
    assert (E : (if negb (rem =? 0) then (bpl + 1, rem - 1) else (bpl, rem))
                = (m, rem'))
      by (unfold m, rem'; destruct (negb (rem =? 0)); reflexivity).
    rewrite E in H. clear E. cbv beta iota in H.
    apply bind_ok in H. destruct H as (ptr & _ & H).
    apply bind_ok in H. destruct H as (v1 & H1 & H).
    apply bind_ok in H. destruct H as (ch & _ & H).
    apply bind_ok in H. destruct H as (v2 & H2 & H).
    apply bind_ok in H. destruct H as ([[v3 p3] pc3] & H3 & H).
    destruct (params_facts v Hpar) as (Hc & Hdc & Hd & Hdcw & Hws & _).
    (* the child, if it is missing *)
    assert (S1 : tree.params_ok v1 = true /\ frame.same v v1
                 /\ forall j, 0 <= j ->
                      packed_view.value (_sizes v1) j
                      = packed_view.value (_sizes v) j).
    { destruct (ptr =? 0).
      - pose proof (keeps_insert_child _ _ _ _ H1) as Hs.
        destruct (insert_child_zero_sizes v r i v1 Hpar Hr ltac:(lia) Hz H1)
          as [Hp1 Hi1].
        split; [exact Hp1|]. split; [exact Hs|exact Hi1].
      - inversion H1; subst v1. split; [exact Hpar|].
        split; [apply same_refl|]. reflexivity. }
    destruct S1 as (Hpar1 & Hs1 & Hi1).
    pose proof (keeps_set_leaf _ _ _ _ H2) as Hs2.
    pose proof (set_leaf_sizes _ _ _ _ H2) as Hz2.
    assert (Hd2 : degree v2 = degree v).
    { destruct Hs1 as (_ & _ & _ & _ & E1 & _).
      destruct Hs2 as (_ & _ & _ & _ & E2 & _).
      unfold degree. congruence. }
    rewrite Hd2 in H3.
    destruct (Z.ltb_spec i (degree v)) as [_|]; [|lia].
    apply bind_ok in H3. destruct H3 as (a1 & Ha1 & H3).
    apply bind_ok in H3. destruct H3 as (a2 & Ha2 & H3).
    inversion H3; subst v3 p3 pc3. clear H3.
    pose proof (keeps_add_sizes _ _ _ _ _ _ Ha1) as Hs3.
    pose proof (keeps_add_ranks _ _ _ _ _ _ Ha2) as Hs4.
    pose proof (add_ranks_sizes _ _ _ _ _ _ Ha2) as Hz4.
    apply add_sizes_eq in Ha1. destruct Ha1 as (_ & _ & Ea1).
    pose proof (same_trans _ _ _ Hs1 Hs2) as Hs12.
    pose proof (same_trans _ _ _ Hs12 (same_trans _ _ _ Hs3 Hs4)) as Hsame.
    assert (Hpar2 : tree.params_ok a2 = true).
    { apply (params_ok_keeps v1 a2); [|  |exact Hpar1].
      - exact (same_trans _ _ _ Hs2 (same_trans _ _ _ Hs3 Hs4)).
      - rewrite Hz4, Ea1. cbn [_sizes with_sizes]. rewrite Hz2.
        reflexivity. }
    assert (Hitems : forall j, 0 <= j ->
              packed_view.value (_sizes a2) j
              = if j =? i then p + m else packed_view.value (_sizes v) j).
    { intros j Hj. rewrite Hz4, Ea1. cbn [_sizes with_sizes].
      rewrite Hz2, Hr, Hd2.
      replace (0 * degree v + i) with i by lia.
      replace (0 * degree v + degree v) with (degree v) by lia.
      assert (Hw1 : packed_view.width (_sizes v1)
                    = packed_view.width (_sizes v)).
      { destruct Hs1 as (_ & _ & _ & _ & _ & _ & _ & E & _). exact E. }
      rewrite item_add_zero.
      - destruct (j =? i); [reflexivity|apply Hi1; exact Hj].
      - rewrite Hw1. lia.
      - lia.
      - rewrite Hw1. lia.
      - intros t Ht. rewrite Hi1 by lia. apply Hz. exact Ht.
      - rewrite Hw1, Hws. split; [lia|].
        apply Z.lt_trans with (2 ^ (counter_width v - 1));
          [|apply Z.pow_lt_mono_r; lia].
        nia.
      - exact Hj. }
    assert (Hcw : counter_width a2 = counter_width v).
    { destruct Hsame as (_ & _ & E & _). exact E. }
    assert (Hda : degree a2 = degree v).
    { destruct Hsame as (_ & _ & _ & _ & E & _). exact E. }
    destruct (IH a2 r view (i + 1) (p + m) (popcnt + bits.popcount
                 (packed_array.get view p (p + m))) rem' (szsub count m)
                 v' cnt' Hpar2 Hr ltac:(lia) ltac:(rewrite Hda; lia))
      as (Hpar' & Hsame' & Hlow & Hhigh & q & Hq & Hcnt & Hq0 & Hqn & Hchain).
    + intros j Hj. rewrite Hda in Hj. rewrite Hitems by lia.
      destruct (Z.eqb_spec j i); [lia|]. apply Hz. lia.
    + lia.
    + rewrite Hcw. nia.
    + unfold szsub. apply Z.mod_pos_bound. lia.
    + exact H.
    + split; [exact Hpar'|].
      split; [exact (same_trans _ _ _ Hsame Hsame')|].
      split.
      { intros j Hj. rewrite Hlow by lia. rewrite Hitems by lia.
        destruct (Z.eqb_spec j i); [lia|]. reflexivity. }
      split.
      { intros j Hj. apply Hhigh. rewrite Hda. lia. }
      assert (Hi' : packed_view.value (_sizes v') i = p + m).
      { rewrite Hlow by lia. rewrite Hitems by lia.
        rewrite Z.eqb_refl. reflexivity. }
      exists q. split; [nia|]. split.
      { rewrite Hcnt. unfold szsub.
        rewrite Zminus_mod_idemp_l. f_equal. lia. }
      split; [discriminate|]. split.
      { intros _. split; [|lia].
        destruct n as [|n'].
        - rewrite (Hq0 eq_refl).
          replace (i + Z.of_nat 1 - 1) with i by lia. exact Hi'.
        - destruct (Hqn ltac:(discriminate)) as [Hlast _].
          rewrite <- Hlast. f_equal. lia. }
      intros j Hj1 Hj2.
      destruct (Z.eq_dec j i) as [->|Hne].
      * rewrite Hi'. destruct n as [|n']; [lia|].
        destruct (Hqn ltac:(discriminate)) as [_ Hfirst]. lia.
      * apply Hchain; lia.
Qed.

End spread_counters.

Section lone_leaf_window.

Import bitvector.

Lemma sum_window_absent (n : nat) :
  forall v r i acc fs,
    (forall j, i <= j < i + Z.of_nat n -> tree.ptr v (t_index r) j = 0) ->
    sum_window n v r true W i acc = Ok fs ->
    fs = acc + W * Z.of_nat n.
Proof.
  induction n as [|n IH]; intros v r i acc fs Hz H; cbn [sum_window] in H.
  - inversion H; subst. lia.
  - apply bind_ok in H. destruct H as (c & Hc & H).
    unfold free_slots in Hc.
    apply bind_ok in Hc. destruct Hc as (p & Hp & Hc).
    apply pointers_at_ptr in Hp. rewrite (Hz i) in Hp by lia. subst p.
    change (0 =? 0) with true in Hc. cbv iota in Hc.
    inversion Hc; subst c.
    apply IH in H; [lia|]. intros j Hj. apply Hz. lia.
Qed.

Lemma lone_leaf_stripped v j :
  brim.lone_leaf v -> 0 <= j < degree v ->
  packed_array.get_stripped (_sizes v) j = _size v.
Proof.
  intros (_ & Hpar & Hc8 & _ & _ & Hsz & Hitems & _) Hj.
  destruct (params_facts v Hpar) as (Hc & _ & _ & _ & Hws & _).
  rewrite stripped_item, Hitems, Hws by exact Hj.
  apply lowbits_small; [lia|]. split; [lia|].
  apply Z.le_lt_trans with W; [lia|].
  change W with (2 ^ 6). apply Z.pow_lt_mono_r; lia.
Qed.

(** The window of the first redistribution is the whole node, and it
    holds the bits of the first leaf. *)
Lemma find_adjacent_children_lone v b e cnt :
  brim.lone_leaf v -> _size v = W ->
  find_adjacent_children v (root v) 0 = Ok (b, e, cnt) ->
  b = 0 /\ e = degree v /\ cnt = W.
Proof.
  intros Hl Hfull H. pose proof Hl as Hl0.
  destruct Hl as (Hro & Hpar & Hc8 & Hd & Hlb & Hsz & Hitems & Hp0 & Hpz).
  destruct Hro as (Hh & _).
  unfold find_adjacent_children in H.
  apply bind_ok in H. destruct H as (c & Hc & H).
  destruct (child_size_first _ _ _ Hc) as [Hcs Hch].
  cbn [root t_index t_height] in Hcs, Hch. rewrite Hh in Hch.
  replace (0 * degree v + 0) with 0 in Hcs by lia.
  rewrite (lone_leaf_stripped v 0 Hl0) in Hcs by lia.
  assert (Hleaf : is_leaf c = true).
  { unfold is_leaf. rewrite Hch. reflexivity. }
  cbv zeta in H. rewrite Hleaf in H. rewrite Hlb in H.
  destruct (Z.ltb_spec (degree v) 0) as [|_]; [lia|].
  replace (Z.min (0 + degree v) (degree v + 1)) with (degree v) in H by lia.
  replace (Z.to_nat (degree v - 0)) with (S (Z.to_nat (degree v - 1)))
    in H by lia.
  cbn [sum_window] in H.
  apply bind_ok in H. destruct H as (fs & Hfs & H).
  apply bind_ok in Hfs. destruct Hfs as (c0 & Hc0 & Hfs).
  assert (Ec0 : c0 = 0).
  { unfold free_slots in Hc0.
    apply bind_ok in Hc0. destruct Hc0 as (p & Hp & Hc0).
    apply pointers_at_ptr in Hp. cbn [root t_index] in Hp. subst p.
    destruct (Z.eqb_spec (tree.ptr v 0 0) 0) as [E|_]; [contradiction|].
    apply bind_ok in Hc0. destruct Hc0 as (c1 & Hc1 & Hc0).
    rewrite Hc in Hc1. inversion Hc1; subst c1.
    inversion Hc0; subst c0. rewrite Hcs, Hfull.
    unfold szsub. rewrite Z.sub_diag. reflexivity. }
  subst c0.
  apply sum_window_absent in Hfs;
    [|intros j Hj; cbn [root t_index]; apply Hpz; lia].
  apply bind_ok in H. destruct H as ([[[b1 e1] mfs] w] & Hs & H).
  assert (Es : (b1, e1, mfs, w) = (0, degree v, fs, (0, degree v))).
  { destruct (Z.to_nat (degree v + 1)); cbn [slide_window] in Hs;
      change (0 <? 0) with false in Hs; cbn [andb] in Hs;
      inversion Hs; reflexivity. }
  inversion Es; subst b1 e1 mfs w. clear Es Hs.
  apply bind_ok in H. destruct H as (u & _ & H).
  cbn [fst snd] in H. injection H as <- <- <-.
  split; [reflexivity|]. split; [reflexivity|].
  transitivity (szsub (W * degree v) fs); [reflexivity|].
  rewrite Hfs. unfold szsub.
  replace (W * degree v - (0 + 0 + W * Z.of_nat (Z.to_nat (degree v - 1))))
    with W by lia.
  reflexivity.
Qed.

End lone_leaf_window.

Section first_redistribution.

Import bitvector.

Lemma word_field_of_zero (w i : Z) : word_field w 0 i = 0.
Proof. unfold word_field. rewrite Zdiv_0_l, Zmod_0_l. reflexivity. Qed.

(** The counters after the redistribution of a full first leaf: they
    grow by at least [W / degree] from one child to the next, up to
    [W]. *)
Lemma make_room_lone v v1 :
  brim.lone_leaf v -> _size v = W ->
  make_room_in_leaves v (root v) 0 = Ok v1 ->
  tree.params_ok v1 = true /\ frame.same v v1
  /\ packed_view.value (_sizes v1) (degree v - 1) = W
  /\ W / degree v <= packed_view.value (_sizes v1) 0
  /\ (forall j, 0 <= j -> j + 1 < degree v ->
        packed_view.value (_sizes v1) j + W / degree v
        <= packed_view.value (_sizes v1) (j + 1)).
Proof.
  intros Hl Hfull H. pose proof Hl as Hl0.
  destruct Hl as (Hro & Hpar & Hc8 & Hd & Hlb & Hsz & Hitems & Hp0 & Hpz).
  destruct (params_facts v Hpar) as (Hc & Hdc & Hd0 & Hdcw & Hws & _).
  unfold make_room_in_leaves in H.
  apply bind_ok in H. destruct H as ([[b e] count] & Hf & H).
  destruct (find_adjacent_children_lone v b e count Hl0 Hfull Hf)
    as (-> & -> & ->).
  rewrite Hlb in H.
  destruct (Z.leb_spec (degree v * (W - degree v)) W) as [Hle|_];
    [unfold W in Hle; nia|].
  cbn [bind] in H.
  unfold redistribute_bits in H. cbv zeta in H.
  assert (Eb : szsub (degree v) 0 = degree v).
  { unfold szsub. rewrite Z.sub_0_r. apply Z.mod_small. lia. }
  rewrite Eb in H.
  apply bind_ok in H. destruct H as (u & _ & H).
  apply bind_ok in H. destruct H as (view0 & _ & H).
  apply bind_ok in H. destruct H as (view & _ & H).
  change (0 <? 0) with false in H. cbn [bind] in H.
  apply bind_ok in H. destruct H as (v2 & Hclear & H).
  apply bind_ok in H. destruct H as ([v3 cnt] & Hspread & H).
  apply bind_ok in H. destruct H as (u' & Hcnt & H).
  apply assert_ok, Z.eqb_eq in Hcnt. inversion H; subst v3. clear H.
  pose proof (keeps_clear_keys _ _ _ _ _ Hclear) as Hs2.
  unfold clear_keys in Hclear.
  apply bind_ok in Hclear. destruct Hclear as (va & Ha & Hb).
  pose proof (set_ranks_sizes _ _ _ _ _ _ Hb) as Ez2.
  apply set_sizes_eq in Ha. subst va.
  cbn [_sizes with_sizes root t_index] in Ez2.
  assert (Hpar2 : tree.params_ok v2 = true).
  { apply (params_ok_keeps v v2 Hs2); [|exact Hpar].
    rewrite Ez2. reflexivity. }
  assert (Hd2 : degree v2 = degree v).
  { destruct Hs2 as (_ & _ & _ & _ & E & _). exact E. }
  assert (Hc2 : counter_width v2 = counter_width v).
  { destruct Hs2 as (_ & _ & E & _). exact E. }
  assert (Hz2 : forall j, 0 <= j < degree v2 ->
                  packed_view.value (_sizes v2) j = 0).
  { intros j Hj. rewrite Hd2 in Hj. rewrite Ez2. unfold packed_array.store.
    rewrite item_set by lia.
    destruct (Z.leb_spec (0 * degree v + 0) j);
      destruct (Z.ltb_spec j (0 * degree v + degree v)); try lia.
    cbn [andb]. apply word_field_of_zero. }
  set (bpl := W / degree v) in *.
  assert (Hbpl : 0 <= bpl) by (apply Z.div_pos; [unfold W|]; lia).
  assert (Hmul : degree v * bpl <= W)
    by (unfold bpl; apply Z.mul_div_le; lia).
  assert (H128 : 2 ^ 7 <= 2 ^ (counter_width v - 1))
    by (apply Z.pow_le_mono_r; lia).
  replace (Z.to_nat (degree v - 0)) with (Z.to_nat (degree v)) in Hspread
    by lia.
  destruct (spread_sizes bpl Hbpl (Z.to_nat (degree v)) v2 (root v) view 0 0
              0 (W mod degree v) W v1 cnt Hpar2 eq_refl (Z.le_refl 0))
    as (Hpar1 & Hs1 & _ & _ & q & Hq & Hcq & _ & Hqn & Hchain).
  - rewrite Hd2. lia.
  - intros j Hj. apply Hz2. lia.
  - lia.
  - rewrite Hc2. unfold W in Hmul. change (2 ^ 7) with 128 in H128. nia.
  - unfold W. lia.
  - exact Hspread.
  - rewrite Z2Nat.id in * by lia.
    assert (Eq : q = W).
    { rewrite Hcnt in Hcq. unfold W in *.
      destruct (Z.eq_dec q 64) as [E|E]; [exact E|exfalso].
      destruct (Z.le_gt_cases q 64).
      - rewrite Z.mod_small in Hcq by lia. lia.
      - assert (E1 : (64 - (q - 0)) mod 2 ^ 64 = 2 ^ 64 + (64 - q)).
        { symmetry. apply (Z.mod_unique _ _ (-1)); lia. }
        rewrite E1 in Hcq. lia. }
    destruct (Hqn ltac:(lia)) as [Hlast Hfirst].
    split; [exact Hpar1|]. split; [exact (same_trans _ _ _ Hs2 Hs1)|].
    split; [rewrite <- Eq, <- Hlast; f_equal; lia|].
    split; [lia|]. intros j Hj1 Hj2. apply Hchain; lia.
Qed.

End first_redistribution.

Section lone_leaf_steps.

Import bitvector.

Lemma index_mask_fm v :
  tree.params_ok v = true ->
  index_mask v = fm (Z.to_nat (degree v)) (packed_view.width (_sizes v)).
Proof.
  intros Hpar.
  destruct (params_facts v Hpar) as (Hc & Hdc & _ & _ & Hws & Hm & _).
  unfold index_mask, packed_array.index_mask.
  rewrite Hm, compute_field_mask_fm, Hws, Hdc by lia. reflexivity.
Qed.

(** The counters after [sizes(k, degree()) += index_mask()]. *)
Lemma add_mask_sizes v r k v2 :
  tree.params_ok v = true -> t_index r = 0 -> 0 <= k ->
  (forall j, 0 <= j < degree v ->
     0 <= packed_view.value (_sizes v) j <= W + 1) ->
  8 <= counter_width v ->
  add_sizes v r k (degree v) (index_mask v) = Ok v2 ->
  k < degree v /\ frame.same v v2 /\ tree.params_ok v2 = true
  /\ _pointers v2 = _pointers v
  /\ forall j, 0 <= j < degree v ->
       packed_view.value (_sizes v2) j
       = packed_view.value (_sizes v) j + (if k <=? j then 1 else 0).
Proof.
  intros Hpar Hr Hk Hitems Hc8 H.
  destruct (params_facts v Hpar) as (Hc & Hdc & Hd & Hdcw & Hws & _).
  pose proof (keeps_add_sizes _ _ _ _ _ _ H) as Hs.
  apply add_sizes_eq in H. destruct H as (Hkd & _ & ->).
  split; [exact Hkd|]. split; [exact Hs|].
  split; [apply (params_ok_keeps v _ Hs); [reflexivity|exact Hpar]|].
  split; [reflexivity|].
  intros j Hj. cbn [_sizes with_sizes].
  rewrite Hr, (index_mask_fm v Hpar).
  rewrite add_mask_items.
  - replace (0 * degree v + k) with k by lia.
    replace (0 * degree v + degree v) with (degree v) by lia.
    destruct (Z.leb_spec k j); destruct (Z.ltb_spec j (degree v));
      cbn [andb]; lia.
  - rewrite Hws. lia.
  - lia.
  - rewrite Hws. nia.
  - lia.
  - intros t Ht. rewrite Hws.
    assert (2 ^ 8 <= 2 ^ counter_width v)
      by (apply Z.pow_le_mono_r; lia).
    pose proof (Hitems t ltac:(lia)). unfold W in *.
    change (2 ^ 8) with 256 in *. lia.
  - lia.
Qed.

(** The steps of an insertion that returns on a vector whose bits are
    all in the first leaf. *)
Lemma lone_insert_steps v index bit v' :
  brim.lone_leaf v -> insert v index bit = Ok v' ->
  exists v1 k1 v2,
    ((_size v <> W /\ v1 = v /\ k1 = 0)
     \/ (_size v = W /\ make_room_in_leaves v (root v) 0 = Ok v1
         /\ 0 <= k1))
    /\ add_sizes v1 (root v) k1 (degree v1) (index_mask v1) = Ok v2
    /\ _sizes v' = _sizes v2 /\ _pointers v' = _pointers v2
    /\ frame.same v2 v'.
Proof.
  intros Hl H. pose proof Hl as Hl0.
  destruct Hl as (Hro & Hpar & Hc8 & Hd & Hlb & Hsz & Hitems & Hp0 & Hpz).
  pose proof Hro as (Hh & _).
  unfold insert in H. rewrite Hh in H.
  change (Z.to_nat 1 + 3)%nat with 4%nat in H.
  destruct (nkeys v (root v)) as [n|e] eqn:Hn;
    [|cbn [insert_at] in H; rewrite Hn in H; discriminate].
  destruct (Z.eq_dec n (degree v)) as [->|Hne].
  { exfalso. exact (full_root_aborts_at _ v index bit v' Hro Hn H). }
  cbn [insert_at] in H. rewrite Hn in H. cbn [bind] in H.
  destruct (Z.eqb_spec n (degree v)) as [E|_]; [contradiction|].
  apply bind_ok in H. destruct H as ([k ni] & Hfip & H).
  apply find_insert_point_is_node in Hfip. cbn [fst] in Hfip.
  destruct Hfip as [_ Hk0].
  cbn [root t_height] in H. rewrite Hh in H.
  change (1 =? 1) with true in H. cbv iota in H.
  apply bind_ok in H. destruct H as (c & Hc & H).
  assert (Ek : k = 0).
  { pose proof Hc as Hc'. apply child_ptr in Hc'.
    destruct Hc' as (Hkd & _ & Hnz & _). cbn [t_index] in Hnz.
    destruct (Z.eq_dec k 0) as [E|E]; [exact E|].
    exfalso. apply Hnz. apply Hpz. lia. }
  subst k.
  assert (Hcs : t_size c = _size v).
  { destruct (child_size_first _ _ _ Hc) as [Hcs _].
    cbn [root t_index] in Hcs.
    replace (0 * degree v + 0) with 0 in Hcs by lia.
    rewrite (lone_leaf_stripped v 0 Hl0) in Hcs by lia. exact Hcs. }
  rewrite Hcs in H.
  apply bind_ok in H. destruct H as ([[v1 k1] ni1] & H1 & H).
  apply bind_ok in H. destruct H as (v2 & H2 & H).
  apply bind_ok in H. destruct H as (v3 & H3 & H).
  apply bind_ok in H. destruct H as (c' & _ & H).
  apply bind_ok in H. destruct H as (w & _ & H).
  apply bind_ok in H. destruct H as (v4 & H4 & H).
  inversion H; subst v'. clear H.
  exists v1, k1, v2. split.
  { destruct (Z.eqb_spec (_size v) W) as [E|E].
    - right. split; [exact E|].
      apply bind_ok in H1. destruct H1 as (va & Ha & H1).
      apply bind_ok in H1. destruct H1 as ([kb nb'] & Hfip1 & H1).
      inversion H1; subst va kb nb'.
      apply find_insert_point_is_node in Hfip1. cbn [fst] in Hfip1.
      split; [|lia]. exact Ha.
    - left. inversion H1; subst. repeat split. exact E. }
  split; [exact H2|].
  pose proof (add_ranks_sizes _ _ _ _ _ _ H3) as E3.
  pose proof (set_leaf_sizes _ _ _ _ H4) as E4.
  pose proof (keeps_add_ranks _ _ _ _ _ _ H3) as S3.
  pose proof (keeps_set_leaf _ _ _ _ H4) as S4.
  split; [cbn [_sizes with_size_rank]; congruence|].
  split.
  { cbn [_pointers with_size_rank].
    unfold add_ranks, ranks_range in H3. unfold set_leaf in H4.
    inv_ok. destruct (Nat.ltb _ _); inv_ok. reflexivity. }
  apply (same_trans _ _ _ S3). apply (same_trans _ _ _ S4).
  repeat split; cbn; lia.
Qed.

End lone_leaf_steps.

Section lone_leaf_kept.

Import bitvector.

(** An insertion below [W] bits leaves all the bits in the first leaf. *)
Lemma lone_leaf_insert v index bit v' :
  brim.lone_leaf v -> _size v <> W -> insert v index bit = Ok v' ->
  brim.lone_leaf v'.
Proof.
  intros Hl Hnf H. pose proof Hl as Hl0.
  destruct (lone_insert_steps v index bit v' Hl H)
    as (v1 & k1 & v2 & Hcase & Hadd & Es & Ep & Hs2).
  destruct Hcase as [(_ & -> & ->)|(E & _)]; [|contradiction].
  destruct Hl as (Hro & Hpar & Hc8 & Hd & Hlb & Hsz & Hitems & Hp0 & Hpz).
  destruct (add_mask_sizes v (root v) 0 v2 Hpar eq_refl (Z.le_refl 0))
    as (_ & Hs1 & Hpar2 & Ep2 & Hitems2); [| |exact Hadd|].
  { intros j Hj. rewrite Hitems by exact Hj. lia. }
  { exact Hc8. }
  pose proof (same_trans _ _ _ Hs1 Hs2) as Hs.
  unfold insert in H.
  destruct (insert_at_counters _ _ _ _ _ _ H) as [Hsize _].
  pose proof Hs as (_ & _ & Ec & _ & Ed & El & _).
  fold (counter_width v') in Ec. fold (counter_width v) in Ec.
  fold (degree v') in Ed. fold (degree v) in Ed.
  split; [exact (insert_root_only v index bit v' Hro H)|].
  split.
  { apply (params_ok_keeps v2 v' Hs2); [rewrite Es; reflexivity|].
    exact Hpar2. }
  split; [lia|]. split; [lia|]. split; [congruence|].
  split; [lia|]. split.
  { intros j Hj. rewrite Ed in Hj. rewrite Es, Hitems2 by exact Hj.
    rewrite Hitems by exact Hj.
    destruct (Z.leb_spec 0 j); lia. }
  unfold tree.ptr. rewrite Ep, Ep2, Ed. split; [exact Hp0|exact Hpz].
Qed.

Lemma all_set_ptr (k : Z) :
  0 <= k < W -> packed_array.get brim.all_set k (k + 1) <> 0.
Proof.
  intros Hk.
  assert (H : forallb (fun k => negb (packed_array.get brim.all_set k (k + 1)
                                      =? 0)) (tree.range W) = true)
    by (vm_compute; reflexivity).
  rewrite forallb_range in H. specialize (H k Hk).
  apply negb_true_iff, Z.eqb_neq in H. exact H.
Qed.

Lemma params_ok_with_pointers v a :
  tree.params_ok v = true -> 0 <= packed_view.width a ->
  tree.params_ok (with_pointers v a) = true.
Proof.
  intros H Ha. unfold tree.params_ok, counter_width, degree in *.
  cbn [with_pointers _counter_width _degree _sizes _pointers _ranks
       _height].
  repeat (apply andb_prop in H; destruct H as [H ?]).
  repeat (apply andb_true_intro; split); try assumption.
  apply Z.leb_le. exact Ha.
Qed.

Lemma chain_bound (f : Z -> Z) (b d : Z) :
  (forall j, 0 <= j -> j + 1 < d -> f j + b <= f (j + 1)) ->
  forall t : nat, forall j,
    0 <= j -> j + Z.of_nat t = d - 1 -> f j + Z.of_nat t * b <= f (d - 1).
Proof.
  intros Hchain t. induction t as [|t IH]; intros j Hj Ht.
  - replace j with (d - 1) by lia. lia.
  - specialize (IH (j + 1) ltac:(lia) ltac:(lia)).
    specialize (Hchain j Hj ltac:(lia)). lia.
Qed.

(** The insertion into a full first leaf fills the root: its counters
    spread the [W] bits over all the children. *)
Lemma lone_leaf_fills v index bit v' :
  brim.lone_leaf v -> _size v = W -> insert v index bit = Ok v' ->
  brim.full v'.
Proof.
  intros Hl Hfull H. pose proof Hl as Hl0.
  destruct (lone_insert_steps v index bit v' Hl H)
    as (v1 & k1 & v2 & Hcase & Hadd & Es & Ep & Hs2).
  destruct Hcase as [(E & _)|(_ & Hroom & Hk1)]; [contradiction|].
  destruct (make_room_lone v v1 Hl0 Hfull Hroom)
    as (Hpar1 & Hs1 & Hlast & Hfirst & Hchain).
  destruct Hl as (Hro & Hpar & Hc8 & Hd & Hlb & Hsz & Hitems & Hp0 & Hpz).
  pose proof Hs1 as (_ & _ & Ec1 & _ & Ed1 & _).
  fold (counter_width v1) in Ec1. fold (counter_width v) in Ec1.
  fold (degree v1) in Ed1. fold (degree v) in Ed1.
  set (bpl := W / degree v) in *.
  assert (Hbpl : 9 <= bpl).
  { unfold bpl. apply Z.div_le_lower_bound; unfold W; lia. }
  assert (Hrange : forall j, 0 <= j < degree v ->
            bpl <= packed_view.value (_sizes v1) j
            /\ packed_view.value (_sizes v1) j
               + (degree v - 1 - j) * bpl <= W).
  { intros j Hj. split.
    - pose proof (chain_bound (fun t => packed_view.value (_sizes v1) t)
                    bpl (j + 1)
                    ltac:(intros t Ht1 Ht2; apply Hchain; lia)
                    (Z.to_nat j) 0 ltac:(lia) ltac:(lia)) as Hb.
      cbv beta in Hb. rewrite Z2Nat.id in Hb by lia.
      replace (j + 1 - 1) with j in Hb by lia. nia.
    - pose proof (chain_bound (fun t => packed_view.value (_sizes v1) t)
                    bpl (degree v) Hchain (Z.to_nat (degree v - 1 - j)) j
                    ltac:(lia) ltac:(lia)) as Hb.
      cbv beta in Hb. rewrite Z2Nat.id in Hb by lia.
      rewrite Hlast in Hb. lia. }
  assert (Hc1 : 8 <= counter_width v1) by lia.
  destruct (add_mask_sizes v1 (root v) k1 v2 Hpar1 eq_refl Hk1)
    as (Hk1d & Hs12 & Hpar2 & _ & Hitems2); [| |exact Hadd|].
  { intros j Hj. rewrite Ed1 in Hj. destruct (Hrange j Hj). nia. }
  { exact Hc1. }
  rewrite Ed1 in Hk1d, Hitems2.
  pose proof (insert_root_only v index bit v' Hro H) as Hro'.
  pose proof Hro' as (Hh' & _).
  unfold insert in H.
  destruct (insert_at_counters _ _ _ _ _ _ H) as [Hsize _].
  split; [exact Hro'|]. split; [lia|].
  pose proof (same_trans _ _ _ Hs12 Hs2) as Hs1'.
  pose proof Hs1' as (_ & _ & Ec' & _ & Ed' & _).
  fold (counter_width v') in Ec'. fold (counter_width v1) in Ec'.
  fold (degree v') in Ed'. fold (degree v1) in Ed'.
  assert (Hpar' : tree.params_ok v' = true).
  { apply (params_ok_keeps v2 v' Hs2); [rewrite Es; reflexivity|].
    exact Hpar2. }
  set (v'' := with_pointers v' brim.all_set).
  assert (Hpar'' : tree.params_ok v'' = true).
  { apply params_ok_with_pointers; [exact Hpar'|]. cbn. lia. }
  destruct (params_facts v' Hpar') as (Hc' & _ & _ & _ & Hws' & _).
  assert (Hd' : degree v' = degree v) by lia.
  assert (H128 : 2 ^ 7 <= 2 ^ (counter_width v' - 1))
    by (apply Z.pow_le_mono_r; lia).
  change (2 ^ 7) with 128 in H128.
  set (g := fun j => packed_view.value (_sizes v1) j
                     + (if k1 <=? j then 1 else 0)).
  assert (Hg : forall j, 0 <= j < degree v ->
                 tree.cum v'' 0 (W + 1) j = g j).
  { intros j Hj. unfold tree.cum.
    change (degree v'') with (degree v'). rewrite Hd'.
    destruct (Z.ltb_spec j 0); [lia|].
    destruct (Z.ltb_spec j (degree v)); [|lia].
    change (_sizes v'') with (_sizes v').
    rewrite stripped_item, Hws', Es.
    replace (0 * degree v + j) with j by lia.
    rewrite Hitems2 by exact Hj. fold (g j).
    apply lowbits_small; [lia|].
    destruct (Hrange j Hj). unfold g, W in *.
    destruct (k1 <=? j); nia. }
  assert (Hglast : g (degree v - 1) = W + 1).
  { unfold g. rewrite Hlast. destruct (Z.leb_spec k1 (degree v - 1)); lia. }
  assert (Hgsmall : forall j, 0 <= j < degree v - 1 -> g j < W - 1).
  { intros j Hj. destruct (Hrange j ltac:(lia)). unfold g.
    destruct (k1 <=? j); nia. }
  assert (Hgpos : 0 < g 0).
  { unfold g. destruct (Hrange 0 ltac:(lia)). destruct (k1 <=? 0); lia. }
  assert (Hgmono : forall j, 0 <= j -> j + 1 < degree v -> g j < g (j + 1)).
  { intros j Hj1 Hj2. specialize (Hchain j Hj1 Hj2). unfold g.
    destruct (Z.leb_spec k1 j); destruct (Z.leb_spec k1 (j + 1)); lia. }
  assert (Hnode : tree.node_ok v'' 0 (W + 1) = true).
  { apply node_ok_intro; [lia| |].
    - change (counter_width v'') with (counter_width v'). unfold W. lia.
    - change (degree v'') with (degree v'). rewrite Hd'.
      intros k Hk.
      assert (Hptr : tree.ptr v'' 0 k <> 0).
      { unfold tree.ptr. change (_pointers v'') with brim.all_set.
        change (degree v'') with (degree v'). rewrite Hd'.
        apply all_set_ptr. unfold W. lia. }
      split; [|split; [|intros _; exact Hptr]].
      + destruct (Z.eq_dec k 0) as [->|Hk0].
        * rewrite (Hg 0) by lia. unfold tree.cum at 1.
          change (0 - 1 <? 0) with true. cbv iota. lia.
        * destruct (Z.eq_dec k (degree v)) as [->|Hkd].
          -- rewrite (Hg (degree v - 1)) by lia. rewrite Hglast.
             unfold tree.cum. change (degree v'') with (degree v').
             rewrite Hd'. destruct (Z.ltb_spec (degree v) 0); [lia|].
             rewrite Z.ltb_irrefl. lia.
          -- rewrite (Hg (k - 1)), (Hg k) by lia.
             pose proof (Hgmono (k - 1) ltac:(lia) ltac:(lia)) as Hm.
             replace (k - 1 + 1) with k in Hm by lia. lia.
      + intros Hlt. destruct (Z.eq_dec k 0) as [->|Hk0].
        * rewrite (Hg 0) by lia. unfold tree.cum at 1.
          change (0 - 1 <? 0) with true. cbv iota. lia.
        * destruct (Z.eq_dec k (degree v)) as [->|Hkd].
          -- rewrite (Hg (degree v - 1)) in Hlt by lia. lia.
          -- rewrite (Hg (k - 1)), (Hg k) by lia.
             pose proof (Hgmono (k - 1) ltac:(lia) ltac:(lia)) as Hm.
             replace (k - 1 + 1) with k in Hm by lia. lia. }
  destruct (nkeys_pos v'' Hpar'' 0 1 (W + 1) (_rank v') Hnode
              ltac:(split; [lia|reflexivity]) ltac:(unfold W; lia))
    as (k & Hk & Hbelow & Habove & Hnk).
  change (degree v'') with (degree v') in Hk, Hnk.
  assert (Ek : degree v - 1 <= k).
  { destruct (Z.le_gt_cases (degree v - 1) k) as [E|E]; [exact E|].
    rewrite (Hg k) in Habove by lia.
    pose proof (Hgsmall k ltac:(lia)). lia. }
  replace (Z.min (k + 1) (degree v')) with (degree v') in Hnk by lia.
  unfold root. rewrite Hh', Hsize, Hfull. exact Hnk.
Qed.

End lone_leaf_kept.

Section size_bound.

Import bitvector.

Lemma make_lone_leaf (capacity : Z) (v : t) :
  128 < capacity <= 2 ^ 20 -> make capacity = Ok v -> brim.lone_leaf v.
Proof.
  intros Hcap H.
  pose proof (make_root_only capacity v H) as Hro.
  destruct (make_inv capacity v H)
    as (c & pw & d & lb & nb & nodes & Ev & Hc & Hd & Hd0 & Hpw & _ & _
        & Ec & Elb & _).
  assert (Hlog : 8 <= Z.log2_up capacity <= 20).
  { split.
    - change 8 with (Z.log2_up 129). apply Z.log2_up_le_mono. lia.
    - change 20 with (Z.log2_up (2 ^ 20)). apply Z.log2_up_le_mono. lia. }
  assert (Hc9 : 9 <= c <= 21) by lia.
  assert (Hd37 : 3 <= d <= 7).
  { rewrite Hd. split.
    - apply Z.div_le_lower_bound; unfold W; lia.
    - assert (W / c < 8); [|lia].
      apply Z.div_lt_upper_bound; unfold W; lia. }
  assert (Elb' : lb = d).
  { rewrite Elb. change (Z.sqrt_up W) with 8. lia. }
  subst v.
  split; [exact Hro|].
  split; [apply fresh_params; [unfold W; lia|exact Hd|exact Hpw]|].
  set (f := flat.fresh capacity c pw d lb nb nodes) in *.
  change (counter_width f) with c. change (degree f) with d.
  change (_leaves_buffer f) with lb. change (_size f) with 0.
  change (_sizes f) with (packed_array.zeroed c (nodes * d)).
  split; [lia|]. split; [lia|]. split; [exact Elb'|].
  split; [unfold W; lia|]. split.
  { intros j Hj. unfold packed_view.value. apply blank_get. }
  unfold f.
  split.
  - rewrite fresh_ptr by lia. discriminate.
  - intros j Hj. rewrite fresh_ptr by lia.
    destruct (Z.eqb_spec j 0); [lia|reflexivity].
Qed.

Lemma reachable_brim v :
  reachable v -> 128 < _capacity v <= 2 ^ 20 ->
  brim.lone_leaf v \/ brim.full v.
Proof.
  induction 1 as [capacity v H|v index bit v' _ IH H]; intros Hcap.
  - left. apply (make_lone_leaf capacity v); [|exact H].
    destruct (make_inv capacity v H)
      as (c & pw & d & lb & nb & nodes & Ev & _).
    subst v. exact Hcap.
  - assert (Ecap : _capacity v' = _capacity v).
    { unfold insert in H.
      destruct (insert_at_parameters _ _ _ _ _ _ H) as (E & _). exact E. }
    rewrite Ecap in Hcap.
    destruct (IH Hcap) as [Hl|(Hro & _ & Hfull)].
    + destruct (Z.eq_dec (_size v) W) as [E|E].
      * right. exact (lone_leaf_fills v index bit v' Hl E H).
      * left. exact (lone_leaf_insert v index bit v' Hl E H).
    + exfalso. unfold insert in H.
      exact (full_root_aborts_at _ v index bit v' Hro Hfull H).
Qed.

End size_bound.

(** X21.  For a capacity from 129 to [2^20], no vector that the constructor
    and calls of [insert] can produce holds more than [W + 1 = 65] bits,
    far below its capacity; and on a vector of 65 bits no [insert]
    returns.  The first leaf takes [W] bits, the next insertion spreads
    them over all the children of the root, and the root is then full
    for good. *)
Theorem reachable_size_bound (v : bitvector.t) :
  reachable v -> 128 < bitvector.capacity v <= 2 ^ 20 ->
  bitvector.size v <= W + 1
  /\ (bitvector.size v = W + 1 ->
      forall index bit, exists e, bitvector.insert v index bit = Err e).
Proof.
  intros Hr Hcap.
  destruct (reachable_brim v Hr Hcap) as [Hl|Hf].
  - destruct Hl as (_ & _ & _ & _ & _ & Hsz & _).
    unfold bitvector.size. split; [lia|]. intros E. lia.
  - destruct Hf as (Hro & Hsz & Hfull).
    unfold bitvector.size. split; [lia|]. intros _ index bit.
    destruct (bitvector.insert v index bit) as [v'|e] eqn:H.
    + exfalso. unfold bitvector.insert in H.
      exact (full_root_aborts_at _ v index bit v' Hro Hfull H).
    + exists e. reflexivity.
Qed.

(** X21 at [v65]. *)
Lemma reachable_size_bound_witness :
  bitvector.size samples.v65 <= W + 1
  /\ (bitvector.size samples.v65 = W + 1 ->
      forall index bit,
      exists e, bitvector.insert samples.v65 index bit = Err e).
Proof.
  apply (reachable_size_bound samples.v65).
  - apply (reachable_run 1000 (samples.alternating 65 0 false) samples.v0);
      vm_compute; reflexivity.
  - vm_compute. split; [reflexivity|discriminate].
Defined.

(** * The calls of [find_adjacent_children] *)

Section quiet_steps.

Import bitvector.

Lemma quiet_refl v : narrow.quiet v v.
Proof. split; [apply same_refl|]. split; reflexivity. Qed.

Lemma quiet_trans v1 v2 v3 :
  narrow.quiet v1 v2 -> narrow.quiet v2 v3 -> narrow.quiet v1 v3.
Proof.
  intros (Hs1 & Hp1 & Hl1) (Hs2 & Hp2 & Hl2).
  split; [exact (same_trans _ _ _ Hs1 Hs2)|]. split; congruence.
Qed.

Lemma quiet_set_sizes v r b e x v' :
  set_sizes v r b e x = Ok v' -> narrow.quiet v v'.
Proof.
  intros H. split; [exact (keeps_set_sizes v r b e x v' H)|].
  apply set_sizes_eq in H. subst v'. split; reflexivity.
Qed.

Lemma quiet_set_ranks v r b e x v' :
  set_ranks v r b e x = Ok v' -> narrow.quiet v v'.
Proof.
  intros H. split; [exact (keeps_set_ranks v r b e x v' H)|].
  apply set_ranks_eq in H. subst v'. split; reflexivity.
Qed.

Lemma quiet_add_sizes v r b e x v' :
  add_sizes v r b e x = Ok v' -> narrow.quiet v v'.
Proof.
  intros H. split; [exact (keeps_add_sizes v r b e x v' H)|].
  unfold add_sizes, sizes_range in H. inv_ok. split; reflexivity.
Qed.

Lemma quiet_add_ranks v r b e x v' :
  add_ranks v r b e x = Ok v' -> narrow.quiet v v'.
Proof.
  intros H. split; [exact (keeps_add_ranks v r b e x v' H)|].
  unfold add_ranks, ranks_range in H. inv_ok. split; reflexivity.
Qed.

Lemma quiet_clear_keys v r b e v' :
  clear_keys v r b e = Ok v' -> narrow.quiet v v'.
Proof.
  unfold clear_keys. intros H.
  apply bind_ok in H. destruct H as (v1 & H1 & H2).
  exact (quiet_trans _ _ _ (quiet_set_sizes _ _ _ _ _ _ H1)
           (quiet_set_ranks _ _ _ _ _ _ H2)).
Qed.

Lemma quiet_set_leaf v r x v' :
  set_leaf v r x = Ok v' -> narrow.quiet v v'.
Proof.
  intros H. split; [exact (keeps_set_leaf v r x v' H)|].
  unfold set_leaf in H. inv_ok.
  destruct (Nat.ltb _ _); inv_ok.
  split; [reflexivity|]. cbn [with_leaves _leaves].
  apply list_set_length.
Qed.

Lemma quiet_ptr v v' k :
  narrow.quiet v v' -> tree.ptr v' 0 k = tree.ptr v 0 k.
Proof.
  intros (Hs & Hp & _). unfold tree.ptr, degree.
  destruct Hs as (_ & _ & _ & _ & Hd & _). rewrite Hp, Hd. reflexivity.
Qed.

Lemma quiet_first_leaf_b v v' :
  narrow.quiet v v' -> narrow.first_leaf_b v' = narrow.first_leaf_b v.
Proof.
  intros (Hs & Hp & Hl).
  destruct Hs as (_ & _ & _ & Hpw & Hd & Hlb & _).
  unfold narrow.first_leaf_b, tree.ptr, degree, pointer_width.
  rewrite Hp, Hl, Hpw, Hd, Hlb. reflexivity.
Qed.

End quiet_steps.

Section leaf_children.

Import bitvector.

Lemma pointers_at_read u r k :
  is_node r = true -> 0 <= k <= degree u ->
  pointers_at u r k = Ok (tree.ptr u (t_index r) k).
Proof.
  intros Hn Hk. unfold pointers_at, pointers_range. rewrite Hn.
  cbn [assert bind].
  destruct (Z.eqb_spec k (k + 1)); [lia|]. cbn [orb].
  destruct (Z.ltb_spec k (degree u + 1)); [|lia].
  destruct (Z.leb_spec (k + 1) (degree u + 1)); [|lia].
  cbn [assert bind]. unfold tree.ptr. rewrite Z.add_assoc. reflexivity.
Qed.

(** [insert_child(k)] on a root of height 1 whose pointers from [k] on are
    null: the new leaf is the next of [_leaves], pointer [k] holds its
    index cut to the width of a pointer, and the pointers after it are
    still null. *)
Lemma insert_child_leaf v r k v' :
  t_index r = 0 -> t_height r = 1 ->
  0 < packed_view.width (_pointers v) ->
  pointer_width v = packed_view.width (_pointers v) ->
  (degree v + 1) * packed_view.width (_pointers v) <= W ->
  0 <= k < degree v ->
  (forall j, k <= j <= degree v -> tree.ptr v 0 j = 0) ->
  insert_child v r k = Ok v' ->
  frame.same v v'
  /\ length (_leaves v') = S (length (_leaves v))
  /\ tree.ptr v' 0 k
     = bits.lowbits (Z.of_nat (length (_leaves v)))
                    (packed_view.width (_pointers v))
  /\ (forall j, k + 1 <= j <= degree v -> tree.ptr v' 0 j = 0)
  /\ (forall j, 0 <= j < k -> tree.ptr v' 0 j = tree.ptr v 0 j).
Proof.
  intros Hidx Hh Hwp Hpw Hdw Hk Hz H.
  split; [exact (keeps_insert_child v r k v' H)|].
  set (d := degree v) in *.
  set (wp := packed_view.width (_pointers v)) in *.
  unfold insert_child in H.
  apply bind_ok in H. destruct H as (u1 & _ & H).
  apply bind_ok in H. destruct H as (u2 & _ & H).
  apply bind_ok in H. destruct H as (v5 & H1 & H).
  fold d in H1. destruct (Z.ltb_spec k d) as [_|]; [|lia].
  apply bind_ok in H1. destruct H1 as (s & _ & H1).
  apply bind_ok in H1. destruct H1 as (rk & _ & H1).
  apply bind_ok in H1. destruct H1 as (v1 & Ha & H1).
  apply shl_sizes_eq in Ha. subst v1.
  apply bind_ok in H1. destruct H1 as (v2 & Ha & H1).
  apply shl_ranks_eq in Ha. subst v2.
  apply bind_ok in H1. destruct H1 as (v3 & Ha & H1).
  apply shl_pointers_eq in Ha. subst v3.
  apply bind_ok in H1. destruct H1 as (v4 & Ha & H1).
  apply set_sizes_eq in Ha. subst v4.
  apply set_ranks_eq in H1. subst v5.
  rewrite Hh in H. change (1 =? 1) with true in H. cbv iota in H.
  apply bind_ok in H. destruct H as ([n' v6] & Halloc & H).
  inversion Halloc; subst n' v6. clear Halloc.
  apply set_pointers_eq in H.
  assert (Hl' : _leaves v' = _leaves v ++ [0]) by (rewrite H; reflexivity).
  assert (Hd' : degree v' = d) by (rewrite H; reflexivity).
  assert (Hp' : _pointers v'
                = packed_array.store
                    (packed_array.store_shl (_pointers v)
                       (0 * (d + 1) + (k + 1)) (0 * (d + 1) + (d + 1)) wp)
                    (0 * (d + 1) + k) (0 * (d + 1) + (k + 1))
                    (Z.of_nat (length (_leaves v)))).
  { rewrite H, Hidx, <- Hpw. reflexivity. }
  clear H.
  split; [rewrite Hl', length_app; cbn [length]; lia|].
  assert (Hptr : forall j, 0 <= j <= d ->
            tree.ptr v' 0 j
            = if j <? k then tree.ptr v 0 j
              else if j =? k
                   then bits.lowbits (Z.of_nat (length (_leaves v))) wp
                   else if j =? k + 1 then 0 else tree.ptr v 0 (j - 1)).
  { intros j Hj. unfold tree.ptr. rewrite Hd', Hp'. fold d.
    change (packed_array.get ?x ?b (?b + 1)) with (packed_view.value x b).
    unfold packed_array.store.
    rewrite item_set; [|change (0 < wp); exact Hwp|nia|nia].
    change (packed_view.width
              (packed_array.store_shl (_pointers v)
                 (0 * (d + 1) + (k + 1))
                 (0 * (d + 1) + (d + 1)) wp)) with wp.
    rewrite (item_shl (_pointers v) Hwp); fold wp; [|nia|nia|nia].
    destruct (Z.ltb_spec j k).
    + destruct (Z.leb_spec (0 * (d + 1) + k) (0 * (d + 1) + j)); [lia|].
      cbn [andb].
      destruct (Z.leb_spec (0 * (d + 1) + (k + 1)) (0 * (d + 1) + j));
        [lia|]. reflexivity.
    + destruct (Z.eqb_spec j k) as [->|Hne].
      * rewrite Z.leb_refl.
        destruct (Z.ltb_spec (0 * (d + 1) + k) (0 * (d + 1) + (k + 1)));
          [|lia].
        cbn [andb]. replace (0 * (d + 1) + k - (0 * (d + 1) + k))
          with 0 by lia.
        rewrite word_field_zero. symmetry. apply lowbits_mod. lia.
      * destruct (Z.ltb_spec (0 * (d + 1) + j) (0 * (d + 1) + (k + 1)));
          [lia|].
        rewrite andb_false_r.
        destruct (Z.leb_spec (0 * (d + 1) + (k + 1)) (0 * (d + 1) + j));
          [|lia].
        destruct (Z.ltb_spec (0 * (d + 1) + j) (0 * (d + 1) + (d + 1)));
          [|lia].
        cbn [andb].
        destruct (Z.eqb_spec j (k + 1)) as [->|Hne1].
        -- rewrite Z.eqb_refl. reflexivity.
        -- destruct (Z.eqb_spec (0 * (d + 1) + j)
                                (0 * (d + 1) + (k + 1))); [lia|].
           f_equal; lia. }
  split.
  { rewrite Hptr by lia. rewrite Z.ltb_irrefl, Z.eqb_refl. reflexivity. }
  split.
  - intros j Hj. rewrite Hptr by lia.
    destruct (Z.ltb_spec j k); [lia|].
    destruct (Z.eqb_spec j k); [lia|].
    destruct (Z.eqb_spec j (k + 1)); [reflexivity|].
    apply Hz. lia.
  - intros j Hj. rewrite Hptr by lia.
    destruct (Z.ltb_spec j k); [reflexivity|lia].
Qed.

End leaf_children.

Section narrow_redistribution.

Import bitvector.

Lemma same_pointer_facts v v' :
  frame.same v v' ->
  degree v' = degree v /\ pointer_width v' = pointer_width v
  /\ packed_view.width (_pointers v') = packed_view.width (_pointers v)
  /\ _leaves_buffer v' = _leaves_buffer v
  /\ _nodes_buffer v' = _nodes_buffer v
  /\ _height v' = _height v.
Proof.
  intros (_ & Hh & _ & Hpw & Hd & Hlb & Hnb & _ & _ & Hwp & _).
  unfold degree, pointer_width. repeat split; assumption.
Qed.

(** The second loop of [redistribute_bits] on a root whose children from
    [i] on are absent: every turn allocates the next leaf, and the loop
    stops at the first leaf whose index does not fit into a pointer. *)
Lemma spread_bits_stops (n : nat) :
  forall v r view bpl i p pc rem count res,
    t_index r = 0 -> t_height r = 1 ->
    0 < packed_view.width (_pointers v) ->
    pointer_width v = packed_view.width (_pointers v) ->
    (degree v + 1) * packed_view.width (_pointers v) <= W ->
    1 <= i -> i + Z.of_nat n <= degree v ->
    Z.of_nat (length (_leaves v)) = i + 1 ->
    (forall j, i <= j <= degree v -> tree.ptr v 0 j = 0) ->
    (exists t, i <= t < i + Z.of_nat n
               /\ bits.lowbits (t + 1) (packed_view.width (_pointers v))
                  = 0) ->
    spread_bits n v r view bpl i p pc rem count <> Ok res.
Proof.
  induction n as [|n IH];
    intros v r view bpl i p pc rem count res Hidx Hh Hwp Hpw Hdw Hi Hn
           Hlen Hz (t & Ht & Hlow) H; [lia|].
  cbn [spread_bits] in H.
  set (mr := if negb (rem =? 0) then (bpl + 1, rem - 1) else (bpl, rem))
    in H.
  destruct mr as [m rem'].
  apply bind_ok in H. destruct H as (ptr & Hptr & H).
  apply pointers_at_ptr in Hptr. rewrite Hidx, (Hz i) in Hptr by lia.
  subst ptr. change (0 =? 0) with true in H. cbv iota in H.
  apply bind_ok in H. destruct H as (v1 & Hins & H).
  destruct (insert_child_leaf v r i v1 Hidx Hh Hwp Hpw Hdw ltac:(lia) Hz Hins)
    as (Hs1 & Hl1 & Hpi & Hz1 & _).
  cbv zeta in H.
  apply bind_ok in H. destruct H as (c & Hc & H).
  apply child_ptr in Hc. destruct Hc as (_ & _ & Hnz & _).
  rewrite Hidx, Hpi, Hlen in Hnz.
  destruct (Z.eq_dec t i) as [->|Hti]; [contradiction|].
  apply bind_ok in H. destruct H as (v2 & Hset & H).
  apply quiet_set_leaf in Hset.
  apply bind_ok in H. destruct H as ([[v3 p3] pc3] & Hupd & H).
  assert (Hq : narrow.quiet v2 v3).
  { destruct (i <? degree v2).
    - apply bind_ok in Hupd. destruct Hupd as (va & Ha & Hupd).
      apply bind_ok in Hupd. destruct Hupd as (vb & Hb & Hupd).
      inversion Hupd; subst.
      exact (quiet_trans _ _ _ (quiet_add_sizes _ _ _ _ _ _ Ha)
               (quiet_add_ranks _ _ _ _ _ _ Hb)).
    - inversion Hupd; subst. apply quiet_refl. }
  pose proof (quiet_trans _ _ _ Hset Hq) as Hq13.
  pose proof Hq13 as (Hs13 & Hp13 & Hl13).
  destruct (same_pointer_facts _ _ (same_trans _ _ _ Hs1 Hs13))
    as (Hd3 & Hpw3 & Hwp3 & _).
  refine (IH v3 r view bpl (i + 1) p3 pc3 rem' (szsub count m) res
            Hidx Hh _ _ _ _ _ _ _ _ H).
  - rewrite Hwp3. exact Hwp.
  - rewrite Hpw3, Hwp3. exact Hpw.
  - rewrite Hd3, Hwp3. exact Hdw.
  - lia.
  - rewrite Hd3. lia.
  - rewrite Hl13, Hl1. lia.
  - intros j Hj. rewrite (quiet_ptr v1 v3 j Hq13). apply Hz1.
    rewrite Hd3 in Hj. lia.
  - exists t. rewrite Hwp3. split; [lia|exact Hlow].
Qed.

End narrow_redistribution.

Section first_window.

Import bitvector.

Lemma free_slots_absent v r leaves max_count i :
  is_node r = true -> 0 <= i <= degree v ->
  tree.ptr v (t_index r) i = 0 ->
  free_slots v r leaves max_count i = Ok max_count.
Proof.
  intros Hn Hi Hz. unfold free_slots.
  rewrite (pointers_at_read v r i Hn Hi), Hz. reflexivity.
Qed.

Lemma sum_window_absent_ok (n : nat) :
  forall v r leaves max_count i acc,
    is_node r = true -> 0 <= i -> i + Z.of_nat n <= degree v + 1 ->
    (forall j, i <= j < i + Z.of_nat n -> tree.ptr v (t_index r) j = 0) ->
    sum_window n v r leaves max_count i acc
    = Ok (acc + max_count * Z.of_nat n).
Proof.
  induction n as [|n IH]; intros v r leaves max_count i acc Hn Hi Hin Hz;
    cbn [sum_window].
  - f_equal. lia.
  - rewrite free_slots_absent by (try assumption; try lia; apply Hz; lia).
    cbn [bind]. rewrite IH by (try assumption; try lia; intros; apply Hz; lia).
    f_equal. lia.
Qed.

Lemma free_sum_absent_ok (n : nat) :
  forall v r leaves max_count i,
    is_node r = true -> 0 <= i -> i + Z.of_nat n <= degree v + 1 ->
    (forall j, i <= j < i + Z.of_nat n -> tree.ptr v (t_index r) j = 0) ->
    window_spec.free_sum n v r leaves max_count i
    = Ok (max_count * Z.of_nat n).
Proof.
  induction n as [|n IH]; intros v r leaves max_count i Hn Hi Hin Hz;
    cbn [window_spec.free_sum].
  - f_equal. lia.
  - rewrite free_slots_absent by (try assumption; try lia; apply Hz; lia).
    cbn [bind]. rewrite IH by (try assumption; try lia; intros; apply Hz; lia).
    cbn [bind]. f_equal. lia.
Qed.

(** The window around child 0 of a node that has no other child, when
    child 0 has no free slot: the source and the specification compute
    the same window, the first [buffer] children, and the same total. *)
Lemma first_window v r c buffer max_count :
  is_node r = true ->
  child v r 0 = Ok c ->
  buffer = (if is_leaf c then _leaves_buffer v else _nodes_buffer v) ->
  max_count = (if is_leaf c then W else degree v) ->
  1 <= buffer <= W -> 0 <= max_count <= W -> 0 <= degree v ->
  free_slots v r (is_leaf c) max_count 0 = Ok 0 ->
  (forall j, 1 <= j <= degree v -> tree.ptr v (t_index r) j = 0) ->
  let e := Z.min buffer (degree v + 1) in
  let total := max_count * (buffer - e + 1) in
  find_adjacent_children v r 0 = Ok (0, e, total)
  /\ window_spec.find_adjacent_children v r 0 = Ok (0, e, total)
  /\ 0 < e.
Proof.
  intros Hn Hc Hbuf Hmax Hb Hm Hd Hfree Hz e total.
  assert (He : 1 <= e <= buffer) by (unfold e; lia).
  assert (Hnat : Z.to_nat (e - 0) = S (Z.to_nat (e - 1))) by lia.
  split; [|split; [|lia]].
  - unfold find_adjacent_children. rewrite Hc. cbn [bind]. cbv zeta.
    rewrite <- Hbuf, <- Hmax.
    destruct (Z.ltb_spec buffer 0) as [|_]; [lia|].
    change (Z.min (0 + buffer) (degree v + 1)) with e.
    rewrite Hnat. cbn [sum_window]. rewrite Hfree. cbn [bind].
    rewrite sum_window_absent_ok
      by (try assumption; try lia; intros; apply Hz; lia).
    cbn [bind].
    assert (Hslide : forall fuel fs,
              slide_window fuel v r (is_leaf c) max_count 0 0 e fs fs (0, e)
              = Ok (0, e, fs, (0, e))).
    { intros fuel fs. destruct fuel; cbn [slide_window];
        change (0 <? 0) with false; reflexivity. }
    rewrite Hslide. cbn [bind fst snd].
    destruct (Z.leb_spec 0 0) as [_|]; [|lia].
    destruct (Z.ltb_spec 0 e) as [_|]; [|lia].
    cbn [andb assert bind]. do 2 f_equal.
    unfold szsub, total. rewrite Z.mod_small.
    + rewrite Z2Nat.id by lia. lia.
    + rewrite Z2Nat.id by lia. unfold W in *. nia.
  - unfold window_spec.find_adjacent_children. rewrite Hc. cbn [bind].
    cbv zeta. rewrite <- Hbuf, <- Hmax.
    replace (Z.max 0 (0 - buffer)) with 0 by lia.
    change (Z.min (0 + buffer) (degree v + 1)) with e.
    rewrite Hnat. cbn [window_spec.free_sum]. rewrite Hfree. cbn [bind].
    rewrite free_sum_absent_ok
      by (try assumption; try lia; intros; apply Hz; lia).
    cbn [bind].
    assert (Hslide : forall fuel s,
              window_spec.slide fuel v r (is_leaf c) max_count 0 0 e (0, e) s
              = Ok (0, e, s)).
    { intros fuel s. destruct fuel; cbn [window_spec.slide];
        [reflexivity|]. change (0 + 1 <=? 0) with false. reflexivity. }
    rewrite Hslide. cbn [bind]. do 2 f_equal. unfold total.
    rewrite Z2Nat.id by lia. lia.
Qed.

End first_window.

Section first_leaf_kept.

Import bitvector.

Lemma first_leaf_facts v :
  narrow.first_leaf_b v = true ->
  _leaves_buffer v = 7 /\ 7 <= degree v
  /\ pointer_width v = packed_view.width (_pointers v)
  /\ 1 <= pointer_width v <= 2
  /\ (degree v + 1) * pointer_width v <= W
  /\ length (_leaves v) = 2%nat
  /\ tree.ptr v 0 0 <> 0
  /\ narrow.one_child v.
Proof.
  unfold narrow.first_leaf_b. intros H.
  repeat (apply andb_prop in H; destruct H as [H ?]).
  repeat match goal with
         | E : (_ =? _) = true |- _ => apply Z.eqb_eq in E
         | E : (_ <=? _) = true |- _ => apply Z.leb_le in E
         | E : Nat.eqb _ _ = true |- _ => apply Nat.eqb_eq in E
         | E : negb _ = true |- _ => apply negb_true_iff, Z.eqb_neq in E
         end.
  repeat split; try assumption; try lia.
  intros j Hj.
  match goal with
  | E : forallb _ _ = true |- _ =>
      pose proof (proj1 (forallb_range _ _) E (j - 1) ltac:(lia)) as Hp
  end.
  cbv beta in Hp. apply Z.eqb_eq in Hp.
  replace (j - 1 + 1) with j in Hp by lia. exact Hp.
Qed.

Lemma first_child_leaf v c :
  _height v = 1 -> child v (root v) 0 = Ok c -> is_leaf c = true.
Proof.
  intros Hh Hc. apply child_ptr in Hc. destruct Hc as (_ & _ & _ & Hch).
  cbn [root t_height] in Hch. rewrite Hh in Hch.
  unfold is_leaf. rewrite Hch. reflexivity.
Qed.

Lemma full_leaf_window v c :
  _height v = 1 -> narrow.one_child v ->
  1 <= _leaves_buffer v <= W -> 0 <= degree v ->
  child v (root v) 0 = Ok c -> t_size c = W ->
  let e := Z.min (_leaves_buffer v) (degree v + 1) in
  let total := W * (_leaves_buffer v - e + 1) in
  find_adjacent_children v (root v) 0 = Ok (0, e, total)
  /\ window_spec.find_adjacent_children v (root v) 0 = Ok (0, e, total)
  /\ 0 < e.
Proof.
  intros Hh Hone Hlb Hd Hc Hsz.
  pose proof (first_child_leaf v c Hh Hc) as Hleaf.
  assert (Hn : is_node (root v) = true).
  { unfold is_node. cbn [root t_height]. rewrite Hh. reflexivity. }
  refine (first_window v (root v) c (_leaves_buffer v) W Hn Hc _ _ Hlb _ Hd
            _ _).
  - rewrite Hleaf. reflexivity.
  - rewrite Hleaf. reflexivity.
  - unfold W. lia.
  - rewrite Hleaf. unfold free_slots.
    rewrite (pointers_at_read v (root v) 0 Hn) by lia.
    pose proof Hc as Hc'. apply child_ptr in Hc'.
    destruct Hc' as (_ & _ & Hnz & _). cbn [bind].
    destruct (Z.eqb_spec (tree.ptr v (t_index (root v)) 0) 0) as [E|_];
      [contradiction|].
    rewrite Hc. cbn [bind]. rewrite Hsz.
    unfold szsub. rewrite Z.sub_diag. reflexivity.
  - exact Hone.
Qed.

(** With pointers of 1 or 2 bits the window of 7 leaves cannot be
    filled: the redistribution of the first full leaf does not return. *)
Lemma redistribute_bits_narrow v count v' :
  single.root_only v -> narrow.first_leaf_b v = true ->
  redistribute_bits v (root v) 0 7 count <> Ok v'.
Proof.
  intros Hro Hb H.
  destruct Hro as (Hh & _ & Hwp & _).
  destruct (first_leaf_facts v Hb)
    as (Hlb & Hd7 & Hpw & Hpw12 & Hdw & Hlen & Hp0 & Hone).
  unfold redistribute_bits in H. cbv zeta in H.
  apply bind_ok in H. destruct H as (u & _ & H).
  apply bind_ok in H. destruct H as (view0 & _ & H).
  apply bind_ok in H. destruct H as (view & _ & H).
  change (0 <? 0) with false in H. cbn [bind] in H.
  apply bind_ok in H. destruct H as (vc & Hclear & H).
  apply quiet_clear_keys in Hclear.
  apply bind_ok in H. destruct H as ([v3 cnt] & H & _).
  change (Z.to_nat (7 - 0)) with (S 6) in H.
  remember 6%nat as n eqn:Hn6.
  cbn [spread_bits] in H.
  set (mr := if negb (count mod szsub 7 0 =? 0)
             then (count / szsub 7 0 + 1, count mod szsub 7 0 - 1)
             else (count / szsub 7 0, count mod szsub 7 0)) in H.
  destruct mr as [m rem'].
  apply bind_ok in H. destruct H as (p & Hp & H).
  apply pointers_at_ptr in Hp. cbn [root t_index] in Hp.
  rewrite (quiet_ptr v vc 0 Hclear) in Hp. subst p.
  destruct (Z.eqb_spec (tree.ptr v 0 0) 0) as [E|_]; [contradiction|].
  cbn [bind] in H. cbv zeta in H.
  apply bind_ok in H. destruct H as (c & _ & H).
  apply bind_ok in H. destruct H as (v1 & Hset & H).
  apply quiet_set_leaf in Hset.
  apply bind_ok in H. destruct H as ([[v2 p2] pc2] & Hupd & H).
  assert (Hq : narrow.quiet v1 v2).
  { destruct (0 <? degree v1).
    - apply bind_ok in Hupd. destruct Hupd as (va & Ha & Hupd).
      apply bind_ok in Hupd. destruct Hupd as (vb & Hb' & Hupd).
      inversion Hupd; subst.
      exact (quiet_trans _ _ _ (quiet_add_sizes _ _ _ _ _ _ Ha)
               (quiet_add_ranks _ _ _ _ _ _ Hb')).
    - inversion Hupd; subst. apply quiet_refl. }
  pose proof (quiet_trans _ _ _ Hclear (quiet_trans _ _ _ Hset Hq)) as Hq2.
  pose proof Hq2 as (Hs2 & Hp2 & Hl2).
  destruct (same_pointer_facts _ _ Hs2) as (Hd2 & Hpw2 & Hwp2 & _).
  change (0 + 1) with 1 in H.
  refine (spread_bits_stops n v2 (root v) view _ 1 p2 pc2 rem' _ (v3, cnt)
            eq_refl Hh _ _ _ _ _ _ _ _ H).
  - rewrite Hwp2. exact Hwp.
  - rewrite Hpw2, Hwp2. exact Hpw.
  - rewrite Hd2, Hwp2, <- Hpw. exact Hdw.
  - lia.
  - rewrite Hd2, Hn6. lia.
  - rewrite Hl2, Hlen. reflexivity.
  - intros j Hj. rewrite (quiet_ptr v v2 j Hq2). apply Hone.
    rewrite Hd2 in Hj. lia.
  - rewrite Hwp2, <- Hpw, Hn6.
    destruct (Z.eq_dec (pointer_width v) 1) as [->|Hne].
    + exists 1. split; [lia|reflexivity].
    + replace (pointer_width v) with 2 by lia.
      exists 3. split; [lia|reflexivity].
Qed.

End first_leaf_kept.

Section first_leaf_reached.

Import bitvector.

Lemma make_room_narrow v c v' :
  single.root_only v -> narrow.first_leaf_b v = true ->
  child v (root v) 0 = Ok c -> t_size c = W ->
  make_room_in_leaves v (root v) 0 <> Ok v'.
Proof.
  intros Hro Hb Hc Hsz H. pose proof Hro as (Hh & _ & _ & _ & _ & Hd & _).
  destruct (first_leaf_facts v Hb) as (Hlb & Hd7 & _ & _ & _ & _ & _ & Hone).
  destruct (full_leaf_window v c Hh Hone ltac:(unfold W; lia) ltac:(lia)
              Hc Hsz) as (Hwin & _).
  cbv zeta in Hwin. rewrite Hlb in Hwin.
  replace (Z.min 7 (degree v + 1)) with 7 in Hwin by lia.
  unfold make_room_in_leaves in H. rewrite Hwin in H.
  cbn [bind] in H. rewrite Hlb in H.
  change (7 * (W - 7) <=? W * (7 - 7 + 1)) with false in H.
  cbn [bind] in H.
  exact (redistribute_bits_narrow v _ v' Hro Hb H).
Qed.

(** A call of [insert] that returns leaves the bits in the first leaf. *)
Lemma first_leaf_insert v index bit v' :
  narrow.first_leaf v -> insert v index bit = Ok v' -> narrow.first_leaf v'.
Proof.
  intros (Hro & Hb) H.
  split; [exact (insert_root_only v index bit v' Hro H)|].
  pose proof Hro as (Hh & _).
  destruct (first_leaf_facts v Hb) as (_ & Hd7 & _ & _ & _ & _ & _ & Hone).
  unfold insert in H. rewrite Hh in H.
  change (Z.to_nat 1 + 3)%nat with 4%nat in H.
  destruct (nkeys v (root v)) as [n|e] eqn:Hn;
    [|cbn [insert_at] in H; rewrite Hn in H; discriminate].
  destruct (Z.eq_dec n (degree v)) as [->|Hne].
  { exfalso. exact (full_root_aborts_at _ v index bit v' Hro Hn H). }
  cbn [insert_at] in H.
  rewrite Hn in H. cbn [bind] in H.
  destruct (Z.eqb_spec n (degree v)) as [E|_]; [contradiction|].
  apply bind_ok in H. destruct H as ([k ni] & Hfip & H).
  apply find_insert_point_is_node in Hfip. cbn [fst] in Hfip.
  destruct Hfip as [_ Hk0].
  cbn [root t_height] in H. rewrite Hh in H.
  change (1 =? 1) with true in H. cbv iota in H.
  apply bind_ok in H. destruct H as (c & Hc & H).
  assert (Ek : k = 0).
  { pose proof Hc as Hc'. apply child_ptr in Hc'.
    destruct Hc' as (Hkd & _ & Hnz & _). cbn [t_index] in Hnz.
    destruct (Z.eq_dec k 0) as [E|E]; [exact E|].
    exfalso. apply Hnz. apply Hone. lia. }
  subst k.
  apply bind_ok in H. destruct H as ([[v1 k1] ni1] & H1 & H).
  apply bind_ok in H. destruct H as (v2 & H2 & H).
  apply bind_ok in H. destruct H as (v3 & H3 & H).
  apply bind_ok in H. destruct H as (c' & _ & H).
  apply bind_ok in H. destruct H as (w & _ & H).
  apply bind_ok in H. destruct H as (v4 & H4 & H).
  inversion H; subst v'. clear H.
  destruct (Z.eqb_spec (t_size c) W) as [Efull|_].
  { exfalso. apply bind_ok in H1. destruct H1 as (va & Ha & _).
    refine (make_room_narrow v c va Hro Hb _ Efull _).
    - exact Hc.
    - exact Ha. }
  inversion H1; subst v1 k1 ni1. clear H1.
  apply quiet_add_sizes in H2. apply quiet_add_ranks in H3.
  apply quiet_set_leaf in H4.
  pose proof (quiet_trans _ _ _ H2 (quiet_trans _ _ _ H3 H4)) as Hq.
  rewrite <- Hb. rewrite <- (quiet_first_leaf_b v v4 Hq). reflexivity.
Qed.

Lemma make_first_leaf (capacity : Z) (v : t) :
  50 <= capacity <= 128 -> make capacity = Ok v -> narrow.first_leaf v.
Proof.
  intros Hcap H. split; [exact (make_root_only capacity v H)|].
  assert (Hall : forall k, 0 <= k < 79 ->
            (match make (k + 50) with
             | Ok u => narrow.first_leaf_b u
             | Err _ => false
             end) = true).
  { apply forallb_range. vm_compute. reflexivity. }
  specialize (Hall (capacity - 50) ltac:(lia)).
  replace (capacity - 50 + 50) with capacity in Hall by lia.
  rewrite H in Hall. exact Hall.
Qed.

Lemma reachable_capacity v :
  reachable v -> exists v0, make (_capacity v) = Ok v0.
Proof.
  induction 1 as [capacity v H|v index bit v' _ IH H].
  - destruct (make_inv capacity v H)
      as (c & pw & d & lb & nb & nodes & Ev & _).
    exists v. subst v. exact H.
  - unfold insert in H.
    destruct (insert_at_parameters _ _ _ _ _ _ H) as (E & _).
    rewrite E. exact IH.
Qed.

Lemma reachable_first_leaf v :
  reachable v -> 50 <= _capacity v <= 128 -> narrow.first_leaf v.
Proof.
  induction 1 as [capacity v H|v index bit v' _ IH H]; intros Hcap.
  - apply (make_first_leaf capacity v); [|exact H].
    destruct (make_inv capacity v H)
      as (c & pw & d & lb & nb & nodes & Ev & _).
    subst v. exact Hcap.
  - assert (Ecap : _capacity v' = _capacity v).
    { unfold insert in H.
      destruct (insert_at_parameters _ _ _ _ _ _ H) as (E & _). exact E. }
    rewrite Ecap in Hcap.
    exact (first_leaf_insert v index bit v' (IH Hcap) H).
Qed.

End first_leaf_reached.

Section built_vectors.

Import bitvector.

(** From 1 to [2^29] the constructor returns for the capacities from 50
    to [2^20] only. *)
Lemma make_capacity_range (capacity : Z) (v : t) :
  1 <= capacity <= 2 ^ 29 -> make capacity = Ok v ->
  50 <= capacity <= 2 ^ 20.
Proof.
  intros Hc H. split.
  - destruct (Z.le_gt_cases 50 capacity) as [Hle|Hlt]; [exact Hle|].
    exfalso.
    assert (Hall : forall k, 0 <= k < 49 ->
              (match make (k + 1) with
               | Ok _ => false
               | Err _ => true
               end) = true).
    { apply forallb_range. vm_compute. reflexivity. }
    specialize (Hall (capacity - 1) ltac:(lia)).
    replace (capacity - 1 + 1) with capacity in Hall by lia.
    rewrite H in Hall. discriminate.
  - destruct (Z.le_gt_cases capacity (2 ^ 20)) as [Hle|Hgt]; [exact Hle|].
    exfalso.
    assert (Hl : 20 < Z.log2_up capacity <= 29).
    { split.
      - apply Z.log2_up_lt_pow2; lia.
      - apply Z.log2_up_le_pow2; lia. }
    assert (Hlc : 1 < capacity * 3 / 124).
    { assert (2 <= capacity * 3 / 124); [|lia].
      apply Z.div_le_lower_bound; lia. }
    unfold make in H. cbv zeta in H.
    set (c := Z.log2_up capacity + 1) in H.
    assert (Hd : W / c = 2).
    { unfold W. symmetry. apply (Z.div_unique 64 c 2 (64 - c * 2)); lia. }
    rewrite Hd in H.
    change (Z.min (Z.max (Z.sqrt_up W - 1) 1) 2) with 2 in H.
    change (Z.max (Z.sqrt_up 2 - 1) 1) with 1 in H.
    change (1 * (2 - 1) / (1 + 1)) with 0 in H.
    change (2 + 1) with 3 in H. change (2 * (W - 2)) with 124 in H.
    rewrite count_nodes_diverges in H by exact Hlc. discriminate.
Qed.

Lemma make_buffers (capacity : Z) (v : t) :
  50 <= capacity <= 2 ^ 20 -> make capacity = Ok v -> narrow.buffers v.
Proof.
  intros Hcap H.
  destruct (make_inv capacity v H)
    as (c & pw & d & lb & nb & nodes & Ev & Hc & Hd & Hd0 & Hpw & _ & _
        & Ec & Elb & _ & Enb).
  assert (Hlog : 6 <= Z.log2_up capacity <= 20).
  { split.
    - change 6 with (Z.log2_up 50). apply Z.log2_up_le_mono. lia.
    - change 20 with (Z.log2_up (2 ^ 20)). apply Z.log2_up_le_mono. lia. }
  assert (Hd39 : 3 <= d <= 9).
  { rewrite Hd. split.
    - apply Z.div_le_lower_bound; unfold W; lia.
    - assert (W / c < 10); [|lia].
      apply Z.div_lt_upper_bound; unfold W; lia. }
  subst v. unfold narrow.buffers.
  set (f := flat.fresh capacity c pw d lb nb nodes).
  change (degree f) with d. change (_leaves_buffer f) with lb.
  change (_nodes_buffer f) with nb.
  change (Z.sqrt_up W) with 8 in Elb.
  pose proof (Z.sqrt_up_le_lin d ltac:(lia)) as Hsq.
  lia.
Qed.

Lemma reachable_buffers v :
  reachable v -> 1 <= _capacity v <= 2 ^ 29 ->
  50 <= _capacity v <= 2 ^ 20 /\ narrow.buffers v.
Proof.
  induction 1 as [capacity v H|v index bit v' _ IH H]; intros Hcap.
  - destruct (make_inv capacity v H)
      as (c & pw & d & lb & nb & nodes & Ev & _).
    assert (Ecap : _capacity v = capacity) by (subst v; reflexivity).
    rewrite Ecap in *.
    pose proof (make_capacity_range capacity v Hcap H) as Hr.
    split; [exact Hr|]. exact (make_buffers capacity v Hr H).
  - unfold insert in H.
    destruct (insert_at_parameters _ _ _ _ _ _ H)
      as (Ec & _ & _ & Ed & Elb & Enb & _).
    rewrite Ec in *. destruct (IH Hcap) as (Hr & Hb).
    split; [exact Hr|]. unfold narrow.buffers, degree in *.
    rewrite Ed, Elb, Enb. exact Hb.
Qed.

(** Every vector that can be built has its bits in the first child of
    the root, or has a full root. *)
Lemma reachable_one_child v :
  reachable v -> 50 <= _capacity v <= 2 ^ 20 ->
  narrow.one_child v \/ nkeys v (root v) = Ok (degree v).
Proof.
  intros Hr Hcap.
  destruct (Z.le_gt_cases (_capacity v) 128) as [Hle|Hgt].
  - left. destruct (reachable_first_leaf v Hr ltac:(lia)) as (_ & Hb).
    destruct (first_leaf_facts v Hb) as (_ & _ & _ & _ & _ & _ & _ & Hone).
    exact Hone.
  - destruct (reachable_brim v Hr ltac:(lia)) as [Hl|(_ & _ & Hfull)].
    + left. destruct Hl as (_ & _ & _ & _ & _ & _ & _ & _ & Hpz).
      exact Hpz.
    + right. exact Hfull.
Qed.

End built_vectors.

Section received_calls.

Import bitvector.

(** After the root split, the window around the copy of the old root. *)
Lemma full_node_window v1 c :
  _height v1 = 2 ->
  (forall j, 1 <= j <= degree v1 -> tree.ptr v1 0 j = 0) ->
  1 <= _nodes_buffer v1 <= W -> 0 <= degree v1 <= W ->
  child v1 (root v1) 0 = Ok c -> nkeys v1 c = Ok (degree v1) ->
  let e := Z.min (_nodes_buffer v1) (degree v1 + 1) in
  let total := degree v1 * (_nodes_buffer v1 - e + 1) in
  find_adjacent_children v1 (root v1) 0 = Ok (0, e, total)
  /\ window_spec.find_adjacent_children v1 (root v1) 0 = Ok (0, e, total)
  /\ 0 < e.
Proof.
  intros Hh Hone Hnb Hd Hc Hfull.
  assert (Hn : is_node (root v1) = true).
  { unfold is_node. cbn [root t_height]. rewrite Hh. reflexivity. }
  assert (Hleaf : is_leaf c = false).
  { pose proof Hc as Hc'. apply child_ptr in Hc'.
    destruct Hc' as (_ & _ & _ & Hch).
    cbn [root t_height] in Hch. rewrite Hh in Hch.
    unfold is_leaf. rewrite Hch. reflexivity. }
  refine (first_window v1 (root v1) c (_nodes_buffer v1) (degree v1) Hn Hc
            _ _ Hnb Hd (proj1 Hd) _ _).
  - rewrite Hleaf. reflexivity.
  - rewrite Hleaf. reflexivity.
  - rewrite Hleaf. unfold free_slots.
    rewrite (pointers_at_read v1 (root v1) 0 Hn) by lia.
    pose proof Hc as Hc'. apply child_ptr in Hc'.
    destruct Hc' as (_ & _ & Hnz & _). cbn [bind].
    destruct (Z.eqb_spec (tree.ptr v1 (t_index (root v1)) 0) 0) as [E|_];
      [contradiction|].
    rewrite Hc. cbn [bind]. rewrite Hfull. cbn [bind].
    unfold szsub. rewrite Z.sub_diag. reflexivity.
  - exact Hone.
Qed.

(** On a vector whose root is its only node, and either is full or has
    its first child only, every call of [find_adjacent_children] that
    [insert] makes is for child 0, and there the source returns what the
    specification describes. *)
Lemma calls_at_child_zero v index bit u t k :
  single.root_only v -> narrow.buffers v ->
  narrow.one_child v \/ nkeys v (root v) = Ok (degree v) ->
  In (u, t, k) (calls.adjacent v index bit) ->
  k = 0
  /\ exists e total,
       find_adjacent_children u t k = Ok (0, e, total)
       /\ window_spec.find_adjacent_children u t k = Ok (0, e, total)
       /\ 0 < e
       /\ ((e = _leaves_buffer u /\ total = W)
           \/ (e = _nodes_buffer u /\ total = degree u)).
Proof.
  intros Hro Hbuf Hstage Hin.
  pose proof Hro as (Hh & Hfn & Hw & Hws & Hwr & Hd & Hlb & Hnb & Hclean).
  destruct Hbuf as (Hd39 & Hlb1 & Hnb1).
  unfold calls.adjacent in Hin. rewrite Hh in Hin.
  change (Z.to_nat 1 + 3)%nat with (S 3) in Hin.
  remember 3%nat as fuel eqn:Hfuel.
  cbn [calls.adjacent_at] in Hin.
  destruct (nkeys v (root v)) as [n|err] eqn:Hn; cbn [calls.after] in Hin;
    [|destruct Hin].
  destruct (Z.eqb_spec n (degree v)) as [->|Hne].
  - destruct (split_root v (root v)) as [v1|err] eqn:Hsplit;
      cbn [calls.after] in Hin; [|destruct Hin].
    pose proof (split_root_params _ _ _ Hsplit)
      as (Hh1 & Hd1 & _ & _ & _ & Hlb1' & Hnb1' & Hn1).
    pose proof (split_root_grows _ _ _ Hsplit) as (_ & _ & _ & Hw1 & _).
    pose proof (split_root_effect v v1 ltac:(lia) ltac:(lia)
                  Hws Hwr ltac:(lia) Hsplit) as Heff.
    cbv zeta in Heff. destruct Heff as (_ & Hfn1 & _ & _ & _ & _ & Hp1).
    pose proof (split_root_far v v1 ltac:(lia) ltac:(lia) ltac:(lia) Hsplit)
      as Hfar.
    destruct (split_root_child _ _ _ Hsplit) as (c0 & Hc0 & Hnc0).
    assert (Hdeg : degree v1 = degree v) by exact Hd1.
    subst fuel. change 3%nat with (S 2) in Hin.
    remember 2%nat as fuel eqn:Hfuel.
    cbn [calls.adjacent_at] in Hin.
    rewrite Hn1 in Hin. cbn [calls.after] in Hin.
    destruct (Z.eqb_spec 1 (degree v1)) as [E|_]; [lia|].
    destruct (find_insert_point v1 (root v1) index) as [[k' ni]|err]
      eqn:Hfip; cbn [calls.after] in Hin; [|destruct Hin].
    apply find_insert_point_is_node in Hfip. cbn [fst] in Hfip.
    destruct Hfip as [_ Hk0].
    cbn [root t_height] in Hin. rewrite Hh1, Hh in Hin.
    change (1 + 1 =? 1) with false in Hin. cbv iota in Hin.
    fold (root v1) in Hin.
    destruct (child v1 (root v1) k') as [c|err] eqn:Hc;
      cbn [calls.after] in Hin; [|destruct Hin].
    assert (Ek : k' = 0).
    { pose proof Hc as Hc'. apply child_ptr in Hc'.
      destruct Hc' as (Hkd & _ & Hnz & _). cbn [root t_index] in Hnz.
      destruct (Z.eq_dec k' 0) as [E|E]; [exact E|].
      exfalso. apply Hnz. apply Hp1. lia. }
    subst k'. rewrite Hc0 in Hc. inversion Hc; subst c. clear Hc.
    rewrite Hnc0 in Hin. cbn [calls.after] in Hin.
    rewrite Z.eqb_refl in Hin.
    assert (Hwin : (u, t, k) = (v1, root v1, 0)).
    { destruct Hin as [E|Hin]; [symmetry; exact E|]. exfalso.
      destruct (make_room_in_nodes v1 (root v1) 0) as [v2|err] eqn:Hroom;
        cbn [bind calls.after] in Hin; [|destruct Hin].
      apply (make_room_in_nodes_fails v1 v2);
        try (unfold degree in *; lia).
      - intros j Hj. rewrite Hfar; [apply Hclean|];
          unfold degree in *; rewrite Hd1 in Hj; nia.
      - exact Hroom. }
    inversion Hwin; subst u t k. split; [reflexivity|].
    destruct (full_node_window v1 c0 ltac:(lia)
                ltac:(intros j Hj; apply Hp1; lia)
                ltac:(unfold W; lia) ltac:(unfold W; lia) Hc0 Hnc0)
      as (H1 & H2 & H3).
    eexists. eexists. split; [exact H1|]. split; [exact H2|].
    split; [exact H3|]. right. unfold degree in *. split; [lia|nia].
  - destruct Hstage as [Hone|Hfull]; [|congruence].
    destruct (find_insert_point v (root v) index) as [[k' ni]|err]
      eqn:Hfip; cbn [calls.after] in Hin; [|destruct Hin].
    apply find_insert_point_is_node in Hfip. cbn [fst] in Hfip.
    destruct Hfip as [_ Hk0].
    cbn [root t_height] in Hin. rewrite Hh in Hin.
    change (1 =? 1) with true in Hin. cbv iota in Hin.
    fold (root v) in Hin.
    destruct (child v (root v) k') as [c|err] eqn:Hc;
      cbn [calls.after] in Hin; [|destruct Hin].
    assert (Ek : k' = 0).
    { pose proof Hc as Hc'. apply child_ptr in Hc'.
      destruct Hc' as (Hkd & _ & Hnz & _). cbn [root t_index] in Hnz.
      destruct (Z.eq_dec k' 0) as [E|E]; [exact E|].
      exfalso. apply Hnz. apply Hone. lia. }
    subst k'.
    destruct (Z.eqb_spec (t_size c) W) as [Efull|_]; [|destruct Hin].
    destruct Hin as [E|[]]. inversion E; subst u t k.
    split; [reflexivity|].
    destruct (full_leaf_window v c Hh Hone ltac:(unfold W; lia) ltac:(lia)
                Hc Efull) as (H1 & H2 & H3).
    eexists. eexists. split; [exact H1|]. split; [exact H2|].
    split; [exact H3|]. left. split; [lia|nia].
Qed.

End received_calls.



(** The calls on the sample vectors: one for child 0 of the root, after
    the root split on [v65] and at the full first leaf on [v129]; none on
    [v200] and [v64_full], where the root split does not return. *)
Example calls_on_samples :
  calls.adjacent samples.v65 65 true
  = [(samples.v65_split, bitvector.root samples.v65_split, 0)]
  /\ calls.adjacent samples.v129 64 true
     = [(samples.v129, bitvector.root samples.v129, 0)]
  /\ bitvector.find_adjacent_children
       samples.v129 (bitvector.root samples.v129) 0 = Ok (0, 7, 64)
  /\ window_spec.find_adjacent_children
       samples.v129 (bitvector.root samples.v129) 0 = Ok (0, 7, 64)
  /\ calls.adjacent samples.v200 65 true = []
  /\ calls.adjacent samples.v64_full 64 true = [].
Proof. vm_compute. repeat split. Qed.

(** X24.  Away from child 0 the source and the specification part.  On the
    root of [v65] (five leaves of 13 bits, sixth child absent) and child 1,
    a call that [insert] never makes, the free slots are 51 for each leaf
    and 64 for the absent child.  The window [[1, 6)] contains child 1 and
    has 268 free slots, the initial window [[0, 5)] has 255; the source
    returns [[0, 5)] with 65 slots, the specification [[1, 6)] with 52:
    the sliding step of the source adds [count(end - 1)], a slot of the
    window, where the slot that enters is [count(end)]. *)
Theorem find_adjacent_children_second_child :
  let v := samples.v65 in
  let r := bitvector.root v in
  map (bitvector.free_slots v r true W) (tree.range 6)
  = [Ok 51; Ok 51; Ok 51; Ok 51; Ok 51; Ok 64]
  /\ bitvector.find_adjacent_children v r 1 = Ok (0, 5, 65)
  /\ window_spec.find_adjacent_children v r 1 = Ok (1, 6, 52)
  /\ (forall index bit c,
        In c (calls.adjacent v index bit) -> snd c = 0).
Proof.
  cbv zeta. split; [vm_compute; reflexivity|].
  split; [vm_compute; reflexivity|]. split; [vm_compute; reflexivity|].
  intros index bit [[u t] k] Hin. cbn [snd].
  assert (Hr : reachable samples.v65).
  { apply (reachable_run 1000 (samples.alternating 65 0 false) samples.v0);
      vm_compute; reflexivity. }
  assert (Hcap : 50 <= bitvector._capacity samples.v65 <= 2 ^ 20)
    by (vm_compute; split; discriminate).
  assert (Hcap' : 1 <= bitvector._capacity samples.v65 <= 2 ^ 29)
    by (vm_compute; split; discriminate).
  destruct (reachable_buffers _ Hr Hcap') as (_ & Hbuf).
  destruct (calls_at_child_zero samples.v65 index bit u t k
              (reachable_root_only _ Hr) Hbuf
              (reachable_one_child _ Hr Hcap) Hin) as (Hk & _).
  exact Hk.
Qed.
